(** * florun: the work-flow engine of [flow.py]

    A shallow embedding of the engine in [src/florun/flow.py]: the object
    graph of flows, nodes and interfaces, the connection rules, the
    readiness protocol, the threaded runner and the XML persistence.

    Python objects live in a heap indexed by references; object identity
    ([==] on objects without [__eq__]) is equality of references.  Methods
    that mutate objects are computations in a state-and-exception monad;
    the state they leave behind when they raise is the state at the
    [raise].  *)

From stdpp Require Import gmap strings list fin_maps pretty.

Open Scope string_scope.
Open Scope list_scope.
Open Scope nat_scope.

(** ** Values, exceptions and the monad *)

(** The Python values an interface can carry. *)
Inductive pyval :=
  | PNone
  | PStr (s : string)
  | PInt (z : Z).

Global Instance pyval_eq_dec : EqDecision pyval.
Proof. solve_decision. Defined.

(** ["%s" % v] *)
Definition py_str (v : pyval) : string :=
  match v with
  | PNone => "None"
  | PStr s => s
  | PInt z => pretty z
  end.

(** The exceptions the engine raises.  [Unallocated] and [Diverged] are not
    Python exceptions: they mark a reference outside the heap, which Python
    cannot produce, and a loop that ran out of fuel. *)
Inductive exn :=
  | Exception (msg : string)
  | FlowException (msg : string)
  | ValueError
  | TypeError
  | IOError
  | OSError
  | ExpatError
  | AttributeError
  | Unallocated (r : nat)
  | Diverged.

Global Instance exn_eq_dec : EqDecision exn.
Proof. solve_decision. Defined.

Inductive result (A : Type) :=
  | Ok (a : A)
  | Raise (e : exn).
Arguments Ok {A} a.
Arguments Raise {A} e.

Global Instance result_eq_dec `{EqDecision A} : EqDecision (result A).
Proof. solve_decision. Defined.

Definition is_ok {A} (r : result A) : bool :=
  match r with Ok _ => true | Raise _ => false end.

(** Computations over a state [S] that return an [A] or raise. *)
Definition M (S A : Type) : Type := S -> result A * S.

Definition ret {S A} (a : A) : M S A := fun s => (Ok a, s).
Definition raise {S A} (e : exn) : M S A := fun s => (Raise e, s).
Definition bind {S A B} (m : M S A) (k : A -> M S B) : M S B :=
  fun s => match m s with
           | (Ok a, s') => k a s'
           | (Raise e, s') => (Raise e, s')
           end.
Definition get {S} : M S S := fun s => (Ok s, s).
Definition modify {S} (f : S -> S) : M S unit := fun s => (Ok tt, f s).

Notation "'do!' x <- m ; k" := (bind m (fun x => k))
  (at level 10, x name, m at level 100, k at level 200,
   format "'[v' 'do!'  x  <-  m ; '/' k ']'").
Notation "'run!' m ; k" := (bind m (fun _ => k))
  (at level 10, m at level 100, k at level 200,
   format "'[v' 'run!'  m ; '/' k ']'").

(** [for x in l: body x] *)
Fixpoint for_each {S A} (l : list A) (body : A -> M S unit) : M S unit :=
  match l with
  | [] => ret tt
  | x :: l' => run! body x; for_each l' body
  end.

(** ** The object graph *)

(** [Interface.PARAMETER, INPUT, RESULT, OUTPUT = range(4)] *)
Inductive itype := PARAMETER | INPUT | RESULT | OUTPUT.

Global Instance itype_eq_dec : EqDecision itype.
Proof. solve_decision. Defined.

(** The interface classes: the base class and its three subclasses. *)
Inductive iclass := CInterface | CInterfaceValue | CInterfaceStream | CInterfaceList.

Global Instance iclass_eq_dec : EqDecision iclass.
Proof. solve_decision. Defined.

(** [issubclass(c, k)] on the interface classes. *)
Definition iclass_sub (c k : iclass) : bool :=
  match k with
  | CInterface => true
  | _ => bool_decide (c = k)
  end.

(** The node classes of the module. *)
Inductive nclass :=
  | CNode
  | CProcessNode
  | CInputNode
  | CFileInputNode
  | CValueInputNode
  | CCommandLineParameterInputNode
  | CCommandLineStdinInputNode
  | CFileListInputNode
  | COutputNode
  | CFileOutputNode
  | CCommandLineStdoutOutputNode.

Global Instance nclass_eq_dec : EqDecision nclass.
Proof. solve_decision. Defined.

(** [issubclass(c, InputNode)] *)
Definition is_InputNode (c : nclass) : bool :=
  match c with
  | CInputNode | CFileInputNode | CValueInputNode
  | CCommandLineParameterInputNode | CCommandLineStdinInputNode
  | CFileListInputNode => true
  | _ => false
  end.

(** The class attribute [label]. *)
Definition label (c : nclass) : string :=
  match c with
  | CNode | CInputNode | COutputNode => ""
  | CProcessNode => "Process"
  | CFileInputNode => "File"
  | CValueInputNode => "Value"
  | CCommandLineParameterInputNode => "CLI Param"
  | CCommandLineStdinInputNode => "CLI Stdin"
  | CFileListInputNode => "File list"
  | CFileOutputNode => "File"
  | CCommandLineStdoutOutputNode => "CLI Stdout"
  end.

(** [__class__.__name__] *)
Definition classname (c : nclass) : string :=
  match c with
  | CNode => "Node"
  | CProcessNode => "ProcessNode"
  | CInputNode => "InputNode"
  | CFileInputNode => "FileInputNode"
  | CValueInputNode => "ValueInputNode"
  | CCommandLineParameterInputNode => "CommandLineParameterInputNode"
  | CCommandLineStdinInputNode => "CommandLineStdinInputNode"
  | CFileListInputNode => "FileListInputNode"
  | COutputNode => "OutputNode"
  | CFileOutputNode => "FileOutputNode"
  | CCommandLineStdoutOutputNode => "CommandLineStdoutOutputNode"
  end.

Definition all_nclasses : list nclass :=
  [CNode; CProcessNode; CInputNode; CFileInputNode; CValueInputNode;
   CCommandLineParameterInputNode; CCommandLineStdinInputNode;
   CFileListInputNode; COutputNode; CFileOutputNode;
   CCommandLineStdoutOutputNode].

(** An [Interface] object.  [i_class] is its class; [i_value] is the
    attribute [value] (the property backed by [_value] on an
    [InterfaceValue]); [i_stream] names the temporary file behind the
    attribute [stream] of an [InterfaceStream]; [i_readypredecessors] is the
    key set of the dictionary [__readypredecessors]. *)
Record Interface := mkInterface {
  i_class : iclass;
  i_node : nat;
  i_name : string;
  i_successors : list nat;
  i_predecessors : list nat;
  i_type : itype;
  i_slot : bool;
  i_default : pyval;
  i_value : pyval;
  i_stream : option nat;
  i_readypredecessors : gset nat
}.

Definition set_successors (l : list nat) (i : Interface) : Interface :=
  mkInterface (i_class i) (i_node i) (i_name i) l (i_predecessors i)
    (i_type i) (i_slot i) (i_default i) (i_value i) (i_stream i)
    (i_readypredecessors i).
Definition set_predecessors (l : list nat) (i : Interface) : Interface :=
  mkInterface (i_class i) (i_node i) (i_name i) (i_successors i) l
    (i_type i) (i_slot i) (i_default i) (i_value i) (i_stream i)
    (i_readypredecessors i).
Definition set_slot (b : bool) (i : Interface) : Interface :=
  mkInterface (i_class i) (i_node i) (i_name i) (i_successors i)
    (i_predecessors i) (i_type i) b (i_default i) (i_value i) (i_stream i)
    (i_readypredecessors i).
Definition set_value (v : pyval) (i : Interface) : Interface :=
  mkInterface (i_class i) (i_node i) (i_name i) (i_successors i)
    (i_predecessors i) (i_type i) (i_slot i) (i_default i) v (i_stream i)
    (i_readypredecessors i).
Definition set_stream (f : option nat) (i : Interface) : Interface :=
  mkInterface (i_class i) (i_node i) (i_name i) (i_successors i)
    (i_predecessors i) (i_type i) (i_slot i) (i_default i) (i_value i) f
    (i_readypredecessors i).
Definition set_readypredecessors (r : gset nat) (i : Interface) : Interface :=
  mkInterface (i_class i) (i_node i) (i_name i) (i_successors i)
    (i_predecessors i) (i_type i) (i_slot i) (i_default i) (i_value i)
    (i_stream i) r.

(** A [Node] object.  [n_interfaces] is what the property [interfaces]
    lists (the attributes that are interfaces, in the order the class
    assigns them); [n_readyinterfaces] is the key set of
    [__readyinterfaces]; [n_canRun] is the flag of the event [canRun]. *)
Record Node := mkNode {
  n_class : nclass;
  n_id : string;
  n_interfaces : list nat;
  n_graphicalprops : list (string * pyval);
  n_readyinterfaces : gset nat;
  n_canRun : bool;
  n_running : bool
}.

Definition set_interfaces (l : list nat) (n : Node) : Node :=
  mkNode (n_class n) (n_id n) l (n_graphicalprops n) (n_readyinterfaces n)
    (n_canRun n) (n_running n).
Definition set_graphicalprops (g : list (string * pyval)) (n : Node) : Node :=
  mkNode (n_class n) (n_id n) (n_interfaces n) g (n_readyinterfaces n)
    (n_canRun n) (n_running n).
Definition set_readyinterfaces (r : gset nat) (n : Node) : Node :=
  mkNode (n_class n) (n_id n) (n_interfaces n) (n_graphicalprops n) r
    (n_canRun n) (n_running n).
Definition set_canRun (b : bool) (n : Node) : Node :=
  mkNode (n_class n) (n_id n) (n_interfaces n) (n_graphicalprops n)
    (n_readyinterfaces n) b (n_running n).
Definition set_running (b : bool) (n : Node) : Node :=
  mkNode (n_class n) (n_id n) (n_interfaces n) (n_graphicalprops n)
    (n_readyinterfaces n) (n_canRun n) b.

(** What the engine did, in the order it did it: [EvKick n] is the
    [canRun.set()] of [Runner.start] on node [n]; [EvBegin n] is the call of
    [run()] on [n], [EvEnd n] its return and [EvFault n] its raising;
    [EvDeliver a b] is the call [b.onContentReady(a)]; [EvReady n b] is the
    call [n.onInterfaceReady(b)]; [EvSet n] is the [canRun.set()] inside it. *)
Inductive event :=
  | EvKick (n : nat)
  | EvBegin (n : nat)
  | EvEnd (n : nat)
  | EvFault (n : nat)
  | EvDeliver (a b : nat)
  | EvReady (n b : nat)
  | EvSet (n : nat).

Global Instance event_eq_dec : EqDecision event.
Proof. solve_decision. Defined.

(** The heap of interface and node objects; [h_next] is the next free
    reference and [h_log] the calls made so far, oldest first. *)
Record Heap := mkHeap {
  h_ifaces : gmap nat Interface;
  h_nodes : gmap nat Node;
  h_next : nat;
  h_log : list event
}.

Definition empty_heap : Heap := mkHeap ∅ ∅ 0 [].

Definition get_iface (r : nat) : M Heap Interface :=
  fun h => match h_ifaces h !! r with
           | Some i => (Ok i, h)
           | None => (Raise (Unallocated r), h)
           end.

Definition upd_iface (r : nat) (f : Interface -> Interface) : M Heap unit :=
  fun h => match h_ifaces h !! r with
           | Some i => (Ok tt, mkHeap (<[r := f i]> (h_ifaces h)) (h_nodes h)
                                (h_next h) (h_log h))
           | None => (Raise (Unallocated r), h)
           end.

Definition get_node (r : nat) : M Heap Node :=
  fun h => match h_nodes h !! r with
           | Some n => (Ok n, h)
           | None => (Raise (Unallocated r), h)
           end.

Definition upd_node (r : nat) (f : Node -> Node) : M Heap unit :=
  fun h => match h_nodes h !! r with
           | Some n => (Ok tt, mkHeap (h_ifaces h) (<[r := f n]> (h_nodes h))
                                (h_next h) (h_log h))
           | None => (Raise (Unallocated r), h)
           end.

Definition alloc_iface (i : Interface) : M Heap nat :=
  fun h => (Ok (h_next h),
            mkHeap (<[h_next h := i]> (h_ifaces h)) (h_nodes h)
              (S (h_next h)) (h_log h)).

Definition alloc_node (n : Node) : M Heap nat :=
  fun h => (Ok (h_next h),
            mkHeap (h_ifaces h) (<[h_next h := n]> (h_nodes h))
              (S (h_next h)) (h_log h)).

Definition emit (e : event) : M Heap unit :=
  fun h => (Ok tt, mkHeap (h_ifaces h) (h_nodes h) (h_next h) (h_log h ++ [e])).

(** [[f(x) for x in l]] where [f] reads the heap. *)
Fixpoint map_M {S A B} (f : A -> M S B) (l : list A) : M S (list B) :=
  match l with
  | [] => ret []
  | x :: l' => do! y <- f x; do! ys <- map_M f l'; ret (y :: ys)
  end.

(** ** Interface *)

(** [Interface.isValue], overridden by [InterfaceValue]. *)
Definition isValue (i : Interface) : bool :=
  bool_decide (i_class i = CInterfaceValue).

(** [Interface.isInput] *)
Definition isInput (i : Interface) : bool :=
  bool_decide (i_type i = INPUT) || bool_decide (i_type i = PARAMETER).

(** [Interface.canConnectTo]: no test on the direction of either end. *)
Definition canConnectTo (self other : nat) : M Heap bool :=
  do! s <- get_iface self;
  do! o <- get_iface other;
  if bool_decide (self = other) || bool_decide (i_node s = i_node o)
  then ret false
  else ret (existsb (fun k => iclass_sub (i_class s) k && iclass_sub (i_class o) k)
              [CInterfaceStream; CInterfaceValue; CInterfaceList]).

(** [Interface.addSuccessor] *)
Definition addSuccessor (self interface : nat) : M Heap unit :=
  do! ok <- canConnectTo self interface;
  if negb ok then raise (Exception "Cannot connect slots")
  else
    run! upd_iface self (fun s => set_successors (i_successors s ++ [interface]) s);
    upd_iface interface (fun o => set_predecessors (i_predecessors o ++ [self]) o).

(** [list.remove(x)]: drops the first occurrence, [None] when there is none
    ([ValueError]). *)
Fixpoint list_remove (x : nat) (l : list nat) : option (list nat) :=
  match l with
  | [] => None
  | y :: l' => if bool_decide (y = x) then Some l'
               else match list_remove x l' with
                    | Some r => Some (y :: r)
                    | None => None
                    end
  end.

(** [Interface.removeSuccessor] *)
Definition removeSuccessor (self interface : nat) : M Heap unit :=
  do! s <- get_iface self;
  match list_remove interface (i_successors s) with
  | None => raise ValueError
  | Some l =>
      run! upd_iface self (set_successors l);
      do! o <- get_iface interface;
      match list_remove self (i_predecessors o) with
      | None => raise ValueError
      | Some l' => upd_iface interface (set_predecessors l')
      end
  end.

(** [Interface.load] and its overrides in [InterfaceValue] and
    [InterfaceStream]: the test of the base class, then the copy of the
    value, or the reopening of the other side's temporary file. *)
Definition load (self other : nat) : M Heap unit :=
  do! s <- get_iface self;
  if negb (bool_decide (other ∈ i_successors s))
     && negb (bool_decide (other ∈ i_predecessors s))
  then raise (Exception "Should not load interface that is not connected.")
  else
    match i_class s with
    | CInterfaceValue =>
        do! o <- get_iface other;
        upd_iface self (set_value (i_value o))
    | CInterfaceStream =>
        do! o <- get_iface other;
        match i_stream o with
        | Some f => upd_iface self (set_stream (Some f))
        | None => raise AttributeError
        end
    | _ => ret tt
    end.

(** [Node.inputInterfaces], [Node.inputSlotInterfaces] and
    [Node.outputInterfaces], as references. *)
Definition filter_ifaces (p : Interface -> bool) (l : list nat) : M Heap (list nat) :=
  do! ris <- map_M (fun r => do! i <- get_iface r; ret (r, i)) l;
  ret (map fst (filter (fun ri => p (snd ri) = true) ris)).

Definition inputInterfaces (n : nat) : M Heap (list nat) :=
  do! nd <- get_node n;
  filter_ifaces isInput (n_interfaces nd).

Definition inputSlotInterfaces (n : nat) : M Heap (list nat) :=
  do! ins <- inputInterfaces n;
  filter_ifaces i_slot ins.

Definition outputInterfaces (n : nat) : M Heap (list nat) :=
  do! nd <- get_node n;
  filter_ifaces (fun i => negb (isInput i)) (n_interfaces nd).

(** [Node.onInterfaceReady] *)
Definition onInterfaceReady (self interface : nat) : M Heap unit :=
  run! emit (EvReady self interface);
  run! upd_node self (fun n => set_readyinterfaces ({[interface]} ∪ n_readyinterfaces n) n);
  do! nd <- get_node self;
  do! slots <- inputSlotInterfaces self;
  if bool_decide (List.length slots ≤ size (n_readyinterfaces nd))
  then run! emit (EvSet self); upd_node self (set_canRun true)
  else ret tt.

(** [Interface.onContentReady] *)
Definition onContentReady (self interface : nat) : M Heap unit :=
  run! emit (EvDeliver interface self);
  run! load self interface;
  run! upd_iface self (fun s => set_readypredecessors ({[interface]} ∪ i_readypredecessors s) s);
  do! s <- get_iface self;
  if bool_decide (List.length (i_predecessors s) ≤ size (i_readypredecessors s))
  then onInterfaceReady (i_node s) self
  else ret tt.

(** [Node.findInterface] *)
Definition findInterface (self : nat) (name : string) : M Heap nat :=
  do! nd <- get_node self;
  do! found <- filter_ifaces (fun i => bool_decide (i_name i = name)) (n_interfaces nd);
  match found with
  | r :: _ => ret r
  | [] => raise (Exception "Interface with name not found on node.")
  end.

(** The loop of [Node.successors] and [Node.predecessors]: the owners of
    the interfaces [rs], appended to [acc] unless already there. *)
Fixpoint owners_dedup (rs : list nat) (acc : list nat) : M Heap (list nat) :=
  match rs with
  | [] => ret acc
  | r :: rs' =>
      do! i <- get_iface r;
      owners_dedup rs' (if bool_decide (i_node i ∈ acc) then acc else acc ++ [i_node i])
  end.

Fixpoint node_links (sel : Interface -> list nat) (rs : list nat) (acc : list nat)
  : M Heap (list nat) :=
  match rs with
  | [] => ret acc
  | r :: rs' =>
      do! i <- get_iface r;
      do! acc' <- owners_dedup (sel i) acc;
      node_links sel rs' acc'
  end.

(** [Node.successors] *)
Definition node_successors (self : nat) : M Heap (list nat) :=
  do! nd <- get_node self;
  node_links i_successors (n_interfaces nd) [].

(** [Node.predecessors] *)
Definition node_predecessors (self : nat) : M Heap (list nat) :=
  do! nd <- get_node self;
  node_links i_predecessors (n_interfaces nd) [].

(** ** Flow *)

Record Flow := mkFlow {
  modified : bool;
  filename : option string;
  nodes : list nat
}.

(** [Flow.__init__] *)
Definition new_Flow : Flow := mkFlow false None [].

Definition set_modified (b : bool) (f : Flow) : Flow :=
  mkFlow b (filename f) (nodes f).
Definition set_filename (n : option string) (f : Flow) : Flow :=
  mkFlow (modified f) n (nodes f).
Definition set_nodes (l : list nat) (f : Flow) : Flow :=
  mkFlow (modified f) (filename f) l.

(** The methods of a flow run on the flow object and the heap. *)
Definition lift_h {A} (m : M Heap A) : M (Flow * Heap) A :=
  fun fh => match m (snd fh) with (r, h') => (r, (fst fh, h')) end.

Definition upd_flow (g : Flow -> Flow) : M (Flow * Heap) unit :=
  modify (fun fh => (g (fst fh), snd fh)).

(** [Flow.addConnector] *)
Definition addConnector (start end_ : nat) : M (Flow * Heap) unit :=
  run! upd_flow (set_modified true);
  lift_h (addSuccessor start end_).

(** [Flow.addNode]: no test on the identifier of the node. *)
Definition addNode (node : nat) : M (Flow * Heap) unit :=
  run! upd_flow (set_modified true);
  upd_flow (fun f => set_nodes (nodes f ++ [node]) f).

(** [Flow.removeConnector] *)
Definition removeConnector (start end_ : nat) : M (Flow * Heap) unit :=
  run! upd_flow (set_modified true);
  lift_h (removeSuccessor start end_).

(** [Flow.removeNode] *)
Definition removeNode (node : nat) : M (Flow * Heap) unit :=
  run! upd_flow (set_modified true);
  do! fh <- get;
  match list_remove node (nodes (fst fh)) with
  | None => raise ValueError
  | Some l => upd_flow (set_nodes l)
  end.

(** [[n.id for n in self.nodes]] *)
Definition node_ids (f : Flow) : M Heap (list string) :=
  map_M (fun r => do! n <- get_node r; ret (n_id n)) (nodes f).

(** The [while] loop of [Flow.randomId]: [id] is the candidate, [i] the
    next suffix.  Every turn rules out one more identifier, so the loop
    ends within [length ids + 1] turns. *)
Fixpoint randomId_loop (fuel : nat) (lbl : string) (ids : list string)
    (id : string) (i : nat) : option string :=
  if bool_decide (id ∈ ids) then
    match fuel with
    | 0 => None
    | S fuel' => randomId_loop fuel' lbl ids (lbl +:+ "-" +:+ pretty i) (S i)
    end
  else Some id.

(** [Flow.randomId], on the label of the node's class. *)
Definition randomId (f : Flow) (lbl : string) : M Heap string :=
  do! ids <- node_ids f;
  match randomId_loop (List.length ids) lbl ids lbl 2 with
  | Some id => ret id
  | None => raise Diverged
  end.

(** [Flow.findNode] *)
Fixpoint findNode_loop (ns : list nat) (id : string) : M Heap nat :=
  match ns with
  | [] => raise (Exception "Node with id not found.")
  | r :: ns' =>
      do! n <- get_node r;
      if bool_decide (n_id n = id) then ret r else findNode_loop ns' id
  end.

Definition findNode (f : Flow) (id : string) : M Heap nat :=
  findNode_loop (nodes f) id.

(** [Flow.inputNodes] *)
Definition inputNodes (f : Flow) : M Heap (list nat) :=
  do! rns <- map_M (fun r => do! n <- get_node r; ret (r, n)) (nodes f);
  ret (map fst (filter (fun rn => is_InputNode (n_class (snd rn)) = true) rns)).

(** [Flow.CLIParameterNodes] *)
Definition CLIParameterNodes (f : Flow) : M Heap (list nat) :=
  do! rns <- map_M (fun r => do! n <- get_node r; ret (r, n)) (nodes f);
  ret (map fst (filter (fun rn => n_class (snd rn) = CCommandLineParameterInputNode) rns)).

(** ** Construction of nodes *)

(** One [Interface*(self, name, default=.., type=.., slot=..)] of a node
    class. *)
Record idecl := mkIdecl {
  d_class : iclass;
  d_name : string;
  d_default : pyval;
  d_type : itype;
  d_slot : bool
}.

(** The interfaces each [__init__] assigns, in the order of the source. *)
Definition class_interfaces (c : nclass) : list idecl :=
  match c with
  | CProcessNode =>
      [mkIdecl CInterfaceStream "stdin" (PStr "EOF") INPUT true;
       mkIdecl CInterfaceStream "stdout" (PStr "EOF") OUTPUT true;
       mkIdecl CInterfaceStream "stderr" (PStr "EOF") OUTPUT true;
       mkIdecl CInterfaceValue "cmd" (PStr "") PARAMETER false;
       mkIdecl CInterfaceValue "result" (PInt 0) RESULT true]
  | CFileInputNode =>
      [mkIdecl CInterfaceValue "filepath" (PStr "") PARAMETER false;
       mkIdecl CInterfaceStream "output" (PStr "EOF") OUTPUT true]
  | CValueInputNode =>
      [mkIdecl CInterfaceValue "value" (PStr "") PARAMETER false;
       mkIdecl CInterfaceValue "out" (PStr "") OUTPUT true]
  | CCommandLineParameterInputNode =>
      [mkIdecl CInterfaceValue "name" (PStr "") PARAMETER false;
       mkIdecl CInterfaceValue "value" (PStr "") OUTPUT true;
       mkIdecl CInterfaceValue "default" (PStr "") PARAMETER false]
  | CCommandLineStdinInputNode =>
      [mkIdecl CInterfaceStream "output" (PStr "EOF") OUTPUT true]
  | CFileOutputNode =>
      [mkIdecl CInterfaceValue "filepath" (PStr "") PARAMETER false;
       mkIdecl CInterfaceStream "input" (PStr "EOF") INPUT true]
  | CCommandLineStdoutOutputNode =>
      [mkIdecl CInterfaceStream "input" (PStr "EOF") INPUT true]
  | CNode | CInputNode | CFileListInputNode | COutputNode => []
  end.

(** [Interface.__init__] and the [__init__] of the subclass: an
    [InterfaceValue] ends with [_value = None]; an [InterfaceStream] opens a
    temporary file of its own, named here by the reference of the
    interface. *)
Definition new_Interface (node : nat) (d : idecl) : M Heap nat :=
  do! h <- get;
  alloc_iface
    (mkInterface (d_class d) node (d_name d) [] [] (d_type d) (d_slot d)
       (d_default d)
       (if bool_decide (d_class d = CInterfaceValue) then PNone else d_default d)
       (if bool_decide (d_class d = CInterfaceStream) then Some (h_next h) else None)
       ∅).

(** [Node.__init__] followed by the [__init__] of class [c]:
    [c(flow=flow, id=id)], or [c(id=id)] when [flow] is [None]. *)
Definition new_Node (c : nclass) (flow : option Flow) (id : string) : M Heap nat :=
  do! id' <- (match flow with
              | Some f => if bool_decide (id = "") then randomId f (label c) else ret id
              | None => ret id
              end);
  do! n <- alloc_node (mkNode c id' [] [] ∅ false false);
  do! is_ <- map_M (new_Interface n) (class_interfaces c);
  run! upd_node n (set_interfaces is_);
  ret n.

(** ** Persistence *)

(** The documents [exportXml] writes and [importXml] reads, as the element
    tree that [xml.dom.minidom] builds and parses: [node] elements under the
    root, each with [graphproperty] and [interface] children, each interface
    with [successor] children.  An attribute that is absent is [None];
    [getAttribute] reads it as the empty string. *)
Record XSuccessor := mkXSuccessor {
  xs_node : string;
  xs_interface : string
}.

Record XInterface := mkXInterface {
  xi_name : string;
  xi_slot : option string;
  xi_value : option string;
  xi_successors : list XSuccessor
}.

Record XNode := mkXNode {
  xn_id : string;
  xn_type : string;
  xn_graphproperties : list (string * string);
  xn_interfaces : list XInterface
}.

Global Instance XSuccessor_eq_dec : EqDecision XSuccessor.
Proof. solve_decision. Defined.
Global Instance XInterface_eq_dec : EqDecision XInterface.
Proof. solve_decision. Defined.
Global Instance XNode_eq_dec : EqDecision XNode.
Proof. solve_decision. Defined.

Definition getAttribute (a : option string) : string := default "" a.

(** Modelled from the spec: [utils.empty] is imported by [flow.py] but is not
    part of the sources at hand.  The spec has saving omit "empty
    property/successor collections" and the runner start the nodes "without
    predecessors": the test that a collection has no element. *)
Definition empty_ {A} (l : list A) : bool :=
  match l with [] => true | _ => false end.

(** [str.lower] *)
Definition lower_ascii (c : Ascii.ascii) : Ascii.ascii :=
  let n := Ascii.nat_of_ascii c in
  if bool_decide (65 ≤ n) && bool_decide (n ≤ 90) then Ascii.ascii_of_nat (n + 32) else c.

Fixpoint lower (s : string) : string :=
  match s with
  | EmptyString => EmptyString
  | String c s' => String (lower_ascii c) (lower s')
  end.

(** [eval(classname)], for the names of the node classes of the module.
    What [eval] makes of any other text is outside the model: [importXml]
    is followed on documents whose types are such names. *)
Definition class_of_name (name : string) : option nclass :=
  List.find (fun c => bool_decide (classname c = name)) all_nclasses.

(** [d[k] = v] on a dictionary kept as an association list. *)
Fixpoint dict_set (k : string) (v : pyval) (d : list (string * pyval))
  : list (string * pyval) :=
  match d with
  | [] => [(k, v)]
  | (k', v') :: d' => if bool_decide (k' = k) then (k, v) :: d'
                      else (k', v') :: dict_set k v d'
  end.

(** ["%s" % b] for a boolean. *)
Definition bool_str (b : bool) : string := if b then "True" else "False".

(** [Flow.exportXml], up to [toprettyxml]. *)
Definition export_successor (succ : nat) : M Heap XSuccessor :=
  do! s <- get_iface succ;
  do! n <- get_node (i_node s);
  ret (mkXSuccessor (n_id n) (i_name s)).

Definition export_interface (r : nat) : M Heap XInterface :=
  do! i <- get_iface r;
  do! succs <- (if negb (empty_ (i_successors i))
                then map_M export_successor (i_successors i) else ret []);
  ret (mkXInterface (i_name i)
         (if isInput i && isValue i then Some (bool_str (i_slot i)) else None)
         (if isInput i && isValue i && negb (i_slot i)
          then Some (py_str (match i_value i with PNone => PStr "" | v => v end))
          else None)
         succs).

Definition export_node (r : nat) : M Heap XNode :=
  do! n <- get_node r;
  do! xis <- map_M export_interface (n_interfaces n);
  ret (mkXNode (n_id n) (classname (n_class n))
         (if negb (empty_ (n_graphicalprops n))
          then map (fun kv => (fst kv, py_str (snd kv))) (n_graphicalprops n)
          else [])
         xis).

Definition exportXml (f : Flow) : M Heap (list XNode) :=
  map_M export_node (nodes f).

Section Persistence.

(** [utils.atoi], which reads the value of a graphical property back; it is
    not part of the sources at hand. *)
Variable atoi : string -> pyval.

(** The first loop of [Flow.importXml]: one node per [node] element. *)
Definition import_node (x : XNode) : M (Flow * Heap) unit :=
  match class_of_name (xn_type x) with
  | None => raise (Exception "Unknown node type")
  | Some c =>
      do! fh <- get;
      do! node <- lift_h (new_Node c (Some (fst fh)) (xn_id x));
      run! lift_h (for_each (xn_graphproperties x) (fun kv =>
             upd_node node (fun n =>
               set_graphicalprops (dict_set (fst kv) (atoi (snd kv)) (n_graphicalprops n)) n)));
      addNode node
  end.

(** The second loop: the literals and the links. *)
Definition import_successor (f : Flow) (src : nat) (x : XSuccessor) : M Heap unit :=
  do! dnode <- findNode f (xs_node x);
  do! dest <- findInterface dnode (xs_interface x);
  run! upd_iface dest (set_slot true);
  addSuccessor src dest.

Definition import_interface (f : Flow) (node : nat) (x : XInterface) : M Heap unit :=
  do! src <- findInterface node (xi_name x);
  run! upd_iface src (set_slot true);
  do! s <- get_iface src;
  run! (if isInput s && isValue s then
          let slot := bool_decide (lower (getAttribute (xi_slot x)) = "true") in
          run! upd_iface src (set_slot slot);
          if negb slot then upd_iface src (set_value (PStr (getAttribute (xi_value x))))
          else ret tt
        else ret tt);
  for_each (xi_successors x) (import_successor f src).

Definition import_links (f : Flow) (x : XNode) : M Heap unit :=
  do! node <- findNode f (xn_id x);
  for_each (xn_interfaces x) (import_interface f node).

(** [Flow.importXml], from [parseString] on. *)
Definition importXml (xml : list XNode) : M Heap Flow :=
  fun h =>
    match for_each xml import_node (new_Flow, h) with
    | (Raise e, (_, h')) => (Raise e, h')
    | (Ok _, (flow, h')) =>
        match for_each xml (import_links flow) h' with
        | (Raise e, h'') => (Raise e, h'')
        | (Ok _, h'') => (Ok flow, h'')
        end
    end.

(** [Flow.load].  The files are a map from names to what [parseString]
    makes of their text: a document, or [None] for a text that it does not
    parse.  A name outside the map cannot be opened. *)
Definition Flow_load (fs : gmap string (option (list XNode))) (fname : string)
  : M Heap Flow :=
  match fs !! fname with
  | None => raise IOError
  | Some None => raise ExpatError
  | Some (Some content) =>
      do! f <- importXml content;
      ret (set_modified false (set_filename (Some fname) f))
  end.

(** What [parseString] makes of the text that [toprettyxml] writes for a
    document, [None] when it does not parse it, and whether
    [open(name, 'w')] returns.  Neither [xml.dom.minidom] nor the disk is
    part of the sources at hand. *)
Variable reread : list XNode -> option (list XNode).
Variable writable : string -> bool.

(** [Flow.save]; returns the files after the write. *)
Definition Flow_save (fs : gmap string (option (list XNode))) (fname : option string)
  : M (Flow * Heap) (gmap string (option (list XNode))) :=
  do! fh <- get;
  let fname' := match fname with None => filename (fst fh) | Some n => Some n end in
  do! xml <- lift_h (exportXml (fst fh));
  match fname' with
  | None => raise TypeError
  | Some n =>
      if writable n
      then run! upd_flow (set_modified false);
           ret (<[n := reread xml]> fs)
      else raise IOError
  end.

End Persistence.

(** ** The runner *)

(** What a call of [run()] does to the object graph: the values it assigns
    to interfaces, and the exception it raises, if any.  What it does to
    files, processes and the standard streams is outside the graph. *)
Record outcome := mkOutcome {
  o_writes : list (nat * pyval);
  o_raises : option exn
}.

(** The thread of a [NodeRunner], inside [Node.start]: blocked in
    [canRun.wait()], inside [run()], notifying the successors that remain,
    returned, or ended by an exception. *)
Inductive wstate :=
  | WWait
  | WRun
  | WPublish (todo : list (nat * nat))
  | WDone
  | WDead (e : exn).

(** The thread that called [Runner.start]: creating the threads of the
    nodes that remain, setting the events of the input nodes that remain,
    joining the thread at an index, returned, or ended by an exception. *)
Inductive mstate :=
  | MSpawn (todo : list nat)
  | MKick (todo : list nat)
  | MJoin (k : nat)
  | MDone
  | MDead (e : exn).

Global Instance wstate_eq_dec : EqDecision wstate.
Proof. solve_decision. Defined.
Global Instance mstate_eq_dec : EqDecision mstate.
Proof. solve_decision. Defined.

(** A [Runner] in the middle of [start]: [r_threads] is [self.threads],
    each thread with its node and where it stands. *)
Record Runner := mkRunner {
  r_flow : Flow;
  r_threads : list (nat * wstate);
  r_main : mstate;
  r_heap : Heap
}.

(** [Runner.__init__] followed by the entry into [start]. *)
Definition Runner_start (f : Flow) (h : Heap) : Runner :=
  mkRunner f [] (MSpawn (nodes f)) h.

(** [Thread.is_alive] is false for these. *)
Definition finished (w : wstate) : bool :=
  match w with WDone | WDead _ => true | _ => false end.

Inductive tid := TMain | TWorker (k : nat).

(** The pairs [(i, interface)] of the loops that end [Node.start]. *)
Definition publish_list (n : nat) : M Heap (list (nat * nat)) :=
  do! outs <- outputInterfaces n;
  do! ll <- map_M (fun i => do! o <- get_iface i;
                           ret (map (fun t => (i, t)) (i_successors o))) outs;
  ret (concat ll).

(** The test and the [canRun.set()] of the second loop of [Runner.start]. *)
Definition kick (n : nat) : M Heap unit :=
  do! preds <- node_predecessors n;
  if empty_ preds
  then run! emit (EvKick n); upd_node n (set_canRun true)
  else ret tt.

(** The assignments [interface.value = v] that a [run()] made, in order;
    each lands on an interface object. *)
Definition write_values (ws : list (nat * pyval)) (h : Heap) : Heap :=
  foldl (fun h rv =>
           mkHeap (alter (set_value (snd rv)) (fst rv) (h_ifaces h))
             (h_nodes h) (h_next h) (h_log h)) h ws.

Section Runner.

(** [run()] of the node at a reference, on the heap it is called on. *)
Variable run_body : nat -> Heap -> outcome.

(** One step of the main thread. *)
Definition step_main (r : Runner) : option Runner :=
  match r_main r with
  | MSpawn (n :: todo) =>
      Some (mkRunner (r_flow r) (r_threads r ++ [(n, WWait)]) (MSpawn todo) (r_heap r))
  | MSpawn [] =>
      match inputNodes (r_flow r) (r_heap r) with
      | (Ok l, h) => Some (mkRunner (r_flow r) (r_threads r) (MKick l) h)
      | (Raise e, h) => Some (mkRunner (r_flow r) (r_threads r) (MDead e) h)
      end
  | MKick (n :: todo) =>
      match kick n (r_heap r) with
      | (Ok _, h) => Some (mkRunner (r_flow r) (r_threads r) (MKick todo) h)
      | (Raise e, h) => Some (mkRunner (r_flow r) (r_threads r) (MDead e) h)
      end
  | MKick [] => Some (mkRunner (r_flow r) (r_threads r) (MJoin 0) (r_heap r))
  | MJoin k =>
      match r_threads r !! k with
      | None => Some (mkRunner (r_flow r) (r_threads r) MDone (r_heap r))
      | Some (_, w) =>
          if finished w
          then Some (mkRunner (r_flow r) (r_threads r) (MJoin (S k)) (r_heap r))
          else None
      end
  | MDone | MDead _ => None
  end.

(** One step of the thread of node [n] standing at [w]: the new standing
    and the new heap, or [None] when the thread is blocked or over. *)
Definition step_node (n : nat) (w : wstate) (h : Heap) : option (wstate * Heap) :=
  match w with
  | WWait =>
      match h_nodes h !! n with
      | Some nd =>
          if n_canRun nd
          then match (run! upd_node n (set_running true); emit (EvBegin n)) h with
               | (Ok _, h') => Some (WRun, h')
               | (Raise e, h') => Some (WDead e, h')
               end
          else None
      | None => Some (WDead (Unallocated n), h)
      end
  | WRun =>
      let o := run_body n h in
      let h' := write_values (o_writes o) h in
      match o_raises o with
      | Some e =>
          match emit (EvFault n) h' with (_, h'') => Some (WDead e, h'') end
      | None =>
          match (run! emit (EvEnd n);
                 run! upd_node n (set_running false);
                 run! upd_node n (set_canRun false);
                 publish_list n) h' with
          | (Ok l, h'') => Some (WPublish l, h'')
          | (Raise e, h'') => Some (WDead e, h'')
          end
      end
  | WPublish ((i, t) :: todo) =>
      match onContentReady t i h with
      | (Ok _, h') => Some (WPublish todo, h')
      | (Raise e, h') => Some (WDead e, h')
      end
  | WPublish [] => Some (WDone, h)
  | WDone | WDead _ => None
  end.

Definition step (t : tid) (r : Runner) : option Runner :=
  match t with
  | TMain => step_main r
  | TWorker k =>
      match r_threads r !! k with
      | None => None
      | Some (n, w) =>
          match step_node n w (r_heap r) with
          | None => None
          | Some (w', h') =>
              Some (mkRunner (r_flow r) (<[k := (n, w')]> (r_threads r)) (r_main r) h')
          end
      end
  end.

(** The runner after the threads took their steps in the order [sched];
    [None] when [sched] asks a step of a thread that cannot take one. *)
Fixpoint exec (sched : list tid) (r : Runner) : option Runner :=
  match sched with
  | [] => Some r
  | t :: sched' =>
      match step t r with
      | Some r' => exec sched' r'
      | None => None
      end
  end.

(** No thread can take a step: every worker is blocked or over, and the
    main thread is blocked in a [join], returned or over. *)
Definition stuck (r : Runner) : Prop :=
  step_main r = None ∧ ∀ k, step (TWorker k) r = None.

(** [Runner.start] has returned. *)
Definition returned (r : Runner) : bool :=
  bool_decide (r_main r = MDone).

End Runner.

(** The interface at [r] bears the name [name]. *)
Definition holds_name (h : Heap) (name : string) (r : nat) : Prop :=
  (i_name <$> h_ifaces h !! r) = Some name.

Global Instance holds_name_dec h name r : Decision (holds_name h name r).
Proof. unfold holds_name. apply _. Defined.

(** ** The [run()] of the node classes *)

(** [utils.empty] on a value: [None] and the empty string are empty (see
    [empty_]). *)
Definition empty_value (v : pyval) : bool :=
  match v with
  | PNone => true
  | PStr s => bool_decide (s = "")
  | PInt _ => false
  end.

(** The value of the attribute of a node that holds the interface called
    [name]. *)
Definition value_of (h : Heap) (N : Node) (name : string) : pyval :=
  match filter (λ r, holds_name h name r) (n_interfaces N) with
  | r :: _ => from_option i_value PNone (h_ifaces h !! r)
  | [] => PNone
  end.

Definition iface_of (h : Heap) (N : Node) (name : string) : list nat :=
  filter (λ r, holds_name h name r) (n_interfaces N).

(** What the [run()] of each class of the module does to the object graph.
    [env n] is what the outside hands to node [n]: the return code of the
    command of a [ProcessNode], [None] when the command cannot be started,
    and the value of the option of a [CommandLineParameterInputNode].
    Reading and writing files and the standard streams leaves the graph
    alone; [Popen] fails without a command, and opening the file of a
    [FileOutputNode] fails without a path. *)
Definition module_run (env : nat → pyval) (n : nat) (h : Heap) : outcome :=
  match h_nodes h !! n with
  | None => mkOutcome [] (Some (Unallocated n))
  | Some N =>
      match n_class N with
      | CNode | CInputNode | COutputNode | CFileListInputNode => mkOutcome [] None
      | CValueInputNode =>
          mkOutcome (map (λ r, (r, value_of h N "value")) (iface_of h N "out")) None
      | CFileInputNode =>
          if empty_value (value_of h N "filepath")
          then mkOutcome [] (Some (FlowException "Filepath empty, cannot read file."))
          else mkOutcome [] None
      | CFileOutputNode =>
          match value_of h N "filepath" with
          | PStr s => if bool_decide (s = "") then mkOutcome [] (Some IOError)
                      else mkOutcome [] None
          | _ => mkOutcome [] (Some TypeError)
          end
      | CCommandLineStdinInputNode | CCommandLineStdoutOutputNode => mkOutcome [] None
      | CProcessNode =>
          match value_of h N "cmd" with
          | PStr s =>
              if bool_decide (s = "") then mkOutcome [] (Some OSError)
              else match env n with
                   | PNone => mkOutcome [] (Some OSError)
                   | code =>
                       mkOutcome (map (λ r, (r, code)) (iface_of h N "result")) None
                   end
          | _ => mkOutcome [] (Some TypeError)
          end
      | CCommandLineParameterInputNode =>
          if empty_value (value_of h N "name")
          then mkOutcome [] (Some (Exception "Error in getting name of CLI Parameter"))
          else mkOutcome
                 (map (λ r, (r, if empty_value (env n) then value_of h N "default"
                                else env n))
                    (iface_of h N "value")) None
      end
  end.

(** ** Flows used as examples *)

Module Examples.

(** A [ValueInputNode] with id [a] (node 0: [value] is 1, [out] is 2) and a
    [ProcessNode] with id [p] (node 3: [stdin] 4, [stdout] 5, [stderr] 6,
    [cmd] 7, [result] 8), both made without a flow. *)
Definition value_and_process : Heap :=
  snd ((run! new_Node CValueInputNode None "a";
        new_Node CProcessNode None "p") empty_heap).

(** Two plain nodes, both with the id [foo] (nodes 0 and 1), and the flow
    that holds the first of them. *)
Definition two_foo : Heap :=
  snd ((run! new_Node CNode None "foo"; new_Node CNode None "foo") empty_heap).

Definition flow_foo : Flow :=
  fst (snd (addNode 0 (new_Flow, two_foo))).

(** A [FileInputNode] with id [in] (node 0: [filepath] is 1, [output] is 2)
    that feeds a [FileOutputNode] with id [out] (node 3: [filepath] 4,
    [input] 5), both with their paths filled in, in a flow of their own. *)
Definition file_copy : Heap :=
  snd ((run! new_Node CFileInputNode None "in";
        run! new_Node CFileOutputNode None "out";
        run! upd_iface 1 (set_value (PStr "/tmp/in"));
        run! upd_iface 4 (set_value (PStr "/tmp/out"));
        addSuccessor 2 5) empty_heap).

Definition flow_copy : Flow :=
  fst (snd ((run! addNode 0; addNode 3) (new_Flow, file_copy))).

(** Nothing comes from outside. *)
Definition no_env : nat → pyval := λ _, PNone.

(** The main thread creates both threads, sets the event of the input
    node and starts joining; the input node runs and notifies; the output
    node runs; the main thread joins both and returns. *)
Definition copy_schedule : list tid :=
  [TMain; TMain; TMain; TMain; TMain;
   TWorker 0; TWorker 0; TWorker 0; TWorker 0;
   TWorker 1; TWorker 1; TWorker 1;
   TMain; TMain; TMain].

(** A [run()] that returns without assigning any interface: what the
    nodes of the file copy do when their files can be read and written. *)
Definition quiet_run : nat → Heap → outcome := λ _ _, mkOutcome [] None.

(** The file copy as the constructors leave it, both paths still unset. *)
Definition unfilled_copy : Heap :=
  snd ((run! new_Node CFileInputNode None "in";
        run! new_Node CFileOutputNode None "out";
        addSuccessor 2 5) empty_heap).

(** The main thread creates both threads, sets the event of the input
    node and starts joining; the input node runs, and [run()] raises; the
    main thread joins it and blocks on the thread of the output node. *)
Definition unfilled_schedule : list tid :=
  [TMain; TMain; TMain; TMain; TMain; TWorker 0; TWorker 0; TMain].

(** A [CommandLineStdinInputNode] with id [stdin] (node 0: [output] is 1)
    that feeds the [stdin] of a [ProcessNode] with id [p] (node 2: [stdin]
    3, [stdout] 4, [stderr] 5, [cmd] 6, [result] 7) whose [cmd] is marked
    as a slot and fed by nothing. *)
Definition pipe_awaiting_cmd : Heap :=
  snd ((run! new_Node CCommandLineStdinInputNode None "stdin";
        run! new_Node CProcessNode None "p";
        run! upd_iface 6 (set_slot true);
        addSuccessor 1 3) empty_heap).

Definition flow_pipe : Flow :=
  fst (snd ((run! addNode 0; addNode 2) (new_Flow, pipe_awaiting_cmd))).

(** The input node runs and notifies [stdin]; the main thread joins it and
    blocks on the thread of the process node. *)
Definition pipe_schedule : list tid :=
  [TMain; TMain; TMain; TMain; TMain;
   TWorker 0; TWorker 0; TWorker 0; TWorker 0; TMain].

(** A flow of one plain [Node] (node 0, no interface). *)
Definition lone_node : Heap := snd (new_Node CNode None "n" empty_heap).

Definition flow_lone : Flow := fst (snd (addNode 0 (new_Flow, lone_node))).

(** A [ValueInputNode] with id [a] (node 0: [value] is 1, [out] is 2) whose
    [out] feeds the [value] parameter, not a slot, of a [ValueInputNode]
    with id [b] (node 3: [value] 4, [out] 5). *)
Definition value_chain : Heap :=
  snd ((run! new_Node CValueInputNode None "a";
        run! new_Node CValueInputNode None "b";
        addSuccessor 2 4) empty_heap).

Definition flow_values : Flow :=
  fst (snd ((run! addNode 0; addNode 3) (new_Flow, value_chain))).

(** A [ProcessNode] made without a flow and without an id (node 0:
    [stdin] is 1, [stdout] 2, [stderr] 3, [cmd] 4, [result] 5), added to a
    flow of its own: its id is blank. *)
Definition unnamed_process : Heap :=
  snd (new_Node CProcessNode None "" empty_heap).

Definition flow_unnamed : Flow :=
  fst (snd (addNode 0 (new_Flow, unnamed_process))).

(** Two [ValueInputNode]s that share the id [v] (node 0: [value] is 1,
    [out] 2; node 3: [value] 4, [out] 5) and a [ProcessNode] with id [p]
    (node 6: [stdin] 7, [stdout] 8, [stderr] 9, [cmd] 10, [result] 11); the
    second of the two feeds [cmd]. *)
Definition twin_values : Heap :=
  snd ((run! new_Node CValueInputNode None "v";
        run! new_Node CValueInputNode None "v";
        run! new_Node CProcessNode None "p";
        addSuccessor 5 10) empty_heap).

Definition flow_twins : Flow :=
  fst (snd ((run! addNode 0; run! addNode 3; addNode 6) (new_Flow, twin_values))).

(** A reading of the values of graphical properties that keeps the text. *)
Definition as_text : string → pyval := PStr.

(** The file copy after [removeNode] of its second node: the connection to
    the [input] of that node is still there. *)
Definition flow_cut : Flow := fst (snd (removeNode 3 (flow_copy, file_copy))).

(** The main thread creates the thread of the lone plain node, finds no
    input node to start and begins to join. *)
Definition lone_wait_schedule : list tid := [TMain; TMain; TMain].

(** The chain of two [ValueInputNode]s with the literal of the first
    filled in. *)
Definition value_filled : Heap :=
  snd ((run! new_Node CValueInputNode None "a";
        run! new_Node CValueInputNode None "b";
        run! upd_iface 1 (set_value (PStr "7"));
        addSuccessor 2 4) empty_heap).

(** The main thread creates both threads, sets the event of the first
    node and begins to join; the first node runs and notifies the second. *)
Definition value_schedule : list tid :=
  [TMain; TMain; TMain; TMain; TMain; TMain;
   TWorker 0; TWorker 0; TWorker 0].

(** What an XML parser makes of an attribute value that was written as it
    is: a tab, a line feed and a carriage return are read as a space, and
    any other control character ends the parse. *)
Definition read_char (c : Ascii.ascii) : option Ascii.ascii :=
  let n := Ascii.nat_of_ascii c in
  if bool_decide (n = 9) || bool_decide (n = 10) || bool_decide (n = 13)
  then Some (Ascii.ascii_of_nat 32)
  else if bool_decide (n < 32) then None else Some c.

Fixpoint read_text (s : string) : option string :=
  match s with
  | EmptyString => Some EmptyString
  | String c s' =>
      match read_char c, read_text s' with
      | Some c', Some t => Some (String c' t)
      | _, _ => None
      end
  end.

Definition read_attr (a : option string) : option (option string) :=
  match a with
  | None => Some None
  | Some s => match read_text s with Some t => Some (Some t) | None => None end
  end.

Fixpoint read_all {A} (rd : A -> option A) (l : list A) : option (list A) :=
  match l with
  | [] => Some []
  | a :: l' =>
      match rd a, read_all rd l' with
      | Some a', Some t => Some (a' :: t)
      | _, _ => None
      end
  end.

Definition read_successor (s : XSuccessor) : option XSuccessor :=
  match read_text (xs_node s), read_text (xs_interface s) with
  | Some n, Some i => Some (mkXSuccessor n i)
  | _, _ => None
  end.

Definition read_interface (xi : XInterface) : option XInterface :=
  match read_text (xi_name xi), read_attr (xi_slot xi), read_attr (xi_value xi),
        read_all read_successor (xi_successors xi) with
  | Some n, Some sl, Some v, Some ss => Some (mkXInterface n sl v ss)
  | _, _, _, _ => None
  end.

Definition read_property (kv : string * string) : option (string * string) :=
  match read_text (fst kv), read_text (snd kv) with
  | Some k, Some v => Some (k, v)
  | _, _ => None
  end.

Definition read_node (X : XNode) : option XNode :=
  match read_text (xn_id X), read_text (xn_type X),
        read_all read_property (xn_graphproperties X),
        read_all read_interface (xn_interfaces X) with
  | Some i, Some t, Some ps, Some xis => Some (mkXNode i t ps xis)
  | _, _, _, _ => None
  end.

Definition parsed_back (x : list XNode) : option (list XNode) :=
  read_all read_node x.

(** A disk on which every name but the empty one can be opened for
    writing. *)
Definition can_open (name : string) : bool := negb (bool_decide (name = "")).

(** A [ProcessNode] with id [p] (node 0: [stdin] is 1, [stdout] 2, [stderr]
    3, [cmd] 4, [result] 5) followed by the [ValueInputNode] with id [v]
    (node 6: [value] 7, [out] 8) that feeds its [cmd]. *)
Definition fed_process : Heap :=
  snd ((run! new_Node CProcessNode None "p";
        run! new_Node CValueInputNode None "v";
        addSuccessor 8 4) empty_heap).

Definition flow_fed : Flow :=
  fst (snd ((run! addNode 0; addNode 6) (new_Flow, fed_process))).

(** A lone [ValueInputNode] with id [v] (node 0: [value] is 1, [out] 2)
    whose literal has two lines. *)
Definition two_lines : Heap :=
  snd ((run! new_Node CValueInputNode None "v";
        upd_iface 1 (set_value (PStr ("x" +:+ String (Ascii.ascii_of_nat 10) "y"))))
         empty_heap).

End Examples.

(** ** Vocabulary of the statements *)

(** [P] holds of the object behind an optional lookup. *)
Definition holds {A} (P : A → Prop) (o : option A) : Prop :=
  match o with Some a => P a | None => False end.

Global Instance holds_dec {A} (P : A → Prop) `{∀ a, Decision (P a)} (o : option A) :
  Decision (holds P o).
Proof. destruct o; simpl; apply _. Defined.

(** The parts of an interface and of a node that running a flow never
    assigns. *)
Definition iface_shape (i : Interface) :=
  (i_class i, i_node i, i_name i, i_successors i, i_predecessors i, i_type i, i_slot i).

Definition node_shape (n : Node) := (n_class n, n_id n, n_interfaces n).

Definition same_shape (h h' : Heap) : Prop :=
  (∀ r, iface_shape <$> h_ifaces h' !! r = iface_shape <$> h_ifaces h !! r) ∧
  (∀ r, node_shape <$> h_nodes h' !! r = node_shape <$> h_nodes h !! r).

(** The object graph of a flow is well formed: the nodes of the flow exist;
    the interfaces a node lists exist and name it as their node; every
    interface is listed by its node; a successor lists the interface among
    its predecessors and a predecessor lists it among its successors; only a
    stream feeds a stream. *)
Definition wf_graph (f : Flow) (h : Heap) : Prop :=
  Forall (λ n, is_Some (h_nodes h !! n)) (nodes f) ∧
  map_Forall (λ n N,
    Forall (λ x, holds (λ X, i_node X = n) (h_ifaces h !! x)) (n_interfaces N))
    (h_nodes h) ∧
  map_Forall (λ x X, holds (λ N, x ∈ n_interfaces N) (h_nodes h !! i_node X))
    (h_ifaces h) ∧
  map_Forall (λ x X,
    Forall (λ y, holds (λ Y, x ∈ i_predecessors Y ∧
                            (i_class Y = CInterfaceStream → i_class X = CInterfaceStream))
                   (h_ifaces h !! y)) (i_successors X))
    (h_ifaces h) ∧
  map_Forall (λ y Y,
    Forall (λ x, holds (λ X, y ∈ i_successors X) (h_ifaces h !! x)) (i_predecessors Y))
    (h_ifaces h).

(** Every stream interface has its file. *)
Definition streams_ok (h : Heap) : Prop :=
  map_Forall (λ _ X, i_class X = CInterfaceStream → is_Some (i_stream X)) (h_ifaces h).

(** Nothing has run yet: no call logged, no event set, no readiness
    recorded. *)
Definition fresh (h : Heap) : Prop :=
  h_log h = [] ∧
  map_Forall (λ _ N, n_canRun N = false ∧ n_readyinterfaces N = ∅) (h_nodes h) ∧
  map_Forall (λ _ X, i_readypredecessors X = ∅) (h_ifaces h).

(** The input-slot interfaces of a node object, and its output
    interfaces. *)
Definition slots_of (h : Heap) (N : Node) : list nat :=
  filter (λ x, holds (λ X, isInput X = true ∧ i_slot X = true) (h_ifaces h !! x))
    (n_interfaces N).

Definition outputs_of (h : Heap) (N : Node) : list nat :=
  filter (λ x, holds (λ X, isInput X = false) (h_ifaces h !! x)) (n_interfaces N).

(** No interface of the node has a predecessor. *)
Definition no_predecessor (h : Heap) (N : Node) : Prop :=
  Forall (λ x, holds (λ X, i_predecessors X = []) (h_ifaces h !! x)) (n_interfaces N).

(** Every occurrence of [e2] in the log comes after an occurrence of
    [e1]. *)
Definition precedes (e1 e2 : event) (log : list event) : Prop :=
  ∀ l1 l2 : list event, log = (l1 ++ e2 :: l2)%list → e1 ∈ l1.

(** How often an event occurs in a log. *)
Definition occurrences (e : event) (log : list event) : nat :=
  List.length (filter (λ x, x = e) log).

(** The pairs that [publish_list] returns for a node object. *)
Definition publish_of (h : Heap) (N : Node) : list (nat * nat) :=
  concat (map (λ i, from_option (λ I, map (λ t, (i, t)) (i_successors I)) []
                      (h_ifaces h !! i))
            (outputs_of h N)).

(** The input nodes among the nodes of a flow. *)
Definition input_nodes_of (f : Flow) (h : Heap) : list nat :=
  filter (λ n, holds (λ N, is_InputNode (n_class N) = true) (h_nodes h !! n)) (nodes f).

(** What [load] leaves of interface [T] when it loads from [I]. *)
Definition loaded (T I : Interface) : Interface :=
  match i_class T with
  | CInterfaceValue => set_value (i_value I) T
  | CInterfaceStream => set_stream (i_stream I) T
  | _ => T
  end.

(** Interface [T] after the predecessor at [i], the object [I], delivered. *)
Definition received (T I : Interface) (i : nat) : Interface :=
  set_readypredecessors ({[i]} ∪ i_readypredecessors T) (loaded T I).

(** All predecessors of [T] have been recorded. *)
Definition all_received (T : Interface) : bool :=
  bool_decide (List.length (i_predecessors T) ≤ size (i_readypredecessors T)).

(** Node [N] after its interface at [t] reported ready, on heap [h]. *)
Definition notified (h : Heap) (N : Node) (t : nat) : Node :=
  let N1 := set_readyinterfaces ({[t]} ∪ n_readyinterfaces N) N in
  if bool_decide (List.length (slots_of h N) ≤ size (n_readyinterfaces N1))
  then set_canRun true N1 else N1.

(** The heap after [t.onContentReady(i)], where [T], [I] and [N] are the
    objects at [t], at [i] and at the node of [T]. *)
Definition delivered (h : Heap) (t i : nat) (T I : Interface) (N : Node) : Heap :=
  let T' := received T I i in
  if all_received T'
  then mkHeap (<[t := T']> (h_ifaces h))
         (<[i_node T := notified h N t]> (h_nodes h))
         (h_next h)
         (h_log h ++ [EvDeliver i t; EvReady (i_node T) t]
            ++ (if bool_decide (List.length (slots_of h N)
                                ≤ size ({[t]} ∪ n_readyinterfaces N))
                then [EvSet (i_node T)] else []))
  else mkHeap (<[t := T']> (h_ifaces h)) (h_nodes h) (h_next h)
         (h_log h ++ [EvDeliver i t]).

(** The heaps that the steps of the runner leave. *)
Definition kicked (h : Heap) (n : nat) (N : Node) : Heap :=
  mkHeap (h_ifaces h) (<[n := set_canRun true N]> (h_nodes h)) (h_next h)
    (h_log h ++ [EvKick n]).

Definition begun (h : Heap) (n : nat) (N : Node) : Heap :=
  mkHeap (h_ifaces h) (<[n := set_running true N]> (h_nodes h)) (h_next h)
    (h_log h ++ [EvBegin n]).

Definition faulted (h : Heap) (ws : list (nat * pyval)) (n : nat) : Heap :=
  mkHeap (h_ifaces (write_values ws h)) (h_nodes (write_values ws h))
    (h_next (write_values ws h)) (h_log (write_values ws h) ++ [EvFault n]).

Definition ended (h : Heap) (ws : list (nat * pyval)) (n : nat) (N : Node) : Heap :=
  mkHeap (h_ifaces (write_values ws h))
    (<[n := set_canRun false (set_running false N)]> (h_nodes h))
    (h_next (write_values ws h)) (h_log h ++ [EvEnd n]).

(** The steps of the runner on a well-formed graph, one constructor for
    each thing a thread does next. *)
Inductive moves (run_body : nat → Heap → outcome) : Runner → Runner → Prop :=
  | mv_spawn f ths n todo h :
      moves run_body (mkRunner f ths (MSpawn (n :: todo)) h)
        (mkRunner f (ths ++ [(n, WWait)]) (MSpawn todo) h)
  | mv_spawned f ths h :
      moves run_body (mkRunner f ths (MSpawn []) h)
        (mkRunner f ths (MKick (input_nodes_of f h)) h)
  | mv_kick f ths n todo h N :
      h_nodes h !! n = Some N → no_predecessor h N →
      moves run_body (mkRunner f ths (MKick (n :: todo)) h)
        (mkRunner f ths (MKick todo) (kicked h n N))
  | mv_skip f ths n todo h N :
      h_nodes h !! n = Some N → ¬ no_predecessor h N →
      moves run_body (mkRunner f ths (MKick (n :: todo)) h)
        (mkRunner f ths (MKick todo) h)
  | mv_kicked f ths h :
      moves run_body (mkRunner f ths (MKick []) h) (mkRunner f ths (MJoin 0) h)
  | mv_join f ths k n w h :
      ths !! k = Some (n, w) → finished w = true →
      moves run_body (mkRunner f ths (MJoin k) h) (mkRunner f ths (MJoin (S k)) h)
  | mv_return f ths k h :
      ths !! k = None →
      moves run_body (mkRunner f ths (MJoin k) h) (mkRunner f ths MDone h)
  | mv_begin f ths m k n h N :
      ths !! k = Some (n, WWait) → h_nodes h !! n = Some N → n_canRun N = true →
      moves run_body (mkRunner f ths m h)
        (mkRunner f (<[k := (n, WRun)]> ths) m (begun h n N))
  | mv_fault f ths m k n h e :
      ths !! k = Some (n, WRun) → o_raises (run_body n h) = Some e →
      moves run_body (mkRunner f ths m h)
        (mkRunner f (<[k := (n, WDead e)]> ths) m
           (faulted h (o_writes (run_body n h)) n))
  | mv_end f ths m k n h N :
      ths !! k = Some (n, WRun) → o_raises (run_body n h) = None →
      h_nodes h !! n = Some N →
      moves run_body (mkRunner f ths m h)
        (mkRunner f (<[k := (n, WPublish (publish_of h N))]> ths) m
           (ended h (o_writes (run_body n h)) n N))
  | mv_deliver f ths m k n i t l h T I N :
      ths !! k = Some (n, WPublish ((i, t) :: l)) →
      h_ifaces h !! t = Some T → h_ifaces h !! i = Some I →
      h_nodes h !! i_node T = Some N →
      i ∈ i_predecessors T → i_node I = n →
      moves run_body (mkRunner f ths m h)
        (mkRunner f (<[k := (n, WPublish l)]> ths) m (delivered h t i T I N))
  | mv_done f ths m k n h :
      ths !! k = Some (n, WPublish []) →
      moves run_body (mkRunner f ths m h)
        (mkRunner f (<[k := (n, WDone)]> ths) m h).

(** A pair of the notifications that remain for the thread of node [n] is
    sound: the target exists and lists the source as a predecessor, and the
    source belongs to [n]. *)
Definition sound_pair (h : Heap) (n : nat) (it : nat * nat) : Prop :=
  holds (λ T, fst it ∈ i_predecessors T) (h_ifaces h !! snd it) ∧
  holds (λ I, i_node I = n) (h_ifaces h !! fst it).

Definition sound_thread (f : Flow) (h : Heap) (nw : nat * wstate) : Prop :=
  fst nw ∈ nodes f ∧
  match snd nw with
  | WPublish l => Forall (sound_pair h (fst nw)) l
  | _ => True
  end.

(** The runner works on a well-formed graph of flow [f], its threads are
    threads of nodes of [f], what they still have to notify is sound, and
    the main thread has not failed. *)
Definition sound (f : Flow) (r : Runner) : Prop :=
  r_flow r = f ∧ wf_graph f (r_heap r) ∧ streams_ok (r_heap r) ∧
  match r_main r with
  | MSpawn todo | MKick todo => todo ⊆ nodes f
  | MDead _ => False
  | _ => True
  end ∧
  Forall (sound_thread f (r_heap r)) (r_threads r).

(** The sum of [g] over a list. *)
Definition total {A} (g : A → nat) (l : list A) : nat := sum_list_with g l.

(** One for a thread of node [n] that got past [canRun.wait()]. *)
Definition past_wait (n : nat) (nw : nat * wstate) : nat :=
  if decide (fst nw = n ∧ snd nw ≠ WWait) then 1 else 0.

(** The event of node [n] is set, or a thread of [n] got past the wait. *)
Definition started (r : Runner) (n : nat) : Prop :=
  holds (λ N, n_canRun N = true) (h_nodes (r_heap r) !! n) ∨
  ∃ k w, r_threads r !! k = Some (n, w) ∧ w ≠ WWait.

(** What holds of the threads and the log of a runner throughout: the
    threads are those of the nodes of the flow, in order; [run()] of a node
    was called once for each of its threads past the wait; a thread that
    notifies or has returned logged the end of [run()]; a thread ended by
    an exception logged the fault of a [run()] that raises. *)
Definition thread_logged (run_body : nat → Heap → outcome) (log : list event)
    (n : nat) (w : wstate) : Prop :=
  match w with
  | WPublish _ | WDone => EvEnd n ∈ log
  | WDead e => EvFault n ∈ log ∧ ∃ h, o_raises (run_body n h) = Some e
  | _ => True
  end.

Definition threads_inv (run_body : nat → Heap → outcome) (f : Flow) (r : Runner) : Prop :=
  match r_main r with
  | MSpawn todo => (fst <$> r_threads r) ++ todo = nodes f
  | _ => fst <$> r_threads r = nodes f
  end ∧
  (∀ n, occurrences (EvBegin n) (h_log (r_heap r)) = total (past_wait n) (r_threads r)) ∧
  (∀ k n w, r_threads r !! k = Some (n, w) →
     thread_logged run_body (h_log (r_heap r)) n w).

(** Node [n1] is an input node without predecessors whose [run()] returns;
    its output interface [a] is the one predecessor of interface [b] of
    node [n2]; no other interface of [n2] has a predecessor, and [n2] has at
    most one input-slot interface; each node is in the flow once. *)
Definition chain (run_body : nat → Heap → outcome) (f : Flow) (h : Heap)
    (n1 n2 a b : nat) : Prop :=
  NoDup (nodes f) ∧ n1 ∈ nodes f ∧ n2 ∈ nodes f ∧
  holds (λ N1, is_InputNode (n_class N1) = true ∧ no_predecessor h N1 ∧
               a ∈ n_interfaces N1) (h_nodes h !! n1) ∧
  holds (λ A, isInput A = false) (h_ifaces h !! a) ∧
  holds (λ N2, List.length (slots_of h N2) ≤ 1 ∧
               Forall (λ x, x = b ∨ holds (λ X, i_predecessors X = []) (h_ifaces h !! x))
                 (n_interfaces N2)) (h_nodes h !! n2) ∧
  holds (λ B, i_predecessors B = [a] ∧ i_node B = n2) (h_ifaces h !! b) ∧
  (∀ h', o_raises (run_body n1 h') = None).

(** What holds of a runner on a chain throughout. *)
Definition chain_inv (n1 n2 a b : nat) (r : Runner) : Prop :=
  precedes (EvDeliver a b) (EvBegin n2) (h_log (r_heap r)) ∧
  precedes (EvEnd n1) (EvDeliver a b) (h_log (r_heap r)) ∧
  (holds (λ N, n_canRun N = true) (h_nodes (r_heap r) !! n2) →
   EvDeliver a b ∈ h_log (r_heap r)) ∧
  match r_main r with
  | MSpawn _ => True
  | MKick todo => n1 ∈ todo ∨ started r n1
  | _ => started r n1
  end ∧
  (∀ k w, r_threads r !! k = Some (n1, w) →
     match w with
     | WPublish l => (a, b) ∈ l ∨ EvDeliver a b ∈ h_log (r_heap r)
     | WDone => EvDeliver a b ∈ h_log (r_heap r)
     | _ => True
     end) ∧
  (EvDeliver a b ∈ h_log (r_heap r) → started r n2).

(** The number of notifications that the thread of node [n] makes. *)
Definition fanout (h : Heap) (n : nat) : nat :=
  from_option (λ N, List.length (publish_of h N)) 0 (h_nodes h !! n).

(** The steps that a thread standing at [w] can still take, for a node of
    fan-out [p]. *)
Definition steps_left (p : nat) (w : wstate) : nat :=
  match w with
  | WWait => p + 3
  | WRun => p + 2
  | WPublish l => List.length l + 1
  | WDone | WDead _ => 0
  end.

(** The steps that a runner can still take, on a graph of the shape of
    [h]. *)
Definition measure (f : Flow) (h : Heap) (r : Runner) : nat :=
  total (λ nw, steps_left (fanout h (fst nw)) (snd nw)) (r_threads r) +
  match r_main r with
  | MSpawn todo =>
      total (λ n, fanout h n + 4) todo + List.length (nodes f)
      + List.length (r_threads r) + List.length todo + 4
  | MKick todo => List.length todo + List.length (r_threads r) + 3
  | MJoin k => (List.length (r_threads r) - k) + 1
  | MDone | MDead _ => 0
  end.

(** A bound on the steps of [Runner.start] on flow [f] and heap [h]. *)
Definition steps_bound (f : Flow) (h : Heap) : nat :=
  measure f h (Runner_start f h).

(** The test of the second loop of [Runner.start] on node [n]: an input
    node no interface of which has a predecessor. *)
Definition startable (h : Heap) (n : nat) : Prop :=
  holds (λ N, is_InputNode (n_class N) = true ∧ no_predecessor h N) (h_nodes h !! n).

(** What holds of the events the main thread sets, throughout. *)
Definition kick_main (f : Flow) (r : Runner) : Prop :=
  match r_main r with
  | MSpawn _ | MDead _ => True
  | MKick todo =>
      (∀ n, n ∈ todo → n ∈ input_nodes_of f (r_heap r)) ∧
      (∀ n, n ∈ nodes f → startable (r_heap r) n →
            n ∈ todo ∨ (EvKick n ∈ h_log (r_heap r) ∧ started r n))
  | MJoin _ | MDone =>
      ∀ n, n ∈ nodes f → startable (r_heap r) n →
           EvKick n ∈ h_log (r_heap r) ∧ started r n
  end.

Definition kick_inv (f : Flow) (r : Runner) : Prop :=
  (∀ n, EvKick n ∈ h_log (r_heap r) → n ∈ nodes f ∧ startable (r_heap r) n) ∧
  kick_main f r.

(** Every notification in the log was made by a thread of the node of its
    source, which is notifying or has returned. *)
Definition publishers_inv (r : Runner) : Prop :=
  ∀ i t, EvDeliver i t ∈ h_log (r_heap r) →
    ∃ I k w, h_ifaces (r_heap r) !! i = Some I ∧
             r_threads r !! k = Some (i_node I, w) ∧
             match w with WPublish _ | WDone => True | _ => False end.

(** *** Saving and loading *)

(** What [exportXml] writes for a successor, an interface and a node, when
    the objects exist. *)
Definition successor_record (h : Heap) (s : nat) : XSuccessor :=
  from_option
    (λ S, mkXSuccessor (from_option n_id "" (h_nodes h !! i_node S)) (i_name S))
    (mkXSuccessor "" "") (h_ifaces h !! s).

Definition interface_record (h : Heap) (I : Interface) : XInterface :=
  mkXInterface (i_name I)
    (if isInput I && isValue I then Some (bool_str (i_slot I)) else None)
    (if isInput I && isValue I && negb (i_slot I)
     then Some (py_str (match i_value I with PNone => PStr "" | v => v end))
     else None)
    (map (successor_record h) (i_successors I)).

Definition node_record (h : Heap) (N : Node) : XNode :=
  mkXNode (n_id N) (classname (n_class N))
    (if negb (empty_ (n_graphicalprops N))
     then map (λ kv, (fst kv, py_str (snd kv))) (n_graphicalprops N) else [])
    (map (λ r, from_option (interface_record h) (mkXInterface "" None None [])
                 (h_ifaces h !! r)) (n_interfaces N)).

Definition document (f : Flow) (h : Heap) : list XNode :=
  map (λ n, from_option (node_record h) (mkXNode "" "" [] []) (h_nodes h !! n)) (nodes f).

(** What identifies an interface for the class that declares it, and the
    same of the object. *)
Definition decl_key (d : idecl) : iclass * string * itype :=
  (d_class d, d_name d, d_type d).

Definition iface_key (I : Interface) : iclass * string * itype :=
  (i_class I, i_name I, i_type I).

(** A flow that [save] and [load] bring back: the ids of its nodes differ
    from each other and none is blank; each node has the interfaces that its
    class declares; each link runs between interfaces of one payload class,
    of two different nodes of the flow. *)
Definition saveable (f : Flow) (h : Heap) : Prop :=
  NoDup (map (λ n, from_option n_id "" (h_nodes h !! n)) (nodes f)) ∧
  Forall (λ n, holds (λ N,
      n_id N ≠ "" ∧
      Forall2 (λ r d, holds (λ I, iface_key I = decl_key d) (h_ifaces h !! r))
        (n_interfaces N) (class_interfaces (n_class N)) ∧
      Forall (λ r, holds (λ X,
          Forall (λ y, holds (λ Y, i_node Y ∈ nodes f ∧ i_node Y ≠ i_node X ∧
                                   i_class Y = i_class X)
                         (h_ifaces h !! y)) (i_successors X))
        (h_ifaces h !! r)) (n_interfaces N))
    (h_nodes h !! n)) (nodes f).

(** The successors of an interface, each as the id of its node and its
    name. *)
Definition link_view (h : Heap) (X : Interface) : list (string * string) :=
  map (λ s, (xs_node (successor_record h s), xs_interface (successor_record h s)))
    (i_successors X).

(** Interface [x'] of heap [h'] stands for interface [x] of heap [h]: the
    same name, class and type, the same successors, and the literal of [x],
    if it holds one, as ["%s"] writes it.  The slot mark of [x'] is set if
    that of [x] is, or if [x] is not a value input; it may be set where
    that of [x] is not. *)
Definition same_iface (h h' : Heap) (x x' : nat) : Prop :=
  ∃ X X', h_ifaces h !! x = Some X ∧ h_ifaces h' !! x' = Some X' ∧
    iface_key X' = iface_key X ∧
    link_view h' X' = link_view h X ∧
    (isInput X && isValue X && negb (i_slot X) = true →
     i_value X' = PStr (py_str (match i_value X with PNone => PStr "" | v => v end))) ∧
    (i_slot X = true ∨ isInput X && isValue X = false → i_slot X' = true).

(** Node [n'] of heap [h'] stands for node [n] of heap [h]. *)
Definition same_node (h h' : Heap) (n n' : nat) : Prop :=
  ∃ N N', h_nodes h !! n = Some N ∧ h_nodes h' !! n' = Some N' ∧
    n_id N' = n_id N ∧ n_class N' = n_class N ∧
    Forall2 (same_iface h h') (n_interfaces N) (n_interfaces N').

(** The graph of flow [f'] on heap [h'] is the graph of [f] on [h]. *)
Definition same_graph (f : Flow) (h : Heap) (f' : Flow) (h' : Heap) : Prop :=
  Forall2 (same_node h h') (nodes f) (nodes f').

(** Heap [h'] has the objects of [h] at every reference below [m]. *)
Definition agree_below (m : nat) (h h' : Heap) : Prop :=
  ∀ r, r < m →
    h_ifaces h' !! r = h_ifaces h !! r ∧ h_nodes h' !! r = h_nodes h !! r.

(** Interface [r] is the one that declaration [d] makes on node [n]. *)
Definition declared (h : Heap) (n r : nat) (d : idecl) : Prop :=
  holds (λ I, iface_key I = decl_key d ∧ i_node I = n) (h_ifaces h !! r).

(** Node [n] is the one made for the element [X]. *)
Definition made_from (h : Heap) (n : nat) (X : XNode) : Prop :=
  ∃ N c, h_nodes h !! n = Some N ∧ n_id N = xn_id X ∧
    class_of_name (xn_type X) = Some c ∧ n_class N = c ∧
    NoDup (n_interfaces N) ∧
    Forall2 (declared h n) (n_interfaces N) (class_interfaces c).

(** Interface [r] has no successor yet. *)
Definition pending (h : Heap) (r : nat) : Prop :=
  holds (λ I, i_successors I = []) (h_ifaces h !! r).

(** Node [n] as the first loop of [importXml] leaves it. *)
Definition built (h : Heap) (n : nat) (X : XNode) : Prop :=
  made_from h n X ∧ n < h_next h ∧
  holds (λ N, Forall (λ r, r < h_next h ∧ pending h r) (n_interfaces N))
    (h_nodes h !! n).

(** What the second loop of [importXml] never changes of an interface, and
    what it sets; an interface that it leaves alone keeps its successors and
    its value, and its slot mark if the mark is set. *)
Definition static_part (I : Interface) : iclass * string * itype * nat :=
  (iface_key I, i_node I).

Definition same_static (h h' : Heap) : Prop :=
  h_nodes h' = h_nodes h ∧
  ∀ r, static_part <$> h_ifaces h' !! r = static_part <$> h_ifaces h !! r.

Definition contents (I : Interface) : list nat * pyval :=
  (i_successors I, i_value I).

Definition untouched (h h' : Heap) (r : nat) : Prop :=
  contents <$> h_ifaces h' !! r = contents <$> h_ifaces h !! r ∧
  (holds (λ I, i_slot I = true) (h_ifaces h !! r) →
   holds (λ I, i_slot I = true) (h_ifaces h' !! r)).

(** Interface [r] holds what the element [xi] says: its successors, and its
    literal if it is a value input that is not a slot.  Its slot mark is
    set, unless it is a value input that [xi] does not mark as a slot. *)
Definition imported_iface (h : Heap) (r : nat) (xi : XInterface) : Prop :=
  holds (λ I, map (successor_record h) (i_successors I) = xi_successors xi ∧
              (isInput I && isValue I = true →
               lower (getAttribute (xi_slot xi)) ≠ "true" →
               i_value I = PStr (getAttribute (xi_value xi))) ∧
              (i_slot I = true ∨
               (isInput I && isValue I = true ∧
                lower (getAttribute (xi_slot xi)) ≠ "true")))
    (h_ifaces h !! r).

(** A document that [importXml] reads to the end: the ids are not blank and
    differ from each other, each node has a class of the module and the
    interfaces of that class, and each successor names an interface of the
    same payload class on another node of the document. *)
Definition doc_node_ok (x : list XNode) (X : XNode) : Prop :=
  xn_id X ≠ "" ∧
  ∃ c, class_of_name (xn_type X) = Some c ∧
    xi_name <$> xn_interfaces X = d_name <$> class_interfaces c ∧
    ∀ j xi d s, xn_interfaces X !! j = Some xi → class_interfaces c !! j = Some d →
      s ∈ xi_successors xi →
      ∃ Y cY d', Y ∈ x ∧ xn_id Y = xs_node s ∧ xn_id Y ≠ xn_id X ∧
        class_of_name (xn_type Y) = Some cY ∧ d' ∈ class_interfaces cY ∧
        d_name d' = xs_interface s ∧ d_class d' = d_class d.

Definition doc_ok (x : list XNode) : Prop :=
  NoDup (xn_id <$> x) ∧ Forall (doc_node_ok x) x.

(** From [h] to [h'] the second loop has run on interfaces in [P] only. *)
Definition touches (P : nat → Prop) (h h' : Heap) : Prop :=
  same_static h h' ∧ ∀ r, ¬ P r → untouched h h' r.

(** *** The text of a file *)

(** A printable ASCII character, and a text of such characters. *)
Definition plain_char (c : Ascii.ascii) : Prop :=
  32 ≤ Ascii.nat_of_ascii c ∧ Ascii.nat_of_ascii c ≤ 126.

Definition plain_text (s : string) : Prop :=
  Forall plain_char (String.list_ascii_of_string s).

Definition plain_attr (a : option string) : Prop :=
  match a with Some s => plain_text s | None => True end.

Global Instance plain_attr_dec a : Decision (plain_attr a).
Proof. destruct a; simpl; apply _. Defined.

(** A document all of whose attribute values are plain texts. *)
Definition plain_successor (s : XSuccessor) : Prop :=
  plain_text (xs_node s) ∧ plain_text (xs_interface s).

Definition plain_interface (xi : XInterface) : Prop :=
  plain_text (xi_name xi) ∧ plain_attr (xi_slot xi) ∧ plain_attr (xi_value xi) ∧
  Forall plain_successor (xi_successors xi).

Definition plain_node (X : XNode) : Prop :=
  plain_text (xn_id X) ∧ plain_text (xn_type X) ∧
  Forall (λ kv, plain_text (fst kv) ∧ plain_text (snd kv)) (xn_graphproperties X) ∧
  Forall plain_interface (xn_interfaces X).

Definition plain_doc (x : list XNode) : Prop := Forall plain_node x.

(** Writing a plain document and parsing the text gives the document
    back. *)
Definition reads_plain (reread : list XNode → option (list XNode)) : Prop :=
  ∀ x, plain_doc x → reread x = Some x.

(** *** The registry of a flow *)

(** The ids of the nodes of a flow, in order. *)
Definition flow_ids (f : Flow) (h : Heap) : list string :=
  map (λ n, from_option n_id "" (h_nodes h !! n)) (nodes f).

(** The [k]-th id that [randomId] tries after the label itself. *)
Definition numbered (lbl : string) (k : nat) : string :=
  lbl +:+ "-" +:+ pretty k.

(** *** The neighbours of a node *)

(** Node [m] owns an interface that the links [sel] of an interface of
    [N] name. *)
Definition linked_to (sel : Interface → list nat) (h : Heap) (N : Node) (m : nat) : Prop :=
  ∃ x X y Y, x ∈ n_interfaces N ∧ h_ifaces h !! x = Some X ∧
             y ∈ sel X ∧ h_ifaces h !! y = Some Y ∧ i_node Y = m.

(** *** Construction *)

(** The interface that [new_Interface] makes for declaration [d] on node
    [n], at reference [r]. *)
Definition fresh_iface (n r : nat) (d : idecl) : Interface :=
  mkInterface (d_class d) n (d_name d) [] [] (d_type d) (d_slot d) (d_default d)
    (if bool_decide (d_class d = CInterfaceValue) then PNone else d_default d)
    (if bool_decide (d_class d = CInterfaceStream) then Some r else None)
    ∅.

(** Every reference in use is below the next free one. *)
Definition below_next (h : Heap) : Prop :=
  map_Forall (λ r _, r < h_next h) (h_nodes h) ∧
  map_Forall (λ r _, r < h_next h) (h_ifaces h).

(** *** The runner, on any flow *)

(** The main thread has joined the threads before the one it waits for,
    and all of them once it has returned. *)
Definition join_inv (r : Runner) : Prop :=
  match r_main r with
  | MJoin k => ∀ k' n w, k' < k → r_threads r !! k' = Some (n, w) → finished w = true
  | MDone => ∀ k' n w, r_threads r !! k' = Some (n, w) → finished w = true
  | _ => True
  end.

(** The end of a [run()], by return or by exception, comes after its
    beginning. *)
Definition order_inv (r : Runner) : Prop :=
  ∀ n, precedes (EvBegin n) (EvEnd n) (h_log (r_heap r)) ∧
       precedes (EvBegin n) (EvFault n) (h_log (r_heap r)).

(** Interface [t] belongs to node [n] and has [i] among its
    predecessors. *)
Definition fed_by (h : Heap) (n i t : nat) : Prop :=
  holds (λ T, i_node T = n ∧ i ∈ i_predecessors T) (h_ifaces h !! t).

(** What let node [n] past its wait: the main thread set its event, or a
    predecessor of one of its interfaces delivered. *)
Definition signalled (h : Heap) (log : list event) (n : nat) : Prop :=
  EvKick n ∈ log ∨ ∃ i t, fed_by h n i t ∧ EvDeliver i t ∈ log.

(** The event of a node is set, and its [run()] called, only after it was
    signalled. *)
Definition gate_inv (h : Heap) (r : Runner) : Prop :=
  ∀ n, holds (λ N, n_canRun N = true) (h_nodes (r_heap r) !! n) ∨
       EvBegin n ∈ h_log (r_heap r) →
       signalled h (h_log (r_heap r)) n.

(** What the counting of deliveries reads and writes of an interface. *)
Definition ready_part (I : Interface) : nat * list nat * gset nat :=
  (i_node I, i_predecessors I, i_readypredecessors I).

(** An interface has recorded only predecessors that delivered to it, and
    a node was told of an interface of its own, which has a predecessor,
    when the interface had recorded as many as it has predecessors. *)
Definition ready_inv (h : Heap) : Prop :=
  (∀ t T i, h_ifaces h !! t = Some T → i ∈ i_readypredecessors T →
            i ∈ i_predecessors T ∧ EvDeliver i t ∈ h_log h) ∧
  (∀ n t, EvReady n t ∈ h_log h →
          holds (λ T, i_node T = n ∧ i_predecessors T ≠ [] ∧
                      List.length (i_predecessors T) ≤ size (i_readypredecessors T))
            (h_ifaces h !! t)).

(** Node [n] is marked as running and its event is set. *)
Definition busy (h : Heap) (n : nat) : Prop :=
  holds (λ N, n_running N = true ∧ n_canRun N = true) (h_nodes h !! n).

(** The node of a thread that is inside [run()], or that an exception
    ended, is marked as running and its event is set. *)
Definition busy_inv (r : Runner) : Prop :=
  ∀ k n w, r_threads r !! k = Some (n, w) →
    match w with
    | WRun | WDead _ => busy (r_heap r) n
    | _ => True
    end.

(** What holds of a runner throughout, whatever the flow. *)
Definition runner_inv (run_body : nat → Heap → outcome) (f : Flow) (h : Heap)
    (r : Runner) : Prop :=
  threads_inv run_body f r ∧ join_inv r ∧ order_inv r ∧ gate_inv h r ∧
  kick_inv f r ∧ same_shape h (r_heap r).

(** *** Reading a document that cannot be read to the end *)

(** A computation that leaves the nodes as they are, whether it returns or
    raises. *)
Definition keeps_nodes {A} (m : M Heap A) : Prop :=
  ∀ h, h_nodes (snd (m h)) = h_nodes h.

(** *** A value on its way *)

(** The interface at [x] holds the value [val]. *)
Definition value_at (h : Heap) (x : nat) (val : pyval) : Prop :=
  holds (λ X, i_value X = val) (h_ifaces h !! x).

(** Node [n1] is a [ValueInputNode] with its parameter [v] and its output
    [a]; neither has a predecessor; [a] is the one predecessor of the value
    interface [b]. *)
Definition feeds (h : Heap) (n1 v a b : nat) : Prop :=
  holds (λ N1, n_class N1 = CValueInputNode ∧ n_interfaces N1 = [v; a])
    (h_nodes h !! n1) ∧
  holds (λ V, i_name V = "value" ∧ i_predecessors V = []) (h_ifaces h !! v) ∧
  holds (λ A, i_name A = "out" ∧ i_predecessors A = []) (h_ifaces h !! a) ∧
  holds (λ B, i_class B = CInterfaceValue ∧ i_predecessors B = [a]) (h_ifaces h !! b).

(** On the heaps of the shape of [h], each [run()] assigns only interfaces
    of its own node, and none assigns [b]. *)
Definition assigns_own (run_body : nat → Heap → outcome) (h : Heap) (b : nat) : Prop :=
  ∀ n h' x w, same_shape h h' → (x, w) ∈ o_writes (run_body n h') →
    x ≠ b ∧ holds (λ X, i_node X = n) (h_ifaces h !! x).

(** The value [val] of the parameter [v] stays; it is in the output [a]
    once [run()] of [n1] has returned, and in [b] once [a] has delivered to
    [b]. *)
Definition value_inv (n1 v a b : nat) (val : pyval) (h : Heap) : Prop :=
  value_at h v val ∧
  (EvEnd n1 ∈ h_log h → value_at h a val) ∧
  (EvDeliver a b ∈ h_log h → value_at h b val).

(** The name of the interface that the [run()] of a class assigns. *)
Definition assigned_name (c : nclass) : option string :=
  match c with
  | CValueInputNode => Some "out"
  | CProcessNode => Some "result"
  | CCommandLineParameterInputNode => Some "value"
  | _ => None
  end.

(** * Properties *)

(** ** Unfolding the monad *)

Lemma bind_ok {S A B} (m : M S A) (k : A -> M S B) s a s' :
  m s = (Ok a, s') → bind m k s = k a s'.
Proof. intros H. unfold bind. by rewrite H. Qed.

Lemma bind_raise {S A B} (m : M S A) (k : A -> M S B) s e s' :
  m s = (Raise e, s') → bind m k s = (Raise e, s').
Proof. intros H. unfold bind. by rewrite H. Qed.

Lemma get_iface_ok h r i : h_ifaces h !! r = Some i → get_iface r h = (Ok i, h).
Proof. intros H. unfold get_iface. by rewrite H. Qed.

Lemma get_node_ok h r n : h_nodes h !! r = Some n → get_node r h = (Ok n, h).
Proof. intros H. unfold get_node. by rewrite H. Qed.

Lemma upd_iface_ok h r f i :
  h_ifaces h !! r = Some i →
  upd_iface r f h = (Ok tt, mkHeap (<[r := f i]> (h_ifaces h)) (h_nodes h) (h_next h) (h_log h)).
Proof. intros H. unfold upd_iface. by rewrite H. Qed.

Lemma upd_node_ok h r f n :
  h_nodes h !! r = Some n →
  upd_node r f h = (Ok tt, mkHeap (h_ifaces h) (<[r := f n]> (h_nodes h)) (h_next h) (h_log h)).
Proof. intros H. unfold upd_node. by rewrite H. Qed.

(** ** Connections *)

(** [canConnectTo] on two allocated interfaces: they are distinct objects of
    distinct nodes, and both derive from one of the three payload classes. *)
Lemma canConnectTo_spec h a b A B :
  h_ifaces h !! a = Some A → h_ifaces h !! b = Some B →
  canConnectTo a b h =
    (Ok (negb (bool_decide (a = b) || bool_decide (i_node A = i_node B))
         && bool_decide (i_class A = i_class B ∧ i_class A ≠ CInterface)), h).
Proof.
  intros Ha Hb. unfold canConnectTo.
  rewrite (bind_ok _ _ _ _ _ (get_iface_ok _ _ _ Ha)).
  rewrite (bind_ok _ _ _ _ _ (get_iface_ok _ _ _ Hb)).
  destruct (bool_decide (a = b) || bool_decide (i_node A = i_node B)); [done|].
  unfold ret. do 2 f_equal.
  destruct (i_class A), (i_class B); reflexivity.
Qed.

(** [addSuccessor] when [canConnectTo] holds: one entry more at the end of
    each list, nothing else touched. *)
Lemma addSuccessor_ok h a b A B :
  h_ifaces h !! a = Some A → h_ifaces h !! b = Some B →
  a ≠ b → i_node A ≠ i_node B →
  i_class A = i_class B → i_class A ≠ CInterface →
  addSuccessor a b h =
    (Ok tt, mkHeap (<[b := set_predecessors (i_predecessors B ++ [a]) B]>
                     (<[a := set_successors (i_successors A ++ [b]) A]> (h_ifaces h)))
                   (h_nodes h) (h_next h) (h_log h)).
Proof.
  intros Ha Hb Hab Hn Hc Hk. unfold addSuccessor.
  rewrite (bind_ok _ _ _ _ _ (canConnectTo_spec _ _ _ _ _ Ha Hb)).
  rewrite !bool_decide_eq_false_2 by done.
  rewrite bool_decide_eq_true_2 by done. simpl.
  rewrite (bind_ok _ _ _ _ _ (upd_iface_ok _ _ _ _ Ha)).
  unfold upd_iface. simpl. rewrite lookup_insert_ne by done. by rewrite Hb.
Qed.

(** C4: an output-like interface and an input-like interface of different
    nodes, of the same payload class (value, stream or list), connect: both
    [addSuccessor] and [Flow.addConnector] return, and afterwards the target
    is among the successors of the source and the source among the
    predecessors of the target. *)
Theorem connect_compatible_succeeds (h : Heap) (a b : nat) (A B : Interface) :
  h_ifaces h !! a = Some A → h_ifaces h !! b = Some B →
  isInput A = false → isInput B = true →
  i_node A ≠ i_node B →
  i_class A = i_class B → i_class A ≠ CInterface →
  ∃ h' A' B',
    addSuccessor a b h = (Ok tt, h') ∧
    (∀ f, addConnector a b (f, h) = (Ok tt, (set_modified true f, h'))) ∧
    h_ifaces h' !! a = Some A' ∧ h_ifaces h' !! b = Some B' ∧
    b ∈ i_successors A' ∧ a ∈ i_predecessors B'.
Proof.
  intros Ha Hb _ _ Hn Hc Hk.
  assert (a ≠ b) as Hab by (intros ->; congruence).
  pose proof (addSuccessor_ok _ _ _ _ _ Ha Hb Hab Hn Hc Hk) as Hadd.
  eexists _, _, _. split; [exact Hadd|]. split; [|split; [|split; [|split]]].
  - intros f. unfold addConnector, bind, upd_flow, modify, lift_h. simpl.
    by rewrite Hadd.
  - simpl. rewrite lookup_insert_ne by done. apply lookup_insert_eq.
  - simpl. apply lookup_insert_eq.
  - simpl. set_solver.
  - simpl. set_solver.
Qed.

Lemma connect_compatible_succeeds_witness :
  ∃ h' A' B',
    addSuccessor 2 7 Examples.value_and_process = (Ok tt, h') ∧
    (∀ f, addConnector 2 7 (f, Examples.value_and_process)
          = (Ok tt, (set_modified true f, h'))) ∧
    h_ifaces h' !! 2 = Some A' ∧ h_ifaces h' !! 7 = Some B' ∧
    7 ∈ i_successors A' ∧ 2 ∈ i_predecessors B'.
Proof.
  eapply (connect_compatible_succeeds Examples.value_and_process 2 7);
    [vm_compute; reflexivity | vm_compute; reflexivity
    | reflexivity | reflexivity | simpl; lia | reflexivity | discriminate].
Defined.

(** C3: an input-like interface connects to an input-like interface.  The
    [value] parameter of the [ValueInputNode] and the [cmd] parameter of the
    [ProcessNode] are both input-like value interfaces of different nodes,
    and [addSuccessor] links them without raising. *)
Theorem input_connects_to_input :
  ∃ A B h',
    h_ifaces Examples.value_and_process !! 1 = Some A ∧
    h_ifaces Examples.value_and_process !! 7 = Some B ∧
    isInput A = true ∧ isInput B = true ∧
    i_node A ≠ i_node B ∧ i_class A = i_class B ∧
    addSuccessor 1 7 Examples.value_and_process = (Ok tt, h') ∧
    (i_successors <$> h_ifaces h' !! 1) = Some [7].
Proof.
  eexists _, _, _.
  split; [vm_compute; reflexivity|]. split; [vm_compute; reflexivity|].
  split; [reflexivity|]. split; [reflexivity|]. split; [simpl; lia|].
  split; [reflexivity|]. split; [vm_compute; reflexivity|].
  vm_compute; reflexivity.
Qed.

(** [addSuccessor] leaves the slot flag of every interface as it was. *)
Lemma addSuccessor_keeps_slot h a b r h' x :
  addSuccessor a b h = (r, h') →
  (i_slot <$> h_ifaces h' !! x) = (i_slot <$> h_ifaces h !! x).
Proof.
  unfold addSuccessor, canConnectTo, bind, get_iface, upd_iface, ret, raise.
  intros H.
  destruct (h_ifaces h !! a) as [A|] eqn:Ha; [|by inversion H].
  destruct (h_ifaces h !! b) as [B|] eqn:Hb; [|by inversion H].
  destruct (bool_decide (a = b) || bool_decide (i_node A = i_node B));
    [by inversion H|].
  destruct (existsb _ _); cbn [negb] in H; [|by inversion H].
  rewrite Ha in H. cbn [h_ifaces] in H.
  destruct (decide (b = a)) as [->|Hne].
  - rewrite lookup_insert_eq in H. inversion H; subst; simpl.
    destruct (decide (x = a)) as [->|Hx].
    + rewrite lookup_insert_eq, Ha. done.
    + by rewrite !lookup_insert_ne by done.
  - rewrite lookup_insert_ne in H by done. rewrite Hb in H.
    inversion H; subst; simpl.
    destruct (decide (x = b)) as [->|Hx].
    + rewrite lookup_insert_eq, Hb. done.
    + rewrite lookup_insert_ne by done.
      destruct (decide (x = a)) as [->|Hx'].
      * rewrite lookup_insert_eq, Ha. done.
      * by rewrite lookup_insert_ne by done.
Qed.

(** C5: a connection that succeeds leaves the target without the slot mark.
    The [out] of the [ValueInputNode] connects to the [cmd] parameter of the
    [ProcessNode], made with [slot=False]; [Flow.addConnector] returns, the
    link is there, and [cmd.slot] is still [False]. *)
Theorem connect_leaves_slot_unmarked :
  ∃ f' h',
    addConnector 2 7 (new_Flow, Examples.value_and_process) = (Ok tt, (f', h')) ∧
    (i_predecessors <$> h_ifaces h' !! 7) = Some [2] ∧
    (i_slot <$> h_ifaces h' !! 7) = Some false.
Proof.
  eexists _, _. split; [vm_compute; reflexivity|].
  split; vm_compute; reflexivity.
Qed.

(** C7: [addNode] takes a node whose id is already in the flow.  The flow
    holds a node with the id [foo]; adding a second node with the id [foo]
    returns, and the flow then has two nodes with that id. *)
Theorem addNode_accepts_duplicate_id :
  node_ids Examples.flow_foo Examples.two_foo = (Ok ["foo"], Examples.two_foo) ∧
  (n_id <$> h_nodes Examples.two_foo !! 1) = Some "foo" ∧
  ∃ f',
    addNode 1 (Examples.flow_foo, Examples.two_foo) = (Ok tt, (f', Examples.two_foo)) ∧
    node_ids f' Examples.two_foo = (Ok ["foo"; "foo"], Examples.two_foo).
Proof.
  split; [vm_compute; reflexivity|]. split; [vm_compute; reflexivity|].
  eexists. split; vm_compute; reflexivity.
Qed.

(** ** The modification flag *)

Lemma lift_h_flow {A} (m : M Heap A) f h : fst (snd (lift_h m (f, h))) = f.
Proof. unfold lift_h. simpl. by destruct (m h). Qed.

Lemma step_flow run_body t r r' : step run_body t r = Some r' → r_flow r' = r_flow r.
Proof.
  destruct t as [|k]; simpl.
  - unfold step_main. intros H.
    repeat (match type of H with
            | context [match ?x with _ => _ end] => destruct x eqn:?
            end; try discriminate); by inversion H.
  - intros H.
    repeat (match type of H with
            | context [match ?x with _ => _ end] => destruct x eqn:?
            end; try discriminate); by inversion H.
Qed.

Lemma exec_flow run_body sched r r' :
  exec run_body sched r = Some r' → r_flow r' = r_flow r.
Proof.
  revert r. induction sched as [|t sched IH]; intros r; simpl.
  - by intros [= <-].
  - destruct (step run_body t r) as [r1|] eqn:Hs; [|done].
    intros H. rewrite (IH _ H). by eapply step_flow.
Qed.

(** C10: the four mutations of the graph leave [modified] true, also when
    they raise; [save] and [load] that return leave it false; the runner
    never touches the flow.  The remaining methods of [Flow], [Node] and
    [Interface] read the flow at most: they are computations on the heap
    alone. *)
Theorem modified_flag_discipline :
  (∀ n f h, modified (fst (snd (addNode n (f, h)))) = true) ∧
  (∀ n f h, modified (fst (snd (removeNode n (f, h)))) = true) ∧
  (∀ a b f h, modified (fst (snd (addConnector a b (f, h)))) = true) ∧
  (∀ a b f h, modified (fst (snd (removeConnector a b (f, h)))) = true) ∧
  (∀ reread writable fs fname f h fs' f' h',
      Flow_save reread writable fs fname (f, h) = (Ok fs', (f', h')) →
      modified f' = false) ∧
  (∀ atoi fs fname h f' h',
      Flow_load atoi fs fname h = (Ok f', h') → modified f' = false) ∧
  (∀ run_body sched r r',
      exec run_body sched r = Some r' → r_flow r' = r_flow r).
Proof.
  split; [|split; [|split; [|split; [|split; [|split]]]]].
  - intros. reflexivity.
  - intros n f h. unfold removeNode, bind, upd_flow, modify, get, raise. simpl.
    by destruct (list_remove n (nodes f)).
  - intros a b f h. unfold addConnector, bind, upd_flow, modify. simpl.
    by rewrite lift_h_flow.
  - intros a b f h. unfold removeConnector, bind, upd_flow, modify. simpl.
    by rewrite lift_h_flow.
  - intros reread writable fs fname f h fs' f' h'.
    unfold Flow_save, bind, get, upd_flow, modify, raise, ret, lift_h. simpl.
    destruct (exportXml f h) as [[xml|e] h1]; [|done].
    destruct (match fname with Some n => Some n | None => filename f end) as [n|];
      [|done].
    destruct (writable n); [|done].
    by intros [= _ <- _].
  - intros atoi fs fname h f' h'. unfold Flow_load, bind, raise, ret.
    destruct (fs !! fname) as [[content|]|]; [|done|done].
    destruct (importXml atoi content h) as [[f1|e] h1]; [|done].
    by intros [= <- _].
  - intros. by eapply exec_flow.
Qed.

Lemma modified_flag_discipline_witness :
  modified Examples.flow_foo = true ∧
  ∃ fs' f' h',
    Flow_save Examples.parsed_back Examples.can_open ∅ (Some "foo.xml")
      (Examples.flow_foo, Examples.two_foo)
      = (Ok fs', (f', h')) ∧
    modified f' = false.
Proof.
  split; [reflexivity|].
  destruct modified_flag_discipline as (_ & _ & _ & _ & Hsave & _).
  eexists _, _, _. split; [vm_compute; reflexivity|].
  eapply (Hsave Examples.parsed_back Examples.can_open ∅ (Some "foo.xml")
            Examples.flow_foo Examples.two_foo).
  vm_compute; reflexivity.
Defined.

(** ** The shape of the heap *)

Lemma holds_Some {A} (P : A → Prop) o : holds P o ↔ ∃ a, o = Some a ∧ P a.
Proof.
  destruct o as [a|]; simpl; split.
  - intros H. by exists a.
  - by intros (b & [= ->] & H).
  - done.
  - by intros (b & ? & _).
Qed.

Lemma same_shape_refl h : same_shape h h.
Proof. by split. Qed.

Lemma same_shape_trans h1 h2 h3 :
  same_shape h1 h2 → same_shape h2 h3 → same_shape h1 h3.
Proof.
  intros [Hi1 Hn1] [Hi2 Hn2]. split; intros r.
  - by rewrite Hi2, Hi1.
  - by rewrite Hn2, Hn1.
Qed.

Lemma shape_iface h h' x X :
  same_shape h h' → h_ifaces h !! x = Some X →
  ∃ X', h_ifaces h' !! x = Some X' ∧ iface_shape X' = iface_shape X.
Proof.
  intros [Hi _] Hx. specialize (Hi x). rewrite Hx in Hi.
  destruct (h_ifaces h' !! x) as [X'|]; [|done].
  exists X'. split; [done|]. simpl in Hi. congruence.
Qed.

Lemma shape_node h h' n N :
  same_shape h h' → h_nodes h !! n = Some N →
  ∃ N', h_nodes h' !! n = Some N' ∧ node_shape N' = node_shape N.
Proof.
  intros [_ Hn] Hx. specialize (Hn n). rewrite Hx in Hn.
  destruct (h_nodes h' !! n) as [N'|]; [|done].
  exists N'. split; [done|]. simpl in Hn. congruence.
Qed.

Lemma same_shape_sym h h' : same_shape h h' → same_shape h' h.
Proof. intros [Hi Hn]. split; intros r; by rewrite ?Hi, ?Hn. Qed.

(** A property of the shape carries over to a heap of the same shape. *)
Lemma holds_shape_iface (P Q : Interface → Prop) h h' x :
  (∀ X X', iface_shape X' = iface_shape X → P X → Q X') →
  same_shape h h' → holds P (h_ifaces h !! x) → holds Q (h_ifaces h' !! x).
Proof.
  intros HP Hs. rewrite !holds_Some. intros (X & HX & HPX).
  destruct (shape_iface _ _ _ _ Hs HX) as (X' & HX' & Heq). eauto.
Qed.

Lemma holds_shape_node (P Q : Node → Prop) h h' x :
  (∀ X X', node_shape X' = node_shape X → P X → Q X') →
  same_shape h h' → holds P (h_nodes h !! x) → holds Q (h_nodes h' !! x).
Proof.
  intros HP Hs. rewrite !holds_Some. intros (X & HX & HPX).
  destruct (shape_node _ _ _ _ Hs HX) as (X' & HX' & Heq). eauto.
Qed.

Lemma wf_graph_shape f h h' : same_shape h h' → wf_graph f h → wf_graph f h'.
Proof.
  intros Hs (W1 & W2 & W3 & W4 & W5).
  pose proof (same_shape_sym _ _ Hs) as Hs'.
  split; [|split; [|split; [|split]]].
  - eapply Forall_impl; [exact W1|]. intros n [N HN].
    destruct (shape_node _ _ _ _ Hs HN) as (N' & -> & _). by eexists.
  - intros n N' HN'.
    destruct (shape_node _ _ _ _ Hs' HN') as (N & HN & Heq).
    specialize (W2 n N HN). simpl in W2.
    assert (n_interfaces N' = n_interfaces N) as -> by (inversion Heq; congruence).
    eapply Forall_impl; [exact W2|]. intros x Hx. simpl in Hx.
    eapply holds_shape_iface; [|exact Hs|exact Hx].
    intros X X' HX. inversion HX. congruence.
  - intros x X' HX'.
    destruct (shape_iface _ _ _ _ Hs' HX') as (X & HX & Heq).
    specialize (W3 x X HX). simpl in W3.
    assert (i_node X' = i_node X) as -> by (inversion Heq; congruence).
    eapply holds_shape_node; [|exact Hs|exact W3].
    intros N N' HN. inversion HN. congruence.
  - intros x X' HX'.
    destruct (shape_iface _ _ _ _ Hs' HX') as (X & HX & Heq).
    specialize (W4 x X HX). simpl in W4.
    assert (i_successors X' = i_successors X) as -> by (inversion Heq; congruence).
    eapply Forall_impl; [exact W4|]. intros y Hy. simpl in Hy.
    eapply holds_shape_iface; [|exact Hs|exact Hy].
    intros Y Y' HY [H1 H2]. inversion HY. inversion Heq.
    split; [congruence|]. intros Hc. rewrite <- H2; congruence.
  - intros y Y' HY'.
    destruct (shape_iface _ _ _ _ Hs' HY') as (Y & HY & Heq).
    specialize (W5 y Y HY). simpl in W5.
    assert (i_predecessors Y' = i_predecessors Y) as -> by (inversion Heq; congruence).
    eapply Forall_impl; [exact W5|]. intros x Hx. simpl in Hx.
    eapply holds_shape_iface; [|exact Hs|exact Hx].
    intros X X' HX. inversion HX. congruence.
Qed.

(** The heap updates of the runner keep the shape. *)
Lemma shape_insert_iface h r I I' nodes' next' log' :
  h_ifaces h !! r = Some I → iface_shape I' = iface_shape I →
  (∀ n, node_shape <$> nodes' !! n = node_shape <$> h_nodes h !! n) →
  same_shape h (mkHeap (<[r := I']> (h_ifaces h)) nodes' next' log').
Proof.
  intros Hr Heq Hn. split; simpl; [|done].
  intros x. destruct (decide (x = r)) as [->|Hne].
  - rewrite lookup_insert_eq, Hr. simpl. by rewrite Heq.
  - by rewrite lookup_insert_ne.
Qed.

Lemma shape_insert_node h r N N' ifaces' next' log' :
  h_nodes h !! r = Some N → node_shape N' = node_shape N →
  (∀ x, iface_shape <$> ifaces' !! x = iface_shape <$> h_ifaces h !! x) →
  same_shape h (mkHeap ifaces' (<[r := N']> (h_nodes h)) next' log').
Proof.
  intros Hr Heq Hn. split; simpl; [done|].
  intros x. destruct (decide (x = r)) as [->|Hne].
  - rewrite lookup_insert_eq, Hr. simpl. by rewrite Heq.
  - by rewrite lookup_insert_ne.
Qed.

Lemma write_values_shape ws h : same_shape h (write_values ws h).
Proof.
  revert h. induction ws as [|[r v] ws IH]; intros h; simpl.
  - apply same_shape_refl.
  - eapply same_shape_trans; [|apply IH].
    split; simpl; [|done]. intros x. rewrite lookup_alter.
    case_decide; [|done]. subst. by destruct (h_ifaces h !! x).
Qed.

Lemma write_values_nodes ws h : h_nodes (write_values ws h) = h_nodes h.
Proof. revert h. induction ws as [|[r v] ws IH]; intros h; simpl; [done|]. by rewrite IH. Qed.

Lemma write_values_log ws h : h_log (write_values ws h) = h_log h.
Proof. revert h. induction ws as [|[r v] ws IH]; intros h; simpl; [done|]. by rewrite IH. Qed.

(** ** The reading methods on a heap where the objects exist *)

Lemma map_M_pairs_ifaces h l :
  Forall (λ x, is_Some (h_ifaces h !! x)) l →
  map_M (fun r => do! i <- get_iface r; ret (r, i)) l h
  = (Ok (omap (λ r, pair r <$> h_ifaces h !! r) l), h).
Proof.
  induction 1 as [|x l [X HX] Hl IH]; [done|].
  cbn [map_M].
  erewrite bind_ok; [|erewrite bind_ok; [reflexivity|by apply get_iface_ok]].
  erewrite bind_ok; [|exact IH]. simpl. by rewrite HX.
Qed.

Lemma map_M_pairs_nodes h l :
  Forall (λ x, is_Some (h_nodes h !! x)) l →
  map_M (fun r => do! n <- get_node r; ret (r, n)) l h
  = (Ok (omap (λ r, pair r <$> h_nodes h !! r) l), h).
Proof.
  induction 1 as [|x l [X HX] Hl IH]; [done|].
  cbn [map_M].
  erewrite bind_ok; [|erewrite bind_ok; [reflexivity|by apply get_node_ok]].
  erewrite bind_ok; [|exact IH]. simpl. by rewrite HX.
Qed.

Lemma filter_pairs {A} (m : gmap nat A) (p : A → bool) l :
  map fst (filter (λ ri : nat * A, p (snd ri) = true) (omap (λ r, pair r <$> m !! r) l))
  = filter (λ x, holds (λ X, p X = true) (m !! x)) l.
Proof.
  induction l as [|x l IH]; [done|].
  rewrite filter_cons.
  change (omap (λ r, pair r <$> m !! r) (x :: l)) with
    (match pair x <$> m !! x with
     | Some y => y :: omap (λ r, pair r <$> m !! r) l
     | None => omap (λ r, pair r <$> m !! r) l
     end).
  destruct (m !! x) as [X|] eqn:HX; simpl.
  - rewrite filter_cons. simpl.
    destruct (decide (p X = true)); simpl; by rewrite IH.
  - exact IH.
Qed.

Lemma filter_ifaces_ok p h l :
  Forall (λ x, is_Some (h_ifaces h !! x)) l →
  filter_ifaces p l h
  = (Ok (filter (λ x, holds (λ X, p X = true) (h_ifaces h !! x)) l), h).
Proof.
  intros Hl. unfold filter_ifaces.
  rewrite (bind_ok _ _ _ _ _ (map_M_pairs_ifaces _ _ Hl)).
  unfold ret. by rewrite filter_pairs.
Qed.

Lemma inputNodes_ok f h :
  Forall (λ n, is_Some (h_nodes h !! n)) (nodes f) →
  inputNodes f h = (Ok (input_nodes_of f h), h).
Proof.
  intros Hl. unfold inputNodes.
  rewrite (bind_ok _ _ _ _ _ (map_M_pairs_nodes _ _ Hl)).
  unfold ret, input_nodes_of.
  by rewrite (filter_pairs (h_nodes h) (λ N, is_InputNode (n_class N))).
Qed.

(** The interfaces that a node of a well-formed graph lists exist. *)
Lemma wf_interfaces_exist f h n N :
  wf_graph f h → h_nodes h !! n = Some N →
  Forall (λ x, is_Some (h_ifaces h !! x)) (n_interfaces N).
Proof.
  intros (_ & W2 & _) HN. specialize (W2 n N HN). simpl in W2.
  eapply Forall_impl; [exact W2|]. intros x Hx.
  apply holds_Some in Hx as (X & -> & _). by eexists.
Qed.

Lemma filter_holds_and (l : list nat) (h : Heap) :
  filter (λ x, holds (λ X, i_slot X = true) (h_ifaces h !! x))
    (filter (λ x, holds (λ X, isInput X = true) (h_ifaces h !! x)) l)
  = filter (λ x, holds (λ X, isInput X = true ∧ i_slot X = true) (h_ifaces h !! x)) l.
Proof.
  rewrite list_filter_filter. apply list_filter_iff. intros x.
  destruct (h_ifaces h !! x); simpl; tauto.
Qed.

Lemma inputSlotInterfaces_ok f h n N :
  wf_graph f h → h_nodes h !! n = Some N →
  inputSlotInterfaces n h = (Ok (slots_of h N), h).
Proof.
  intros Hwf HN. unfold inputSlotInterfaces.
  pose proof (wf_interfaces_exist _ _ _ _ Hwf HN) as Hex.
  erewrite bind_ok;
    [|unfold inputInterfaces; erewrite bind_ok;
      [by apply filter_ifaces_ok|by apply get_node_ok]].
  rewrite filter_ifaces_ok.
  - unfold slots_of. by rewrite filter_holds_and.
  - apply Forall_forall. intros x Hx.
    apply list_elem_of_filter in Hx as [_ Hx].
    rewrite Forall_forall in Hex. by apply Hex.
Qed.

Lemma outputInterfaces_ok f h n N :
  wf_graph f h → h_nodes h !! n = Some N →
  outputInterfaces n h = (Ok (outputs_of h N), h).
Proof.
  intros Hwf HN. unfold outputInterfaces.
  pose proof (wf_interfaces_exist _ _ _ _ Hwf HN) as Hex.
  rewrite (bind_ok _ _ _ _ _ (get_node_ok _ _ _ HN)).
  rewrite (filter_ifaces_ok _ _ _ Hex). unfold outputs_of.
  do 2 f_equal. apply list_filter_iff. intros x.
  destruct (h_ifaces h !! x); simpl; [|done]. by destruct (isInput _).
Qed.

Lemma map_M_successors h l :
  Forall (λ x, is_Some (h_ifaces h !! x)) l →
  map_M (fun i => do! o <- get_iface i; ret (map (fun t => (i, t)) (i_successors o))) l h
  = (Ok (map (λ i, from_option (λ I, map (λ t, (i, t)) (i_successors I)) []
                     (h_ifaces h !! i)) l), h).
Proof.
  induction 1 as [|x l [X HX] Hl IH]; [done|].
  cbn [map_M].
  erewrite bind_ok; [|erewrite bind_ok; [reflexivity|by apply get_iface_ok]].
  erewrite bind_ok; [|exact IH]. simpl. by rewrite HX.
Qed.

Lemma publish_list_ok f h n N :
  wf_graph f h → h_nodes h !! n = Some N →
  publish_list n h = (Ok (publish_of h N), h).
Proof.
  intros Hwf HN. unfold publish_list.
  rewrite (bind_ok _ _ _ _ _ (outputInterfaces_ok _ _ _ _ Hwf HN)).
  erewrite bind_ok; [done|]. apply map_M_successors.
  pose proof (wf_interfaces_exist _ _ _ _ Hwf HN) as Hex.
  apply Forall_forall. intros x Hx.
  apply list_elem_of_filter in Hx as [_ Hx].
  rewrite Forall_forall in Hex. by apply Hex.
Qed.

(** ** [Node.predecessors] and the kick of the runner *)

Lemma owners_dedup_ok h rs acc :
  Forall (λ x, is_Some (h_ifaces h !! x)) rs →
  ∃ l, owners_dedup rs acc h = (Ok l, h) ∧
       (rs = [] → l = acc) ∧ (acc ≠ [] → l ≠ []) ∧ (rs ≠ [] → l ≠ []).
Proof.
  intros Hrs. revert acc. induction Hrs as [|r rs [R HR] Hrs IH]; intros acc.
  - exists acc. simpl. by repeat split.
  - cbn [owners_dedup]. rewrite (bind_ok _ _ _ _ _ (get_iface_ok _ _ _ HR)).
    set (acc' := if bool_decide (i_node R ∈ acc) then acc else (acc ++ [i_node R])%list).
    assert (acc' ≠ []) as Hne.
    { unfold acc'. case_bool_decide as Hin.
      - intros ->. by apply not_elem_of_nil in Hin.
      - by destruct acc. }
    destruct (IH acc') as (l & Hl & _ & Hacc & _).
    exists l. split; [done|]. split; [done|]. split; intros _; by apply Hacc.
Qed.

Lemma node_links_ok h sel rs acc :
  Forall (λ x, holds (λ X, Forall (λ y, is_Some (h_ifaces h !! y)) (sel X))
                 (h_ifaces h !! x)) rs →
  ∃ l, node_links sel rs acc h = (Ok l, h) ∧
       (l = [] ↔ acc = [] ∧ Forall (λ x, holds (λ X, sel X = []) (h_ifaces h !! x)) rs).
Proof.
  intros Hrs. revert acc. induction Hrs as [|r rs HR Hrs IH]; intros acc.
  - exists acc. simpl. split; [done|]. split; [by intros ->|by intros [-> _]].
  - apply holds_Some in HR as (R & HR & Hsel).
    cbn [node_links]. rewrite (bind_ok _ _ _ _ _ (get_iface_ok _ _ _ HR)).
    destruct (owners_dedup_ok h (sel R) acc Hsel) as (acc' & Hacc' & Hnil & Hacc & Hne).
    rewrite (bind_ok _ _ _ _ _ Hacc').
    destruct (IH acc') as (l & Hl & Hiff).
    exists l. split; [done|]. rewrite Hiff, Forall_cons, HR. simpl.
    split.
    + intros [Hnil' Hall].
      assert (sel R = []) as Hs by (destruct (sel R); [done|by destruct Hne]).
      assert (acc = []) as Ha by (destruct acc; [done|by destruct Hacc]).
      done.
    + intros (Ha & Hs & Hall). split; [|done]. by rewrite (Hnil Hs).
Qed.

Lemma node_predecessors_ok f h n N :
  wf_graph f h → h_nodes h !! n = Some N →
  ∃ l, node_predecessors n h = (Ok l, h) ∧ (l = [] ↔ no_predecessor h N).
Proof.
  intros Hwf HN. unfold node_predecessors.
  rewrite (bind_ok _ _ _ _ _ (get_node_ok _ _ _ HN)).
  destruct (node_links_ok h i_predecessors (n_interfaces N) []) as (l & Hl & Hiff).
  { pose proof (wf_interfaces_exist _ _ _ _ Hwf HN) as Hex.
    destruct Hwf as (_ & _ & _ & _ & W5).
    eapply Forall_impl; [exact Hex|]. intros x [X HX]. rewrite HX. simpl.
    specialize (W5 x X HX). simpl in W5.
    eapply Forall_impl; [exact W5|]. intros y Hy.
    apply holds_Some in Hy as (Y & -> & _). by eexists. }
  exists l. split; [done|]. rewrite Hiff. unfold no_predecessor. tauto.
Qed.

(** The heap after the runner set the event of node [n]. *)
Lemma kick_ok f h n N :
  wf_graph f h → h_nodes h !! n = Some N →
  kick n h =
    (Ok tt,
     if decide (no_predecessor h N)
     then mkHeap (h_ifaces h) (<[n := set_canRun true N]> (h_nodes h))
            (h_next h) (h_log h ++ [EvKick n])
     else h).
Proof.
  intros Hwf HN. unfold kick.
  destruct (node_predecessors_ok _ _ _ _ Hwf HN) as (l & Hl & Hiff).
  rewrite (bind_ok _ _ _ _ _ Hl).
  destruct (decide (no_predecessor h N)) as [Hno|Hno].
  - apply Hiff in Hno as ->. simpl.
    unfold bind, emit, upd_node. simpl. by rewrite HN.
  - destruct l; [by destruct Hno; apply Hiff|]. done.
Qed.

(** ** Delivery *)

Lemma iface_shape_inv X X' :
  iface_shape X' = iface_shape X →
  i_class X' = i_class X ∧ i_node X' = i_node X ∧ i_name X' = i_name X ∧
  i_successors X' = i_successors X ∧ i_predecessors X' = i_predecessors X ∧
  isInput X' = isInput X ∧ i_slot X' = i_slot X.
Proof.
  unfold iface_shape, isInput. intros [= -> -> -> -> -> -> ->]. done.
Qed.

Lemma slots_of_shape h h' N N' :
  same_shape h h' → n_interfaces N' = n_interfaces N →
  slots_of h' N' = slots_of h N.
Proof.
  intros Hs HN. unfold slots_of. rewrite HN.
  apply list_filter_iff. intros x. split.
  - eapply holds_shape_iface; [|exact (same_shape_sym _ _ Hs)].
    intros X X' HX. apply iface_shape_inv in HX as (_&_&_&_&_&->&->). done.
  - eapply holds_shape_iface; [|exact Hs].
    intros X X' HX. apply iface_shape_inv in HX as (_&_&_&_&_&->&->). done.
Qed.

Lemma outputs_of_shape h h' N N' :
  same_shape h h' → n_interfaces N' = n_interfaces N →
  outputs_of h' N' = outputs_of h N.
Proof.
  intros Hs HN. unfold outputs_of. rewrite HN.
  apply list_filter_iff. intros x. split.
  - eapply holds_shape_iface; [|exact (same_shape_sym _ _ Hs)].
    intros X X' HX. apply iface_shape_inv in HX as (_&_&_&_&_&->&_). done.
  - eapply holds_shape_iface; [|exact Hs].
    intros X X' HX. apply iface_shape_inv in HX as (_&_&_&_&_&->&_). done.
Qed.

Lemma publish_of_shape h h' N N' :
  same_shape h h' → n_interfaces N' = n_interfaces N →
  publish_of h' N' = publish_of h N.
Proof.
  intros Hs HN. unfold publish_of. rewrite (outputs_of_shape _ _ _ _ Hs HN).
  f_equal. apply map_ext. intros x.
  destruct Hs as [Hi _]. specialize (Hi x).
  destruct (h_ifaces h !! x) as [X|], (h_ifaces h' !! x) as [X'|]; try done.
  simpl in *. inversion Hi. congruence.
Qed.

Lemma no_predecessor_shape h h' N N' :
  same_shape h h' → n_interfaces N' = n_interfaces N →
  no_predecessor h N → no_predecessor h' N'.
Proof.
  intros Hs HN. unfold no_predecessor. rewrite HN.
  intros H. eapply Forall_impl; [exact H|]. intros x.
  eapply holds_shape_iface; [|exact Hs].
  intros X X' HX. inversion HX. congruence.
Qed.

Lemma input_nodes_of_shape f h h' :
  same_shape h h' → input_nodes_of f h' = input_nodes_of f h.
Proof.
  intros Hs. unfold input_nodes_of.
  apply list_filter_iff. intros x. split.
  - eapply holds_shape_node; [|exact (same_shape_sym _ _ Hs)].
    intros X X' HX. inversion HX. congruence.
  - eapply holds_shape_node; [|exact Hs].
    intros X X' HX. inversion HX. congruence.
Qed.

Lemma load_ok h t i T I :
  h_ifaces h !! t = Some T → h_ifaces h !! i = Some I →
  i ∈ i_predecessors T →
  (i_class T = CInterfaceStream → is_Some (i_stream I)) →
  load t i h =
    (Ok tt, mkHeap (<[t := loaded T I]> (h_ifaces h)) (h_nodes h) (h_next h) (h_log h)).
Proof.
  intros HT HI Hin Hst. unfold load.
  rewrite (bind_ok _ _ _ _ _ (get_iface_ok _ _ _ HT)).
  rewrite (bool_decide_eq_true_2 (i ∈ i_predecessors T)) by done.
  rewrite andb_false_r. unfold loaded.
  destruct (i_class T) eqn:Hc.
  - unfold ret. rewrite insert_id by done. by destruct h.
  - rewrite (bind_ok _ _ _ _ _ (get_iface_ok _ _ _ HI)).
    by rewrite (upd_iface_ok _ _ _ _ HT).
  - rewrite (bind_ok _ _ _ _ _ (get_iface_ok _ _ _ HI)).
    destruct (Hst eq_refl) as [s Hs]. rewrite Hs.
    by rewrite (upd_iface_ok _ _ _ _ HT).
  - unfold ret. rewrite insert_id by done. by destruct h.
Qed.

Lemma onInterfaceReady_ok f h n t N :
  wf_graph f h → h_nodes h !! n = Some N →
  onInterfaceReady n t h =
    (Ok tt,
     mkHeap (h_ifaces h) (<[n := notified h N t]> (h_nodes h)) (h_next h)
       (h_log h ++ [EvReady n t]
          ++ (if bool_decide (List.length (slots_of h N)
                              ≤ size ({[t]} ∪ n_readyinterfaces N))
              then [EvSet n] else []))).
Proof.
  intros Hwf HN. unfold onInterfaceReady.
  set (N1 := set_readyinterfaces ({[t]} ∪ n_readyinterfaces N) N).
  set (h1 := mkHeap (h_ifaces h) (<[n := N1]> (h_nodes h)) (h_next h)
               (h_log h ++ [EvReady n t])).
  assert (same_shape h h1) as Hs.
  { apply shape_insert_node with (N := N); done. }
  assert (h_nodes h1 !! n = Some N1) as HN1 by apply lookup_insert_eq.
  erewrite bind_ok; [|reflexivity].
  erewrite bind_ok; [|unfold emit; simpl; by apply upd_node_ok].
  simpl. fold N1. fold h1.
  rewrite (bind_ok _ _ _ _ _ (get_node_ok _ _ _ HN1)).
  rewrite (bind_ok _ _ _ _ _
             (inputSlotInterfaces_ok f _ _ _ (wf_graph_shape _ _ _ Hs Hwf) HN1)).
  rewrite (slots_of_shape _ _ N N1 Hs eq_refl).
  unfold notified. fold N1. simpl.
  case_bool_decide.
  - unfold bind, emit, upd_node. simpl. rewrite lookup_insert_eq.
    rewrite insert_insert_eq. rewrite <- app_assoc. done.
  - by unfold ret, h1.
Qed.

(** [t.onContentReady(i)] on a well-formed graph, for a predecessor [i] of
    [t]: it returns, and the heap it leaves is [delivered]. *)
Lemma onContentReady_ok f h t i T I N :
  wf_graph f h →
  h_ifaces h !! t = Some T → h_ifaces h !! i = Some I →
  h_nodes h !! i_node T = Some N →
  i ∈ i_predecessors T →
  (i_class T = CInterfaceStream → is_Some (i_stream I)) →
  onContentReady t i h = (Ok tt, delivered h t i T I N).
Proof.
  intros Hwf HT HI HN Hin Hst. unfold onContentReady.
  erewrite bind_ok; [|reflexivity].
  erewrite bind_ok; [|by apply load_ok].
  simpl.
  erewrite bind_ok; [|apply upd_iface_ok; simpl; apply lookup_insert_eq].
  simpl. rewrite insert_insert_eq.
  assert (set_readypredecessors ({[i]} ∪ i_readypredecessors (loaded T I)) (loaded T I)
          = received T I i) as ->.
  { unfold received, loaded. by destruct (i_class T). }
  set (h3 := mkHeap (<[t := received T I i]> (h_ifaces h)) (h_nodes h) (h_next h)
               (h_log h ++ [EvDeliver i t])).
  assert (same_shape h h3) as Hs.
  { apply shape_insert_iface with (I := T); [done| |done].
    unfold received, loaded. by destruct (i_class T). }
  erewrite bind_ok; [|apply get_iface_ok; simpl; apply lookup_insert_eq].
  unfold delivered. fold (all_received (received T I i)).
  destruct (all_received (received T I i)); [|done].
  assert (i_node (received T I i) = i_node T) as ->.
  { unfold received, loaded. by destruct (i_class T). }
  rewrite (onInterfaceReady_ok f h3 _ _ N (wf_graph_shape _ _ _ Hs Hwf) HN).
  assert (notified h3 N t = notified h N t) as ->.
  { unfold notified. by rewrite (slots_of_shape _ _ N N Hs eq_refl). }
  rewrite (slots_of_shape _ _ N N Hs eq_refl).
  unfold h3. simpl. rewrite <- app_assoc. done.
Qed.

(** ** Readiness counting *)

Lemma occurrences_app e (l1 l2 : list event) :
  occurrences e (l1 ++ l2) = occurrences e l1 + occurrences e l2.
Proof. unfold occurrences. by rewrite filter_app, length_app. Qed.

Lemma occurrences_cons e x (l : list event) :
  occurrences e (x :: l) = (if decide (x = e) then 1 else 0) + occurrences e l.
Proof.
  unfold occurrences. rewrite filter_cons. by destruct (decide (x = e)).
Qed.

Lemma occurrences_nil e : occurrences e [] = 0.
Proof. done. Qed.

Lemma delivered_shape h t i T I N :
  h_ifaces h !! t = Some T → h_nodes h !! i_node T = Some N →
  same_shape h (delivered h t i T I N).
Proof.
  intros HT HN. unfold delivered.
  assert (iface_shape (received T I i) = iface_shape T) as Hsh.
  { unfold received, loaded. by destruct (i_class T). }
  destruct (all_received _).
  - split; simpl; intros x.
    + destruct (decide (x = t)) as [->|Hne].
      * rewrite lookup_insert_eq, HT. simpl. by rewrite Hsh.
      * by rewrite lookup_insert_ne.
    + destruct (decide (x = i_node T)) as [->|Hne].
      * rewrite lookup_insert_eq, HN. simpl. unfold notified.
        by case_bool_decide.
      * by rewrite lookup_insert_ne.
  - apply shape_insert_iface with (I := T); done.
Qed.

Lemma delivered_streams h t i T I N :
  streams_ok h → h_ifaces h !! t = Some T →
  (i_class T = CInterfaceStream → is_Some (i_stream I)) →
  streams_ok (delivered h t i T I N).
Proof.
  intros Hok HT Hst.
  assert (streams_ok (mkHeap (<[t := received T I i]> (h_ifaces h)) (h_nodes h)
                        (h_next h) (h_log h))) as H.
  { unfold streams_ok. simpl. apply map_Forall_insert_2; [|done].
    unfold received, loaded. intros Hc.
    destruct (i_class T) eqn:HcT; simpl in Hc |- *; try congruence.
    by apply Hst. }
  unfold delivered. by destruct (all_received _).
Qed.

(** The file of a predecessor of a stream exists. *)
Lemma stream_of_predecessor f h t i T I :
  wf_graph f h → streams_ok h →
  h_ifaces h !! t = Some T → h_ifaces h !! i = Some I →
  i ∈ i_predecessors T →
  i_class T = CInterfaceStream → is_Some (i_stream I).
Proof.
  intros (_ & _ & _ & W4 & W5) Hok HT HI Hin Hc.
  specialize (W5 t T HT). simpl in W5. rewrite Forall_forall in W5.
  specialize (W5 i Hin). rewrite HI in W5. simpl in W5.
  specialize (W4 i I HI). simpl in W4. rewrite Forall_forall in W4.
  specialize (W4 t W5). rewrite HT in W4. simpl in W4.
  destruct W4 as [_ W4]. apply (Hok i I HI). by apply W4.
Qed.

Lemma predecessor_exists f h t i T :
  wf_graph f h → h_ifaces h !! t = Some T → i ∈ i_predecessors T →
  ∃ I, h_ifaces h !! i = Some I ∧ t ∈ i_successors I.
Proof.
  intros (_ & _ & _ & _ & W5) HT Hin.
  specialize (W5 t T HT). simpl in W5. rewrite Forall_forall in W5.
  specialize (W5 i Hin). by apply holds_Some in W5.
Qed.

Lemma owner_exists f h t T :
  wf_graph f h → h_ifaces h !! t = Some T →
  ∃ N, h_nodes h !! i_node T = Some N ∧ t ∈ n_interfaces N.
Proof.
  intros (_ & _ & W3 & _) HT. specialize (W3 t T HT). by apply holds_Some in W3.
Qed.

(** Deliveries from distinct predecessors that have not delivered yet: the
    node hears of the interface with the delivery that completes the count,
    and not before. *)
Lemma deliveries_notify f b ds : ∀ h B,
  wf_graph f h → streams_ok h →
  h_ifaces h !! b = Some B →
  NoDup ds → (∀ p, p ∈ ds → p ∈ i_predecessors B ∧ p ∉ i_readypredecessors B) →
  size (i_readypredecessors B) + List.length ds ≤ List.length (i_predecessors B) →
  size (i_readypredecessors B) < List.length (i_predecessors B) →
  ∃ h' es,
    for_each ds (fun p => onContentReady b p) h = (Ok tt, h') ∧
    h_log h' = (h_log h ++ es)%list ∧
    occurrences (EvReady (i_node B) b) es
    = (if decide (size (i_readypredecessors B) + List.length ds
                  = List.length (i_predecessors B) ∧ ds ≠ [])
       then 1 else 0).
Proof.
  induction ds as [|p ds IH]; intros h B Hwf Hok HB Hnd Hin Hle Hlt.
  - exists h, []. split; [done|]. split; [by rewrite app_nil_r|].
    rewrite decide_False by tauto. done.
  - apply NoDup_cons in Hnd as [Hp Hnd].
    destruct (Hin p) as [HpB Hprp]; [apply elem_of_cons; by left|].
    destruct (predecessor_exists _ _ _ _ _ Hwf HB HpB) as (P & HP & _).
    destruct (owner_exists _ _ _ _ Hwf HB) as (N & HN & _).
    pose proof (stream_of_predecessor _ _ _ _ _ _ Hwf Hok HB HP HpB) as Hst.
    pose proof (onContentReady_ok _ _ _ _ _ _ _ Hwf HB HP HN HpB Hst) as Hd.
    cbn [for_each]. rewrite (bind_ok _ _ _ _ _ Hd).
    pose proof (delivered_shape h b p B P N HB HN) as Hsh.
    pose proof (delivered_streams h b p B P N Hok HB Hst) as Hok'.
    pose proof (wf_graph_shape _ _ _ Hsh Hwf) as Hwf'.
    assert (size (i_readypredecessors (received B P p))
            = S (size (i_readypredecessors B))) as Hsize.
    { unfold received. simpl. rewrite size_union.
      - by rewrite size_singleton.
      - apply disjoint_singleton_l. done. }
    assert (i_predecessors (received B P p) = i_predecessors B) as Hpreds.
    { unfold received, loaded. by destruct (i_class B). }
    assert (i_node (received B P p) = i_node B) as Hnode.
    { unfold received, loaded. by destruct (i_class B). }
    assert (h_ifaces (delivered h b p B P N) !! b = Some (received B P p)) as HB'.
    { unfold delivered. destruct (all_received _); simpl; apply lookup_insert_eq. }
    simpl in Hle.
    destruct (all_received (received B P p)) eqn:Hall.
    + (* the count is complete: nothing is left to deliver *)
      unfold all_received in Hall. apply bool_decide_eq_true_1 in Hall.
      rewrite Hsize, Hpreds in Hall.
      assert (ds = []) as -> by (destruct ds; [done|simpl in Hle; lia]).
      eexists _, _. split; [reflexivity|].
      unfold delivered at 1. unfold all_received.
      rewrite bool_decide_eq_true_2 by (rewrite Hsize, Hpreds; lia).
      simpl. split; [reflexivity|].
      rewrite decide_True by (split; [simpl; lia|done]).
      rewrite !occurrences_cons, decide_False by done.
      rewrite decide_True by done.
      case_bool_decide; [|done].
      rewrite occurrences_cons, decide_False by done. done.
    + unfold all_received in Hall. apply bool_decide_eq_false_1 in Hall.
      rewrite Hsize, Hpreds in Hall.
      destruct (IH (delivered h b p B P N) (received B P p)) as (h' & es & Hrun & Hlog & Hocc);
        try done.
      * intros q Hq. destruct (Hin q) as [Hq1 Hq2]; [apply elem_of_cons; by right|].
        rewrite Hpreds. split; [done|]. unfold received. simpl.
        assert (q ≠ p) as Hqp by (intros ->; done).
        rewrite elem_of_union, elem_of_singleton. tauto.
      * rewrite Hsize, Hpreds. lia.
      * rewrite Hsize, Hpreds. lia.
      * exists h', (EvDeliver p b :: es). split; [done|]. split.
        -- rewrite Hlog. unfold delivered, all_received.
           rewrite bool_decide_eq_false_2 by (rewrite Hsize, Hpreds; lia).
           simpl. by rewrite <- app_assoc.
        -- rewrite occurrences_cons, decide_False by done.
           rewrite Hnode, Hsize, Hpreds in Hocc. rewrite Hocc. simpl.
           destruct ds as [|q ds].
           ++ simpl in *. rewrite !decide_False; [done|lia|tauto].
           ++ apply decide_ext. simpl. split; intros [? ?]; split; (lia || done).
Qed.

(** ** The steps of the runner *)

Lemma elem_of_concat {A} (x : A) (ls : list (list A)) :
  x ∈ concat ls ↔ ∃ l, x ∈ l ∧ l ∈ ls.
Proof.
  induction ls as [|l ls IH]; simpl.
  - split; [by intros ?%elem_of_nil|]. by intros (l & _ & ?%elem_of_nil).
  - rewrite elem_of_app, IH. split.
    + intros [H|(l' & H1 & H2)].
      * exists l. split; [done|]. apply elem_of_cons. by left.
      * exists l'. split; [done|]. apply elem_of_cons. by right.
    + intros (l' & H1 & [->|H2]%elem_of_cons); [by left|]. right. by exists l'.
Qed.

Lemma sound_publish_of f h n N :
  wf_graph f h → h_nodes h !! n = Some N →
  Forall (sound_pair h n) (publish_of h N).
Proof.
  intros Hwf HN. apply Forall_forall. intros [i t] Hit.
  unfold publish_of in Hit. apply elem_of_concat in Hit as (l & Hit & Hl).
  apply list_elem_of_fmap in Hl as (i' & -> & Hi').
  apply list_elem_of_filter in Hi' as [Hout Hi'].
  destruct (h_ifaces h !! i') as [I|] eqn:HI; [|by apply elem_of_nil in Hit].
  simpl in Hit. apply list_elem_of_fmap in Hit as (t' & Heq & Ht).
  injection Heq as -> ->.
  destruct Hwf as (_ & W2 & _ & W4 & _).
  split; simpl.
  - specialize (W4 i' I HI). simpl in W4. rewrite Forall_forall in W4.
    specialize (W4 t' Ht). apply holds_Some in W4 as (T & -> & HT & _). done.
  - specialize (W2 n N HN). simpl in W2. rewrite Forall_forall in W2.
    by apply W2.
Qed.

Lemma sound_pair_shape h h' n it :
  same_shape h h' → sound_pair h n it → sound_pair h' n it.
Proof.
  intros Hs [H1 H2]. split.
  - eapply holds_shape_iface; [|exact Hs|exact H1].
    intros X X' HX. apply iface_shape_inv in HX as (_&_&_&_&->&_). done.
  - eapply holds_shape_iface; [|exact Hs|exact H2].
    intros X X' HX. apply iface_shape_inv in HX as (_&->&_). done.
Qed.

Lemma sound_thread_shape f h h' nw :
  same_shape h h' → sound_thread f h nw → sound_thread f h' nw.
Proof.
  intros Hs [H1 H2]. split; [done|]. destruct (snd nw); try done.
  eapply Forall_impl; [exact H2|]. intros it. by apply sound_pair_shape.
Qed.

(** A step of the runner on a sound state is one of the moves. *)
Lemma step_moves run_body f t r r' :
  sound f r → step run_body t r = Some r' → moves run_body r r'.
Proof.
  intros (Hf & Hwf & Hok & Hmain & Hths). destruct r as [f0 ths m h].
  simpl in *. subst f0. destruct t as [|k]; simpl.
  - unfold step_main. simpl. destruct m as [[|n todo]|[|n todo]|k| |e]; try done.
    + rewrite inputNodes_ok by apply Hwf. intros [= <-]. constructor.
    + intros [= <-]. constructor.
    + intros [= <-]. constructor.
    + assert (n ∈ nodes f) as Hn by (apply Hmain, elem_of_cons; by left).
      pose proof Hwf as (W1 & _). rewrite Forall_forall in W1.
      destruct (W1 n Hn) as [N HN].
      rewrite (kick_ok f h n N Hwf HN).
      destruct (decide (no_predecessor h N)); intros [= <-].
      * by apply mv_kick.
      * by eapply mv_skip.
    + destruct (ths !! k) as [[n w]|] eqn:Hk.
      * destruct (finished w) eqn:Hw; [|done]. intros [= <-]. by eapply mv_join.
      * intros [= <-]. by apply mv_return.
  - destruct (ths !! k) as [[n w]|] eqn:Hk; [|done].
    rewrite Forall_forall in Hths.
    destruct (Hths (n, w)) as [Hn Hw]; [by eapply list_elem_of_lookup_2|].
    simpl in Hn, Hw.
    pose proof Hwf as (W1 & _). rewrite Forall_forall in W1.
    destruct (W1 n Hn) as [N HN].
    destruct w as [| |[|[i t] l]| |e]; simpl; try done.
    + rewrite HN. destruct (n_canRun N) eqn:Hc; [|done].
      unfold bind, upd_node, emit. rewrite HN. simpl.
      intros [= <-]. by apply mv_begin.
    + destruct (o_raises (run_body n h)) as [e|] eqn:Hr.
      * unfold emit. intros [= <-]. by apply mv_fault.
      * set (h1 := write_values (o_writes (run_body n h)) h).
        assert (h_nodes h1 !! n = Some N) as HN1.
        { unfold h1. by rewrite write_values_nodes. }
        erewrite bind_ok; [|reflexivity].
        erewrite bind_ok; [|by apply upd_node_ok].
        erewrite bind_ok; [|apply upd_node_ok; simpl; apply lookup_insert_eq].
        simpl. rewrite insert_insert_eq.
        set (N' := set_canRun false (set_running false N)).
        set (h2 := mkHeap _ _ _ _).
        assert (same_shape h h2) as Hs.
        { eapply same_shape_trans; [apply (write_values_shape (o_writes (run_body n h)))|].
          fold h1. unfold h2. apply shape_insert_node with (N := N); done. }
        assert (h_nodes h2 !! n = Some N') as HN2 by apply lookup_insert_eq.
        rewrite (publish_list_ok f h2 n N' (wf_graph_shape _ _ _ Hs Hwf) HN2).
        rewrite (publish_of_shape _ _ N N' Hs eq_refl).
        intros [= <-].
        replace h2 with (ended h (o_writes (run_body n h)) n N).
        -- by apply mv_end.
        -- unfold ended, h2, N'. fold h1.
           by rewrite <- (write_values_nodes (o_writes (run_body n h)) h),
                      <- (write_values_log (o_writes (run_body n h)) h).
    + intros [= <-]. by apply mv_done.
    + apply Forall_cons in Hw as [[HT HI] _]. simpl in HT, HI.
      apply holds_Some in HT as (T & HT & Hin).
      apply holds_Some in HI as (I & HI & HnI).
      destruct (owner_exists _ _ _ _ Hwf HT) as (NT & HNT & _).
      pose proof (stream_of_predecessor _ _ _ _ _ _ Hwf Hok HT HI Hin) as Hst.
      rewrite (onContentReady_ok _ _ _ _ _ _ _ Hwf HT HI HNT Hin Hst).
      intros [= <-]. by eapply mv_deliver.
Qed.

Lemma kicked_shape h n N : h_nodes h !! n = Some N → same_shape h (kicked h n N).
Proof. intros HN. apply shape_insert_node with (N := N); done. Qed.

Lemma begun_shape h n N : h_nodes h !! n = Some N → same_shape h (begun h n N).
Proof. intros HN. apply shape_insert_node with (N := N); done. Qed.

Lemma faulted_shape h ws n : same_shape h (faulted h ws n).
Proof.
  destruct (write_values_shape ws h) as [Hi Hn]. split; simpl; done.
Qed.

Lemma ended_shape h ws n N : h_nodes h !! n = Some N → same_shape h (ended h ws n N).
Proof.
  intros HN. destruct (write_values_shape ws h) as [Hi Hn].
  apply shape_insert_node with (N := N); done.
Qed.

Lemma write_values_streams ws h : streams_ok h → streams_ok (write_values ws h).
Proof.
  revert h. induction ws as [|[r v] ws IH]; intros h Hok; simpl; [done|].
  apply IH. unfold streams_ok in *. simpl.
  intros x X HX. rewrite lookup_alter in HX. case_decide.
  - subst. destruct (h_ifaces h !! x) as [X0|] eqn:HX0; [|done].
    simpl in HX. injection HX as <-. by apply (Hok x X0 HX0).
  - by apply (Hok x X HX).
Qed.

(** A move keeps the shape of the heap. *)
Lemma moves_shape run_body r r' :
  moves run_body r r' → same_shape (r_heap r) (r_heap r').
Proof.
  destruct 1; simpl; try apply same_shape_refl.
  - by apply kicked_shape.
  - by apply begun_shape.
  - apply faulted_shape.
  - by apply ended_shape.
  - by apply delivered_shape.
Qed.

Lemma moves_flow run_body r r' : moves run_body r r' → r_flow r' = r_flow r.
Proof. by destruct 1. Qed.

Lemma input_nodes_of_subseteq f h : input_nodes_of f h ⊆ nodes f.
Proof. intros x Hx. by apply list_elem_of_filter in Hx as [_ Hx]. Qed.

Lemma sound_threads_shape f h h' ths :
  same_shape h h' → Forall (sound_thread f h) ths → Forall (sound_thread f h') ths.
Proof.
  intros Hs H. eapply Forall_impl; [exact H|]. intros nw. by apply sound_thread_shape.
Qed.

Lemma sound_thread_at f h ths k n w :
  Forall (sound_thread f h) ths → ths !! k = Some (n, w) →
  n ∈ nodes f ∧ match w with WPublish l => Forall (sound_pair h n) l | _ => True end.
Proof.
  intros H Hk. rewrite Forall_forall in H.
  apply (H (n, w)). by eapply list_elem_of_lookup_2.
Qed.

(** The moves keep the runner sound. *)
Lemma sound_moves run_body f r r' :
  sound f r → moves run_body r r' → sound f r'.
Proof.
  intros (Hf & Hwf & Hok & Hmain & Hths) Hmv.
  pose proof (moves_shape _ _ _ Hmv) as Hs.
  pose proof (wf_graph_shape _ _ _ Hs Hwf) as Hwf'.
  pose proof (sound_threads_shape _ _ _ _ Hs Hths) as Hths'.
  destruct Hmv; cbn [r_heap r_flow r_main r_threads] in *; subst;
    (split; [done|]); (split; [done|]).
  - split; [done|]. split.
    + intros x Hx. apply Hmain, elem_of_cons. by right.
    + apply Forall_app. split; [done|]. apply Forall_singleton.
      split; [|done]. simpl. apply Hmain, elem_of_cons. by left.
  - split; [done|]. split; [apply input_nodes_of_subseteq|done].
  - split; [done|]. split; [|done].
    intros x Hx. apply Hmain, elem_of_cons. by right.
  - split; [done|]. split; [|done].
    intros x Hx. apply Hmain, elem_of_cons. by right.
  - done.
  - done.
  - done.
  - split; [done|]. split; [done|].
    destruct (sound_thread_at _ _ _ _ _ _ Hths H) as [Hn _].
    apply Forall_insert; [done|]. by split.
  - split; [by apply write_values_streams|]. split; [done|].
    destruct (sound_thread_at _ _ _ _ _ _ Hths H) as [Hn _].
    apply Forall_insert; [done|]. by split.
  - split; [by apply write_values_streams|]. split; [done|].
    destruct (sound_thread_at _ _ _ _ _ _ Hths H) as [Hn _].
    apply Forall_insert; [done|]. split; [done|]. simpl.
    eapply Forall_impl; [by eapply sound_publish_of|].
    intros it. by apply sound_pair_shape.
  - split.
    { eapply delivered_streams; [done|done|].
      by apply (stream_of_predecessor f h t i T I). }
    split; [done|].
    destruct (sound_thread_at _ _ _ _ _ _ Hths' H) as [Hn Hl].
    apply Forall_insert; [done|]. split; [done|]. simpl.
    by apply Forall_cons in Hl as [_ Hl].
  - split; [done|]. split; [done|].
    destruct (sound_thread_at _ _ _ _ _ _ Hths H) as [Hn _].
    apply Forall_insert; [done|]. by split.
Qed.

(** A property that holds at the start and that every move from a sound
    state keeps holds after every execution. *)
Lemma exec_invariant run_body f (P : Runner → Prop) sched : ∀ r0 r,
  sound f r0 → P r0 →
  (∀ r r', sound f r → P r → moves run_body r r' → P r') →
  exec run_body sched r0 = Some r → sound f r ∧ P r.
Proof.
  induction sched as [|t sched IH]; intros r0 r Hs HP Hstep; simpl.
  - by intros [= <-].
  - destruct (step run_body t r0) as [r1|] eqn:Ht; [|done].
    pose proof (step_moves _ _ _ _ _ Hs Ht) as Hmv.
    apply IH; [by eapply sound_moves|by eapply Hstep|done].
Qed.

Lemma sound_start f h :
  wf_graph f h → streams_ok h → sound f (Runner_start f h).
Proof.
  intros Hwf Hok. unfold sound, Runner_start. simpl.
  split; [done|]. split; [done|]. split; [done|]. split; [done|]. constructor.
Qed.

(** ** Invariants of the runner *)

Lemma total_app {A} (g : A → nat) l1 l2 : total g (l1 ++ l2) = total g l1 + total g l2.
Proof. apply sum_list_with_app. Qed.

Lemma total_cons {A} (g : A → nat) x l : total g (x :: l) = g x + total g l.
Proof. done. Qed.

Lemma total_insert {A} (g : A → nat) l k x y :
  l !! k = Some x → total g (<[k := y]> l) + g x = total g l + g y.
Proof.
  intros Hk.
  rewrite <- (take_drop_middle l k x Hk) at 2.
  rewrite insert_take_drop by by eapply lookup_lt_Some.
  rewrite !total_app, !total_cons. lia.
Qed.

Lemma precedes_app e1 e2 (l es : list event) :
  precedes e1 e2 l → (e2 ∈ es → e1 ∈ l) → precedes e1 e2 (l ++ es).
Proof.
  intros Hp Hes l1 l2 Heq.
  apply app_eq_app in Heq as [k [[-> Hk]|[-> Hk]]].
  - destruct k as [|x k]; simpl in Hk.
    + rewrite app_nil_r in *. apply Hes. rewrite <- Hk. apply elem_of_cons. by left.
    + injection Hk as <- _. by apply (Hp l1 k).
  - apply elem_of_app. left. apply Hes. rewrite Hk.
    apply elem_of_app. right. apply elem_of_cons. by left.
Qed.

Lemma precedes_nil e1 e2 : precedes e1 e2 [].
Proof. intros l1 l2 H. by destruct l1. Qed.

Lemma precedes_trans e1 e2 e3 (l : list event) :
  precedes e1 e2 l → precedes e2 e3 l → precedes e1 e3 l.
Proof.
  intros H12 H23 l1 l2 Heq.
  pose proof (H23 l1 l2 Heq) as Hin.
  apply list_elem_of_split in Hin as (k1 & k2 & ->).
  apply elem_of_app. left. apply (H12 k1 (k2 ++ e3 :: l2)).
  rewrite Heq. by rewrite <- app_assoc.
Qed.

Lemma delivered_log h t i T I N :
  ∃ es, h_log (delivered h t i T I N) = (h_log h ++ EvDeliver i t :: es)%list ∧
        ∀ e, e ∈ es → e = EvReady (i_node T) t ∨ e = EvSet (i_node T).
Proof.
  unfold delivered. destruct (all_received _); simpl.
  - eexists. split; [reflexivity|]. intros e He.
    apply elem_of_cons in He as [->|He]; [by left|].
    case_bool_decide; [|by apply elem_of_nil in He].
    apply list_elem_of_singleton in He as ->. by right.
  - exists []. split; [done|]. by intros e ?%elem_of_nil.
Qed.

(** The log only grows. *)
Lemma moves_log run_body r r' :
  moves run_body r r' →
  ∃ es, h_log (r_heap r') = (h_log (r_heap r) ++ es)%list.
Proof.
  destruct 1; cbn [r_heap];
    try (exists []; by rewrite app_nil_r); try (by eexists).
  - exists [EvFault n]. unfold faulted. simpl. by rewrite write_values_log.
  - destruct (delivered_log h t i T I N) as (es & -> & _). by eexists.
Qed.

Lemma moves_log_mono run_body r r' e :
  moves run_body r r' → e ∈ h_log (r_heap r) → e ∈ h_log (r_heap r').
Proof.
  intros Hmv He. destruct (moves_log _ _ _ Hmv) as [es ->].
  apply elem_of_app. by left.
Qed.

Lemma occurrences_notin e (l : list event) : e ∉ l → occurrences e l = 0.
Proof.
  induction l as [|x l IH]; intros Hn; [done|].
  rewrite occurrences_cons. apply not_elem_of_cons in Hn as [Hx Hl].
  rewrite decide_False by done. by rewrite IH.
Qed.

Lemma occurrences_pos e (l : list event) : e ∈ l → 0 < occurrences e l.
Proof.
  induction l as [|x l IH]; [by intros ?%elem_of_nil|].
  rewrite occurrences_cons. intros [->|Hl]%elem_of_cons.
  - rewrite decide_True by done. lia.
  - specialize (IH Hl). lia.
Qed.

Lemma past_wait_eq n' n w w' :
  w ≠ WWait → w' ≠ WWait → past_wait n' (n, w) = past_wait n' (n, w').
Proof.
  intros Hw Hw'. unfold past_wait. simpl. apply decide_ext. tauto.
Qed.

Lemma past_wait_wait n' n : past_wait n' (n, WWait) = 0.
Proof. unfold past_wait. simpl. rewrite decide_False; [done|]. tauto. Qed.

Lemma lookup_insert_thread {A} (l : list A) k k' x y z :
  l !! k = Some x → <[k := y]> l !! k' = Some z →
  (k' = k ∧ z = y) ∨ (k' ≠ k ∧ l !! k' = Some z).
Proof.
  intros Hk Hk'. destruct (decide (k = k')) as [<-|Hne].
  - rewrite list_lookup_insert_eq in Hk' by by eapply lookup_lt_Some.
    left. split; congruence.
  - rewrite list_lookup_insert_ne in Hk' by done. right. by split.
Qed.

Lemma fst_insert_thread (ths : list (nat * wstate)) k n w w' :
  ths !! k = Some (n, w) → fst <$> <[k := (n, w')]> ths = fst <$> ths.
Proof.
  intros Hk. rewrite list_fmap_insert. apply list_insert_id.
  by rewrite list_lookup_fmap, Hk.
Qed.

Lemma thread_logged_mono run_body log es n w :
  thread_logged run_body log n w → thread_logged run_body (log ++ es) n w.
Proof.
  destruct w; simpl; try done.
  - intros H. apply elem_of_app. by left.
  - intros H. apply elem_of_app. by left.
  - intros [H1 H2]. split; [|done]. apply elem_of_app. by left.
Qed.

Lemma threads_inv_moves run_body f r r' :
  sound f r → threads_inv run_body f r → moves run_body r r' →
  threads_inv run_body f r'.
Proof.
  intros Hs (Hths & Hcount & Hlog) Hmv.
  destruct Hmv; unfold threads_inv; cbn [r_heap r_flow r_main r_threads] in *;
    (split; [|split]).
  (* spawn *)
  - rewrite fmap_app. simpl. by rewrite <- app_assoc.
  - intros n'. rewrite total_app, total_cons, past_wait_wait. simpl.
    rewrite Hcount. unfold total. simpl. lia.
  - intros k' n' w' Hk'. apply lookup_app_Some in Hk' as [Hk'|[_ Hk']].
    + by eapply Hlog.
    + destruct (k' - List.length ths) as [|j]; [|done]. by injection Hk' as <- <-.
  (* spawned *)
  - by rewrite app_nil_r in Hths.
  - done.
  - done.
  (* kick *)
  - done.
  - intros n'. simpl. rewrite occurrences_app, Hcount.
    rewrite occurrences_cons, decide_False by done. done.
  - intros k' n' w' Hk'. simpl. apply thread_logged_mono. by eapply Hlog.
  (* skip *)
  - done.
  - done.
  - done.
  (* kicked *)
  - done.
  - done.
  - done.
  (* join *)
  - done.
  - done.
  - done.
  (* return *)
  - done.
  - done.
  - done.
  (* begin *)
  - rewrite (fst_insert_thread _ _ _ _ _ H). by destruct m.
  - intros n'. simpl. rewrite occurrences_app, Hcount.
    pose proof (total_insert (past_wait n') ths k _ (n, WRun) H) as Ht.
    rewrite past_wait_wait in Ht.
    rewrite occurrences_cons. unfold past_wait in Ht at 3. simpl in Ht.
    destruct (decide (n = n')) as [->|Hne].
    + rewrite decide_True by done. rewrite decide_True in Ht by done.
      rewrite occurrences_nil. lia.
    + rewrite decide_False by congruence. rewrite decide_False in Ht by tauto.
      rewrite occurrences_nil. lia.
  - intros k' n' w' Hk'.
    destruct (lookup_insert_thread _ _ _ _ _ _ H Hk') as [[-> [= -> ->]]|[_ Hold]].
    + done.
    + simpl. apply thread_logged_mono. by eapply Hlog.
  (* fault *)
  - rewrite (fst_insert_thread _ _ _ _ _ H). by destruct m.
  - intros n'. unfold faulted. simpl. rewrite write_values_log.
    rewrite occurrences_app, Hcount.
    pose proof (total_insert (past_wait n') ths k _ (n, WDead e) H) as Ht.
    rewrite (past_wait_eq n' n WRun (WDead e)) in Ht by done.
    rewrite occurrences_cons, decide_False by done. rewrite occurrences_nil. lia.
  - intros k' n' w' Hk'. unfold faulted. simpl. rewrite write_values_log.
    destruct (lookup_insert_thread _ _ _ _ _ _ H Hk') as [[-> [= -> ->]]|[_ Hold]].
    + simpl. split; [|by eexists]. apply elem_of_app. right.
      apply elem_of_cons. by left.
    + apply thread_logged_mono. by eapply Hlog.
  (* end *)
  - rewrite (fst_insert_thread _ _ _ _ _ H). by destruct m.
  - intros n'. simpl. rewrite occurrences_app, Hcount.
    pose proof (total_insert (past_wait n') ths k _ (n, WPublish (publish_of h N)) H) as Ht.
    rewrite (past_wait_eq n' n WRun (WPublish (publish_of h N))) in Ht by done.
    rewrite occurrences_cons, decide_False by done. rewrite occurrences_nil. lia.
  - intros k' n' w' Hk'. simpl.
    destruct (lookup_insert_thread _ _ _ _ _ _ H Hk') as [[-> [= -> ->]]|[_ Hold]].
    + simpl. apply elem_of_app. right. apply elem_of_cons. by left.
    + apply thread_logged_mono. by eapply Hlog.
  (* deliver *)
  - rewrite (fst_insert_thread _ _ _ _ _ H). by destruct m.
  - intros n'. destruct (delivered_log h t i T I N) as (es & -> & Hes).
    rewrite occurrences_app, Hcount.
    pose proof (total_insert (past_wait n') ths k _ (n, WPublish l) H) as Ht.
    rewrite (past_wait_eq n' n (WPublish ((i, t) :: l)) (WPublish l)) in Ht by done.
    rewrite occurrences_cons, decide_False by done.
    rewrite occurrences_notin; [lia|].
    intros He. by destruct (Hes _ He).
  - intros k' n' w' Hk'. destruct (delivered_log h t i T I N) as (es & -> & Hes).
    destruct (lookup_insert_thread _ _ _ _ _ _ H Hk') as [[-> [= -> ->]]|[_ Hold]].
    + apply thread_logged_mono. by apply (Hlog k n (WPublish ((i, t) :: l))).
    + apply thread_logged_mono. by eapply Hlog.
  (* done *)
  - rewrite (fst_insert_thread _ _ _ _ _ H). by destruct m.
  - intros n'. rewrite Hcount.
    pose proof (total_insert (past_wait n') ths k _ (n, WDone) H) as Ht.
    rewrite (past_wait_eq n' n (WPublish []) WDone) in Ht by done. lia.
  - intros k' n' w' Hk'.
    destruct (lookup_insert_thread _ _ _ _ _ _ H Hk') as [[-> [= -> ->]]|[_ Hold]].
    + by apply (Hlog k n (WPublish [])).
    + by eapply Hlog.
Qed.

(** ** A node fed by an input node *)

Lemma chain_shape run_body f h h' n1 n2 a b :
  same_shape h h' → chain run_body f h n1 n2 a b → chain run_body f h' n1 n2 a b.
Proof.
  intros Hs (Hnd & Hn1 & Hn2 & HN1 & HA & HN2 & HB & Hrun).
  split; [done|]. split; [done|]. split; [done|].
  split; [|split; [|split; [|split; [|done]]]].
  - apply holds_Some in HN1 as (N1 & HN1 & Hin & Hno & Ha).
    destruct (shape_node _ _ _ _ Hs HN1) as (N1' & -> & Heq). simpl.
    injection Heq as Hc _ Hi. rewrite Hc, Hi. split; [done|]. split; [|done].
    by apply (no_predecessor_shape h h' N1 N1' Hs Hi).
  - eapply holds_shape_iface; [|exact Hs|exact HA].
    intros X X' HX. apply iface_shape_inv in HX as (_&_&_&_&_&->&_). done.
  - apply holds_Some in HN2 as (N2 & HN2 & Hslots & Hothers).
    destruct (shape_node _ _ _ _ Hs HN2) as (N2' & -> & Heq). simpl.
    injection Heq as _ _ Hi. rewrite (slots_of_shape h h' N2 N2' Hs Hi).
    split; [done|]. rewrite Hi.
    eapply Forall_impl; [exact Hothers|]. intros x [->|Hx]; [by left|]. right.
    eapply holds_shape_iface; [|exact Hs|exact Hx].
    intros X X' HX. apply iface_shape_inv in HX as (_&_&_&_&->&_). done.
  - eapply holds_shape_iface; [|exact Hs|exact HB].
    intros X X' HX. apply iface_shape_inv in HX as (_&->&_&_&->&_). done.
Qed.

(** The objects of a chain, and what the well-formed graph adds. *)
Lemma chain_objects run_body f h n1 n2 a b :
  wf_graph f h → chain run_body f h n1 n2 a b →
  ∃ N1 N2 A B,
    h_nodes h !! n1 = Some N1 ∧ h_nodes h !! n2 = Some N2 ∧
    h_ifaces h !! a = Some A ∧ h_ifaces h !! b = Some B ∧
    no_predecessor h N1 ∧ ¬ no_predecessor h N2 ∧
    i_node A = n1 ∧ i_node B = n2 ∧ i_predecessors B = [a] ∧
    List.length (slots_of h N2) ≤ 1 ∧ (a, b) ∈ publish_of h N1 ∧
    n1 ∈ input_nodes_of f h ∧
    (∀ t T i, h_ifaces h !! t = Some T → i_node T = n2 → i ∈ i_predecessors T →
              t = b ∧ i = a).
Proof.
  intros Hwf (Hnd & Hn1 & Hn2 & HN1 & HA & HN2 & HB & Hrun).
  apply holds_Some in HN1 as (N1 & HN1 & Hin & Hno & Ha).
  apply holds_Some in HA as (A & HA & HAout).
  apply holds_Some in HN2 as (N2 & HN2 & Hslots & Hothers).
  apply holds_Some in HB as (B & HB & HBp & HBn).
  exists N1, N2, A, B.
  assert (b ∈ n_interfaces N2) as Hb.
  { destruct (owner_exists f h b B Hwf HB) as (N2' & HN2' & Hb).
    rewrite HBn, HN2 in HN2'. by injection HN2' as <-. }
  assert (i_node A = n1) as HAn.
  { destruct Hwf as (_ & W2 & _). specialize (W2 n1 N1 HN1). simpl in W2.
    rewrite Forall_forall in W2. specialize (W2 a Ha). by rewrite HA in W2. }
  assert (b ∈ i_successors A) as Hsucc.
  { destruct (predecessor_exists f h b a B Hwf HB) as (A' & HA' & Hs).
    - rewrite HBp. apply elem_of_cons. by left.
    - congruence. }
  repeat (split; [done|]).
  split.
  { unfold no_predecessor. rewrite Forall_forall. intros Hall.
    specialize (Hall b Hb). rewrite HB in Hall. simpl in Hall. congruence. }
  repeat (split; [done|]).
  split.
  { unfold publish_of. apply elem_of_concat.
    exists (map (λ t, (a, t)) (i_successors A)). split.
    - apply (list_elem_of_fmap_2 (λ t, (a, t))). done.
    - apply list_elem_of_fmap. exists a. rewrite HA. split; [done|].
      apply list_elem_of_filter. rewrite HA. done. }
  split.
  { apply list_elem_of_filter. rewrite HN1. done. }
  intros t T i HT HTn Hi.
  destruct (owner_exists f h t T Hwf HT) as (N2' & HN2' & Ht).
  rewrite HTn, HN2 in HN2'. injection HN2' as <-.
  rewrite Forall_forall in Hothers. destruct (Hothers t Ht) as [->|Hnone].
  - split; [done|]. rewrite HB in HT. injection HT as <-.
    rewrite HBp in Hi. by apply list_elem_of_singleton in Hi.
  - rewrite HT in Hnone. simpl in Hnone. rewrite Hnone in Hi.
    by apply elem_of_nil in Hi.
Qed.

Lemma notified_canRun h N t : n_canRun N = true → n_canRun (notified h N t) = true.
Proof. intros H. unfold notified. by case_bool_decide. Qed.

Lemma delivered_nodes h t i T I N :
  h_nodes (delivered h t i T I N)
  = if all_received (received T I i)
    then <[i_node T := notified h N t]> (h_nodes h) else h_nodes h.
Proof. unfold delivered. by destruct (all_received _). Qed.

Lemma started_insert (ths : list (nat * wstate)) k n0 w w' n :
  ths !! k = Some (n0, w) → w' ≠ WWait →
  (∃ k0 w0, ths !! k0 = Some (n, w0) ∧ w0 ≠ WWait) →
  ∃ k0 w0, <[k := (n0, w')]> ths !! k0 = Some (n, w0) ∧ w0 ≠ WWait.
Proof.
  intros Hk Hw' (k0 & w0 & Hk0 & Hw0).
  destruct (decide (k0 = k)) as [->|Hne].
  - rewrite Hk in Hk0. injection Hk0 as -> _.
    exists k, w'. split; [|done].
    apply list_lookup_insert_eq. by eapply lookup_lt_Some.
  - exists k0, w0. split; [|done]. by rewrite list_lookup_insert_ne.
Qed.

(** The event a node has set stays set until its own thread clears it,
    past the wait. *)
Lemma started_moves run_body r r' n :
  moves run_body r r' → started r n → started r' n.
Proof.
  intros Hmv [Hset|(k0 & w0 & Hk0 & Hw0)].
  - destruct Hmv; unfold started; cbn [r_heap r_threads] in *; try (by left).
    + left. unfold kicked. simpl. destruct (decide (n = n0)) as [->|Hne].
      * by rewrite lookup_insert_eq.
      * by rewrite lookup_insert_ne.
    + left. unfold begun. simpl. destruct (decide (n = n0)) as [->|Hne].
      * rewrite lookup_insert_eq. simpl. rewrite H0 in Hset. done.
      * by rewrite lookup_insert_ne.
    + left. unfold faulted. simpl. by rewrite write_values_nodes.
    + unfold ended. simpl. destruct (decide (n = n0)) as [->|Hne].
      * right. exists k, (WPublish (publish_of h N)). split; [|done].
        apply list_lookup_insert_eq. by eapply lookup_lt_Some.
      * left. by rewrite lookup_insert_ne.
    + left. rewrite delivered_nodes. destruct (all_received _); [|done].
      destruct (decide (n = i_node T)) as [->|Hne].
      * rewrite lookup_insert_eq. simpl. apply notified_canRun.
        rewrite H2 in Hset. done.
      * by rewrite lookup_insert_ne.
  - right. destruct Hmv; cbn [r_heap r_threads] in *;
      try (by exists k0, w0);
      try (by eapply started_insert; [eassumption|done|eauto]).
    exists k0, w0. split; [|done]. by apply lookup_app_l_Some.
Qed.

(** What a move adds to the log: [run()] begins only on a node whose event
    is set, and a notification is logged only by the move that makes it. *)
Lemma moves_new_events run_body r r' :
  moves run_body r r' →
  ∃ es, h_log (r_heap r') = h_log (r_heap r) ++ es ∧
    (∀ n, EvBegin n ∈ es →
       holds (λ N, n_canRun N = true) (h_nodes (r_heap r) !! n)) ∧
    (∀ i t, EvDeliver i t ∈ es →
       ∃ k n l T I N,
         r_threads r !! k = Some (n, WPublish ((i, t) :: l)) ∧
         h_ifaces (r_heap r) !! t = Some T ∧ h_ifaces (r_heap r) !! i = Some I ∧
         h_nodes (r_heap r) !! i_node T = Some N ∧
         i ∈ i_predecessors T ∧ i_node I = n ∧
         r_heap r' = delivered (r_heap r) t i T I N).
Proof.
  destruct 1; cbn [r_heap r_threads];
    try (exists []; split; [by rewrite app_nil_r|];
         split; [by intros ? ?%elem_of_nil|by intros ? ? ?%elem_of_nil]).
  - exists [EvKick n]. split; [done|].
    split; intros *; intros He%list_elem_of_singleton; done.
  - exists [EvBegin n]. split; [done|]. split.
    + intros n' [= <-]%list_elem_of_singleton. by rewrite H0.
    + intros *. intros He%list_elem_of_singleton; done.
  - exists [EvFault n]. split; [unfold faulted; simpl; by rewrite write_values_log|].
    split; intros *; intros He%list_elem_of_singleton; done.
  - exists [EvEnd n]. split; [done|].
    split; intros *; intros He%list_elem_of_singleton; done.
  - destruct (delivered_log h t i T I N) as (es & Hlog & Hes).
    exists (EvDeliver i t :: es). split; [done|]. split.
    + intros n' [He|He]%elem_of_cons; [done|]. by destruct (Hes _ He).
    + intros i' t' [[= -> ->]|He]%elem_of_cons.
      * by exists k, n, l, T, I, N.
      * by destruct (Hes _ He).
Qed.

(** How the event of a node comes to be set. *)
Lemma moves_canRun run_body r r' n :
  moves run_body r r' →
  holds (λ N, n_canRun N = true) (h_nodes (r_heap r') !! n) →
  holds (λ N, n_canRun N = true) (h_nodes (r_heap r) !! n) ∨
  (∃ N, h_nodes (r_heap r) !! n = Some N ∧ no_predecessor (r_heap r) N) ∨
  (∃ i t T, h_ifaces (r_heap r) !! t = Some T ∧ i_node T = n ∧
            i ∈ i_predecessors T ∧ EvDeliver i t ∈ h_log (r_heap r')).
Proof.
  destruct 1; cbn [r_heap]; try (by left).
  - unfold kicked. simpl. destruct (decide (n = n0)) as [->|Hne].
    + intros _. right. left. by exists N.
    + rewrite lookup_insert_ne by done. by left.
  - unfold begun. simpl. destruct (decide (n = n0)) as [->|Hne].
    + rewrite lookup_insert_eq. simpl. intros _. left. by rewrite H0.
    + rewrite lookup_insert_ne by done. by left.
  - unfold faulted. simpl. rewrite write_values_nodes. by left.
  - unfold ended. simpl. destruct (decide (n = n0)) as [->|Hne].
    + by rewrite lookup_insert_eq.
    + rewrite lookup_insert_ne by done. by left.
  - rewrite delivered_nodes. destruct (all_received _); [|by left].
    destruct (decide (n = i_node T)) as [->|Hne].
    + intros _. right. right. exists i, t, T. split; [done|]. split; [done|].
      split; [done|]. destruct (delivered_log h t i T I N) as (es & -> & _).
      apply elem_of_app. right. apply elem_of_cons. by left.
    + rewrite lookup_insert_ne by done. by left.
Qed.

Lemma size_union_singleton_ge (x : nat) (X : gset nat) : 1 ≤ size ({[x]} ∪ X).
Proof.
  transitivity (size ({[x]} : gset nat)); [by rewrite size_singleton|].
  apply subseteq_size, union_subseteq_l.
Qed.

(** Delivery along the one link of the chain sets the event of [n2]. *)
Lemma delivered_sets h n2 a b A B N2 :
  i_node B = n2 → i_predecessors B = [a] → List.length (slots_of h N2) ≤ 1 →
  holds (λ N, n_canRun N = true) (h_nodes (delivered h b a B A N2) !! n2).
Proof.
  intros HBn HBp Hslots. rewrite delivered_nodes.
  assert (i_predecessors (received B A a) = [a]) as Hp.
  { unfold received, loaded. by destruct (i_class B). }
  assert (1 ≤ size (i_readypredecessors (received B A a))) as Hsz.
  { unfold received. simpl. apply size_union_singleton_ge. }
  unfold all_received.
  rewrite bool_decide_eq_true_2 by (rewrite Hp; exact Hsz).
  rewrite HBn, lookup_insert_eq. unfold notified.
  rewrite bool_decide_eq_true_2; [done|]. simpl.
  pose proof (size_union_singleton_ge b (n_readyinterfaces N2)). lia.
Qed.

Lemma chain_inv_moves run_body f n1 n2 a b r r' :
  sound f r → threads_inv run_body f r →
  chain run_body f (r_heap r) n1 n2 a b →
  chain_inv n1 n2 a b r → moves run_body r r' → chain_inv n1 n2 a b r'.
Proof.
  intros (Hf & Hwf & _) (_ & _ & Hlogged) Hch (Ho1 & Ho2 & Hgate & Hkick & Hpub & Hfed) Hmv.
  destruct (chain_objects _ _ _ _ _ _ _ Hwf Hch)
    as (N1 & N2 & A & B & HN1 & HN2 & HA & HB & Hno1 & Hno2 & HAn & HBn & HBp &
        Hslots & Hpubl & Hinp & Honly).
  destruct (moves_new_events _ _ _ Hmv) as (es & Hlog & Hbeg & Hdel).
  pose proof (started_moves _ _ _ n1 Hmv) as Hst1.
  pose proof (started_moves _ _ _ n2 Hmv) as Hst2.
  pose proof (moves_log_mono _ _ _ (EvDeliver a b) Hmv) as Hmono.
  split; [|split; [|split; [|split; [|split]]]].
  - rewrite Hlog. apply precedes_app; [done|]. intros Hin. by apply Hgate, Hbeg.
  - rewrite Hlog. apply precedes_app; [done|]. intros Hin.
    destruct (Hdel a b Hin) as (k & n & l & T & I & N & Hk & HT & HI & HN & Hi & HIn & _).
    rewrite HA in HI. injection HI as <-. rewrite HAn in HIn. subst n.
    apply (Hlogged k n1 _ Hk).
  - intros Hset.
    destruct (moves_canRun _ _ _ n2 Hmv Hset)
      as [Hold|[(N & HN & Hno)|(i & t & T & HT & HTn & Hi & Hin)]].
    + by apply Hmono, Hgate.
    + rewrite HN2 in HN. injection HN as <-. done.
    + by destruct (Honly t T i HT HTn Hi) as [-> ->].
  - clear Hlog Hbeg Hdel Hmono Hst2 Hpub Hfed Hgate Ho1 Ho2 Hlogged.
    destruct Hmv; cbn [r_heap r_flow r_main r_threads] in *;
      try match goal with H : ?x = f |- _ => subst x end;
      try (destruct m;
           first [done | by apply Hst1
                 | destruct Hkick as [?|?]; [by left|right; by apply Hst1]]).
    + done.
    + by left.
    + destruct Hkick as [[->|Hin]%elem_of_cons|Hst]; [|by left|right; by apply Hst1].
      right. left. unfold kicked. simpl. by rewrite lookup_insert_eq.
    + destruct Hkick as [[->|Hin]%elem_of_cons|Hst]; [|by left|right; by apply Hst1].
      rewrite HN1 in H. by injection H as <-.
    + destruct Hkick as [Hin%elem_of_nil|Hst]; [done|by apply Hst1].
    + by apply Hst1.
    + by apply Hst1.
  - clear Hlog Hbeg Hdel Hst1 Hst2 Hkick Hfed Hgate Ho1 Ho2 Hlogged.
    assert (∀ k w, r_threads r !! k = Some (n1, w) →
                   match w with
                   | WPublish l => (a, b) ∈ l ∨ EvDeliver a b ∈ h_log (r_heap r')
                   | WDone => EvDeliver a b ∈ h_log (r_heap r')
                   | _ => True
                   end) as Hpub'.
    { intros k w Hk. specialize (Hpub k w Hk). destruct w; try done.
      - destruct Hpub; [by left|right; by apply Hmono].
      - by apply Hmono. }
    clear Hpub. intros k' w' Hk'.
    destruct Hmv; cbn [r_heap r_flow r_main r_threads] in *;
      try (by apply (Hpub' k' w'));
      try (destruct (lookup_insert_thread _ _ _ _ _ _ H Hk') as [[-> Heq]|[_ Hold]];
           [injection Heq as -> ->|by apply (Hpub' k' w')]).
    + apply lookup_app_Some in Hk' as [Hk'|[_ Hk']]; [by apply (Hpub' k' w')|].
      destruct (k' - List.length ths) as [|j]; [|done]. by injection Hk' as _ <-.
    + done.
    + done.
    + left. rewrite HN1 in H1. by injection H1 as <-.
    + specialize (Hpub' k _ H). simpl in Hpub'.
      destruct Hpub' as [[Heq|Hin]%elem_of_cons|Hin]; [|by left|by right].
      injection Heq as -> ->. right.
      destruct (delivered_log h t i T I N) as (es' & -> & _).
      apply elem_of_app. right. apply elem_of_cons. by left.
    + specialize (Hpub' k _ H). simpl in Hpub'.
      by destruct Hpub' as [Hin%elem_of_nil|Hin].
  - intros Hin. rewrite Hlog in Hin. apply elem_of_app in Hin as [Hin|Hin].
    + by apply Hst2, Hfed.
    + destruct (Hdel a b Hin) as (k & n & l & T & I & N & Hk & HT & HI & HN & Hi & HIn & Heq).
      rewrite HA in HI. injection HI as <-. rewrite HB in HT. injection HT as <-.
      rewrite HBn, HN2 in HN. injection HN as <-.
      left. rewrite Heq. by apply delivered_sets.
Qed.

(** ** Termination and the end of an execution *)

Lemma fanout_shape h h' n : same_shape h h' → fanout h' n = fanout h n.
Proof.
  intros Hs. unfold fanout.
  destruct (h_nodes h !! n) as [N|] eqn:HN.
  - destruct (shape_node _ _ _ _ Hs HN) as (N' & -> & Heq). simpl.
    injection Heq as _ _ Hi. by rewrite (publish_of_shape h h' N N' Hs Hi).
  - destruct Hs as [_ Hn]. specialize (Hn n). rewrite HN in Hn.
    by destruct (h_nodes h' !! n).
Qed.

(** Every move brings the runner closer to its end. *)
Lemma measure_moves run_body f h0 r r' :
  r_flow r = f → same_shape h0 (r_heap r) → moves run_body r r' →
  measure f h0 r' < measure f h0 r.
Proof.
  intros Hf Hs Hmv. unfold measure.
  destruct Hmv; cbn [r_heap r_flow r_main r_threads] in *;
    rewrite ?length_insert;
    try (match goal with
         | H : ?ths !! ?k = Some ?x |- context [total ?g (<[?k := ?y]> ?ths)] =>
             pose proof (total_insert g ths k x y H) as Ht; simpl in Ht
         end).
  - rewrite total_app, !total_cons, length_app. simpl. lia.
  - subst f0. pose proof (length_filter
      (λ n, holds (λ N, is_InputNode (n_class N) = true) (h_nodes h !! n)) (nodes f)) as Hl.
    unfold input_nodes_of. simpl. lia.
  - simpl. lia.
  - simpl. lia.
  - simpl. lia.
  - apply lookup_lt_Some in H. lia.
  - lia.
  - lia.
  - lia.
  - assert (List.length (publish_of h N) = fanout h0 n) as Hfan.
    { rewrite <- (fanout_shape h0 h n Hs). unfold fanout. by rewrite H1. }
    lia.
  - lia.
  - lia.
Qed.

Lemma exec_measure run_body f h0 sched : ∀ r0 r,
  sound f r0 → same_shape h0 (r_heap r0) →
  exec run_body sched r0 = Some r →
  List.length sched + measure f h0 r ≤ measure f h0 r0.
Proof.
  induction sched as [|t sched IH]; intros r0 r Hs Hsh; simpl.
  - intros [= <-]. lia.
  - destruct (step run_body t r0) as [r1|] eqn:Ht; [|done].
    pose proof (step_moves _ _ _ _ _ Hs Ht) as Hmv. intros Hex.
    pose proof (measure_moves _ f h0 _ _ (proj1 Hs) Hsh Hmv) as Hlt.
    assert (same_shape h0 (r_heap r1)) as Hsh1.
    { eapply same_shape_trans; [exact Hsh|by eapply moves_shape]. }
    specialize (IH r1 r (sound_moves _ _ _ _ Hs Hmv) Hsh1 Hex). lia.
Qed.

(** A thread that cannot take a step waits for an event that is not set,
    or is over. *)
Lemma stuck_thread run_body f r k n w :
  sound f r → stuck run_body r → r_threads r !! k = Some (n, w) →
  (w = WWait ∧ holds (λ N, n_canRun N = false) (h_nodes (r_heap r) !! n)) ∨
  finished w = true.
Proof.
  intros (_ & Hwf & _ & _ & Hths) [_ Hstuck] Hk. specialize (Hstuck k).
  unfold step in Hstuck. rewrite Hk in Hstuck.
  destruct (step_node run_body n w (r_heap r)) as [[w' h']|] eqn:Hstep; [done|].
  clear Hstuck. destruct w as [| |[|[i t] l]| |e]; simpl in Hstep; try by right.
  - left. split; [done|].
    destruct (h_nodes (r_heap r) !! n) as [N|]; [|done]. simpl.
    destruct (n_canRun N); [|done].
    by destruct (bind _ _ _) as [[|] ?].
  - destruct (o_raises _); [done|]. by destruct (bind _ _ _) as [[|] ?].
  - by destruct (onContentReady _ _ _) as [[|] ?].
Qed.

(** When no thread can take a step, the main thread has created all the
    threads. *)
Lemma stuck_main run_body f r :
  sound f r → threads_inv run_body f r → stuck run_body r →
  fst <$> r_threads r = nodes f ∧
  match r_main r with MJoin _ | MDone => True | _ => False end.
Proof.
  intros (_ & _ & _ & Hmain & _) (Hths & _) [Hstuck _].
  unfold step_main in Hstuck.
  destruct (r_main r) as [[|n todo]|[|n todo]|k| |e]; try done.
  - by destruct (inputNodes _ _) as [[|] ?].
  - by destruct (kick _ _) as [[|] ?].
Qed.

Lemma total_past_wait_absent n (ths : list (nat * wstate)) :
  n ∉ fst <$> ths → total (past_wait n) ths = 0.
Proof.
  induction ths as [|[n' w] ths IH]; [done|]. intros Hn.
  rewrite fmap_cons in Hn.
  apply not_elem_of_cons in Hn as [Hne Hn]. rewrite total_cons, (IH Hn).
  unfold past_wait. simpl. rewrite decide_False; [done|]. intros [-> _]. done.
Qed.

Lemma total_past_wait_le n (ths : list (nat * wstate)) :
  NoDup (fst <$> ths) → total (past_wait n) ths ≤ 1.
Proof.
  induction ths as [|[n' w] ths IH]; [by (unfold total; simpl; lia)|].
  rewrite fmap_cons. intros [Hn' Hnd]%NoDup_cons. rewrite total_cons.
  unfold past_wait at 1. simpl. case_decide as Hd.
  - destruct Hd as [-> _]. rewrite total_past_wait_absent by done. lia.
  - specialize (IH Hnd). lia.
Qed.

Lemma total_past_wait_ge n (ths : list (nat * wstate)) k w :
  ths !! k = Some (n, w) → w ≠ WWait → 1 ≤ total (past_wait n) ths.
Proof.
  intros Hk Hw. rewrite <- (take_drop_middle ths k _ Hk).
  rewrite total_app, total_cons. unfold past_wait at 2. simpl.
  rewrite decide_True by done. lia.
Qed.

(** When no thread can take a step, a node of the flow whose event was set
    has a thread that got past the wait. *)
Lemma stuck_started run_body f r n :
  sound f r → threads_inv run_body f r → NoDup (nodes f) → n ∈ nodes f →
  stuck run_body r → started r n →
  ∃ k w, r_threads r !! k = Some (n, w) ∧ finished w = true.
Proof.
  intros Hs Hti Hnd Hn Hstuck Hst.
  destruct (stuck_main _ _ _ Hs Hti Hstuck) as [Hths _].
  rewrite <- Hths in Hn, Hnd.
  apply list_elem_of_lookup in Hn as [k Hk].
  rewrite list_lookup_fmap in Hk.
  destruct (r_threads r !! k) as [[n' w]|] eqn:Hk'; [|done].
  simpl in Hk. injection Hk as ->.
  destruct (stuck_thread _ _ _ _ _ _ Hs Hstuck Hk') as [[-> Hoff]|Hfin].
  - exfalso. destruct Hst as [Hset|(k0 & w0 & Hk0 & Hw0)].
    + destruct (h_nodes (r_heap r) !! n) as [N|]; [|done]. simpl in *. congruence.
    + assert (k0 = k) as ->.
      { apply (NoDup_lookup _ _ _ n Hnd); rewrite list_lookup_fmap.
        - by rewrite Hk0.
        - by rewrite Hk'. }
      rewrite Hk' in Hk0. by injection Hk0 as <-.
  - by exists k, w.
Qed.

(** ** Readiness propagation from an input node *)

Lemma chain_start run_body f h n1 n2 a b :
  wf_graph f h → fresh h → chain run_body f h n1 n2 a b →
  threads_inv run_body f (Runner_start f h) ∧
  chain run_body f (r_heap (Runner_start f h)) n1 n2 a b ∧
  chain_inv n1 n2 a b (Runner_start f h).
Proof.
  intros Hwf (Hlog & Hnodes & _) Hch. unfold Runner_start.
  split; [|split; [done|]].
  - split; [done|]. split.
    + intros n. simpl. by rewrite Hlog.
    + by intros k n w ?.
  - unfold chain_inv. simpl. rewrite Hlog.
    split; [apply precedes_nil|]. split; [apply precedes_nil|].
    split; [|split; [done|split; [done|by intros ?%elem_of_nil]]].
    intros Hset. apply holds_Some in Hset as (N & HN & Hset).
    destruct (Hnodes n2 N HN) as [Hoff _]. congruence.
Qed.

(** C1: a flow on a well-formed graph that has not run yet, each node in
    it once; [n1] is an input node without predecessors whose [run()]
    returns; its output interface [a] is the one predecessor of interface
    [b] of [n2], the only interface of [n2] that has predecessors; [n2] has
    at most one input-slot interface.  Then every execution of the runner is
    finite; [run()] of [n2] is called at most once, each call comes after
    the return of [run()] of [n1] and after the delivery from [a] to [b];
    and when no thread can take a step any more, [run()] of [n2] has been
    called exactly once. *)
Theorem downstream_runs_once run_body f h n1 n2 a b sched r :
  wf_graph f h → streams_ok h → fresh h → chain run_body f h n1 n2 a b →
  exec run_body sched (Runner_start f h) = Some r →
  List.length sched ≤ steps_bound f h ∧
  occurrences (EvBegin n2) (h_log (r_heap r)) ≤ 1 ∧
  precedes (EvEnd n1) (EvBegin n2) (h_log (r_heap r)) ∧
  precedes (EvDeliver a b) (EvBegin n2) (h_log (r_heap r)) ∧
  (stuck run_body r → occurrences (EvBegin n2) (h_log (r_heap r)) = 1).
Proof.
  intros Hwf Hok Hfresh Hch Hex.
  pose proof (sound_start f h Hwf Hok) as Hs0.
  destruct (exec_invariant run_body f
              (λ r, threads_inv run_body f r ∧
                    chain run_body f (r_heap r) n1 n2 a b ∧
                    chain_inv n1 n2 a b r) sched _ r Hs0
              (chain_start _ _ _ _ _ _ _ Hwf Hfresh Hch))
    as (Hs & Hti & Hch' & Hci); [|done|].
  { intros r1 r2 Hs1 (Hti1 & Hch1 & Hci1) Hmv.
    split; [by eapply threads_inv_moves|]. split.
    - eapply chain_shape; [by eapply moves_shape|done].
    - by eapply chain_inv_moves. }
  destruct Hci as (Ho1 & Ho2 & Hgate & Hkick & Hpub & Hfed).
  pose proof Hch as (Hnd & Hn1 & Hn2 & _ & _ & _ & _ & Hrun).
  pose proof Hti as (Hths & Hcount & Hlogged).
  assert (NoDup (fst <$> r_threads r)) as Hndt.
  { destruct (r_main r); try (by rewrite Hths).
    rewrite <- Hths in Hnd. by apply NoDup_app in Hnd as [? _]. }
  split.
  { pose proof (exec_measure run_body f h sched _ r Hs0 (same_shape_refl h) Hex).
    unfold steps_bound. lia. }
  split.
  { rewrite Hcount. by apply total_past_wait_le. }
  split; [by eapply precedes_trans|]. split; [done|].
  intros Hstuck.
  destruct (stuck_main _ _ _ Hs Hti Hstuck) as [_ Hmain].
  assert (started r n1) as Hst1 by (destruct (r_main r); done).
  destruct (stuck_started _ _ _ n1 Hs Hti Hnd Hn1 Hstuck Hst1) as (k1 & w1 & Hk1 & Hw1).
  assert (EvDeliver a b ∈ h_log (r_heap r)) as Hdel.
  { specialize (Hpub k1 w1 Hk1). specialize (Hlogged k1 n1 w1 Hk1).
    destruct w1; try done. simpl in Hlogged.
    destruct Hlogged as [_ [h' Hh']]. rewrite Hrun in Hh'. done. }
  destruct (stuck_started _ _ _ n2 Hs Hti Hnd Hn2 Hstuck (Hfed Hdel))
    as (k2 & w2 & Hk2 & Hw2).
  assert (w2 ≠ WWait) as Hne by (intros ->; done).
  pose proof (total_past_wait_ge n2 _ k2 w2 Hk2 Hne).
  pose proof (total_past_wait_le n2 _ Hndt).
  rewrite Hcount. lia.
Qed.

Lemma downstream_runs_once_witness :
  ∃ r,
    exec Examples.quiet_run Examples.copy_schedule
      (Runner_start Examples.flow_copy Examples.file_copy) = Some r ∧
    List.length Examples.copy_schedule
      ≤ steps_bound Examples.flow_copy Examples.file_copy ∧
    occurrences (EvBegin 3) (h_log (r_heap r)) ≤ 1 ∧
    precedes (EvEnd 0) (EvBegin 3) (h_log (r_heap r)) ∧
    precedes (EvDeliver 2 5) (EvBegin 3) (h_log (r_heap r)) ∧
    (stuck Examples.quiet_run r → occurrences (EvBegin 3) (h_log (r_heap r)) = 1).
Proof.
  eexists. split; [vm_compute; reflexivity|].
  apply (downstream_runs_once Examples.quiet_run Examples.flow_copy
           Examples.file_copy 0 3 2 5 Examples.copy_schedule).
  - apply (bool_decide_unpack _). vm_compute. reflexivity.
  - apply (bool_decide_unpack _). vm_compute. reflexivity.
  - apply (bool_decide_unpack _). vm_compute. reflexivity.
  - unfold chain.
    split; [apply (bool_decide_unpack _); vm_compute; reflexivity|].
    split; [apply (bool_decide_unpack _); vm_compute; reflexivity|].
    split; [apply (bool_decide_unpack _); vm_compute; reflexivity|].
    split; [apply (bool_decide_unpack _); vm_compute; reflexivity|].
    split; [apply (bool_decide_unpack _); vm_compute; reflexivity|].
    split; [apply (bool_decide_unpack _); vm_compute; reflexivity|].
    split; [apply (bool_decide_unpack _); vm_compute; reflexivity|].
    intros h'. reflexivity.
  - vm_compute. reflexivity.
Defined.

(** C1, the claim as stated fails.  In both flows node 0 has no input-slot
    interface and its output is connected to an input of the other node.
    In the first, the path of the [FileInputNode] is unset and its [run()]
    raises: nothing is delivered.  In the second, the delivery to [stdin]
    is made, but the [ProcessNode] also waits for its [cmd] slot, which
    nothing feeds.  Either execution has come to a point where no thread
    can take a step, and [run()] of the downstream node was never called. *)
Lemma downstream_never_runs :
  (∃ r,
     exec (module_run Examples.no_env) Examples.unfilled_schedule
       (Runner_start Examples.flow_copy Examples.unfilled_copy) = Some r ∧
     inputSlotInterfaces 0 Examples.unfilled_copy = (Ok [], Examples.unfilled_copy) ∧
     (i_successors <$> h_ifaces Examples.unfilled_copy !! 2) = Some [5] ∧
     (isInput <$> h_ifaces Examples.unfilled_copy !! 5) = Some true ∧
     stuck (module_run Examples.no_env) r ∧
     occurrences (EvBegin 3) (h_log (r_heap r)) = 0) ∧
  (∃ r,
     exec (module_run Examples.no_env) Examples.pipe_schedule
       (Runner_start Examples.flow_pipe Examples.pipe_awaiting_cmd) = Some r ∧
     inputSlotInterfaces 0 Examples.pipe_awaiting_cmd
       = (Ok [], Examples.pipe_awaiting_cmd) ∧
     (i_successors <$> h_ifaces Examples.pipe_awaiting_cmd !! 1) = Some [3] ∧
     (isInput <$> h_ifaces Examples.pipe_awaiting_cmd !! 3) = Some true ∧
     stuck (module_run Examples.no_env) r ∧
     EvDeliver 1 3 ∈ h_log (r_heap r) ∧
     occurrences (EvBegin 2) (h_log (r_heap r)) = 0).
Proof.
  split.
  - eexists. split; [vm_compute; reflexivity|].
    split; [vm_compute; reflexivity|]. split; [vm_compute; reflexivity|].
    split; [vm_compute; reflexivity|]. split; [|vm_compute; reflexivity].
    split; [vm_compute; reflexivity|].
    intros [|[|k]]; vm_compute; reflexivity.
  - eexists. split; [vm_compute; reflexivity|].
    split; [vm_compute; reflexivity|]. split; [vm_compute; reflexivity|].
    split; [vm_compute; reflexivity|]. split; [|split].
    + split; [vm_compute; reflexivity|].
      intros [|[|k]]; vm_compute; reflexivity.
    + apply (bool_decide_unpack _). vm_compute. reflexivity.
    + vm_compute. reflexivity.
Qed.

(** ** The events the runner sets *)

Lemma startable_shape h h' n : same_shape h h' → startable h n → startable h' n.
Proof.
  intros Hs Hst. apply holds_Some in Hst as (N & HN & Hin & Hno).
  destruct (shape_node _ _ _ _ Hs HN) as (N' & HN' & Heq).
  unfold startable. rewrite HN'. simpl. injection Heq as Hc _ Hi.
  split; [congruence|]. by apply (no_predecessor_shape h h' N N' Hs Hi).
Qed.

(** The main thread logs a kick only when it sets the event of the node at
    the head of its list, which has no predecessor. *)
Lemma moves_kick run_body r r' n :
  moves run_body r r' → EvKick n ∈ h_log (r_heap r') →
  EvKick n ∈ h_log (r_heap r) ∨
  ∃ todo N, r_main r = MKick (n :: todo) ∧ h_nodes (r_heap r) !! n = Some N ∧
            no_predecessor (r_heap r) N.
Proof.
  destruct 1; cbn [r_heap r_main]; try (by left).
  - intros [Hin|Hin%list_elem_of_singleton]%elem_of_app; [by left|].
    injection Hin as ->. right. by exists todo, N.
  - intros [Hin|Hin%list_elem_of_singleton]%elem_of_app; [by left|done].
  - unfold faulted. simpl. rewrite write_values_log.
    intros [Hin|Hin%list_elem_of_singleton]%elem_of_app; [by left|done].
  - intros [Hin|Hin%list_elem_of_singleton]%elem_of_app; [by left|done].
  - destruct (delivered_log h t i T I N) as (es & -> & Hes).
    intros [Hin|[Hin|Hin]%elem_of_cons]%elem_of_app; [by left|done|].
    by destruct (Hes _ Hin).
Qed.

(** A move of a thread of a node keeps what holds of the main thread. *)
Lemma kick_main_keep f r r' :
  r_main r' = r_main r → same_shape (r_heap r) (r_heap r') →
  (∀ e, e ∈ h_log (r_heap r) → e ∈ h_log (r_heap r')) →
  (∀ n, started r n → started r' n) →
  kick_main f r → kick_main f r'.
Proof.
  intros Hm Hs Hmono Hst. unfold kick_main. rewrite Hm.
  pose proof (same_shape_sym _ _ Hs) as Hs'.
  destruct (r_main r); try done.
  - intros [Hk3 Hk2]. split.
    + intros n Hn. rewrite (input_nodes_of_shape _ _ _ Hs). by apply Hk3.
    + intros n Hn Hsn.
      destruct (Hk2 n Hn (startable_shape _ _ _ Hs' Hsn)) as [?|[? ?]]; [by left|].
      right. split; [by apply Hmono|by apply Hst].
  - intros Hk2 n Hn Hsn.
    destruct (Hk2 n Hn (startable_shape _ _ _ Hs' Hsn)) as [? ?].
    split; [by apply Hmono|by apply Hst].
  - intros Hk2 n Hn Hsn.
    destruct (Hk2 n Hn (startable_shape _ _ _ Hs' Hsn)) as [? ?].
    split; [by apply Hmono|by apply Hst].
Qed.

Lemma kick_inv_moves run_body f r r' :
  sound f r → kick_inv f r → moves run_body r r' → kick_inv f r'.
Proof.
  intros (Hf & Hwf & _ & Hmain & _) [Hk1 Hk2] Hmv.
  pose proof (moves_shape _ _ _ Hmv) as Hs.
  pose proof (same_shape_sym _ _ Hs) as Hs'.
  pose proof (λ e, moves_log_mono _ _ _ e Hmv) as Hmono.
  pose proof (λ n, started_moves _ _ _ n Hmv) as Hst.
  split.
  - intros n Hin. destruct (moves_kick _ _ _ n Hmv Hin) as [Hold|(todo & N & Hm & HN & Hno)].
    + destruct (Hk1 n Hold) as [Hn Hstart]. split; [done|by eapply startable_shape].
    + unfold kick_main in Hk2. rewrite Hm in Hk2, Hmain. destruct Hk2 as [Hk3 _].
      assert (n ∈ input_nodes_of f (r_heap r)) as Hinp
        by (apply Hk3, elem_of_cons; by left).
      apply list_elem_of_filter in Hinp as [Hc Hn]. split; [done|].
      eapply startable_shape; [exact Hs|]. unfold startable.
      rewrite HN in *. simpl in *. done.
  - clear Hk1.
    destruct Hmv;
      try (by eapply kick_main_keep; only 2: exact Hs;
             [reflexivity|exact Hmono|exact Hst|exact Hk2]);
      unfold kick_main in *; cbn [r_heap r_flow r_main r_threads] in *;
      try match goal with H : ?x = f |- _ => subst x end.
    + done.
    + split; [done|]. intros n Hn Hsn. left.
      apply list_elem_of_filter. split; [|done].
      apply holds_Some in Hsn as (N & -> & Hc & _). done.
    + destruct Hk2 as [Hk3 Hk2]. split.
      * intros n' Hn'. rewrite (input_nodes_of_shape _ _ _ Hs).
        apply Hk3, elem_of_cons. by right.
      * intros n' Hn' Hsn'.
        destruct (Hk2 n' Hn' (startable_shape _ _ _ Hs' Hsn'))
          as [[->|Hin]%elem_of_cons|[Hlog Hst']].
        -- right. split.
           ++ apply elem_of_app. right. apply elem_of_cons. by left.
           ++ left. unfold kicked. simpl. by rewrite lookup_insert_eq.
        -- by left.
        -- right. split; [by apply Hmono|by apply Hst].
    + destruct Hk2 as [Hk3 Hk2]. split.
      * intros n' Hn'. apply Hk3, elem_of_cons. by right.
      * intros n' Hn' Hsn'.
        destruct (Hk2 n' Hn' Hsn') as [[->|Hin]%elem_of_cons|[Hlog Hst']].
        -- apply holds_Some in Hsn' as (N' & HN' & _ & Hno).
           rewrite H in HN'. by injection HN' as <-.
        -- by left.
        -- by right.
    + destruct Hk2 as [_ Hk2]. intros n Hn Hsn.
      by destruct (Hk2 n Hn Hsn) as [?%elem_of_nil|?].
    + exact Hk2.
    + exact Hk2.
Qed.

(** The events the main thread has set, after any execution from the
    start. *)
Lemma exec_kick_inv run_body f h sched r :
  wf_graph f h → streams_ok h → fresh h →
  exec run_body sched (Runner_start f h) = Some r →
  kick_inv f r ∧ same_shape h (r_heap r).
Proof.
  intros Hwf Hok (Hlog & _) Hex.
  pose proof (sound_start f h Hwf Hok) as Hs0.
  destruct (exec_invariant run_body f
              (λ r, kick_inv f r ∧ same_shape h (r_heap r)) sched _ r Hs0)
    as (Hs & Hki & Hsh); [| |done|done].
  { split; [|apply same_shape_refl]. split; [|done].
    intros n. simpl. rewrite Hlog. by intros ?%elem_of_nil. }
  { intros r1 r2 Hs1 [Hki Hsh1] Hmv. split; [by eapply kick_inv_moves|].
    eapply same_shape_trans; [exact Hsh1|by eapply moves_shape]. }
Qed.

(** C2: on a well-formed graph that has not run yet, the main thread sets
    the event of a node only if the node is an input node of the flow no
    interface of which has a predecessor; and once the main thread is
    joining, it has set the event of every such node, which from then on is
    set or has let the thread of the node past its wait.  The main thread
    sets no other event. *)
Theorem runner_kicks_input_nodes run_body f h sched r :
  wf_graph f h → streams_ok h → fresh h →
  exec run_body sched (Runner_start f h) = Some r →
  (∀ n, EvKick n ∈ h_log (r_heap r) → n ∈ nodes f ∧ startable h n) ∧
  (match r_main r with
   | MJoin _ | MDone =>
       ∀ n, n ∈ nodes f → startable h n → EvKick n ∈ h_log (r_heap r) ∧ started r n
   | _ => True
   end).
Proof.
  intros Hwf Hok Hfresh Hex.
  destruct (exec_kick_inv _ _ _ _ _ Hwf Hok Hfresh Hex) as [[Hk1 Hk2] Hsh].
  unfold kick_main in Hk2. split.
  - intros n Hin. destruct (Hk1 n Hin) as [Hn Hst]. split; [done|].
    by eapply startable_shape; [apply same_shape_sym|].
  - destruct (r_main r); try done.
    + intros n Hn Hst. apply Hk2; [done|]. by eapply startable_shape.
    + intros n Hn Hst. apply Hk2; [done|]. by eapply startable_shape.
Qed.

Lemma runner_kicks_input_nodes_witness :
  ∃ r,
    exec Examples.quiet_run Examples.copy_schedule
      (Runner_start Examples.flow_copy Examples.file_copy) = Some r ∧
    (∀ n, EvKick n ∈ h_log (r_heap r) →
          n ∈ nodes Examples.flow_copy ∧ startable Examples.file_copy n) ∧
    (match r_main r with
     | MJoin _ | MDone =>
         ∀ n, n ∈ nodes Examples.flow_copy → startable Examples.file_copy n →
              EvKick n ∈ h_log (r_heap r) ∧ started r n
     | _ => True
     end).
Proof.
  eexists. split; [vm_compute; reflexivity|].
  apply (runner_kicks_input_nodes Examples.quiet_run Examples.flow_copy
           Examples.file_copy Examples.copy_schedule).
  - apply (bool_decide_unpack _). vm_compute. reflexivity.
  - apply (bool_decide_unpack _). vm_compute. reflexivity.
  - apply (bool_decide_unpack _). vm_compute. reflexivity.
  - vm_compute. reflexivity.
Defined.

(** C2, the claim as stated fails.  A plain [Node] has no input-slot
    interface, and so has the second of two chained [ValueInputNode]s,
    whose [value] parameter is fed by the first but is no slot.  In no
    execution does the main thread set the event of either: the first is not
    an input node, the second has a predecessor.  With the plain node, the
    execution comes to a point where the main thread is blocked in its
    [join] and the thread of the node waits for an event that is not
    set. *)
Lemma slotless_nodes_not_kicked :
  (inputSlotInterfaces 0 Examples.lone_node = (Ok [], Examples.lone_node) ∧
   (∀ sched r,
      exec (module_run Examples.no_env) sched
        (Runner_start Examples.flow_lone Examples.lone_node) = Some r →
      EvKick 0 ∉ h_log (r_heap r)) ∧
   (∃ r,
     exec (module_run Examples.no_env) [TMain; TMain; TMain]
       (Runner_start Examples.flow_lone Examples.lone_node) = Some r ∧
     stuck (module_run Examples.no_env) r ∧
     r_main r = MJoin 0 ∧ r_threads r = [(0, WWait)] ∧
     (n_canRun <$> h_nodes (r_heap r) !! 0) = Some false)) ∧
  (inputSlotInterfaces 3 Examples.value_chain = (Ok [], Examples.value_chain) ∧
   ∀ sched r,
     exec (module_run Examples.no_env) sched
       (Runner_start Examples.flow_values Examples.value_chain) = Some r →
     EvKick 3 ∉ h_log (r_heap r)).
Proof.
  split; (split; [vm_compute; reflexivity|]); [split|].
  - intros sched r Hex.
    assert (wf_graph Examples.flow_lone Examples.lone_node) as Hwf
      by (apply (bool_decide_unpack _); vm_compute; reflexivity).
    assert (streams_ok Examples.lone_node) as Hok
      by (apply (bool_decide_unpack _); vm_compute; reflexivity).
    assert (fresh Examples.lone_node) as Hfresh
      by (apply (bool_decide_unpack _); vm_compute; reflexivity).
    assert (¬ startable Examples.lone_node 0) as Hno
      by (apply (bool_decide_unpack _); vm_compute; reflexivity).
    destruct (exec_kick_inv _ _ _ _ _ Hwf Hok Hfresh Hex) as [[Hk1 _] Hsh].
    intros Hin. destruct (Hk1 0 Hin) as [_ Hst]. apply Hno.
    by eapply startable_shape; [apply same_shape_sym|].
  - eexists. split; [vm_compute; reflexivity|]. split.
    + split; [vm_compute; reflexivity|].
      intros [|k]; vm_compute; reflexivity.
    + split; [reflexivity|]. split; [reflexivity|]. vm_compute. reflexivity.
  - intros sched r Hex.
    assert (wf_graph Examples.flow_values Examples.value_chain) as Hwf
      by (apply (bool_decide_unpack _); vm_compute; reflexivity).
    assert (streams_ok Examples.value_chain) as Hok
      by (apply (bool_decide_unpack _); vm_compute; reflexivity).
    assert (fresh Examples.value_chain) as Hfresh
      by (apply (bool_decide_unpack _); vm_compute; reflexivity).
    assert (¬ startable Examples.value_chain 3) as Hno
      by (apply (bool_decide_unpack _); vm_compute; reflexivity).
    destruct (exec_kick_inv _ _ _ _ _ Hwf Hok Hfresh Hex) as [[Hk1 _] Hsh].
    intros Hin. destruct (Hk1 3 Hin) as [_ Hst]. apply Hno.
    by eapply startable_shape; [apply same_shape_sym|].
Qed.

(** ** A [run()] that raises *)

(** A thread that notifies or has returned stays so. *)
Lemma publisher_moves run_body r r' n :
  moves run_body r r' →
  (∃ k w, r_threads r !! k = Some (n, w) ∧
          match w with WPublish _ | WDone => True | _ => False end) →
  ∃ k w, r_threads r' !! k = Some (n, w) ∧
         match w with WPublish _ | WDone => True | _ => False end.
Proof.
  intros Hmv (k & w & Hk & Hw).
  destruct Hmv; cbn [r_threads] in *; try (by exists k, w).
  - exists k, w. split; [|done]. by apply lookup_app_l_Some.
  - destruct (decide (k = k0)) as [->|Hne].
    + rewrite H in Hk. by injection Hk as _ <-.
    + exists k, w. split; [|done]. by rewrite list_lookup_insert_ne.
  - destruct (decide (k = k0)) as [->|Hne].
    + rewrite H in Hk. by injection Hk as _ <-.
    + exists k, w. split; [|done]. by rewrite list_lookup_insert_ne.
  - destruct (decide (k = k0)) as [->|Hne].
    + rewrite H in Hk. by injection Hk as _ <-.
    + exists k, w. split; [|done]. by rewrite list_lookup_insert_ne.
  - destruct (decide (k = k0)) as [->|Hne].
    + rewrite H in Hk. injection Hk as <- _. exists k0, (WPublish l).
      split; [|done]. apply list_lookup_insert_eq. by eapply lookup_lt_Some.
    + exists k, w. split; [|done]. by rewrite list_lookup_insert_ne.
  - destruct (decide (k = k0)) as [->|Hne].
    + rewrite H in Hk. injection Hk as <- _. exists k0, WDone.
      split; [|done]. apply list_lookup_insert_eq. by eapply lookup_lt_Some.
    + exists k, w. split; [|done]. by rewrite list_lookup_insert_ne.
Qed.

Lemma publishers_inv_moves run_body r r' :
  publishers_inv r → moves run_body r r' → publishers_inv r'.
Proof.
  intros Hinv Hmv i t Hin.
  destruct (moves_new_events _ _ _ Hmv) as (es & Hlog & _ & Hdel).
  pose proof (moves_shape _ _ _ Hmv) as Hsh.
  assert (∃ I, h_ifaces (r_heap r) !! i = Some I ∧
               ∃ k w, r_threads r !! k = Some (i_node I, w) ∧
                      match w with WPublish _ | WDone => True | _ => False end)
    as (I & HI & Hthread).
  { rewrite Hlog in Hin. apply elem_of_app in Hin as [Hin|Hin].
    - destruct (Hinv i t Hin) as (I & k & w & HI & Hk & Hw).
      exists I. split; [done|]. by exists k, w.
    - destruct (Hdel i t Hin) as (k & n & l & T & I & N & Hk & _ & HI & _ & _ & HIn & _).
      exists I. split; [done|]. exists k, (WPublish ((i, t) :: l)). by subst n. }
  destruct (shape_iface _ _ _ _ Hsh HI) as (I1 & HI1 & Heq).
  apply iface_shape_inv in Heq as (_ & Hnode & _).
  destruct (publisher_moves _ _ _ _ Hmv Hthread) as (k & w & Hk & Hw).
  exists I1, k, w. by rewrite Hnode.
Qed.

(** ** Readiness in an execution *)

Lemma size_list_to_set_le (l : list nat) :
  size (list_to_set l : gset nat) ≤ List.length l.
Proof.
  induction l as [|a l IH].
  - rewrite list_to_set_nil, size_empty. done.
  - rewrite list_to_set_cons, size_union_alt, size_singleton. cbn [List.length].
    assert (list_to_set l ∖ {[a]} ⊆ (list_to_set l : gset nat)) as Hsub
      by (by apply subseteq_difference_l).
    pose proof (subseteq_size _ _ Hsub). lia.
Qed.

(** Enough records, all of predecessors: every predecessor is recorded. *)
Lemma recorded_all (l : list nat) (X : gset nat) :
  (∀ i, i ∈ X → i ∈ l) → List.length l ≤ size X → ∀ i, i ∈ l → i ∈ X.
Proof.
  intros Hsub Hle i Hi. pose proof (size_list_to_set_le l) as Hs.
  assert (X ≡ list_to_set l) as Heq.
  { apply set_subseteq_size_equiv; [|lia].
    intros j Hj. apply elem_of_list_to_set. by apply Hsub. }
  apply Heq. by apply elem_of_list_to_set.
Qed.

Lemma write_values_ready_part ws h t :
  ready_part <$> h_ifaces (write_values ws h) !! t = ready_part <$> h_ifaces h !! t.
Proof.
  revert h. induction ws as [|[r v] ws IH]; intros h; simpl; [done|].
  rewrite IH. simpl. rewrite lookup_alter. case_decide; [|done].
  subst. by destruct (h_ifaces h !! t).
Qed.

Lemma ready_inv_keep h h' es :
  (∀ t, ready_part <$> h_ifaces h' !! t = ready_part <$> h_ifaces h !! t) →
  h_log h' = (h_log h ++ es)%list → (∀ n t, EvReady n t ∉ es) →
  ready_inv h → ready_inv h'.
Proof.
  intros Hpart Hlog Hes [H1 H2]. split.
  - intros t T' i HT' Hi. specialize (Hpart t). rewrite HT' in Hpart.
    destruct (h_ifaces h !! t) as [T|] eqn:HT; [|done].
    simpl in Hpart. injection Hpart as Hn Hp Hr.
    rewrite Hr in Hi. destruct (H1 t T i HT Hi) as [Hin Hdel].
    split; [by rewrite Hp|]. rewrite Hlog. apply elem_of_app. by left.
  - intros n t Hin. rewrite Hlog in Hin. apply elem_of_app in Hin as [Hin|Hin];
      [|by apply Hes in Hin].
    specialize (H2 n t Hin). apply holds_Some in H2 as (T & HT & Hn & Hp & Hle).
    specialize (Hpart t). rewrite HT in Hpart.
    destruct (h_ifaces h' !! t) as [T'|]; [|done].
    simpl in *. injection Hpart as Hn' Hp' Hr'. by rewrite Hn', Hp', Hr'.
Qed.

Lemma ready_inv_delivered h t i T I N :
  h_ifaces h !! t = Some T → i ∈ i_predecessors T →
  ready_inv h → ready_inv (delivered h t i T I N).
Proof.
  intros HT Hin [H1 H2].
  assert (i_predecessors (received T I i) = i_predecessors T) as Hpreds.
  { unfold received, loaded. by destruct (i_class T). }
  assert (i_node (received T I i) = i_node T) as Hnode.
  { unfold received, loaded. by destruct (i_class T). }
  assert (i_readypredecessors (received T I i) = {[i]} ∪ i_readypredecessors T)
    as Hready by done.
  assert (h_ifaces (delivered h t i T I N) = <[t := received T I i]> (h_ifaces h))
    as Hifaces.
  { unfold delivered. by destruct (all_received _). }
  destruct (delivered_log h t i T I N) as (es & Hlog & Hes).
  split.
  - intros t' T' i' HT' Hi'. rewrite Hifaces in HT'. rewrite Hlog.
    destruct (decide (t' = t)) as [->|Hne].
    + rewrite lookup_insert_eq in HT'. injection HT' as <-.
      rewrite Hpreds. rewrite Hready in Hi'.
      apply elem_of_union in Hi' as [->%elem_of_singleton|Hold].
      * split; [done|]. apply elem_of_app. right. by left.
      * destruct (H1 t T i' HT Hold) as [? ?]. split; [done|].
        apply elem_of_app. by left.
    + rewrite lookup_insert_ne in HT' by done.
      destruct (H1 t' T' i' HT' Hi') as [? ?]. split; [done|].
      apply elem_of_app. by left.
  - intros n t' Hev. rewrite Hifaces.
    assert (EvReady n t' ∈ h_log h ∨
            (n = i_node T ∧ t' = t ∧ all_received (received T I i) = true)) as [Hold|Hnew].
    { unfold delivered in Hev. destruct (all_received (received T I i)) eqn:Hall;
        cbn [h_log] in Hev.
      - apply elem_of_app in Hev as [Hev|Hev]; [by left|].
        apply elem_of_cons in Hev as [Hev|Hev]; [done|].
        apply elem_of_cons in Hev as [[= -> ->]|Hev]; [by right|].
        case_bool_decide; [|by apply elem_of_nil in Hev].
        by apply list_elem_of_singleton in Hev.
      - apply elem_of_app in Hev as [Hev|Hev]; [by left|].
        by apply list_elem_of_singleton in Hev. }
    + specialize (H2 n t' Hold). apply holds_Some in H2 as (T0 & HT0 & Hn & Hp & Hle).
      destruct (decide (t' = t)) as [->|Hne].
      * rewrite lookup_insert_eq. cbn [holds]. assert (T0 = T) as -> by congruence.
        rewrite Hnode, Hpreds, Hready. split; [done|]. split; [done|].
        assert (i_readypredecessors T ⊆ {[i]} ∪ i_readypredecessors T) as Hsub
          by apply union_subseteq_r.
        pose proof (subseteq_size _ _ Hsub). lia.
      * rewrite lookup_insert_ne by done. rewrite HT0. by cbn [holds].
    + destruct Hnew as (-> & -> & Hall). rewrite lookup_insert_eq. cbn [holds].
      split; [done|]. rewrite Hpreds. split.
      * intros Hnil. rewrite Hnil in Hin. by apply elem_of_nil in Hin.
      * unfold all_received in Hall. apply bool_decide_eq_true_1 in Hall.
        by rewrite Hpreds in Hall.
Qed.

Lemma ready_inv_moves run_body r r' :
  ready_inv (r_heap r) → moves run_body r r' → ready_inv (r_heap r').
Proof.
  intros Hinv Hmv. destruct Hmv; cbn [r_heap] in *; try exact Hinv.
  - apply (ready_inv_keep h _ [EvKick n]); [done|done| |done].
    by intros n' t' ?%list_elem_of_singleton.
  - apply (ready_inv_keep h _ [EvBegin n]); [done|done| |done].
    by intros n' t' ?%list_elem_of_singleton.
  - apply (ready_inv_keep h _ [EvFault n]); [| | |done].
    + intros t. unfold faulted. cbn [h_ifaces]. apply write_values_ready_part.
    + unfold faulted. cbn [h_log]. by rewrite write_values_log.
    + by intros n' t' ?%list_elem_of_singleton.
  - apply (ready_inv_keep h _ [EvEnd n]); [| | |done].
    + intros t. unfold ended. cbn [h_ifaces]. apply write_values_ready_part.
    + done.
    + by intros n' t' ?%list_elem_of_singleton.
  - by apply ready_inv_delivered.
Qed.

(** C6: on a well-formed object graph.  An interface that has
    predecessors, none of them twice, and has heard of none yet: after
    deliveries [ds1] from distinct predecessors, one after the other, with
    [ds2] the predecessors still to come, every delivery returned and the
    node has been told of the interface once if no predecessor is left, and
    not at all otherwise: it is told exactly once, by the delivery that
    brings the number of predecessors heard of to the number of
    predecessors.  And in every execution of [Runner.start] on the graph,
    if it has not run yet, a node is told that an interface is ready only of
    an interface of its own that has a predecessor, and only after every
    predecessor of the interface has delivered to it: an interface without
    predecessors is never notified. *)
Theorem readiness_notified_once f h :
  wf_graph f h → streams_ok h →
  (∀ b B (ds1 ds2 : list nat),
     h_ifaces h !! b = Some B →
     i_readypredecessors B = ∅ →
     i_predecessors B ≠ [] → NoDup (i_predecessors B) →
     ds1 ++ ds2 ≡ₚ i_predecessors B →
     ∃ h' es,
       for_each ds1 (fun p => onContentReady b p) h = (Ok tt, h') ∧
       h_log h' = (h_log h ++ es)%list ∧
       occurrences (EvReady (i_node B) b) es = (if decide (ds2 = []) then 1 else 0)) ∧
  (fresh h →
   ∀ run_body sched r,
     exec run_body sched (Runner_start f h) = Some r →
     ∀ n t, EvReady n t ∈ h_log (r_heap r) →
       holds (λ T, i_node T = n ∧ i_predecessors T ≠ [] ∧
                   ∀ i, i ∈ i_predecessors T → EvDeliver i t ∈ h_log (r_heap r))
         (h_ifaces h !! t)).
Proof.
  intros Hwf Hok. split.
  - intros b B ds1 ds2 HB Hrp Hne Hnd Hperm.
    assert (NoDup (ds1 ++ ds2)) as Hnd' by by rewrite Hperm.
    apply NoDup_app in Hnd' as (Hnd1 & _ & _).
    assert (List.length ds1 + List.length ds2 = List.length (i_predecessors B)) as Hlen.
    { by rewrite <- Hperm, length_app. }
    assert (0 < List.length (i_predecessors B)) as Hpos.
    { destruct (i_predecessors B); [done|simpl; lia]. }
    destruct (deliveries_notify f b ds1 h B) as (h' & es & Hrun & Hlog & Hocc); try done.
    + intros p Hp. split.
      * rewrite <- Hperm. apply elem_of_app. by left.
      * rewrite Hrp. apply not_elem_of_empty.
    + rewrite Hrp, size_empty. lia.
    + rewrite Hrp, size_empty. lia.
    + exists h', es. split; [done|]. split; [done|]. rewrite Hocc.
      rewrite Hrp, size_empty. apply decide_ext. split.
      * intros [H1 _]. destruct ds2; [done|simpl in *; lia].
      * intros ->. simpl in *. split; [lia|]. intros ->. simpl in *. lia.
  - intros (Hlog & _ & Hnone) run_body sched r Hex n t Hev.
    pose proof (sound_start f h Hwf Hok) as Hs0.
    destruct (exec_invariant run_body f
                (λ r, same_shape h (r_heap r) ∧ ready_inv (r_heap r)) sched _ r Hs0)
      as (_ & Hsh & H1 & H2); [| |done|].
    { split; [apply same_shape_refl|]. unfold Runner_start. cbn [r_heap]. split.
      - intros t' T' i HT' Hi. rewrite (Hnone t' T' HT') in Hi.
        by apply not_elem_of_empty in Hi.
      - intros n' t' Hin. rewrite Hlog in Hin. by apply elem_of_nil in Hin. }
    { intros r1 r2 _ [Hsh1 Hr1] Hmv. split.
      - eapply same_shape_trans; [exact Hsh1|by eapply moves_shape].
      - by eapply ready_inv_moves. }
    specialize (H2 n t Hev). apply holds_Some in H2 as (T & HT & Hn & Hp & Hle).
    destruct (shape_iface _ _ _ _ (same_shape_sym _ _ Hsh) HT) as (T0 & HT0 & Heq).
    apply iface_shape_inv in Heq as (_ & Hnode & _ & _ & Hpreds & _).
    rewrite HT0. simpl. rewrite Hnode, Hpreds. split; [done|]. split; [done|].
    intros i Hi.
    assert (i ∈ i_readypredecessors T) as Hrec.
    { apply (recorded_all (i_predecessors T)); [|done|done].
      intros j Hj. by destruct (H1 t T j HT Hj). }
    by destruct (H1 t T i HT Hrec).
Qed.

Lemma readiness_notified_once_witness :
  (∃ h' es,
     for_each [2] (fun p => onContentReady 5 p) Examples.file_copy = (Ok tt, h') ∧
     h_log h' = (h_log Examples.file_copy ++ es)%list ∧
     occurrences (EvReady 3 5) es = 1) ∧
  (∃ r,
     exec Examples.quiet_run Examples.copy_schedule
       (Runner_start Examples.flow_copy Examples.file_copy) = Some r ∧
     EvReady 3 5 ∈ h_log (r_heap r) ∧
     holds (λ T, i_node T = 3 ∧ i_predecessors T ≠ [] ∧
                 ∀ i, i ∈ i_predecessors T → EvDeliver i 5 ∈ h_log (r_heap r))
       (h_ifaces Examples.file_copy !! 5)).
Proof.
  destruct (readiness_notified_once Examples.flow_copy Examples.file_copy)
    as [Hseq Hrun].
  { apply (bool_decide_unpack _). vm_compute. reflexivity. }
  { apply (bool_decide_unpack _). vm_compute. reflexivity. }
  split.
  - refine (Hseq 5
              (mkInterface CInterfaceStream 3 "input" [] [2] INPUT true (PStr "EOF")
                 (PStr "EOF") (Some 5) ∅) [2] [] _ _ _ _ _).
    + vm_compute. reflexivity.
    + reflexivity.
    + discriminate.
    + apply (bool_decide_unpack _). vm_compute. reflexivity.
    + reflexivity.
  - eexists. split; [vm_compute; reflexivity|].
    split; [apply (bool_decide_unpack _); vm_compute; reflexivity|].
    eapply (Hrun ltac:(apply (bool_decide_unpack _); vm_compute; reflexivity)
              Examples.quiet_run Examples.copy_schedule).
    + vm_compute. reflexivity.
    + apply (bool_decide_unpack _). vm_compute. reflexivity.
Defined.

(** C6, the claim as stated fails: in the run of the file copy to its end,
    with [Runner.start] returned, the node of the interface [filepath] of
    the input node is never told that the interface is ready.  The
    interface has no predecessor, none is missing, and the node is told
    zero times. *)
Lemma literal_interface_never_notified :
  ∃ r X,
    exec (module_run Examples.no_env) Examples.copy_schedule
      (Runner_start Examples.flow_copy Examples.file_copy) = Some r ∧
    returned r = true ∧
    h_ifaces Examples.file_copy !! 1 = Some X ∧
    i_node X = 0 ∧ i_predecessors X = [] ∧
    occurrences (EvReady 0 1) (h_log (r_heap r)) = 0.
Proof.
  eexists _, _. split; [vm_compute; reflexivity|].
  split; [vm_compute; reflexivity|]. split; [vm_compute; reflexivity|].
  split; [reflexivity|]. split; [reflexivity|]. vm_compute. reflexivity.
Qed.

(** ** Saving *)

Lemma map_M_ok {S A B} (g : A → M S B) (g' : A → B) (l : list A) s :
  Forall (λ x, g x s = (Ok (g' x), s)) l →
  map_M g l s = (Ok (map g' l), s).
Proof.
  induction 1 as [|x l Hx Hl IH]; [done|].
  cbn [map_M map]. rewrite (bind_ok _ _ _ _ _ Hx).
  by rewrite (bind_ok _ _ _ _ _ IH).
Qed.

Lemma export_successor_ok f h s :
  wf_graph f h → is_Some (h_ifaces h !! s) →
  export_successor s h = (Ok (successor_record h s), h).
Proof.
  intros Hwf [S HS]. unfold export_successor, successor_record.
  rewrite (bind_ok _ _ _ _ _ (get_iface_ok _ _ _ HS)).
  destruct (owner_exists _ _ _ _ Hwf HS) as (N & HN & _).
  rewrite (bind_ok _ _ _ _ _ (get_node_ok _ _ _ HN)).
  rewrite HS. simpl. by rewrite HN.
Qed.

Lemma export_interface_ok f h r I :
  wf_graph f h → h_ifaces h !! r = Some I →
  export_interface r h = (Ok (interface_record h I), h).
Proof.
  intros Hwf HI. unfold export_interface.
  rewrite (bind_ok _ _ _ _ _ (get_iface_ok _ _ _ HI)).
  assert (map_M export_successor (i_successors I) h
          = (Ok (map (successor_record h) (i_successors I)), h)) as Hmap.
  { apply map_M_ok. pose proof Hwf as (_ & _ & _ & W4 & _).
    specialize (W4 r I HI). simpl in W4.
    eapply Forall_impl; [exact W4|]. intros s Hs.
    apply holds_Some in Hs as (S & HS & _).
    apply (export_successor_ok f); [exact Hwf|by eexists]. }
  erewrite bind_ok; [reflexivity|].
  destruct (i_successors I); [done|]. exact Hmap.
Qed.

Lemma export_node_ok f h r N :
  wf_graph f h → h_nodes h !! r = Some N →
  export_node r h = (Ok (node_record h N), h).
Proof.
  intros Hwf HN. unfold export_node.
  rewrite (bind_ok _ _ _ _ _ (get_node_ok _ _ _ HN)).
  erewrite bind_ok; [reflexivity|].
  apply map_M_ok. pose proof Hwf as (_ & W2 & _).
  specialize (W2 r N HN). simpl in W2.
  eapply Forall_impl; [exact W2|]. intros x Hx.
  apply holds_Some in Hx as (X & HX & _).
  rewrite HX. simpl. by apply (export_interface_ok f).
Qed.

Lemma exportXml_ok f h :
  wf_graph f h → exportXml f h = (Ok (document f h), h).
Proof.
  intros Hwf. unfold exportXml, document.
  apply map_M_ok. pose proof Hwf as (W1 & _).
  eapply Forall_impl; [exact W1|]. intros n [N HN].
  rewrite HN. simpl. by apply (export_node_ok f).
Qed.

(** ** Loading: the nodes *)

Lemma Forall2_Forall_l {A B} (P : A → B → Prop) (Q : A → Prop) l k :
  Forall2 P l k → Forall Q l → Forall2 (λ a b, P a b ∧ Q a) l k.
Proof.
  induction 1 as [|a b l k Hab Hlk IH]; intros HQ; [constructor|].
  apply Forall_cons in HQ as [Ha HQ]. constructor; [done|by apply IH].
Qed.

Lemma Forall2_Forall_l' {A B} (P : A → B → Prop) (Q : A → Prop) l k :
  Forall2 P l k → (∀ a b, P a b → Q a) → Forall Q l.
Proof.
  induction 1 as [|a b l k Hab Hlk IH]; intros HQ; constructor; eauto.
Qed.

Lemma new_Interfaces_ok n ds : ∀ h, ∃ h',
  map_M (new_Interface n) ds h = (Ok (seq (h_next h) (List.length ds)), h') ∧
  h_next h' = h_next h + List.length ds ∧ h_nodes h' = h_nodes h ∧
  (∀ r, r < h_next h → h_ifaces h' !! r = h_ifaces h !! r) ∧
  Forall2 (λ r d, declared h' n r d ∧ pending h' r)
    (seq (h_next h) (List.length ds)) ds.
Proof.
  induction ds as [|d ds IH]; intros h.
  - exists h. simpl. split; [done|]. split; [lia|]. split; [done|].
    split; [done|constructor].
  - set (I := mkInterface (d_class d) n (d_name d) [] [] (d_type d) (d_slot d)
                (d_default d)
                (if bool_decide (d_class d = CInterfaceValue) then PNone else d_default d)
                (if bool_decide (d_class d = CInterfaceStream) then Some (h_next h) else None)
                ∅).
    set (h1 := mkHeap (<[h_next h := I]> (h_ifaces h)) (h_nodes h) (S (h_next h)) (h_log h)).
    assert (new_Interface n d h = (Ok (h_next h), h1)) as H1 by done.
    destruct (IH h1) as (h' & Hm & Hn & Hnd & Hlow & Hall).
    exists h'. cbn [map_M List.length seq].
    rewrite (bind_ok _ _ _ _ _ H1). rewrite (bind_ok _ _ _ _ _ Hm).
    split; [done|]. split; [simpl in Hn; lia|]. split; [done|].
    assert (h_ifaces h' !! h_next h = Some I) as HI.
    { rewrite Hlow by (simpl; lia). simpl. apply lookup_insert_eq. }
    split.
    + intros r Hr. rewrite Hlow by (simpl; lia). simpl.
      apply lookup_insert_ne. lia.
    + constructor; [|exact Hall].
      unfold declared, pending. rewrite HI. simpl. done.
Qed.

Lemma new_Node_ok c fl id h :
  id ≠ "" →
  ∃ h' N, new_Node c (Some fl) id h = (Ok (h_next h), h') ∧
    h_next h < h_next h' ∧
    (∀ r, r < h_next h → h_ifaces h' !! r = h_ifaces h !! r) ∧
    h_nodes h' = <[h_next h := N]> (h_nodes h) ∧
    n_id N = id ∧ n_class N = c ∧ NoDup (n_interfaces N) ∧
    Forall2 (λ r d, declared h' (h_next h) r d ∧ pending h' r ∧ r < h_next h')
      (n_interfaces N) (class_interfaces c).
Proof.
  intros Hid. unfold new_Node. rewrite bool_decide_eq_false_2 by done.
  set (N0 := mkNode c id [] [] ∅ false false).
  set (h1 := mkHeap (h_ifaces h) (<[h_next h := N0]> (h_nodes h)) (S (h_next h)) (h_log h)).
  destruct (new_Interfaces_ok (h_next h) (class_interfaces c) h1)
    as (h2 & Hm & Hn & Hnd & Hlow & Hall).
  assert (h_nodes h2 !! h_next h = Some N0) as HN0.
  { rewrite Hnd. simpl. apply lookup_insert_eq. }
  eexists _, (set_interfaces (seq (h_next h1) (List.length (class_interfaces c))) N0).
  split.
  { rewrite (bind_ok _ _ _ id h) by done.
    rewrite (bind_ok _ _ _ (h_next h) h1) by done.
    rewrite (bind_ok _ _ _ _ _ Hm).
    rewrite (bind_ok _ _ _ tt _ (upd_node_ok _ _ _ _ HN0)). reflexivity. }
  simpl. split; [simpl in Hn; lia|]. split.
  { intros r Hr. apply Hlow. simpl. lia. }
  split. { rewrite Hnd. simpl. by rewrite insert_insert_eq. }
  split; [done|]. split; [done|]. split; [apply NoDup_seq|].
  eapply Forall2_impl.
  { apply (Forall2_Forall_l _ (λ r, r < h_next h2) _ _ Hall).
    apply Forall_forall. intros r Hr. apply elem_of_seq in Hr.
    rewrite Hn. simpl in *. lia. }
  intros r d ((Hd & Hp) & Hr). done.
Qed.

Lemma lift_h_ok {A} (m : M Heap A) fl h a h' :
  m h = (Ok a, h') → lift_h m (fl, h) = (Ok a, (fl, h')).
Proof. intros H. unfold lift_h. simpl. by rewrite H. Qed.

Section Loading.

Variable atoi : string → pyval.

Lemma graphproperties_ok kvs n : ∀ h N,
  h_nodes h !! n = Some N →
  ∃ N', for_each kvs (λ kv, upd_node n (λ m,
          set_graphicalprops (dict_set (fst kv) (atoi (snd kv)) (n_graphicalprops m)) m)) h
        = (Ok tt, mkHeap (h_ifaces h) (<[n := N']> (h_nodes h)) (h_next h) (h_log h)) ∧
    n_id N' = n_id N ∧ n_class N' = n_class N ∧ n_interfaces N' = n_interfaces N.
Proof.
  induction kvs as [|kv kvs IH]; intros h N HN.
  - exists N. split; [|done]. destruct h as [ifs nds nx lg]. simpl in *.
    by rewrite insert_id.
  - cbn [for_each].
    set (N1 := set_graphicalprops
                 (dict_set (fst kv) (atoi (snd kv)) (n_graphicalprops N)) N).
    set (h1 := mkHeap (h_ifaces h) (<[n := N1]> (h_nodes h)) (h_next h) (h_log h)).
    assert (h_nodes h1 !! n = Some N1) as HN1 by apply lookup_insert_eq.
    destruct (IH h1 N1 HN1) as (N' & Hrun & Hi & Hc & Hs).
    exists N'.
    rewrite (bind_ok _ _ _ tt h1) by (by rewrite (upd_node_ok h n _ N HN)).
    rewrite Hrun. simpl. rewrite insert_insert_eq. done.
Qed.

Lemma built_below h ns xs :
  Forall2 (built h) ns xs → Forall (λ n, n < h_next h) ns.
Proof.
  induction 1 as [|n X ns xs (_ & Hn & _) _ IH]; constructor; done.
Qed.

Lemma built_mono h h' n X :
  built h n X → agree_below (h_next h) h h' → h_next h ≤ h_next h' →
  built h' n X.
Proof.
  intros ((N & c & HN & Hid & Hc & Hcl & Hnd & Hdecl) & Hn & Hall) Hag Hle.
  rewrite HN in Hall. simpl in Hall.
  assert (h_nodes h' !! n = Some N) as HN'.
  { destruct (Hag n Hn) as [_ ->]. done. }
  split; [|split; [lia|]].
  - exists N, c. repeat (split; [done|]).
    eapply Forall2_impl; [exact (Forall2_Forall_l _ _ _ _ Hdecl Hall)|].
    intros r d (Hd & Hr & _). unfold declared.
    destruct (Hag r Hr) as [-> _]. exact Hd.
  - rewrite HN'. simpl. eapply Forall_impl; [exact Hall|].
    intros r [Hr Hp]. split; [lia|]. unfold pending.
    destruct (Hag r Hr) as [-> _]. exact Hp.
Qed.

Lemma import_node_ok xs X fl h :
  Forall2 (built h) (nodes fl) xs → NoDup (nodes fl) →
  xn_id X ≠ "" → is_Some (class_of_name (xn_type X)) →
  ∃ fl' h', import_node atoi X (fl, h) = (Ok tt, (fl', h')) ∧
    Forall2 (built h') (nodes fl') (xs ++ [X]) ∧ NoDup (nodes fl') ∧
    agree_below (h_next h) h h' ∧ h_next h ≤ h_next h'.
Proof.
  intros Hb Hnd Hid [c Hc]. unfold import_node. rewrite Hc.
  destruct (new_Node_ok c fl (xn_id X) h Hid)
    as (h1 & N & Hnew & Hnext & Hlow & Hnodes & HNid & HNc & HNnd & Hdecl).
  assert (h_nodes h1 !! h_next h = Some N) as HN.
  { rewrite Hnodes. apply lookup_insert_eq. }
  destruct (graphproperties_ok (xn_graphproperties X) (h_next h) h1 N HN)
    as (N' & Hgp & Hid' & Hc' & Hi').
  set (h2 := mkHeap (h_ifaces h1) (<[h_next h := N']> (h_nodes h1)) (h_next h1) (h_log h1)).
  exists (set_nodes (nodes fl ++ [h_next h]) (set_modified true fl)), h2.
  assert (agree_below (h_next h) h h2) as Hag.
  { intros r Hr. split; [by apply Hlow|]. simpl. rewrite Hnodes.
    rewrite !lookup_insert_ne by lia. done. }
  split.
  { rewrite (bind_ok _ _ _ (fl, h) (fl, h)) by done. simpl fst.
    rewrite (bind_ok _ _ _ _ _ (lift_h_ok _ fl _ _ _ Hnew)).
    rewrite (bind_ok _ _ _ _ _ (lift_h_ok _ fl _ _ _ Hgp)). done. }
  split; [|split; [|split; [exact Hag|simpl; lia]]].
  - simpl. apply Forall2_app.
    + eapply Forall2_impl; [exact Hb|]. intros n Y Hy.
      apply (built_mono h); [done|done|simpl; lia].
    + constructor; [|constructor]. split; [|split; [simpl; lia|]].
      * exists N', c. simpl. rewrite lookup_insert_eq.
        split; [done|]. split; [congruence|]. split; [done|].
        split; [congruence|]. rewrite Hi'. split; [done|].
        eapply Forall2_impl; [exact Hdecl|]. by intros r d (? & _).
      * simpl. rewrite lookup_insert_eq. simpl. rewrite Hi'.
        eapply Forall2_Forall_l'; [exact Hdecl|].
        intros r d (_ & Hp & Hr). done.
  - simpl. apply NoDup_app. split; [done|]. split; [|apply NoDup_singleton].
    intros n Hn Hn'. apply list_elem_of_singleton in Hn'. subst n.
    pose proof (built_below _ _ _ Hb) as Hlt.
    rewrite Forall_forall in Hlt. specialize (Hlt _ Hn). lia.
Qed.

Lemma agree_below_trans h h1 h2 :
  agree_below (h_next h) h h1 → h_next h ≤ h_next h1 →
  agree_below (h_next h1) h1 h2 → agree_below (h_next h) h h2.
Proof.
  intros H1 Hle H2 r Hr. destruct (H1 r Hr) as [<- <-]. apply H2. lia.
Qed.

Lemma import_nodes_ok x : ∀ xs fl h,
  Forall2 (built h) (nodes fl) xs → NoDup (nodes fl) →
  Forall (λ X, xn_id X ≠ "" ∧ is_Some (class_of_name (xn_type X))) x →
  ∃ fl' h', for_each x (import_node atoi) (fl, h) = (Ok tt, (fl', h')) ∧
    Forall2 (built h') (nodes fl') (xs ++ x) ∧ NoDup (nodes fl') ∧
    agree_below (h_next h) h h' ∧ h_next h ≤ h_next h'.
Proof.
  induction x as [|X x IH]; intros xs fl h Hb Hnd Hx.
  - exists fl, h. rewrite app_nil_r. split; [done|]. split; [done|].
    split; [done|]. split; [|lia]. by intros r _.
  - apply Forall_cons in Hx as [[Hid Hc] Hx].
    destruct (import_node_ok xs X fl h Hb Hnd Hid Hc)
      as (fl1 & h1 & Hrun & Hb1 & Hnd1 & Hag1 & Hle1).
    destruct (IH (xs ++ [X]) fl1 h1 Hb1 Hnd1 Hx)
      as (fl' & h' & Hrun' & Hb' & Hnd' & Hag' & Hle').
    exists fl', h'. cbn [for_each]. rewrite (bind_ok _ _ _ _ _ Hrun).
    split; [exact Hrun'|]. rewrite <- app_assoc in Hb'.
    split; [exact Hb'|]. split; [exact Hnd'|].
    split; [by apply (agree_below_trans h h1 h')|lia].
Qed.

End Loading.

(** ** Loading: finding nodes and interfaces *)

Lemma class_of_classname c : class_of_name (classname c) = Some c.
Proof. by destruct c. Qed.

Lemma class_interface_names c : NoDup (d_name <$> class_interfaces c).
Proof. destruct c; apply (bool_decide_unpack _); vm_compute; reflexivity. Qed.

Lemma class_interface_payload c d :
  d ∈ class_interfaces c → d_class d ≠ CInterface.
Proof.
  destruct c; simpl; intros Hd;
    repeat (apply elem_of_cons in Hd as [->|Hd]; [done|]);
    by apply elem_of_nil in Hd.
Qed.

Lemma same_static_refl h : same_static h h.
Proof. by split. Qed.

Lemma same_static_trans h1 h2 h3 :
  same_static h1 h2 → same_static h2 h3 → same_static h1 h3.
Proof.
  intros [Hn1 Hs1] [Hn2 Hs2]. split; [congruence|].
  intros r. by rewrite Hs2, Hs1.
Qed.

Lemma static_lookup h h' r I :
  same_static h h' → h_ifaces h !! r = Some I →
  ∃ I', h_ifaces h' !! r = Some I' ∧ static_part I' = static_part I.
Proof.
  intros [_ Hs] HI. specialize (Hs r). rewrite HI in Hs.
  destruct (h_ifaces h' !! r) as [I'|]; [|done].
  exists I'. split; [done|]. simpl in Hs. congruence.
Qed.

Lemma declared_static h h' n r d :
  same_static h h' → declared h n r d → declared h' n r d.
Proof.
  intros Hs Hd. unfold declared in *.
  apply holds_Some in Hd as (I & HI & Hk & Hn).
  destruct (static_lookup _ _ _ _ Hs HI) as (I' & HI' & Heq).
  rewrite HI'. simpl. unfold static_part in Heq. split; congruence.
Qed.

Lemma made_from_static h h' n X :
  same_static h h' → made_from h n X → made_from h' n X.
Proof.
  intros Hs (N & c & HN & Hid & Hc & Hcl & Hnd & Hdecl).
  exists N, c. destruct Hs as [Hn Hs]. rewrite Hn.
  repeat (split; [done|]).
  eapply Forall2_impl; [exact Hdecl|]. intros r d.
  by apply declared_static.
Qed.

Lemma successor_record_static h h' s :
  same_static h h' → successor_record h' s = successor_record h s.
Proof.
  intros Hs. unfold successor_record. pose proof Hs as [Hn Hi].
  specialize (Hi s).
  destruct (h_ifaces h !! s) as [I|], (h_ifaces h' !! s) as [I'|]; try done.
  simpl in *. rewrite Hn. unfold static_part, iface_key in Hi.
  simplify_eq. congruence.
Qed.

Lemma findNode_loop_ok h X : ∀ ns xs k,
  Forall2 (made_from h) ns xs → NoDup (xn_id <$> xs) → xs !! k = Some X →
  ∃ n, ns !! k = Some n ∧ findNode_loop ns (xn_id X) h = (Ok n, h).
Proof.
  intros ns xs k Hf. revert k.
  induction Hf as [|n Y ns xs (N & c & HN & Hid & _) Hf IH]; intros k Hnd Hk; [done|].
  rewrite fmap_cons in Hnd. apply NoDup_cons in Hnd as [Hnotin Hnd].
  cbn [findNode_loop]. rewrite (bind_ok _ _ _ _ _ (get_node_ok _ _ _ HN)).
  destruct k as [|k]; simpl in Hk.
  - simplify_eq. exists n. split; [done|].
    by rewrite bool_decide_eq_true_2.
  - rewrite bool_decide_eq_false_2.
    + destruct (IH k Hnd Hk) as (m & Hm & Hrun). by exists m.
    + intros Heq. apply Hnotin. rewrite Hid in Heq. rewrite Heq.
      apply list_elem_of_fmap. exists X. split; [done|].
      by apply list_elem_of_lookup_2 in Hk.
Qed.

Lemma filter_declared h n nm : ∀ rs ds j d,
  Forall2 (declared h n) rs ds → NoDup (d_name <$> ds) →
  ds !! j = Some d → d_name d = nm →
  ∃ r l, rs !! j = Some r ∧
    filter (λ x, holds (λ X, bool_decide (i_name X = nm) = true) (h_ifaces h !! x)) rs
    = r :: l.
Proof.
  intros rs ds j d Hf. revert j.
  induction Hf as [|r d0 rs ds Hd Hf IH]; intros j Hnd Hj Hnm; [done|].
  rewrite fmap_cons in Hnd. apply NoDup_cons in Hnd as [Hnotin Hnd].
  apply holds_Some in Hd as (I & HI & Hk & _).
  assert (i_name I = d_name d0) as Hname.
  { unfold iface_key, decl_key in Hk. congruence. }
  destruct j as [|j]; simpl in Hj.
  - simplify_eq. exists r. eexists. split; [done|].
    rewrite filter_cons_True; [done|].
    rewrite HI. simpl. by apply bool_decide_eq_true_2.
  - destruct (IH j Hnd Hj Hnm) as (r' & l & Hr' & Hfl).
    exists r', l. split; [done|].
    rewrite filter_cons_False; [done|].
    rewrite HI. simpl. intros Heq. apply bool_decide_eq_true_1 in Heq.
    apply Hnotin. rewrite <- Hname, Heq, <- Hnm.
    apply list_elem_of_fmap. exists d. split; [done|].
    by apply list_elem_of_lookup_2 in Hj.
Qed.

Lemma findInterface_ok h n N c j d :
  h_nodes h !! n = Some N →
  Forall2 (declared h n) (n_interfaces N) (class_interfaces c) →
  class_interfaces c !! j = Some d →
  ∃ r I, n_interfaces N !! j = Some r ∧
    findInterface n (d_name d) h = (Ok r, h) ∧
    h_ifaces h !! r = Some I ∧ iface_key I = decl_key d ∧ i_node I = n.
Proof.
  intros HN Hdecl Hj.
  destruct (filter_declared h n (d_name d) _ _ j d Hdecl
              (class_interface_names c) Hj eq_refl) as (r & l & Hr & Hfl).
  pose proof (Forall2_lookup_lr _ _ _ _ _ _ Hdecl Hr Hj) as Hd.
  apply holds_Some in Hd as (I & HI & Hk & Hn).
  exists r, I. split; [done|]. split; [|done].
  unfold findInterface. rewrite (bind_ok _ _ _ _ _ (get_node_ok _ _ _ HN)).
  rewrite (bind_ok _ _ _ (r :: l) h); [done|].
  rewrite filter_ifaces_ok.
  - by rewrite Hfl.
  - eapply Forall2_Forall_l'; [exact Hdecl|]. intros a b Hab.
    apply holds_Some in Hab as (? & ? & _). by eexists.
Qed.

(** ** Loading: the links *)

Lemma touches_refl P h : touches P h h.
Proof. split; [apply same_static_refl|done]. Qed.

Lemma touches_trans P h1 h2 h3 :
  touches P h1 h2 → touches P h2 h3 → touches P h1 h3.
Proof.
  intros [Hs1 Hu1] [Hs2 Hu2]. split; [by eapply same_static_trans|].
  intros r Hr. destruct (Hu1 r Hr) as [Hc1 Hk1]. destruct (Hu2 r Hr) as [Hc2 Hk2].
  split; [by rewrite Hc2, Hc1|]. intros Hset. by apply Hk2, Hk1.
Qed.

Lemma touches_mono (P Q : nat → Prop) h h' :
  (∀ r, P r → Q r) → touches P h h' → touches Q h h'.
Proof. intros HPQ [Hs Hu]. split; [done|]. intros r Hr. apply Hu. auto. Qed.

(** An update of one interface that keeps its static part. *)
Lemma touches_insert h r I I' :
  h_ifaces h !! r = Some I → static_part I' = static_part I →
  touches (λ x, x = r) h
    (mkHeap (<[r := I']> (h_ifaces h)) (h_nodes h) (h_next h) (h_log h)).
Proof.
  intros HI Hs. split; [split; [done|]|].
  - intros x. cbn [h_ifaces]. destruct (decide (x = r)) as [->|Hx].
    + rewrite lookup_insert_eq, HI. simpl. by rewrite Hs.
    + by rewrite lookup_insert_ne.
  - intros x Hx. unfold untouched. cbn [h_ifaces]. by rewrite lookup_insert_ne.
Qed.

(** An update of one interface that keeps its static part and its
    contents. *)
Lemma touches_insert_same P h r I I' :
  h_ifaces h !! r = Some I → static_part I' = static_part I →
  contents I' = contents I → (i_slot I = true → i_slot I' = true) →
  touches P h
    (mkHeap (<[r := I']> (h_ifaces h)) (h_nodes h) (h_next h) (h_log h)).
Proof.
  intros HI Hs Hc Hk. split; [split; [done|]|].
  - intros x. cbn [h_ifaces]. destruct (decide (x = r)) as [->|Hx].
    + rewrite lookup_insert_eq, HI. simpl. by rewrite Hs.
    + by rewrite lookup_insert_ne.
  - intros x _. unfold untouched. cbn [h_ifaces].
    destruct (decide (x = r)) as [->|Hx].
    + rewrite lookup_insert_eq, HI. simpl. by rewrite Hc.
    + by rewrite lookup_insert_ne.
Qed.

Lemma untouched_lookup h h' r I :
  untouched h h' r → h_ifaces h !! r = Some I →
  ∃ I', h_ifaces h' !! r = Some I' ∧
    i_successors I' = i_successors I ∧ i_value I' = i_value I.
Proof.
  unfold untouched. intros [Hu _] HI. rewrite HI in Hu.
  destruct (h_ifaces h' !! r) as [I'|]; [|done].
  exists I'. unfold contents in Hu. simpl in Hu. split; [done|]. split; congruence.
Qed.

Lemma pending_untouched h h' r :
  pending h r → untouched h h' r → pending h' r.
Proof.
  unfold pending. intros Hp Hu. apply holds_Some in Hp as (I & HI & Hs).
  destruct (untouched_lookup _ _ _ _ Hu HI) as (I' & -> & Hs' & _).
  simpl. congruence.
Qed.

Lemma imported_untouched h h' r xi :
  imported_iface h r xi → same_static h h' → untouched h h' r →
  imported_iface h' r xi.
Proof.
  unfold imported_iface. intros Hi Hs Hu.
  apply holds_Some in Hi as (I & HI & Hsucc & Hval & Hslot).
  destruct (untouched_lookup _ _ _ _ Hu HI) as (I' & HI' & Hs' & Hv').
  destruct (static_lookup _ _ _ _ Hs HI) as (I'' & HI'' & Hst).
  assert (I'' = I') as -> by congruence.
  assert (isInput I' && isValue I' = isInput I && isValue I) as Hiv.
  { unfold static_part, iface_key in Hst. unfold isInput, isValue.
    assert (i_type I' = i_type I) as -> by congruence.
    assert (i_class I' = i_class I) as -> by congruence. done. }
  rewrite HI'. simpl. split; [|split].
  - rewrite Hs', <- Hsucc. apply map_ext. intros s.
    by apply successor_record_static.
  - rewrite Hiv, Hv'. exact Hval.
  - rewrite Hiv. destruct Hslot as [Hset|Hno]; [left|by right].
    destruct Hu as [_ Hk]. rewrite HI, HI' in Hk. simpl in Hk. by apply Hk.
Qed.

Lemma owner_static h h' r :
  same_static h h' → i_node <$> h_ifaces h' !! r = i_node <$> h_ifaces h !! r.
Proof.
  intros [_ Hs]. specialize (Hs r).
  destruct (h_ifaces h !! r), (h_ifaces h' !! r); simpl in *; try done.
  unfold static_part in Hs. congruence.
Qed.

Section Links.

Variable fl : Flow.
Variable x : list XNode.
Hypothesis Hids : NoDup (xn_id <$> x).

Lemma resolve_node h k Y :
  Forall2 (made_from h) (nodes fl) x → x !! k = Some Y →
  ∃ n N c, nodes fl !! k = Some n ∧ findNode fl (xn_id Y) h = (Ok n, h) ∧
    h_nodes h !! n = Some N ∧ n_id N = xn_id Y ∧
    class_of_name (xn_type Y) = Some c ∧ NoDup (n_interfaces N) ∧
    Forall2 (declared h n) (n_interfaces N) (class_interfaces c).
Proof.
  intros Hst Hk.
  destruct (findNode_loop_ok h Y _ _ k Hst Hids Hk) as (n & Hn & Hfind).
  destruct (Forall2_lookup_lr _ _ _ _ _ _ Hst Hn Hk)
    as (N & c & HN & Hid & Hc & _ & Hnd & Hdecl).
  by exists n, N, c.
Qed.

Lemma import_successor_ok h src Src NS X s :
  Forall2 (made_from h) (nodes fl) x →
  h_ifaces h !! src = Some Src → h_nodes h !! i_node Src = Some NS →
  n_id NS = xn_id X →
  (∃ Y cY d', Y ∈ x ∧ xn_id Y = xs_node s ∧ xn_id Y ≠ xn_id X ∧
     class_of_name (xn_type Y) = Some cY ∧ d' ∈ class_interfaces cY ∧
     d_name d' = xs_interface s ∧ d_class d' = i_class Src) →
  ∃ h' dest, import_successor fl src s h = (Ok tt, h') ∧
    touches (λ r, r = src) h h' ∧ successor_record h dest = s ∧
    h_ifaces h' !! src = Some (set_successors (i_successors Src ++ [dest]) Src).
Proof.
  intros Hst HSrc HNS Hid (Y & cY & d' & HY & Hyid & Hne & HcY & Hd' & Hnm & Hcl).
  apply list_elem_of_lookup_1 in HY as [k Hk].
  destruct (resolve_node h k Y Hst Hk)
    as (dn & ND & c & Hdn & Hfind & HND & HNDid & Hc & _ & Hdecl).
  assert (c = cY) as -> by congruence.
  pose proof (class_interface_payload _ _ Hd') as Hpay.
  apply list_elem_of_lookup_1 in Hd' as [j Hj].
  destruct (findInterface_ok h dn ND cY j d' HND Hdecl Hj)
    as (dest & D & Hdest & Hfi & HD & HDk & HDn).
  assert (i_node Src ≠ dn) as Hnodes.
  { intros Heq. rewrite Heq in HNS. congruence. }
  assert (src ≠ dest) as Hsd.
  { intros ->. congruence. }
  assert (i_class D = d_class d' ∧ i_name D = d_name d') as [HDc HDnm].
  { unfold iface_key, decl_key in HDk. split; congruence. }
  set (D1 := set_slot true D).
  set (h1 := mkHeap (<[dest := D1]> (h_ifaces h)) (h_nodes h) (h_next h) (h_log h)).
  assert (h_ifaces h1 !! src = Some Src) as HSrc1.
  { cbn [h1 h_ifaces]. by rewrite lookup_insert_ne. }
  assert (h_ifaces h1 !! dest = Some D1) as HD1.
  { cbn [h1 h_ifaces]. by rewrite lookup_insert_eq. }
  set (S1 := set_successors (i_successors Src ++ [dest]) Src).
  set (h2 := mkHeap (<[src := S1]> (h_ifaces h1)) (h_nodes h1) (h_next h1) (h_log h1)).
  set (D2 := set_predecessors (i_predecessors D1 ++ [src]) D1).
  set (h3 := mkHeap (<[dest := D2]> (h_ifaces h2)) (h_nodes h2) (h_next h2) (h_log h2)).
  assert (addSuccessor src dest h1 = (Ok tt, h3)) as Hadd.
  { apply (addSuccessor_ok h1 src dest Src D1 HSrc1 HD1 Hsd).
    - cbn [D1 set_slot i_node]. by rewrite HDn.
    - cbn [D1 set_slot i_class]. congruence.
    - congruence. }
  assert (h_ifaces h2 !! dest = Some D1) as HD2.
  { cbn [h2 h_ifaces]. by rewrite lookup_insert_ne. }
  exists h3, dest. split; [|split; [|split]].
  - unfold import_successor. rewrite <- Hyid, <- Hnm.
    rewrite (bind_ok _ _ _ _ _ Hfind). rewrite (bind_ok _ _ _ _ _ Hfi).
    rewrite (bind_ok _ _ _ tt h1) by (by rewrite (upd_iface_ok h dest _ D HD)).
    exact Hadd.
  - apply (touches_trans _ h h1 h3); [|apply (touches_trans _ h1 h2 h3)].
    + by apply (touches_insert_same _ h dest D D1 HD).
    + by apply (touches_insert h1 src Src S1 HSrc1).
    + by apply (touches_insert_same _ h2 dest D1 D2 HD2).
  - unfold successor_record. rewrite HD. simpl. rewrite HDn, HND. simpl.
    rewrite HNDid, HDnm, Hyid, Hnm. by destruct s.
  - cbn [h3 h2 h_ifaces]. rewrite lookup_insert_ne by done. apply lookup_insert_eq.
Qed.

Lemma import_successors_ok src NS X cls ss : ∀ h Src,
  Forall2 (made_from h) (nodes fl) x →
  h_ifaces h !! src = Some Src → h_nodes h !! i_node Src = Some NS →
  n_id NS = xn_id X → i_class Src = cls →
  (∀ s, s ∈ ss →
     ∃ Y cY d', Y ∈ x ∧ xn_id Y = xs_node s ∧ xn_id Y ≠ xn_id X ∧
       class_of_name (xn_type Y) = Some cY ∧ d' ∈ class_interfaces cY ∧
       d_name d' = xs_interface s ∧ d_class d' = cls) →
  ∃ h' dests, for_each ss (import_successor fl src) h = (Ok tt, h') ∧
    touches (λ r, r = src) h h' ∧ map (successor_record h) dests = ss ∧
    h_ifaces h' !! src = Some (set_successors (i_successors Src ++ dests) Src).
Proof.
  induction ss as [|s ss IH]; intros h Src Hst HSrc HNS Hid Hcls Hss.
  - exists h, []. split; [done|]. split; [apply touches_refl|]. split; [done|].
    rewrite app_nil_r. rewrite HSrc. by destruct Src.
  - destruct (import_successor_ok h src Src NS X s Hst HSrc HNS Hid)
      as (h1 & dest & Hrun & Ht & Hrec & HS1).
    { rewrite Hcls. apply Hss. apply elem_of_cons. by left. }
    pose proof Ht as [Hstat _].
    destruct (IH h1 (set_successors (i_successors Src ++ [dest]) Src))
      as (h' & dests & Hrun' & Ht' & Hrec' & HS').
    + eapply Forall2_impl; [exact Hst|]. intros n Y. by apply made_from_static.
    + exact HS1.
    + destruct Hstat as [-> _]. exact HNS.
    + exact Hid.
    + exact Hcls.
    + intros s' Hs'. apply Hss. apply elem_of_cons. by right.
    + exists h', (dest :: dests). cbn [for_each].
      rewrite (bind_ok _ _ _ _ _ Hrun). split; [exact Hrun'|].
      split; [by eapply touches_trans|]. split.
      * cbn [map]. rewrite Hrec. f_equal. rewrite <- Hrec'.
        apply map_ext. intros r. symmetry. by apply successor_record_static.
      * rewrite HS'. cbn [set_successors i_successors]. by rewrite <- app_assoc.
Qed.

Lemma import_interface_ok h X n N c j xi d :
  Forall2 (made_from h) (nodes fl) x →
  doc_node_ok x X → class_of_name (xn_type X) = Some c →
  h_nodes h !! n = Some N → n_id N = xn_id X →
  Forall2 (declared h n) (n_interfaces N) (class_interfaces c) →
  xn_interfaces X !! j = Some xi → class_interfaces c !! j = Some d →
  ∃ h' src, n_interfaces N !! j = Some src ∧
    import_interface fl n xi h = (Ok tt, h') ∧
    touches (λ r, r = src) h h' ∧
    (pending h src → imported_iface h' src xi).
Proof.
  intros Hst (Hblank & c' & Hc' & Hnames & Hsucc) Hc HN Hid Hdecl Hxi Hd.
  assert (c' = c) as -> by congruence.
  assert (xi_name xi = d_name d) as Hname.
  { assert ((xi_name <$> xn_interfaces X) !! j = Some (xi_name xi)) as H1
      by (by rewrite list_lookup_fmap, Hxi).
    rewrite Hnames, list_lookup_fmap, Hd in H1. simpl in H1. congruence. }
  destruct (findInterface_ok h n N c j d HN Hdecl Hd)
    as (src & Src & Hsrc & Hfi & HSrc & Hkey & Hnode).
  set (slotv := bool_decide (lower (getAttribute (xi_slot xi)) = "true")).
  set (v := PStr (getAttribute (xi_value xi))).
  set (Src1 := set_slot true Src).
  set (Src2 := if isInput Src1 && isValue Src1
               then (if negb slotv then set_value v (set_slot slotv Src1)
                     else set_slot slotv Src1)
               else Src1).
  set (h1 := mkHeap (<[src := Src1]> (h_ifaces h)) (h_nodes h) (h_next h) (h_log h)).
  set (h2 := mkHeap (<[src := Src2]> (h_ifaces h)) (h_nodes h) (h_next h) (h_log h)).
  assert (static_part Src2 = static_part Src ∧ i_successors Src2 = i_successors Src)
    as [Hstat2 Hsucc2].
  { unfold Src2. destruct (isInput Src1 && isValue Src1), slotv; done. }
  assert (h_ifaces h1 !! src = Some Src1) as HSrc1 by apply lookup_insert_eq.
  assert (h_ifaces h2 !! src = Some Src2) as HSrc2 by apply lookup_insert_eq.
  assert ((if isInput Src1 && isValue Src1
           then run! upd_iface src (set_slot slotv);
                if negb slotv then upd_iface src (set_value v) else ret tt
           else ret tt) h1 = (Ok tt, h2)) as Hlit.
  { unfold Src2, h2. destruct (isInput Src1 && isValue Src1).
    - rewrite (bind_ok _ _ _ tt _ (upd_iface_ok _ _ _ _ HSrc1)).
      cbn [h1 h_ifaces h_nodes h_next h_log]. rewrite insert_insert_eq.
      destruct slotv; cbn [negb]; [done|].
      unfold upd_iface. cbn [h_ifaces h_nodes h_next h_log].
      rewrite lookup_insert_eq. by rewrite insert_insert_eq.
    - unfold ret. f_equal. }
  assert (touches (λ r, r = src) h h2) as Ht2
    by (by apply (touches_insert h src Src Src2 HSrc)).
  assert (i_node Src2 = n ∧ i_class Src2 = d_class d) as [Hnode2 Hclass2].
  { unfold static_part, iface_key, decl_key in *. split; congruence. }
  destruct (import_successors_ok src N X (d_class d) (xi_successors xi) h2 Src2)
    as (h' & dests & Hrun & Ht & Hrec & HS').
  { eapply Forall2_impl; [exact Hst|]. intros m Y.
    apply made_from_static. by destruct Ht2. }
  { exact HSrc2. }
  { rewrite Hnode2. exact HN. }
  { exact Hid. }
  { exact Hclass2. }
  { intros s Hs. by apply (Hsucc j xi d s). }
  exists h', src. split; [exact Hsrc|]. split; [|split].
  - unfold import_interface. rewrite Hname.
    rewrite (bind_ok _ _ _ _ _ Hfi).
    rewrite (bind_ok _ _ _ tt h1) by (by rewrite (upd_iface_ok h src _ Src HSrc)).
    rewrite (bind_ok _ _ _ Src1 h1) by (by apply get_iface_ok).
    rewrite (bind_ok _ _ _ tt h2) by exact Hlit.
    exact Hrun.
  - by eapply touches_trans.
  - intros Hp. unfold pending in Hp. rewrite HSrc in Hp. simpl in Hp.
    assert (∀ l, isInput (set_successors l Src2) && isValue (set_successors l Src2)
                 = isInput Src && isValue Src) as Hsame.
    { intros l. unfold Src2.
      destruct (isInput Src1 && isValue Src1), slotv; reflexivity. }
    unfold imported_iface. rewrite HS'. simpl.
    change (mkInterface (i_class Src2) (i_node Src2) (i_name Src2)
              (i_successors Src2 ++ dests) (i_predecessors Src2) (i_type Src2)
              (i_slot Src2) (i_default Src2) (i_value Src2) (i_stream Src2)
              (i_readypredecessors Src2))
      with (set_successors (i_successors Src2 ++ dests) Src2).
    rewrite !Hsame. split; [|split].
    + rewrite Hsucc2, Hp. simpl. rewrite <- Hrec.
      apply map_ext. intros r. apply successor_record_static. by destruct Ht.
    + intros Hin Hno. unfold Src2.
      change (isInput Src1 && isValue Src1) with (isInput Src && isValue Src).
      rewrite Hin. unfold slotv. rewrite bool_decide_eq_false_2 by done.
      reflexivity.
    + unfold Src2.
      change (isInput Src1 && isValue Src1) with (isInput Src && isValue Src).
      destruct (isInput Src && isValue Src) eqn:Hiv; [|by left].
      destruct slotv eqn:Hsl; cbn [negb]; [by left|].
      right. split; [done|]. unfold slotv in Hsl.
      by apply bool_decide_eq_false_1 in Hsl.
Qed.

Lemma import_interfaces_ok X n N c : ∀ xis j0 h,
  Forall2 (made_from h) (nodes fl) x →
  doc_node_ok x X → class_of_name (xn_type X) = Some c →
  h_nodes h !! n = Some N → n_id N = xn_id X → NoDup (n_interfaces N) →
  Forall2 (declared h n) (n_interfaces N) (class_interfaces c) →
  (∀ i xi, xis !! i = Some xi → xn_interfaces X !! (j0 + i) = Some xi) →
  (∀ i r, j0 ≤ i → n_interfaces N !! i = Some r → pending h r) →
  ∃ h', for_each xis (import_interface fl n) h = (Ok tt, h') ∧
    touches (λ r, ∃ i, j0 ≤ i ∧ n_interfaces N !! i = Some r) h h' ∧
    (∀ i xi, xis !! i = Some xi →
       ∃ r, n_interfaces N !! (j0 + i) = Some r ∧ imported_iface h' r xi).
Proof.
  induction xis as [|xi xis IH]; intros j0 h Hst Hdoc Hc HN Hid Hnd Hdecl Hxis Hpend.
  - exists h. split; [done|]. split; [apply touches_refl|]. by intros i xi.
  - assert (xn_interfaces X !! j0 = Some xi) as Hxi.
    { rewrite <- (Nat.add_0_r j0). by apply Hxis. }
    assert (∃ d, class_interfaces c !! j0 = Some d) as [d Hd].
    { destruct Hdoc as (_ & c' & Hc' & Hnames & _).
      assert (c' = c) as -> by congruence.
      assert ((d_name <$> class_interfaces c) !! j0 = Some (xi_name xi)) as H1
        by (by rewrite <- Hnames, list_lookup_fmap, Hxi).
      rewrite list_lookup_fmap in H1.
      destruct (class_interfaces c !! j0) as [d|]; [by exists d|done]. }
    destruct (import_interface_ok h X n N c j0 xi d Hst Hdoc Hc HN Hid Hdecl Hxi Hd)
      as (h1 & src & Hsrc & Hrun & Ht & Himp).
    specialize (Himp (Hpend j0 src (le_n _) Hsrc)).
    pose proof Ht as [Hstat Hun].
    destruct (IH (S j0) h1) as (h' & Hrun' & Ht' & Himp').
    + eapply Forall2_impl; [exact Hst|]. intros m Y. by apply made_from_static.
    + exact Hdoc.
    + exact Hc.
    + destruct Hstat as [-> _]. exact HN.
    + exact Hid.
    + exact Hnd.
    + eapply Forall2_impl; [exact Hdecl|]. intros r d'. by apply declared_static.
    + intros i xi' Hi. replace (S j0 + i) with (j0 + S i) by lia. by apply Hxis.
    + intros i r Hi Hr. apply (pending_untouched h); [apply (Hpend i r); [lia|done]|].
      apply Hun. intros ->.
      pose proof (NoDup_lookup _ _ _ _ Hnd Hsrc Hr). lia.
    + exists h'. cbn [for_each]. rewrite (bind_ok _ _ _ _ _ Hrun).
      split; [exact Hrun'|]. split.
      * eapply touches_trans.
        -- eapply touches_mono; [|exact Ht]. intros r ->. by exists j0.
        -- eapply touches_mono; [|exact Ht']. intros r (i & Hi & Hr).
           exists i. split; [lia|done].
      * intros [|i] xi' Hi; simpl in Hi.
        -- simplify_eq. exists src. rewrite Nat.add_0_r. split; [done|].
           destruct Ht' as [Hstat' Hun'].
           apply (imported_untouched h1); [done|done|].
           apply Hun'. intros (i & Hi & Hr).
           pose proof (NoDup_lookup _ _ _ _ Hnd Hsrc Hr). lia.
        -- destruct (Himp' i xi' Hi) as (r & Hr & Him).
           exists r. replace (j0 + S i) with (S j0 + i) by lia. done.
Qed.

Lemma import_links_ok k X h :
  Forall2 (made_from h) (nodes fl) x → doc_node_ok x X → x !! k = Some X →
  (∀ n N r, nodes fl !! k = Some n → h_nodes h !! n = Some N →
     r ∈ n_interfaces N → pending h r) →
  ∃ h' n N, nodes fl !! k = Some n ∧ h_nodes h !! n = Some N ∧
    import_links fl X h = (Ok tt, h') ∧
    touches (λ r, i_node <$> h_ifaces h !! r = Some n) h h' ∧
    Forall2 (imported_iface h') (n_interfaces N) (xn_interfaces X).
Proof.
  intros Hst Hdoc Hk Hpend.
  destruct (resolve_node h k X Hst Hk)
    as (n & N & c & Hn & Hfind & HN & Hid & Hc & Hnd & Hdecl).
  destruct (import_interfaces_ok X n N c (xn_interfaces X) 0 h)
    as (h' & Hrun & Ht & Himp); try done.
  { intros i r _ Hr. apply (Hpend n N r Hn HN).
    by apply list_elem_of_lookup_2 in Hr. }
  exists h', n, N. split; [done|]. split; [done|]. split; [|split].
  - unfold import_links. by rewrite (bind_ok _ _ _ _ _ Hfind).
  - eapply touches_mono; [|exact Ht]. intros r (i & _ & Hr). simpl.
    pose proof (Forall2_lookup_l _ _ _ _ _ Hdecl Hr) as (d & _ & Hd).
    apply holds_Some in Hd as (I & -> & _ & Hnode). simpl. by rewrite Hnode.
  - apply Forall2_same_length_lookup. split.
    + destruct Hdoc as (_ & c' & Hc' & Hnames & _).
      assert (c' = c) as -> by congruence.
      rewrite (Forall2_length _ _ _ Hdecl).
      apply (f_equal List.length) in Hnames. rewrite !length_fmap in Hnames.
      done.
    + intros i r xi Hr Hxi. destruct (Himp i xi Hxi) as (r' & Hr' & Him).
      simpl in Hr'. congruence.
Qed.

Lemma interface_owner h n X r N :
  made_from h n X → h_nodes h !! n = Some N → r ∈ n_interfaces N →
  i_node <$> h_ifaces h !! r = Some n.
Proof.
  intros (N' & c & HN' & _ & _ & _ & _ & Hdecl) HN Hr.
  assert (N' = N) as -> by congruence.
  apply list_elem_of_lookup_1 in Hr as [i Hi].
  pose proof (Forall2_lookup_l _ _ _ _ _ Hdecl Hi) as (d & _ & Hd).
  apply holds_Some in Hd as (I & -> & _ & Hnode). simpl. by rewrite Hnode.
Qed.

Lemma import_all_links_ok : ∀ xs k0 h,
  Forall2 (made_from h) (nodes fl) x → Forall (doc_node_ok x) x →
  NoDup (nodes fl) →
  (∀ i X, xs !! i = Some X → x !! (k0 + i) = Some X) →
  (∀ i n N r, k0 ≤ i → nodes fl !! i = Some n → h_nodes h !! n = Some N →
     r ∈ n_interfaces N → pending h r) →
  ∃ h', for_each xs (import_links fl) h = (Ok tt, h') ∧
    touches (λ r, ∃ i n, k0 ≤ i ∧ nodes fl !! i = Some n ∧
                         i_node <$> h_ifaces h !! r = Some n) h h' ∧
    (∀ i X, xs !! i = Some X →
       ∃ n N, nodes fl !! (k0 + i) = Some n ∧ h_nodes h !! n = Some N ∧
         Forall2 (imported_iface h') (n_interfaces N) (xn_interfaces X)).
Proof.
  induction xs as [|X xs IH]; intros k0 h Hst Hdoc Hnd Hxs Hpend.
  - exists h. split; [done|]. split; [apply touches_refl|]. by intros i X.
  - assert (x !! k0 = Some X) as Hk.
    { rewrite <- (Nat.add_0_r k0). by apply Hxs. }
    assert (doc_node_ok x X) as HX.
    { rewrite Forall_forall in Hdoc. apply Hdoc.
      by apply list_elem_of_lookup_2 in Hk. }
    destruct (import_links_ok k0 X h Hst HX Hk)
      as (h1 & n & N & Hn & HN & Hrun & Ht & Himp).
    { intros n N r Hn HN Hr. by apply (Hpend k0 n N r). }
    pose proof Ht as [Hstat Hun].
    assert (Forall2 (made_from h1) (nodes fl) x) as Hst1.
    { eapply Forall2_impl; [exact Hst|]. intros m Y. by apply made_from_static. }
    assert (made_from h n X) as Hmade
      by exact (Forall2_lookup_lr _ _ _ _ _ _ Hst Hn Hk).
    destruct (IH (S k0) h1 Hst1 Hdoc Hnd) as (h' & Hrun' & Ht' & Himp').
    + intros i Y Hi. replace (S k0 + i) with (k0 + S i) by lia. by apply Hxs.
    + intros i m M r Hi Hm HM Hr. destruct Hstat as [HnodesEq Hstat].
      rewrite HnodesEq in HM.
      apply (pending_untouched h); [apply (Hpend i m M r); [lia|done..]|].
      apply Hun.
      destruct (Forall2_lookup_l _ _ _ _ _ Hst Hm) as (Y & _ & HY).
      rewrite (interface_owner h m Y r M HY HM Hr). intros [= ->].
      pose proof (NoDup_lookup _ _ _ _ Hnd Hn Hm). lia.
    + exists h'. cbn [for_each]. rewrite (bind_ok _ _ _ _ _ Hrun).
      split; [exact Hrun'|]. split.
      * eapply touches_trans.
        -- eapply touches_mono; [|exact Ht]. intros r Hr. by exists k0, n.
        -- eapply touches_mono; [|exact Ht']. intros r (i & m & Hi & Hm & Hr).
           exists i, m. split; [lia|]. split; [done|].
           by rewrite <- (owner_static h h1).
      * intros [|i] Y Hi; simpl in Hi.
        -- simplify_eq. exists n, N. rewrite Nat.add_0_r.
           split; [done|]. split; [done|].
           destruct Ht' as [Hstat' Hun'].
           assert (Forall (λ r, r ∈ n_interfaces N) (n_interfaces N)) as Hall
             by (by apply Forall_forall).
           eapply Forall2_impl; [exact (Forall2_Forall_l _ _ _ _ Himp Hall)|].
           intros r xi [Hri Hr]. apply (imported_untouched h1); [done|done|].
           apply Hun'. intros (i & m & Hi & Hm & Hown).
           rewrite (owner_static h h1) in Hown by done.
           rewrite (interface_owner h n Y r N Hmade HN Hr) in Hown.
           simplify_eq. pose proof (NoDup_lookup _ _ _ _ Hnd Hn Hm). lia.
        -- destruct (Himp' i Y Hi) as (m & M & Hm & HM & Hall).
           exists m, M. replace (k0 + S i) with (S k0 + i) by lia.
           destruct Hstat as [HnodesEq _]. rewrite <- HnodesEq. done.
Qed.

End Links.

Section Reading.

Variable atoi : string → pyval.

(** [importXml] on a document that it reads to the end: a flow with one
    node per element, of the id and the class that the element names, whose
    interfaces hold what their elements say. *)
Lemma importXml_ok x h :
  doc_ok x →
  ∃ fl h', importXml atoi x h = (Ok fl, h') ∧
    Forall2 (λ n X, ∃ N,
       h_nodes h' !! n = Some N ∧ made_from h' n X ∧
       Forall2 (imported_iface h') (n_interfaces N) (xn_interfaces X))
      (nodes fl) x.
Proof.
  intros [Hids Hdoc].
  destruct (import_nodes_ok atoi x [] new_Flow h) as (fl & h1 & Hrun & Hb & Hnd & _).
  { constructor. }
  { constructor. }
  { eapply Forall_impl; [exact Hdoc|]. intros X (Hid & c & Hc & _).
    split; [done|by exists c]. }
  simpl in Hb.
  assert (Forall2 (made_from h1) (nodes fl) x) as Hst.
  { eapply Forall2_impl; [exact Hb|]. by intros n X (? & _). }
  destruct (import_all_links_ok fl x Hids x 0 h1 Hst Hdoc Hnd)
    as (h' & Hrun' & [Hstat _] & Himp).
  { by intros i X. }
  { intros i n N r _ Hn HN Hr.
    destruct (Forall2_lookup_l _ _ _ _ _ Hb Hn) as (X & _ & _ & _ & Hall).
    rewrite HN in Hall. simpl in Hall. rewrite Forall_forall in Hall.
    by apply Hall. }
  exists fl, h'. split.
  { unfold importXml. by rewrite Hrun, Hrun'. }
  apply Forall2_same_length_lookup. split; [by eapply Forall2_length|].
  intros i n X Hn HX. destruct (Himp i X HX) as (m & M & Hm & HM & Hall).
  simpl in Hm. assert (m = n) as -> by congruence.
  exists M. destruct Hstat as [HnodesEq Hstat]. rewrite HnodesEq.
  split; [done|]. split; [|done].
  apply (made_from_static h1); [by split|].
  exact (Forall2_lookup_lr _ _ _ _ _ _ Hst Hn HX).
Qed.

End Reading.

(** ** Saving, then loading *)

Lemma NoDup_map_ne {A B} (g : A → B) (l : list A) a b :
  NoDup (map g l) → a ∈ l → b ∈ l → a ≠ b → g a ≠ g b.
Proof.
  intros Hnd Ha Hb Hab Heq.
  apply list_elem_of_lookup_1 in Ha as [i Hi].
  apply list_elem_of_lookup_1 in Hb as [j Hj].
  assert (map g l !! i = Some (g a)) as Hi'.
  { change (map g l) with (g <$> l). by rewrite list_lookup_fmap, Hi. }
  assert (map g l !! j = Some (g a)) as Hj'.
  { change (map g l) with (g <$> l). by rewrite list_lookup_fmap, Hj, Heq. }
  pose proof (NoDup_lookup _ _ _ _ Hnd Hi' Hj') as ->. congruence.
Qed.

Lemma document_ids f h :
  xn_id <$> document f h = map (λ n, from_option n_id "" (h_nodes h !! n)) (nodes f).
Proof.
  unfold document. change (xn_id <$> ?l) with (map xn_id l). rewrite map_map.
  apply map_ext. intros n. by destruct (h_nodes h !! n).
Qed.

Lemma record_names h rs ds :
  Forall2 (λ r d, holds (λ I, iface_key I = decl_key d) (h_ifaces h !! r)) rs ds →
  xi_name <$> map (λ r, from_option (interface_record h) (mkXInterface "" None None [])
                          (h_ifaces h !! r)) rs
  = d_name <$> ds.
Proof.
  induction 1 as [|r d rs ds Hrd Hf IH]; [done|].
  cbn [map fmap list_fmap]. f_equal; [|exact IH].
  apply holds_Some in Hrd as (I & -> & Hk). simpl.
  unfold iface_key, decl_key in Hk. congruence.
Qed.

(** What a saveable flow on a well-formed graph writes can be read to the
    end. *)
Lemma document_ok f h :
  wf_graph f h → saveable f h → doc_ok (document f h).
Proof.
  intros Hwf [Hids Hall]. split; [by rewrite document_ids|].
  unfold document at 2. apply Forall_forall. intros X HX.
  apply list_elem_of_fmap in HX as (n & -> & Hn).
  pose proof Hall as Hall'. rewrite Forall_forall in Hall'.
  pose proof (Hall' n Hn) as HN.
  apply holds_Some in HN as (N & HN & Hblank & Hdecl & Hlinks).
  rewrite HN. simpl. split; [done|].
  exists (n_class N). split; [apply class_of_classname|].
  split; [by apply record_names|].
  intros j xi d s Hxi Hd Hs.
  unfold node_record in Hxi. cbn [xn_interfaces] in Hxi.
  change (map ?g ?l !! j) with ((g <$> l) !! j) in Hxi.
  rewrite list_lookup_fmap in Hxi.
  destruct (n_interfaces N !! j) as [r|] eqn:Hr; [|done]. simpl in Hxi.
  pose proof (Forall2_lookup_lr _ _ _ _ _ _ Hdecl Hr Hd) as Hrd.
  apply holds_Some in Hrd as (I & HI & Hk).
  rewrite HI in Hxi. simpl in Hxi. injection Hxi as <-.
  simpl in Hs. apply list_elem_of_fmap in Hs as (y & -> & Hy).
  rewrite Forall_forall in Hlinks.
  pose proof (Hlinks r (list_elem_of_lookup_2 _ _ _ Hr)) as HrI.
  rewrite HI in HrI. simpl in HrI. rewrite Forall_forall in HrI.
  pose proof (HrI y Hy) as HY.
  apply holds_Some in HY as (Y & HY & Hin & Hne & Hcl).
  destruct (owner_exists _ _ _ _ Hwf HY) as (NY & HNY & HyNY).
  pose proof (Hall' _ Hin) as HNY'.
  rewrite HNY in HNY'. simpl in HNY'. destruct HNY' as (_ & HdeclY & _).
  apply list_elem_of_lookup_1 in HyNY as [j' Hj'].
  destruct (Forall2_lookup_l _ _ _ _ _ HdeclY Hj') as (d' & Hd' & HYd').
  rewrite HY in HYd'. simpl in HYd'.
  assert (i_node I = n) as HIn.
  { destruct Hwf as (_ & W2 & _). specialize (W2 n N HN). simpl in W2.
    rewrite Forall_forall in W2.
    specialize (W2 r (list_elem_of_lookup_2 _ _ _ Hr)).
    rewrite HI in W2. exact W2. }
  exists (node_record h NY), (n_class NY), d'.
  unfold successor_record. rewrite HY. simpl. rewrite HNY. simpl.
  split.
  { apply list_elem_of_fmap. exists (i_node Y). by rewrite HNY. }
  split; [done|]. split.
  { pose proof (NoDup_map_ne _ _ (i_node Y) n Hids Hin Hn) as Hdiff.
    simpl in Hdiff. rewrite HNY, HN in Hdiff. simpl in Hdiff.
    apply Hdiff. congruence. }
  split; [apply class_of_classname|].
  split; [by apply list_elem_of_lookup_2 in Hd'|].
  unfold iface_key, decl_key in *. split; congruence.
Qed.

Lemma link_view_records h X :
  link_view h X
  = map (λ s, (xs_node s, xs_interface s)) (map (successor_record h) (i_successors X)).
Proof. unfold link_view. by rewrite map_map. Qed.

(** The interface that [importXml] makes from the element written for an
    interface stands for it. *)
Lemma imported_same_iface h h' n' r r' d I :
  h_ifaces h !! r = Some I → iface_key I = decl_key d →
  declared h' n' r' d → imported_iface h' r' (interface_record h I) →
  same_iface h h' r r'.
Proof.
  intros HI Hk Hd Him.
  apply holds_Some in Hd as (I' & HI' & Hk' & _).
  unfold imported_iface in Him. rewrite HI' in Him. simpl in Him.
  destruct Him as (Hsucc & Hval & Hmark).
  assert (iface_key I' = iface_key I) as Hkey by congruence.
  assert (isInput I' && isValue I' = isInput I && isValue I) as Hiv.
  { unfold iface_key in Hkey. unfold isInput, isValue.
    assert (i_type I' = i_type I) as -> by congruence.
    assert (i_class I' = i_class I) as -> by congruence. done. }
  exists I, I'. split; [done|]. split; [done|]. split; [done|].
  split; [|split].
  - rewrite !link_view_records. by rewrite Hsucc.
  - intros Hlit.
    apply andb_true_iff in Hlit as [Hin Hslot].
    rewrite Hin in Hiv, Hval. rewrite Hslot in Hval.
    apply negb_true_iff in Hslot. rewrite Hslot in Hval.
    apply Hval; [exact Hiv|]. by vm_compute.
  - intros Hset. destruct Hmark as [Hdone|[Hin Hno]]; [done|].
    rewrite Hiv in Hin. destruct Hset as [Hset|Hout]; [|congruence].
    rewrite Hin, Hset in Hno. by destruct Hno.
Qed.

(** *** The text of the file *)

Lemma read_char_plain c : plain_char c → Examples.read_char c = Some c.
Proof.
  intros [Hlo Hhi]. unfold Examples.read_char. cbv zeta.
  rewrite !bool_decide_eq_false_2 by lia. done.
Qed.

Lemma read_text_plain s : plain_text s → Examples.read_text s = Some s.
Proof.
  induction s as [|c s IH]; intros Hs; [done|].
  unfold plain_text in Hs. simpl in Hs. apply Forall_cons in Hs as [Hc Hs].
  simpl. by rewrite (read_char_plain c Hc), (IH Hs).
Qed.

Lemma read_attr_plain a : plain_attr a → Examples.read_attr a = Some a.
Proof.
  destruct a as [s|]; simpl; [|done]. intros Hs. by rewrite (read_text_plain s Hs).
Qed.

Lemma read_all_plain {A} (rd : A → option A) (l : list A) :
  Forall (λ a, rd a = Some a) l → Examples.read_all rd l = Some l.
Proof. induction 1 as [|a l Ha _ IH]; simpl; [done|]. by rewrite Ha, IH. Qed.

Lemma read_interface_plain xi :
  plain_interface xi → Examples.read_interface xi = Some xi.
Proof.
  intros (Hn & Hs & Hv & Hss). unfold Examples.read_interface.
  rewrite (read_text_plain _ Hn), (read_attr_plain _ Hs), (read_attr_plain _ Hv).
  rewrite read_all_plain; [by destruct xi|].
  eapply Forall_impl; [exact Hss|]. intros s [H1 H2].
  unfold Examples.read_successor.
  rewrite (read_text_plain _ H1), (read_text_plain _ H2). by destruct s.
Qed.

(** The parser of the examples gives a plain document back. *)
Lemma parsed_back_plain : reads_plain Examples.parsed_back.
Proof.
  intros x Hx. unfold Examples.parsed_back. apply read_all_plain.
  eapply Forall_impl; [exact Hx|]. intros X (Hi & Ht & Hp & Hxi).
  unfold Examples.read_node.
  rewrite (read_text_plain _ Hi), (read_text_plain _ Ht).
  rewrite read_all_plain.
  - rewrite read_all_plain; [by destruct X|].
    eapply Forall_impl; [exact Hxi|]. apply read_interface_plain.
  - eapply Forall_impl; [exact Hp|]. intros [k v] [H1 H2].
    unfold Examples.read_property. simpl in *.
    by rewrite (read_text_plain _ H1), (read_text_plain _ H2).
Qed.

(** C9, amended.  A flow on a well-formed object graph, whose nodes have
    ids that are not blank and differ from each other, each node with the
    interfaces that its class declares, each link between interfaces of one
    payload class on two different nodes of the flow; every attribute that
    [exportXml] writes for it is a plain text, which the parser reads back
    as written, and the file can be opened for writing.  Then [save]
    returns, [load] of the file returns, and the flow that [load] makes has,
    node by node in the order of the flow and interface by interface in the
    order of the node, the same ids and classes, the same interface names,
    classes and types, the same successors (each named by the id of its node
    and its name), and on each value input that is not a slot the literal of
    the original as ["%s"] writes it ([None] as the empty string).  The slot
    marks are not all brought back: the mark comes back set where it was
    set and on every interface that is not a value input, and may come back
    set where it was not. *)
Theorem load_of_save_same_graph (atoi : string → pyval)
    (reread : list XNode → option (list XNode)) (writable : string → bool)
    (fs : gmap string (option (list XNode))) (fname : string) (f : Flow) (h : Heap) :
  wf_graph f h → saveable f h → plain_doc (document f h) →
  reads_plain reread → writable fname = true →
  ∃ fs' f' h',
    Flow_save reread writable fs (Some fname) (f, h)
      = (Ok fs', (set_modified false f, h)) ∧
    Flow_load atoi fs' fname h = (Ok f', h') ∧
    same_graph f h f' h'.
Proof.
  intros Hwf Hsave Hplain Hread Hopen.
  destruct (importXml_ok atoi (document f h) h (document_ok f h Hwf Hsave))
    as (fl & h' & Hrun & Hall).
  exists (<[fname := Some (document f h)]> fs),
         (set_modified false (set_filename (Some fname) fl)), h'.
  split; [|split].
  - unfold Flow_save.
    rewrite (bind_ok _ _ _ (f, h) (f, h)) by done. simpl fst.
    rewrite (bind_ok _ _ _ _ _ (lift_h_ok _ f _ _ _ (exportXml_ok f h Hwf))).
    rewrite Hopen, (Hread _ Hplain). done.
  - unfold Flow_load. rewrite lookup_insert_eq.
    by rewrite (bind_ok _ _ _ _ _ Hrun).
  - unfold same_graph. cbn [set_modified set_filename nodes].
    destruct Hsave as [Hids Hnodes]. rewrite Forall_forall in Hnodes.
    apply Forall2_same_length_lookup. split.
    { rewrite (Forall2_length _ _ _ Hall). unfold document. symmetry. apply length_map. }
    intros i n n' Hn Hn'.
    pose proof (Hnodes n (list_elem_of_lookup_2 _ _ _ Hn)) as HN.
    apply holds_Some in HN as (N & HN & _ & Hdecl & _).
    assert (document f h !! i = Some (node_record h N)) as Hdoc.
    { unfold document. change (map ?g ?l) with (g <$> l).
      rewrite list_lookup_fmap, Hn. simpl. by rewrite HN. }
    destruct (Forall2_lookup_lr _ _ _ _ _ _ Hall Hn' Hdoc)
      as (N' & HN' & (N'' & c & HN'' & Hid & Hc & Hcl & _ & Hdecl') & Himp).
    assert (N'' = N') as -> by congruence.
    cbn [node_record xn_id xn_type xn_interfaces] in *.
    rewrite class_of_classname in Hc. injection Hc as <-.
    exists N, N'. split; [done|]. split; [done|]. split; [done|]. split; [done|].
    apply Forall2_same_length_lookup. split.
    { rewrite (Forall2_length _ _ _ Hdecl), (Forall2_length _ _ _ Hdecl'). done. }
    intros j r r' Hr Hr'.
    destruct (Forall2_lookup_l _ _ _ _ _ Hdecl Hr) as (d & Hd & HrI).
    apply holds_Some in HrI as (I & HI & Hk).
    apply (imported_same_iface h h' n' r r' d I HI Hk).
    + exact (Forall2_lookup_lr _ _ _ _ _ _ Hdecl' Hr' Hd).
    + assert (map (λ r0, from_option (interface_record h) (mkXInterface "" None None [])
                           (h_ifaces h !! r0)) (n_interfaces N) !! j
              = Some (interface_record h I)) as Hrec.
      { change (map ?g ?l) with (g <$> l).
        rewrite list_lookup_fmap, Hr. simpl. by rewrite HI. }
      exact (Forall2_lookup_lr _ _ _ _ _ _ Himp Hr' Hrec).
Qed.

Lemma load_of_save_same_graph_witness :
  wf_graph Examples.flow_copy Examples.file_copy ∧
  saveable Examples.flow_copy Examples.file_copy ∧
  plain_doc (document Examples.flow_copy Examples.file_copy) ∧
  reads_plain Examples.parsed_back ∧ Examples.can_open "copy.xml" = true ∧
  ∃ fs' f' h',
    Flow_save Examples.parsed_back Examples.can_open ∅ (Some "copy.xml")
      (Examples.flow_copy, Examples.file_copy)
      = (Ok fs', (set_modified false Examples.flow_copy, Examples.file_copy)) ∧
    Flow_load Examples.as_text fs' "copy.xml" Examples.file_copy = (Ok f', h') ∧
    same_graph Examples.flow_copy Examples.file_copy f' h'.
Proof.
  split; [apply (bool_decide_unpack _); vm_compute; reflexivity|].
  split; [apply (bool_decide_unpack _); vm_compute; reflexivity|].
  split; [apply (bool_decide_unpack _); vm_compute; reflexivity|].
  split; [exact parsed_back_plain|]. split; [reflexivity|].
  apply (load_of_save_same_graph Examples.as_text Examples.parsed_back
           Examples.can_open ∅ "copy.xml" Examples.flow_copy Examples.file_copy).
  - apply (bool_decide_unpack _). vm_compute. reflexivity.
  - apply (bool_decide_unpack _). vm_compute. reflexivity.
  - apply (bool_decide_unpack _). vm_compute. reflexivity.
  - exact parsed_back_plain.
  - reflexivity.
Defined.

(** C9, the claim as stated fails, in five flows, each saved to a file that
    can be written and read by a parser that reads a tab, a line feed and a
    carriage return in an attribute as a space.  In the first, the path of
    the [FileInputNode] was never set: the literal of this value input,
    which is not a slot, is [None]; [save] writes it as the empty string
    and the flow that [load] makes holds the empty string.  In the second,
    the id of the only node is blank: [load] gives the node it makes the id
    [Process], looks for the blank id and raises.  In the third, two nodes
    share an id: the link that left the second of them leaves the first in
    the flow that [load] makes.  In the fourth, the literal of the
    [ValueInputNode] has two lines, and comes back as one line.  In the
    fifth, the [cmd] of a [ProcessNode] is fed by a node that comes after it
    in the flow: [cmd] is not marked as a slot in the flow, and is in the
    flow that [load] makes. *)
Lemma load_of_save_differs :
  (∃ fs' f1 f' h',
     Flow_save Examples.parsed_back Examples.can_open ∅ (Some "flow.xml")
       (Examples.flow_copy, Examples.unfilled_copy)
       = (Ok fs', (f1, Examples.unfilled_copy)) ∧
     Flow_load Examples.as_text fs' "flow.xml" Examples.unfilled_copy = (Ok f', h') ∧
     nodes Examples.flow_copy = [0; 3] ∧ nodes f' = [6; 9] ∧
     (n_interfaces <$> h_nodes Examples.unfilled_copy !! 0) = Some [1; 2] ∧
     (n_interfaces <$> h_nodes h' !! 6) = Some [7; 8] ∧
     ((λ I, (i_name I, isInput I && isValue I && negb (i_slot I), i_value I))
        <$> h_ifaces Examples.unfilled_copy !! 1)
       = Some ("filepath", true, PNone) ∧
     ((λ I, (i_name I, isInput I && isValue I && negb (i_slot I), i_value I))
        <$> h_ifaces h' !! 7)
       = Some ("filepath", true, PStr "")) ∧
  (∃ fs' f1,
     Flow_save Examples.parsed_back Examples.can_open ∅ (Some "flow.xml")
       (Examples.flow_unnamed, Examples.unnamed_process)
       = (Ok fs', (f1, Examples.unnamed_process)) ∧
     (n_id <$> h_nodes Examples.unnamed_process !! 0) = Some "" ∧
     fst (Flow_load Examples.as_text fs' "flow.xml" Examples.unnamed_process)
       = Raise (Exception "Node with id not found.")) ∧
  (∃ fs' f1 f' h',
     Flow_save Examples.parsed_back Examples.can_open ∅ (Some "flow.xml")
       (Examples.flow_twins, Examples.twin_values)
       = (Ok fs', (f1, Examples.twin_values)) ∧
     Flow_load Examples.as_text fs' "flow.xml" Examples.twin_values = (Ok f', h') ∧
     nodes Examples.flow_twins = [0; 3; 6] ∧ nodes f' = [12; 15; 18] ∧
     (n_interfaces <$> h_nodes Examples.twin_values !! 0) = Some [1; 2] ∧
     (n_interfaces <$> h_nodes h' !! 12) = Some [13; 14] ∧
     (i_successors <$> h_ifaces Examples.twin_values !! 2) = Some [] ∧
     (i_successors <$> h_ifaces h' !! 14) = Some [22] ∧
     ¬ same_graph Examples.flow_twins Examples.twin_values f' h') ∧
  (∃ fs' f1 f' h',
     Flow_save Examples.parsed_back Examples.can_open ∅ (Some "flow.xml")
       (Examples.flow_lone, Examples.two_lines)
       = (Ok fs', (f1, Examples.two_lines)) ∧
     Flow_load Examples.as_text fs' "flow.xml" Examples.two_lines = (Ok f', h') ∧
     nodes Examples.flow_lone = [0] ∧ nodes f' = [3] ∧
     (n_interfaces <$> h_nodes Examples.two_lines !! 0) = Some [1; 2] ∧
     (n_interfaces <$> h_nodes h' !! 3) = Some [4; 5] ∧
     ((λ I, (i_name I, isInput I && isValue I && negb (i_slot I), i_value I))
        <$> h_ifaces Examples.two_lines !! 1)
       = Some ("value", true, PStr ("x" +:+ String (Ascii.ascii_of_nat 10) "y")) ∧
     ((λ I, (i_name I, isInput I && isValue I && negb (i_slot I), i_value I))
        <$> h_ifaces h' !! 4)
       = Some ("value", true, PStr "x y")) ∧
  (∃ fs' f1 f' h',
     Flow_save Examples.parsed_back Examples.can_open ∅ (Some "flow.xml")
       (Examples.flow_fed, Examples.fed_process)
       = (Ok fs', (f1, Examples.fed_process)) ∧
     Flow_load Examples.as_text fs' "flow.xml" Examples.fed_process = (Ok f', h') ∧
     nodes Examples.flow_fed = [0; 6] ∧ nodes f' = [9; 15] ∧
     (n_interfaces <$> h_nodes Examples.fed_process !! 0) = Some [1; 2; 3; 4; 5] ∧
     (n_interfaces <$> h_nodes h' !! 9) = Some [10; 11; 12; 13; 14] ∧
     ((λ I, (i_name I, i_slot I)) <$> h_ifaces Examples.fed_process !! 4)
       = Some ("cmd", false) ∧
     ((λ I, (i_name I, i_slot I)) <$> h_ifaces h' !! 13) = Some ("cmd", true)).
Proof.
  split; [|split; [|split; [|split]]].
  - do 4 eexists. split; [vm_compute; reflexivity|].
    split; [vm_compute; reflexivity|].
    repeat (split; [vm_compute; reflexivity|]). vm_compute. reflexivity.
  - do 2 eexists. split; [vm_compute; reflexivity|].
    split; vm_compute; reflexivity.
  - do 4 eexists. split; [vm_compute; reflexivity|].
    split; [vm_compute; reflexivity|].
    do 6 (split; [vm_compute; reflexivity|]).
    intros Hsame. unfold same_graph in Hsame.
    apply Forall2_cons_1 in Hsame as [(N & N' & HN & HN' & _ & _ & Hifs) _].
    vm_compute in HN. vm_compute in HN'.
    injection HN as <-. injection HN' as <-.
    cbn [n_interfaces] in Hifs.
    apply Forall2_cons_1 in Hifs as [_ Hifs].
    apply Forall2_cons_1 in Hifs as [(X & X' & HX & HX' & _ & Hlinks & _) _].
    vm_compute in HX. vm_compute in HX'.
    injection HX as <-. injection HX' as <-.
    vm_compute in Hlinks. discriminate Hlinks.
  - do 4 eexists. split; [vm_compute; reflexivity|].
    split; [vm_compute; reflexivity|].
    repeat (split; [vm_compute; reflexivity|]). vm_compute. reflexivity.
  - do 4 eexists. split; [vm_compute; reflexivity|].
    split; [vm_compute; reflexivity|].
    repeat (split; [vm_compute; reflexivity|]). vm_compute. reflexivity.
Qed.

(** ** The registry of a flow *)

Lemma node_ids_ok f h :
  Forall (λ n, is_Some (h_nodes h !! n)) (nodes f) →
  node_ids f h = (Ok (flow_ids f h), h).
Proof.
  intros Hall. unfold node_ids, flow_ids. apply map_M_ok.
  eapply Forall_impl; [exact Hall|]. intros n [N HN].
  rewrite (bind_ok _ _ _ _ _ (get_node_ok _ _ _ HN)). by rewrite HN.
Qed.

Lemma numbered_inj lbl j k : numbered lbl j = numbered lbl k → j = k.
Proof.
  unfold numbered. intros Heq.
  apply (inj (String.app lbl)) in Heq. apply (inj (String.app "-")) in Heq.
  by apply (inj pretty) in Heq.
Qed.

Lemma numbered_ne_label lbl k : numbered lbl k ≠ lbl.
Proof.
  unfold numbered. induction lbl as [|c lbl IH]; [done|].
  simpl. intros [= Heq]. by apply IH.
Qed.

(** The loop of [randomId] ends before its fuel does: the ids it has
    tried, [tried], are different ids of the flow. *)
Lemma randomId_loop_ok lbl ids : ∀ fuel tried id i,
  NoDup tried → (∀ s, s ∈ tried → s ∈ ids) → id ∉ tried →
  (∀ j, i ≤ j → numbered lbl j ∉ id :: tried) →
  List.length tried + fuel = List.length ids →
  ∃ r, randomId_loop fuel lbl ids id i = Some r ∧ (r ∉ ids) ∧
    (r = id ∨
     ∃ k, i ≤ k < i + fuel ∧ r = numbered lbl k ∧ id ∈ ids ∧
          ∀ j, i ≤ j < k → numbered lbl j ∈ ids).
Proof.
  induction fuel as [|fuel IH]; intros tried id i Hnd Hsub Hid Hnext Hlen.
  - assert (id ∉ ids) as Hfree.
    { intros Hin.
      assert (List.length (id :: tried) ≤ List.length ids) as Hle.
      { apply submseteq_length, NoDup_submseteq; [by constructor|].
        intros s [->|Hs]%elem_of_cons; auto. }
      simpl in Hle. lia. }
    exists id. cbn [randomId_loop]. rewrite bool_decide_eq_false_2 by done.
    split; [done|]. split; [done|by left].
  - cbn [randomId_loop]. case_bool_decide as Hin.
    + destruct (IH (id :: tried) (numbered lbl i) (S i)) as (r & Hr & Hfree & Hwhich).
      * by constructor.
      * intros s [->|Hs]%elem_of_cons; auto.
      * apply Hnext. lia.
      * intros j Hj Hmem. apply elem_of_cons in Hmem as [Heq|Hmem].
        -- apply numbered_inj in Heq. lia.
        -- revert Hmem. apply Hnext. lia.
      * simpl. lia.
      * exists r. split; [exact Hr|]. split; [exact Hfree|]. right.
        destruct Hwhich as [->|(k & Hk & -> & Hi & Hbelow)].
        -- exists i. split; [lia|]. split; [done|]. split; [done|].
           intros j Hj. lia.
        -- exists k. split; [lia|]. split; [done|]. split; [done|].
           intros j Hj. destruct (decide (j = i)) as [->|Hne]; [done|].
           apply Hbelow. lia.
    + exists id. split; [done|]. split; [done|by left].
Qed.

(** X1: [randomId] on a flow whose nodes exist returns, changes nothing,
    and its result is the id of no node of the flow: the label if no node
    bears it, otherwise the label followed by a dash and the least number
    from 2 on that makes an id no node bears; that number is at most one
    more than the number of nodes. *)
Theorem randomId_first_free (f : Flow) (h : Heap) (lbl : string) :
  Forall (λ n, is_Some (h_nodes h !! n)) (nodes f) →
  ∃ id, randomId f lbl h = (Ok id, h) ∧ (id ∉ flow_ids f h) ∧
    (id = lbl ∨
     ∃ k, 2 ≤ k ≤ List.length (nodes f) + 1 ∧ id = numbered lbl k ∧
          lbl ∈ flow_ids f h ∧
          ∀ j, 2 ≤ j < k → numbered lbl j ∈ flow_ids f h).
Proof.
  intros Hall. unfold randomId.
  rewrite (bind_ok _ _ _ _ _ (node_ids_ok f h Hall)).
  destruct (randomId_loop_ok lbl (flow_ids f h) (List.length (flow_ids f h)) [] lbl 2)
    as (r & Hr & Hfree & Hwhich).
  - constructor.
  - by intros s ?%elem_of_nil.
  - apply not_elem_of_nil.
  - intros j _ [Heq|Hmem%elem_of_nil]%elem_of_cons; [|done].
    by apply numbered_ne_label in Heq.
  - done.
  - exists r. fold (numbered lbl). rewrite Hr. split; [done|]. split; [done|].
    destruct Hwhich as [->|(k & Hk & -> & Hin & Hbelow)]; [by left|right].
    exists k. unfold flow_ids in Hk. rewrite length_map in Hk.
    split; [lia|done].
Qed.

Lemma randomId_first_free_witness :
  Forall (λ n, is_Some (h_nodes Examples.twin_values !! n)) (nodes Examples.flow_twins) ∧
  ∃ id, randomId Examples.flow_twins "v" Examples.twin_values
          = (Ok id, Examples.twin_values) ∧
    (id ∉ flow_ids Examples.flow_twins Examples.twin_values) ∧
    (id = "v" ∨
     ∃ k, 2 ≤ k ≤ List.length (nodes Examples.flow_twins) + 1 ∧ id = numbered "v" k ∧
          "v" ∈ flow_ids Examples.flow_twins Examples.twin_values ∧
          ∀ j, 2 ≤ j < k →
               numbered "v" j ∈ flow_ids Examples.flow_twins Examples.twin_values).
Proof.
  split; [apply (bool_decide_unpack _); vm_compute; reflexivity|].
  apply (randomId_first_free Examples.flow_twins Examples.twin_values "v").
  apply (bool_decide_unpack _). vm_compute. reflexivity.
Defined.

Lemma findNode_loop_spec h id : ∀ l,
  Forall (λ n, is_Some (h_nodes h !! n)) l →
  (∃ k n, l !! k = Some n ∧ from_option n_id "" (h_nodes h !! n) = id ∧
     (∀ j m, j < k → l !! j = Some m → from_option n_id "" (h_nodes h !! m) ≠ id) ∧
     findNode_loop l id h = (Ok n, h)) ∨
  ((∀ m, m ∈ l → from_option n_id "" (h_nodes h !! m) ≠ id) ∧
   findNode_loop l id h = (Raise (Exception "Node with id not found."), h)).
Proof.
  induction 1 as [|n l [N HN] Hl IH].
  - right. split; [by intros m ?%elem_of_nil|done].
  - cbn [findNode_loop]. rewrite (bind_ok _ _ _ _ _ (get_node_ok _ _ _ HN)).
    case_bool_decide as Hid.
    + left. exists 0, n. rewrite HN. simpl. split; [done|]. split; [done|].
      split; [intros j m Hj; lia|done].
    + destruct IH as [(k & m & Hk & Hm & Hfirst & Hrun)|[Hnone Hrun]].
      * left. exists (S k), m. split; [done|]. split; [done|]. split; [|done].
        intros [|j] m' Hj Hm'; simpl in Hm'.
        -- injection Hm' as <-. by rewrite HN.
        -- apply (Hfirst j); [lia|done].
      * right. split; [|done]. intros m [->|Hm]%elem_of_cons; [|by apply Hnone].
        by rewrite HN.
Qed.

Lemma findNode_loop_app h id l1 l2 :
  Forall (λ n, is_Some (h_nodes h !! n)) l1 →
  findNode_loop (l1 ++ l2) id h =
    if decide (id ∈ map (λ n, from_option n_id "" (h_nodes h !! n)) l1)
    then findNode_loop l1 id h else findNode_loop l2 id h.
Proof.
  induction 1 as [|n l [N HN] Hl IH].
  - cbn [app map]. destruct (decide _) as [Hin|]; [by apply elem_of_nil in Hin|done].
  - assert (∀ l', findNode_loop (n :: l') id h =
                  if bool_decide (n_id N = id) then (Ok n, h)
                  else findNode_loop l' id h) as Hhead.
    { intros l'. cbn [findNode_loop].
      rewrite (bind_ok _ _ _ _ _ (get_node_ok _ _ _ HN)). by case_bool_decide. }
    rewrite <- app_comm_cons, !Hhead. cbn [map]. rewrite HN. simpl.
    case_bool_decide as Hid.
    + rewrite decide_True; [done|]. apply elem_of_cons. by left.
    + rewrite IH. destruct (decide (id ∈ _)) as [Hin|Hout].
      * rewrite decide_True; [done|]. apply elem_of_cons. by right.
      * rewrite decide_False; [done|].
        intros [Heq|Hin]%elem_of_cons; [by apply Hid|by apply Hout].
Qed.

(** X2: [findNode] on a flow whose nodes exist changes nothing; it returns
    the first node of the flow, in order, that bears the id, and raises
    exactly when no node bears it. *)
Theorem findNode_first_match (f : Flow) (h : Heap) (id : string) :
  Forall (λ n, is_Some (h_nodes h !! n)) (nodes f) →
  (∀ n, findNode f id h = (Ok n, h) ↔
        ∃ k, nodes f !! k = Some n ∧ flow_ids f h !! k = Some id ∧
             ∀ j, j < k → flow_ids f h !! j ≠ Some id) ∧
  (findNode f id h = (Raise (Exception "Node with id not found."), h) ↔
   id ∉ flow_ids f h) ∧
  snd (findNode f id h) = h.
Proof.
  intros Hall. unfold findNode, flow_ids.
  assert (∀ k, map (λ n, from_option n_id "" (h_nodes h !! n)) (nodes f) !! k
               = (λ n, from_option n_id "" (h_nodes h !! n)) <$> nodes f !! k) as Hlk.
  { intros k. change (map ?g ?l) with (g <$> l). apply list_lookup_fmap. }
  destruct (findNode_loop_spec h id (nodes f) Hall)
    as [(k & n & Hk & Hn & Hfirst & Hrun)|[Hnone Hrun]]; rewrite Hrun.
  - split; [|split; [|done]].
    + intros n'. split.
      * intros [= <-]. exists k. rewrite Hlk, Hk. simpl. split; [done|].
        split; [by rewrite Hn|]. intros j Hj. rewrite Hlk.
        destruct (nodes f !! j) as [m|] eqn:Hm; [|done]. simpl.
        intros [= Heq]. by apply (Hfirst j m).
      * intros (k' & Hk' & Hid' & Hfirst'). rewrite Hlk, Hk' in Hid'.
        simpl in Hid'. injection Hid' as Hid'.
        destruct (Nat.lt_trichotomy k k') as [Hlt|[->|Hlt]].
        -- exfalso. apply (Hfirst' k Hlt). by rewrite Hlk, Hk, <- Hn.
        -- congruence.
        -- exfalso. by apply (Hfirst k' n').
    + split; [done|]. intros Hout. exfalso. apply Hout.
      apply list_elem_of_fmap. exists n. split; [done|].
      by apply list_elem_of_lookup_2 in Hk.
  - split; [|split; [|done]].
    + intros n. split; [done|]. intros (k & Hk & Hid & _).
      rewrite Hlk, Hk in Hid. simpl in Hid. injection Hid as Hid.
      exfalso. apply (Hnone n); [|done]. by apply list_elem_of_lookup_2 in Hk.
    + split; [|done]. intros _ (m & Hm & Hin)%list_elem_of_fmap.
      by apply (Hnone m).
Qed.

Lemma findNode_first_match_witness :
  Forall (λ n, is_Some (h_nodes Examples.twin_values !! n)) (nodes Examples.flow_twins) ∧
  (∀ n, findNode Examples.flow_twins "v" Examples.twin_values
          = (Ok n, Examples.twin_values) ↔
        ∃ k, nodes Examples.flow_twins !! k = Some n ∧
             flow_ids Examples.flow_twins Examples.twin_values !! k = Some "v" ∧
             ∀ j, j < k →
                  flow_ids Examples.flow_twins Examples.twin_values !! j ≠ Some "v") ∧
  (findNode Examples.flow_twins "v" Examples.twin_values
     = (Raise (Exception "Node with id not found."), Examples.twin_values) ↔
   "v" ∉ flow_ids Examples.flow_twins Examples.twin_values) ∧
  snd (findNode Examples.flow_twins "v" Examples.twin_values) = Examples.twin_values.
Proof.
  split; [apply (bool_decide_unpack _); vm_compute; reflexivity|].
  apply (findNode_first_match Examples.flow_twins Examples.twin_values "v").
  apply (bool_decide_unpack _). vm_compute. reflexivity.
Defined.

(** X3: adding a node to a flow never changes what [findNode] returns for
    an id that a node of the flow bears already; the new node is found by
    its id exactly when no node of the flow bore that id, and an id that
    neither bears is still not found. *)
Theorem addNode_findNode (f : Flow) (h : Heap) (n : nat) (N : Node) (id : string) :
  Forall (λ m, is_Some (h_nodes h !! m)) (nodes f) → h_nodes h !! n = Some N →
  ∃ f', addNode n (f, h) = (Ok tt, (f', h)) ∧
    (∀ m, findNode f id h = (Ok m, h) → findNode f' id h = (Ok m, h)) ∧
    (id ∉ flow_ids f h → n_id N = id → findNode f' id h = (Ok n, h)) ∧
    (id ∉ flow_ids f h → n_id N ≠ id →
     findNode f' id h = (Raise (Exception "Node with id not found."), h)).
Proof.
  intros Hall HN.
  exists (set_nodes (nodes f ++ [n]) (set_modified true f)). split; [done|].
  unfold findNode. cbn [set_nodes set_modified nodes].
  rewrite (findNode_loop_app h id (nodes f) [n] Hall). fold (flow_ids f h).
  assert (findNode_loop [n] id h =
          if bool_decide (n_id N = id) then (Ok n, h)
          else (Raise (Exception "Node with id not found."), h)) as Hone.
  { cbn [findNode_loop]. rewrite (bind_ok _ _ _ _ _ (get_node_ok _ _ _ HN)).
    by case_bool_decide. }
  split; [|split].
  - intros m Hm. destruct (decide (id ∈ flow_ids f h)) as [Hin|Hout]; [done|].
    exfalso. destruct (findNode_loop_spec h id (nodes f) Hall)
      as [(k & m' & Hk & Hid & _)|[_ Hrun]]; [|congruence].
    apply Hout. apply list_elem_of_fmap. exists m'. split; [done|].
    by apply list_elem_of_lookup_2 in Hk.
  - intros Hout Hid. rewrite decide_False by done. rewrite Hone.
    by rewrite bool_decide_eq_true_2.
  - intros Hout Hid. rewrite decide_False by done. rewrite Hone.
    by rewrite bool_decide_eq_false_2.
Qed.

Lemma addNode_findNode_witness :
  Forall (λ m, is_Some (h_nodes Examples.two_foo !! m)) (nodes Examples.flow_foo) ∧
  h_nodes Examples.two_foo !! 1 = Some (mkNode CNode "foo" [] [] ∅ false false) ∧
  ∃ f', addNode 1 (Examples.flow_foo, Examples.two_foo)
          = (Ok tt, (f', Examples.two_foo)) ∧
    (∀ m, findNode Examples.flow_foo "foo" Examples.two_foo = (Ok m, Examples.two_foo) →
          findNode f' "foo" Examples.two_foo = (Ok m, Examples.two_foo)) ∧
    ("foo" ∉ flow_ids Examples.flow_foo Examples.two_foo → "foo" = "foo" →
     findNode f' "foo" Examples.two_foo = (Ok 1, Examples.two_foo)) ∧
    ("foo" ∉ flow_ids Examples.flow_foo Examples.two_foo → "foo" ≠ "foo" →
     findNode f' "foo" Examples.two_foo
       = (Raise (Exception "Node with id not found."), Examples.two_foo)).
Proof.
  split; [apply (bool_decide_unpack _); vm_compute; reflexivity|].
  split; [vm_compute; reflexivity|].
  apply (addNode_findNode Examples.flow_foo Examples.two_foo 1
           (mkNode CNode "foo" [] [] ∅ false false) "foo").
  - apply (bool_decide_unpack _). vm_compute. reflexivity.
  - vm_compute. reflexivity.
Defined.

Lemma list_remove_None x l : list_remove x l = None ↔ x ∉ l.
Proof.
  induction l as [|y l IH]; simpl.
  - split; [intros _; apply not_elem_of_nil|done].
  - case_bool_decide as Hy.
    + split; [done|]. intros Hout. exfalso. apply Hout. subst. apply elem_of_cons. by left.
    + destruct (list_remove x l) as [r|].
      * split; [done|]. intros Hout. exfalso.
        assert (x ∉ l) as Hl by (intros ?; apply Hout, elem_of_cons; by right).
        apply IH in Hl. done.
      * split; [|done]. intros _ [->|Hin]%elem_of_cons; [done|].
        by apply (proj1 IH).
Qed.

Lemma list_remove_first x l1 l2 :
  x ∉ l1 → list_remove x (l1 ++ x :: l2) = Some (l1 ++ l2).
Proof.
  induction l1 as [|y l1 IH]; intros Hout; simpl.
  - by rewrite bool_decide_eq_true_2.
  - apply not_elem_of_cons in Hout as [Hne Hout].
    rewrite bool_decide_eq_false_2 by done. by rewrite (IH Hout).
Qed.

(** X4: [removeNode] marks the flow as modified before anything else, and
    never touches the object graph.  Given a node that is not in the flow,
    it raises [ValueError] and the flow, marked as modified, keeps its
    nodes; otherwise it takes out the first occurrence of the node and keeps
    the others in their order. *)
Theorem removeNode_first_occurrence (f : Flow) (h : Heap) (n : nat) :
  (n ∉ nodes f →
   removeNode n (f, h) = (Raise ValueError, (set_modified true f, h))) ∧
  (∀ l1 l2, nodes f = l1 ++ n :: l2 → n ∉ l1 →
   removeNode n (f, h)
   = (Ok tt, (set_nodes (l1 ++ l2) (set_modified true f), h))).
Proof.
  split.
  - intros Hout%list_remove_None. unfold removeNode.
    rewrite (bind_ok _ _ _ tt (set_modified true f, h)) by done.
    rewrite (bind_ok _ _ _ (set_modified true f, h) (set_modified true f, h)) by done.
    cbn [fst set_modified nodes]. by rewrite Hout.
  - intros l1 l2 Hnodes Hout. unfold removeNode.
    rewrite (bind_ok _ _ _ tt (set_modified true f, h)) by done.
    rewrite (bind_ok _ _ _ (set_modified true f, h) (set_modified true f, h)) by done.
    cbn [fst set_modified nodes]. rewrite Hnodes.
    by rewrite (list_remove_first n l1 l2 Hout).
Qed.

(** X5: a node that was not in the flow, added and removed again, leaves
    the flow with the nodes it had, in their order, and marked as
    modified. *)
Theorem addNode_removeNode (f : Flow) (h : Heap) (n : nat) :
  n ∉ nodes f →
  (run! addNode n; removeNode n) (f, h) = (Ok tt, (set_modified true f, h)).
Proof.
  intros Hout.
  rewrite (bind_ok _ _ _ tt (set_nodes (nodes f ++ [n]) (set_modified true f), h))
    by done.
  unfold removeNode.
  rewrite (bind_ok _ _ _ tt (set_nodes (nodes f ++ [n]) (set_modified true f), h))
    by done.
  rewrite (bind_ok _ _ _ (set_nodes (nodes f ++ [n]) (set_modified true f), h)
             (set_nodes (nodes f ++ [n]) (set_modified true f), h)) by done.
  cbn [fst set_nodes set_modified nodes].
  rewrite (list_remove_first n (nodes f) [] Hout), app_nil_r.
  by destruct f.
Qed.

Lemma addNode_removeNode_witness :
  (1 ∉ nodes Examples.flow_foo) ∧
  (run! addNode 1; removeNode 1) (Examples.flow_foo, Examples.two_foo)
  = (Ok tt, (set_modified true Examples.flow_foo, Examples.two_foo)).
Proof.
  split; [apply (bool_decide_unpack _); vm_compute; reflexivity|].
  apply (addNode_removeNode Examples.flow_foo Examples.two_foo 1).
  apply (bool_decide_unpack _). vm_compute. reflexivity.
Defined.

(** ** Connecting and disconnecting *)

(** X6: [canConnectTo] gives the same answer in both directions. *)
Theorem canConnectTo_symmetric (h : Heap) (a b : nat) :
  is_Some (h_ifaces h !! a) → is_Some (h_ifaces h !! b) →
  canConnectTo a b h = canConnectTo b a h.
Proof.
  intros [A HA] [B HB].
  rewrite (canConnectTo_spec h a b A B HA HB), (canConnectTo_spec h b a B A HB HA).
  do 2 f_equal. f_equal.
  - f_equal. f_equal; apply bool_decide_ext; split; congruence.
  - apply bool_decide_ext. split; intros [H1 H2]; split; congruence.
Qed.

Lemma canConnectTo_symmetric_witness :
  is_Some (h_ifaces Examples.value_and_process !! 2) ∧
  is_Some (h_ifaces Examples.value_and_process !! 7) ∧
  canConnectTo 2 7 Examples.value_and_process
  = canConnectTo 7 2 Examples.value_and_process.
Proof.
  split; [apply (bool_decide_unpack _); vm_compute; reflexivity|].
  split; [apply (bool_decide_unpack _); vm_compute; reflexivity|].
  apply (canConnectTo_symmetric Examples.value_and_process 2 7);
    apply (bool_decide_unpack _); vm_compute; reflexivity.
Defined.

(** [addSuccessor] raises exactly when [canConnectTo] says no. *)
Lemma addSuccessor_refused h a b A B :
  h_ifaces h !! a = Some A → h_ifaces h !! b = Some B →
  (a = b ∨ i_node A = i_node B ∨ i_class A ≠ i_class B ∨ i_class A = CInterface) →
  addSuccessor a b h = (Raise (Exception "Cannot connect slots"), h).
Proof.
  intros HA HB Hno. unfold addSuccessor.
  rewrite (bind_ok _ _ _ _ _ (canConnectTo_spec h a b A B HA HB)).
  destruct Hno as [Hno|[Hno|[Hno|Hno]]].
  - by rewrite (bool_decide_eq_true_2 (a = b)).
  - rewrite (bool_decide_eq_true_2 (i_node A = i_node B)) by done.
    by rewrite orb_true_r.
  - rewrite (bool_decide_eq_false_2 (_ ∧ _)) by (by intros [? _]).
    by rewrite andb_false_r.
  - rewrite (bool_decide_eq_false_2 (_ ∧ _)) by (by intros [_ ?]).
    by rewrite andb_false_r.
Qed.

(** X7: [addSuccessor] raises, and then changes nothing, exactly when the
    two interfaces are one, belong to one node, or are not both values,
    both streams or both lists; otherwise it returns and has appended the
    target to the successors of the source and the source to the
    predecessors of the target. *)
Theorem addSuccessor_refuses_iff (h : Heap) (a b : nat) (A B : Interface) :
  h_ifaces h !! a = Some A → h_ifaces h !! b = Some B →
  (addSuccessor a b h = (Raise (Exception "Cannot connect slots"), h) ↔
   a = b ∨ i_node A = i_node B ∨ i_class A ≠ i_class B ∨ i_class A = CInterface) ∧
  (¬ (a = b ∨ i_node A = i_node B ∨ i_class A ≠ i_class B ∨ i_class A = CInterface) →
   addSuccessor a b h =
     (Ok tt, mkHeap (<[b := set_predecessors (i_predecessors B ++ [a]) B]>
                       (<[a := set_successors (i_successors A ++ [b]) A]> (h_ifaces h)))
                    (h_nodes h) (h_next h) (h_log h))).
Proof.
  intros HA HB.
  assert (¬ (a = b ∨ i_node A = i_node B ∨ i_class A ≠ i_class B ∨ i_class A = CInterface) →
          addSuccessor a b h =
            (Ok tt, mkHeap (<[b := set_predecessors (i_predecessors B ++ [a]) B]>
                              (<[a := set_successors (i_successors A ++ [b]) A]> (h_ifaces h)))
                           (h_nodes h) (h_next h) (h_log h))) as Hok.
  { intros Hyes. apply (addSuccessor_ok h a b A B HA HB).
    - intros ?. apply Hyes. by left.
    - intros ?. apply Hyes. right. by left.
    - destruct (decide (i_class A = i_class B)); [done|].
      exfalso. apply Hyes. right. right. by left.
    - intros ?. apply Hyes. by repeat right. }
  split; [|exact Hok]. split.
  - intros Hraise.
    destruct (decide (a = b ∨ i_node A = i_node B ∨ i_class A ≠ i_class B ∨
                      i_class A = CInterface)) as [Hno|Hyes]; [done|].
    rewrite (Hok Hyes) in Hraise. done.
  - by apply addSuccessor_refused.
Qed.

Lemma addSuccessor_refuses_iff_witness :
  ∃ A B,
    h_ifaces Examples.value_and_process !! 2 = Some A ∧
    h_ifaces Examples.value_and_process !! 4 = Some B ∧
    (addSuccessor 2 4 Examples.value_and_process
       = (Raise (Exception "Cannot connect slots"), Examples.value_and_process) ↔
     2 = 4 ∨ i_node A = i_node B ∨ i_class A ≠ i_class B ∨ i_class A = CInterface) ∧
    (¬ (2 = 4 ∨ i_node A = i_node B ∨ i_class A ≠ i_class B ∨ i_class A = CInterface) →
     addSuccessor 2 4 Examples.value_and_process =
       (Ok tt, mkHeap (<[4 := set_predecessors (i_predecessors B ++ [2]) B]>
                         (<[2 := set_successors (i_successors A ++ [4]) A]>
                            (h_ifaces Examples.value_and_process)))
                      (h_nodes Examples.value_and_process)
                      (h_next Examples.value_and_process)
                      (h_log Examples.value_and_process))).
Proof.
  do 2 eexists. split; [vm_compute; reflexivity|]. split; [vm_compute; reflexivity|].
  apply (addSuccessor_refuses_iff Examples.value_and_process 2 4);
    vm_compute; reflexivity.
Defined.

(** X8: a connection that [addSuccessor] makes between two interfaces that
    were not connected, undone by [removeSuccessor], leaves the object graph
    as it was. *)
Theorem addSuccessor_removeSuccessor (h : Heap) (a b : nat) (A B : Interface) :
  h_ifaces h !! a = Some A → h_ifaces h !! b = Some B →
  a ≠ b → i_node A ≠ i_node B → i_class A = i_class B → i_class A ≠ CInterface →
  b ∉ i_successors A → a ∉ i_predecessors B →
  (run! addSuccessor a b; removeSuccessor a b) h = (Ok tt, h).
Proof.
  intros HA HB Hab Hnodes Hclass Hbase Hsucc Hpred.
  rewrite (bind_ok _ _ _ _ _ (addSuccessor_ok h a b A B HA HB Hab Hnodes Hclass Hbase)).
  set (A1 := set_successors (i_successors A ++ [b]) A).
  set (B1 := set_predecessors (i_predecessors B ++ [a]) B).
  set (h1 := mkHeap (<[b := B1]> (<[a := A1]> (h_ifaces h))) (h_nodes h) (h_next h) (h_log h)).
  assert (h_ifaces h1 !! a = Some A1) as HA1.
  { cbn [h1 h_ifaces]. rewrite lookup_insert_ne by done. apply lookup_insert_eq. }
  unfold removeSuccessor. rewrite (bind_ok _ _ _ _ _ (get_iface_ok _ _ _ HA1)).
  cbn [A1 set_successors i_successors].
  rewrite (list_remove_first b (i_successors A) [] Hsucc), app_nil_r.
  rewrite (bind_ok _ _ _ _ _ (upd_iface_ok h1 a _ A1 HA1)).
  set (h2 := mkHeap (<[a := set_successors (i_successors A) A1]> (h_ifaces h1))
               (h_nodes h1) (h_next h1) (h_log h1)).
  assert (h_ifaces h2 !! b = Some B1) as HB2.
  { cbn [h2 h1 h_ifaces]. rewrite lookup_insert_ne by done. apply lookup_insert_eq. }
  rewrite (bind_ok _ _ _ _ _ (get_iface_ok _ _ _ HB2)).
  cbn [B1 set_predecessors i_predecessors].
  rewrite (list_remove_first a (i_predecessors B) [] Hpred), app_nil_r.
  rewrite (upd_iface_ok h2 b _ B1 HB2). f_equal.
  destruct h as [ifs nds nx lg]. cbn in *. f_equal.
  apply map_eq. intros i.
  destruct (decide (i = b)) as [->|Hib].
  { rewrite lookup_insert_eq, HB. by destruct B. }
  rewrite lookup_insert_ne by done.
  destruct (decide (i = a)) as [->|Hia].
  { rewrite lookup_insert_eq, HA. by destruct A. }
  by rewrite !lookup_insert_ne by done.
Qed.

Lemma addSuccessor_removeSuccessor_witness :
  ∃ A B,
    h_ifaces Examples.value_and_process !! 2 = Some A ∧
    h_ifaces Examples.value_and_process !! 7 = Some B ∧
    2 ≠ 7 ∧ i_node A ≠ i_node B ∧ i_class A = i_class B ∧ i_class A ≠ CInterface ∧
    (7 ∉ i_successors A) ∧ (2 ∉ i_predecessors B) ∧
    (run! addSuccessor 2 7; removeSuccessor 2 7) Examples.value_and_process
    = (Ok tt, Examples.value_and_process).
Proof.
  do 2 eexists. split; [vm_compute; reflexivity|]. split; [vm_compute; reflexivity|].
  split; [done|]. split; [done|]. split; [done|]. split; [done|].
  split; [apply not_elem_of_nil|]. split; [apply not_elem_of_nil|].
  eapply (addSuccessor_removeSuccessor Examples.value_and_process 2 7).
  - vm_compute. reflexivity.
  - vm_compute. reflexivity.
  - done.
  - done.
  - done.
  - done.
  - apply not_elem_of_nil.
  - apply not_elem_of_nil.
Defined.

(** X9: [removeSuccessor] between interfaces that are not connected raises
    [ValueError]; when the target is not among the successors of the source
    nothing has changed, but when it is and the source is not among the
    predecessors of the target, the target has already been taken out of
    the successors of the source. *)
Theorem removeSuccessor_unconnected (h : Heap) (a b : nat) (A : Interface) :
  h_ifaces h !! a = Some A →
  (b ∉ i_successors A → removeSuccessor a b h = (Raise ValueError, h)) ∧
  (∀ B l1 l2, h_ifaces h !! b = Some B → a ≠ b →
     i_successors A = l1 ++ b :: l2 → b ∉ l1 → a ∉ i_predecessors B →
     removeSuccessor a b h =
       (Raise ValueError,
        mkHeap (<[a := set_successors (l1 ++ l2) A]> (h_ifaces h))
          (h_nodes h) (h_next h) (h_log h))).
Proof.
  intros HA. split.
  - intros Hout%list_remove_None. unfold removeSuccessor.
    rewrite (bind_ok _ _ _ _ _ (get_iface_ok _ _ _ HA)). by rewrite Hout.
  - intros B l1 l2 HB Hab Hsucc Hl1 Hout%list_remove_None. unfold removeSuccessor.
    rewrite (bind_ok _ _ _ _ _ (get_iface_ok _ _ _ HA)).
    rewrite Hsucc, (list_remove_first b l1 l2 Hl1).
    rewrite (bind_ok _ _ _ _ _ (upd_iface_ok h a _ A HA)).
    set (h1 := mkHeap (<[a := set_successors (l1 ++ l2) A]> (h_ifaces h))
                 (h_nodes h) (h_next h) (h_log h)).
    assert (h_ifaces h1 !! b = Some B) as HB1.
    { cbn [h1 h_ifaces]. by rewrite lookup_insert_ne. }
    rewrite (bind_ok _ _ _ _ _ (get_iface_ok _ _ _ HB1)). by rewrite Hout.
Qed.

Lemma removeSuccessor_unconnected_witness :
  ∃ A, h_ifaces Examples.value_and_process !! 2 = Some A ∧
  (7 ∉ i_successors A →
   removeSuccessor 2 7 Examples.value_and_process
   = (Raise ValueError, Examples.value_and_process)) ∧
  (∀ B l1 l2, h_ifaces Examples.value_and_process !! 7 = Some B → 2 ≠ 7 →
     i_successors A = l1 ++ 7 :: l2 → 7 ∉ l1 → 2 ∉ i_predecessors B →
     removeSuccessor 2 7 Examples.value_and_process =
       (Raise ValueError,
        mkHeap (<[2 := set_successors (l1 ++ l2) A]> (h_ifaces Examples.value_and_process))
          (h_nodes Examples.value_and_process) (h_next Examples.value_and_process)
          (h_log Examples.value_and_process))).
Proof.
  eexists. split; [vm_compute; reflexivity|].
  apply (removeSuccessor_unconnected Examples.value_and_process 2 7).
  vm_compute. reflexivity.
Defined.

(** An update of the links that only adds: what held of an interface by
    its node, its class and the members of its links still holds. *)
Lemma holds_fmap {A} (P Q : A → Prop) (g : A → A) o :
  (∀ a, P a → Q (g a)) → holds P o → holds Q (g <$> o).
Proof. intros HPQ. destruct o; simpl; auto. Qed.

(** X10: a connection that [addSuccessor] makes on a well-formed object
    graph leaves it well formed: each interface belongs to the node that
    lists it, and the successor and predecessor lists mirror each other. *)
Theorem addSuccessor_keeps_wf (f : Flow) (h h' : Heap) (a b : nat) :
  wf_graph f h → addSuccessor a b h = (Ok tt, h') → wf_graph f h'.
Proof.
  intros Hwf Hrun.
  destruct (h_ifaces h !! a) as [A|] eqn:HA.
  2: { unfold addSuccessor, canConnectTo, bind, get_iface in Hrun.
       by rewrite HA in Hrun. }
  destruct (h_ifaces h !! b) as [B|] eqn:HB.
  2: { unfold addSuccessor, canConnectTo, bind, get_iface in Hrun.
       by rewrite HA, HB in Hrun. }
  destruct (decide (a = b ∨ i_node A = i_node B ∨ i_class A ≠ i_class B ∨
                    i_class A = CInterface)) as [Hno|Hyes].
  { by rewrite (addSuccessor_refused h a b A B HA HB Hno) in Hrun. }
  assert (a ≠ b) as Hab by (intros ?; apply Hyes; by left).
  assert (i_class A = i_class B) as Hclass.
  { destruct (decide (i_class A = i_class B)); [done|].
    exfalso. apply Hyes. right. right. by left. }
  rewrite (addSuccessor_ok h a b A B HA HB) in Hrun; [|done|..].
  2: { intros ?. apply Hyes. right. by left. }
  2: { done. }
  2: { intros ?. apply Hyes. by repeat right. }
  injection Hrun as <-.
  set (u := λ (x : nat) (X : Interface),
              if decide (x = b) then set_predecessors (i_predecessors X ++ [a]) X
              else if decide (x = a) then set_successors (i_successors X ++ [b]) X
              else X).
  assert (∀ x, <[b := set_predecessors (i_predecessors B ++ [a]) B]>
                 (<[a := set_successors (i_successors A ++ [b]) A]> (h_ifaces h)) !! x
               = u x <$> h_ifaces h !! x) as Hlk.
  { intros x. unfold u. destruct (decide (x = b)) as [->|Hxb].
    - by rewrite lookup_insert_eq, HB.
    - rewrite lookup_insert_ne by done. destruct (decide (x = a)) as [->|Hxa].
      + by rewrite lookup_insert_eq, HA.
      + rewrite lookup_insert_ne by done. by destruct (h_ifaces h !! x). }
  assert (∀ x X, i_node (u x X) = i_node X ∧ i_class (u x X) = i_class X) as Hsame.
  { intros x X. unfold u. by repeat case_decide. }
  assert (∀ x X y, y ∈ i_successors X → y ∈ i_successors (u x X)) as Hsucc.
  { intros x X y Hy. unfold u. repeat case_decide; simpl; try done.
    apply elem_of_app. by left. }
  assert (∀ x X y, y ∈ i_predecessors X → y ∈ i_predecessors (u x X)) as Hpred.
  { intros x X y Hy. unfold u. repeat case_decide; simpl; try done.
    apply elem_of_app. by left. }
  destruct Hwf as (W1 & W2 & W3 & W4 & W5).
  split; [exact W1|]. split; [|split; [|split]]; cbn [h_ifaces h_nodes].
  - intros n N HN. specialize (W2 n N HN). simpl in *.
    eapply Forall_impl; [exact W2|]. intros x Hx. rewrite Hlk.
    eapply holds_fmap; [|exact Hx]. intros X <-. apply Hsame.
  - intros x X'. rewrite Hlk. intros HX'.
    destruct (h_ifaces h !! x) as [X|] eqn:HX; [|done].
    injection HX' as <-. specialize (W3 x X HX). simpl in *.
    by rewrite (proj1 (Hsame x X)).
  - intros x X'. rewrite Hlk. intros HX'.
    destruct (h_ifaces h !! x) as [X|] eqn:HX; [|done].
    injection HX' as <-. specialize (W4 x X HX). simpl in *.
    assert (Forall (λ y, holds (λ Y, x ∈ i_predecessors Y ∧
                                     (i_class Y = CInterfaceStream →
                                      i_class (u x X) = CInterfaceStream))
                           (u y <$> h_ifaces h !! y)) (i_successors X)) as Hold.
    { eapply Forall_impl; [exact W4|]. intros y Hy.
      eapply holds_fmap; [|exact Hy]. intros Y [Hin Hcl]. split; [by apply Hpred|].
      rewrite (proj2 (Hsame y Y)), (proj2 (Hsame x X)). exact Hcl. }
    assert (Forall (λ y, holds (λ Y, x ∈ i_predecessors Y ∧
                                     (i_class Y = CInterfaceStream →
                                      i_class (u x X) = CInterfaceStream))
                           (<[b := set_predecessors (i_predecessors B ++ [a]) B]>
                              (<[a := set_successors (i_successors A ++ [b]) A]>
                                 (h_ifaces h)) !! y)) (i_successors X)) as Hold'.
    { eapply Forall_impl; [exact Hold|]. intros y Hy. by rewrite Hlk. }
    assert (i_successors (u x X) =
            if decide (x = b) then i_successors X
            else if decide (x = a) then i_successors X ++ [b]
            else i_successors X) as ->.
    { unfold u. by repeat case_decide. }
    destruct (decide (x = b)) as [Heq|Hxb]; [exact Hold'|].
    destruct (decide (x = a)) as [->|Hxa]; [|exact Hold'].
    apply Forall_app. split; [exact Hold'|].
    constructor; [|constructor]. rewrite lookup_insert_eq. simpl.
    split; [apply elem_of_app; right; by apply list_elem_of_singleton|].
    rewrite (proj2 (Hsame a X)). assert (X = A) as -> by congruence. congruence.
  - intros y Y'. rewrite Hlk. intros HY'.
    destruct (h_ifaces h !! y) as [Y|] eqn:HY; [|done].
    injection HY' as <-. specialize (W5 y Y HY). simpl in *.
    assert (Forall (λ x, holds (λ X, y ∈ i_successors X)
                           (<[b := set_predecessors (i_predecessors B ++ [a]) B]>
                              (<[a := set_successors (i_successors A ++ [b]) A]>
                                 (h_ifaces h)) !! x)) (i_predecessors Y)) as Hold.
    { eapply Forall_impl; [exact W5|]. intros x Hx. rewrite Hlk.
      eapply holds_fmap; [|exact Hx]. intros X Hin. by apply Hsucc. }
    unfold u. destruct (decide (y = b)) as [->|Hyb].
    + cbn [set_predecessors i_predecessors]. apply Forall_app. split; [exact Hold|].
      constructor; [|constructor].
      rewrite lookup_insert_ne by done. rewrite lookup_insert_eq. simpl.
      apply elem_of_app. right. by apply list_elem_of_singleton.
    + destruct (decide (y = a)); exact Hold.
Qed.

Lemma addSuccessor_keeps_wf_witness :
  wf_graph Examples.flow_copy Examples.unfilled_copy ∧
  ∃ h', addSuccessor 2 5 Examples.unfilled_copy = (Ok tt, h') ∧
        wf_graph Examples.flow_copy h'.
Proof.
  split; [apply (bool_decide_unpack _); vm_compute; reflexivity|].
  eexists. split; [vm_compute; reflexivity|].
  eapply (addSuccessor_keeps_wf Examples.flow_copy Examples.unfilled_copy _ 2 5).
  - apply (bool_decide_unpack _). vm_compute. reflexivity.
  - vm_compute. reflexivity.
Defined.

(** ** The interfaces and the neighbours of a node *)

Lemma inputInterfaces_ok f h n N :
  wf_graph f h → h_nodes h !! n = Some N →
  inputInterfaces n h
  = (Ok (filter (λ x, holds (λ X, isInput X = true) (h_ifaces h !! x)) (n_interfaces N)), h).
Proof.
  intros Hwf HN. unfold inputInterfaces.
  rewrite (bind_ok _ _ _ _ _ (get_node_ok _ _ _ HN)).
  by rewrite (filter_ifaces_ok _ _ _ (wf_interfaces_exist _ _ _ _ Hwf HN)).
Qed.

Lemma inputs_outputs_permutation h (l : list nat) :
  Forall (λ x, is_Some (h_ifaces h !! x)) l →
  filter (λ x, holds (λ X, isInput X = true) (h_ifaces h !! x)) l ++
  filter (λ x, holds (λ X, isInput X = false) (h_ifaces h !! x)) l ≡ₚ l.
Proof.
  induction 1 as [|x l [X HX] Hl IH]; [done|].
  rewrite !filter_cons, HX. simpl. destruct (isInput X) eqn:Hin.
  - rewrite decide_True by done. rewrite decide_False by done.
    simpl. by rewrite IH.
  - rewrite decide_False by done. rewrite decide_True by done.
    rewrite <- Permutation_middle. by rewrite IH.
Qed.

(** X11: on a well-formed object graph the input and the output
    interfaces of a node divide its interfaces: each interface is in one of
    the two lists and in no more than one, in the order of the node; the
    input slots are among the inputs, in their order.  None of the three
    changes anything. *)
Theorem interfaces_divided (f : Flow) (h : Heap) (n : nat) (N : Node) :
  wf_graph f h → h_nodes h !! n = Some N →
  ∃ ins outs slots,
    inputInterfaces n h = (Ok ins, h) ∧ outputInterfaces n h = (Ok outs, h) ∧
    inputSlotInterfaces n h = (Ok slots, h) ∧
    ins ++ outs ≡ₚ n_interfaces N ∧
    sublist ins (n_interfaces N) ∧ sublist outs (n_interfaces N) ∧
    sublist slots ins ∧ (∀ x, x ∈ ins → x ∉ outs).
Proof.
  intros Hwf HN. eexists _, _, _.
  split; [by apply (inputInterfaces_ok f)|].
  split; [by apply (outputInterfaces_ok f)|].
  split; [by apply (inputSlotInterfaces_ok f)|].
  split; [|split; [|split; [|split]]].
  - apply inputs_outputs_permutation. by apply (wf_interfaces_exist f h n).
  - apply sublist_filter.
  - apply sublist_filter.
  - unfold slots_of. rewrite <- filter_holds_and. apply sublist_filter.
  - intros x [Hin _]%list_elem_of_filter [Hout _]%list_elem_of_filter.
    destruct (h_ifaces h !! x); simpl in *; congruence.
Qed.

Lemma interfaces_divided_witness :
  wf_graph Examples.flow_copy Examples.file_copy ∧
  ∃ N, h_nodes Examples.file_copy !! 3 = Some N ∧
  ∃ ins outs slots,
    inputInterfaces 3 Examples.file_copy = (Ok ins, Examples.file_copy) ∧
    outputInterfaces 3 Examples.file_copy = (Ok outs, Examples.file_copy) ∧
    inputSlotInterfaces 3 Examples.file_copy = (Ok slots, Examples.file_copy) ∧
    ins ++ outs ≡ₚ n_interfaces N ∧
    sublist ins (n_interfaces N) ∧ sublist outs (n_interfaces N) ∧
    sublist slots ins ∧ (∀ x, x ∈ ins → x ∉ outs).
Proof.
  split; [apply (bool_decide_unpack _); vm_compute; reflexivity|].
  eexists. split; [vm_compute; reflexivity|].
  apply (interfaces_divided Examples.flow_copy Examples.file_copy 3).
  - apply (bool_decide_unpack _). vm_compute. reflexivity.
  - vm_compute. reflexivity.
Defined.

Lemma owners_dedup_spec h rs : ∀ acc,
  Forall (λ x, is_Some (h_ifaces h !! x)) rs →
  ∃ l, owners_dedup rs acc h = (Ok l, h) ∧ (NoDup acc → NoDup l) ∧
       ∀ m, m ∈ l ↔ m ∈ acc ∨ ∃ r R, r ∈ rs ∧ h_ifaces h !! r = Some R ∧ i_node R = m.
Proof.
  intros acc Hrs. revert acc. induction Hrs as [|r rs [R HR] Hrs IH]; intros acc.
  - exists acc. split; [done|]. split; [done|]. intros m. split; [by left|].
    intros [?|(r & R & Hr%elem_of_nil & _)]; done.
  - cbn [owners_dedup]. rewrite (bind_ok _ _ _ _ _ (get_iface_ok _ _ _ HR)).
    set (acc' := if bool_decide (i_node R ∈ acc) then acc else (acc ++ [i_node R])%list).
    destruct (IH acc') as (l & Hl & Hnd & Hmem).
    exists l. split; [exact Hl|]. split.
    + intros Hacc. apply Hnd. unfold acc'. case_bool_decide as Hin; [done|].
      apply NoDup_app. split; [done|]. split; [|apply NoDup_singleton].
      intros m Hm Heq%list_elem_of_singleton. by subst m.
    + intros m. rewrite Hmem. unfold acc'. split.
      * intros [Hm|(r' & R' & Hr' & HR' & Hown)].
        -- case_bool_decide as Hin; [by left|].
           apply elem_of_app in Hm as [Hm|Heq%list_elem_of_singleton]; [by left|].
           subst m.
           right. exists r, R. split; [apply elem_of_cons; by left|done].
        -- right. exists r', R'. split; [apply elem_of_cons; by right|done].
      * intros [Hm|(r' & R' & [->|Hr']%elem_of_cons & HR' & Hown)].
        -- left. case_bool_decide; [done|]. apply elem_of_app. by left.
        -- left. assert (R' = R) as -> by congruence. rewrite <- Hown.
           case_bool_decide as Hin; [done|]. apply elem_of_app. right.
           by apply list_elem_of_singleton.
        -- right. by exists r', R'.
Qed.

Lemma node_links_spec h sel rs : ∀ acc,
  Forall (λ x, holds (λ X, Forall (λ y, is_Some (h_ifaces h !! y)) (sel X))
                 (h_ifaces h !! x)) rs →
  ∃ l, node_links sel rs acc h = (Ok l, h) ∧ (NoDup acc → NoDup l) ∧
       ∀ m, m ∈ l ↔
            m ∈ acc ∨ ∃ x X y Y, x ∈ rs ∧ h_ifaces h !! x = Some X ∧ y ∈ sel X ∧
                                 h_ifaces h !! y = Some Y ∧ i_node Y = m.
Proof.
  intros acc Hrs. revert acc. induction Hrs as [|r rs HR Hrs IH]; intros acc.
  - exists acc. split; [done|]. split; [done|]. intros m. split; [by left|].
    intros [?|(x & X & y & Y & Hx%elem_of_nil & _)]; done.
  - apply holds_Some in HR as (R & HR & Hsel).
    cbn [node_links]. rewrite (bind_ok _ _ _ _ _ (get_iface_ok _ _ _ HR)).
    destruct (owners_dedup_spec h (sel R) acc Hsel) as (acc' & Hacc' & Hnd' & Hmem').
    rewrite (bind_ok _ _ _ _ _ Hacc').
    destruct (IH acc') as (l & Hl & Hnd & Hmem).
    exists l. split; [exact Hl|]. split; [by intros ?; apply Hnd, Hnd'|].
    intros m. rewrite Hmem, Hmem'. split.
    + intros [[Hm|(y & Y & Hy & HY & Hown)]|(x & X & y & Y & Hx & HX & Hy & HY & Hown)].
      * by left.
      * right. exists r, R, y, Y. split; [apply elem_of_cons; by left|done].
      * right. exists x, X, y, Y. split; [apply elem_of_cons; by right|done].
    + intros [Hm|(x & X & y & Y & [->|Hx]%elem_of_cons & HX & Hy & HY & Hown)].
      * left. by left.
      * assert (X = R) as -> by congruence. left. right. by exists y, Y.
      * right. by exists x, X, y, Y.
Qed.

Lemma node_links_wf f h n N :
  wf_graph f h → h_nodes h !! n = Some N →
  Forall (λ x, holds (λ X, Forall (λ y, is_Some (h_ifaces h !! y)) (i_successors X))
                 (h_ifaces h !! x)) (n_interfaces N) ∧
  Forall (λ x, holds (λ X, Forall (λ y, is_Some (h_ifaces h !! y)) (i_predecessors X))
                 (h_ifaces h !! x)) (n_interfaces N).
Proof.
  intros Hwf HN. pose proof (wf_interfaces_exist _ _ _ _ Hwf HN) as Hex.
  destruct Hwf as (_ & _ & _ & W4 & W5). split.
  - eapply Forall_impl; [exact Hex|]. intros x [X HX]. rewrite HX. simpl.
    specialize (W4 x X HX). simpl in W4.
    eapply Forall_impl; [exact W4|]. intros y Hy.
    apply holds_Some in Hy as (Y & -> & _). by eexists.
  - eapply Forall_impl; [exact Hex|]. intros x [X HX]. rewrite HX. simpl.
    specialize (W5 x X HX). simpl in W5.
    eapply Forall_impl; [exact W5|]. intros y Hy.
    apply holds_Some in Hy as (Y & -> & _). by eexists.
Qed.

(** X12: on a well-formed object graph [Node.successors] and
    [Node.predecessors] return, change nothing, and list each node once:
    the successors are the nodes that own a successor of an interface of the
    node, and so for the predecessors. *)
Theorem node_neighbours (f : Flow) (h : Heap) (n : nat) (N : Node) :
  wf_graph f h → h_nodes h !! n = Some N →
  ∃ ss ps,
    node_successors n h = (Ok ss, h) ∧ node_predecessors n h = (Ok ps, h) ∧
    NoDup ss ∧ NoDup ps ∧
    (∀ m, m ∈ ss ↔ linked_to i_successors h N m) ∧
    (∀ m, m ∈ ps ↔ linked_to i_predecessors h N m).
Proof.
  intros Hwf HN. destruct (node_links_wf f h n N Hwf HN) as [Hs Hp].
  destruct (node_links_spec h i_successors (n_interfaces N) [] Hs)
    as (ss & Hss & Hnds & Hmems).
  destruct (node_links_spec h i_predecessors (n_interfaces N) [] Hp)
    as (ps & Hps & Hndp & Hmemp).
  exists ss, ps. unfold node_successors, node_predecessors.
  rewrite !(bind_ok _ _ _ _ _ (get_node_ok _ _ _ HN)).
  split; [done|]. split; [done|].
  split; [apply Hnds; constructor|]. split; [apply Hndp; constructor|].
  split; intros m.
  - rewrite Hmems. unfold linked_to. split; [|by right].
    by intros [?%elem_of_nil|?].
  - rewrite Hmemp. unfold linked_to. split; [|by right].
    by intros [?%elem_of_nil|?].
Qed.

Lemma node_neighbours_witness :
  wf_graph Examples.flow_copy Examples.file_copy ∧
  ∃ N, h_nodes Examples.file_copy !! 0 = Some N ∧
  ∃ ss ps,
    node_successors 0 Examples.file_copy = (Ok ss, Examples.file_copy) ∧
    node_predecessors 0 Examples.file_copy = (Ok ps, Examples.file_copy) ∧
    NoDup ss ∧ NoDup ps ∧
    (∀ m, m ∈ ss ↔ linked_to i_successors Examples.file_copy N m) ∧
    (∀ m, m ∈ ps ↔ linked_to i_predecessors Examples.file_copy N m).
Proof.
  split; [apply (bool_decide_unpack _); vm_compute; reflexivity|].
  eexists. split; [vm_compute; reflexivity|].
  apply (node_neighbours Examples.flow_copy Examples.file_copy 0).
  - apply (bool_decide_unpack _). vm_compute. reflexivity.
  - vm_compute. reflexivity.
Defined.

(** On a well-formed object graph the links of the interfaces of two
    nodes mirror each other. *)
Lemma linked_to_mirror (f : Flow) (h : Heap) (n m : nat) (N M : Node) :
  wf_graph f h → h_nodes h !! n = Some N → h_nodes h !! m = Some M →
  linked_to i_successors h N m ↔ linked_to i_predecessors h M n.
Proof.
  intros Hwf HN HM. pose proof Hwf as (_ & W2 & W3 & W4 & W5). split.
  - intros (x & X & y & Y & Hx & HX & Hy & HY & Hown).
    exists y, Y, x, X.
    pose proof (W3 y Y HY) as Hy3. simpl in Hy3. rewrite Hown, HM in Hy3.
    split; [exact Hy3|]. split; [done|].
    pose proof (W4 x X HX) as Hx4. simpl in Hx4. rewrite Forall_forall in Hx4.
    specialize (Hx4 y Hy). rewrite HY in Hx4. simpl in Hx4.
    split; [by destruct Hx4|]. split; [done|].
    pose proof (W2 n N HN) as Hn2. simpl in Hn2. rewrite Forall_forall in Hn2.
    specialize (Hn2 x Hx). by rewrite HX in Hn2.
  - intros (y & Y & x & X & Hy & HY & Hx & HX & Hown).
    exists x, X, y, Y.
    pose proof (W3 x X HX) as Hx3. simpl in Hx3. rewrite Hown, HN in Hx3.
    split; [exact Hx3|]. split; [done|].
    pose proof (W5 y Y HY) as Hy5. simpl in Hy5. rewrite Forall_forall in Hy5.
    specialize (Hy5 x Hx). rewrite HX in Hy5. simpl in Hy5.
    split; [done|]. split; [done|].
    pose proof (W2 m M HM) as Hm2. simpl in Hm2. rewrite Forall_forall in Hm2.
    specialize (Hm2 y Hy). by rewrite HY in Hm2.
Qed.

(** X13: on a well-formed object graph [Node.successors] of a node and
    [Node.predecessors] of another both return, and the second node is in
    the list that [successors] returns for the first exactly when the first
    is in the list that [predecessors] returns for the second. *)
Theorem successors_mirror_predecessors (f : Flow) (h : Heap) (n m : nat) (N M : Node) :
  wf_graph f h → h_nodes h !! n = Some N → h_nodes h !! m = Some M →
  ∃ ss ps,
    node_successors n h = (Ok ss, h) ∧ node_predecessors m h = (Ok ps, h) ∧
    (m ∈ ss ↔ n ∈ ps).
Proof.
  intros Hwf HN HM.
  destruct (node_links_wf f h n N Hwf HN) as [Hs _].
  destruct (node_links_wf f h m M Hwf HM) as [_ Hp].
  destruct (node_links_spec h i_successors (n_interfaces N) [] Hs)
    as (ss & Hss & _ & Hmems).
  destruct (node_links_spec h i_predecessors (n_interfaces M) [] Hp)
    as (ps & Hps & _ & Hmemp).
  exists ss, ps. unfold node_successors, node_predecessors.
  rewrite (bind_ok _ _ _ _ _ (get_node_ok _ _ _ HN)).
  rewrite (bind_ok _ _ _ _ _ (get_node_ok _ _ _ HM)).
  split; [done|]. split; [done|].
  rewrite Hmems, Hmemp. split.
  - intros [?%elem_of_nil|Hl]; [done|]. right.
    by apply (linked_to_mirror f h n m N M Hwf HN HM).
  - intros [?%elem_of_nil|Hl]; [done|]. right.
    by apply (linked_to_mirror f h n m N M Hwf HN HM).
Qed.

Lemma successors_mirror_predecessors_witness :
  wf_graph Examples.flow_copy Examples.file_copy ∧
  ∃ N M, h_nodes Examples.file_copy !! 0 = Some N ∧
         h_nodes Examples.file_copy !! 3 = Some M ∧
  ∃ ss ps,
    node_successors 0 Examples.file_copy = (Ok ss, Examples.file_copy) ∧
    node_predecessors 3 Examples.file_copy = (Ok ps, Examples.file_copy) ∧
    (3 ∈ ss ↔ 0 ∈ ps).
Proof.
  split; [apply (bool_decide_unpack _); vm_compute; reflexivity|].
  do 2 eexists. split; [vm_compute; reflexivity|]. split; [vm_compute; reflexivity|].
  eapply (successors_mirror_predecessors Examples.flow_copy Examples.file_copy 0 3).
  - apply (bool_decide_unpack _). vm_compute. reflexivity.
  - vm_compute. reflexivity.
  - vm_compute. reflexivity.
Defined.

(** ** Construction of nodes *)

Lemma new_Interfaces_exact n ds : ∀ h, ∃ h',
  map_M (new_Interface n) ds h = (Ok (seq (h_next h) (List.length ds)), h') ∧
  h_next h' = h_next h + List.length ds ∧ h_nodes h' = h_nodes h ∧
  h_log h' = h_log h ∧
  ∀ r, h_ifaces h' !! r =
       if decide (h_next h ≤ r < h_next h + List.length ds)
       then fresh_iface n r <$> ds !! (r - h_next h)
       else h_ifaces h !! r.
Proof.
  induction ds as [|d ds IH]; intros h.
  - exists h. simpl. split; [done|]. split; [lia|]. split; [done|]. split; [done|].
    intros r. rewrite decide_False; [done|lia].
  - set (h1 := mkHeap (<[h_next h := fresh_iface n (h_next h) d]> (h_ifaces h))
                 (h_nodes h) (S (h_next h)) (h_log h)).
    assert (new_Interface n d h = (Ok (h_next h), h1)) as H1 by done.
    destruct (IH h1) as (h' & Hm & Hn & Hnd & Hlg & Hlk).
    exists h'. cbn [map_M List.length seq].
    rewrite (bind_ok _ _ _ _ _ H1). rewrite (bind_ok _ _ _ _ _ Hm).
    split; [done|]. split; [simpl in Hn; lia|]. split; [done|]. split; [done|].
    intros r. rewrite Hlk. cbn [h1 h_next h_ifaces].
    destruct (decide (S (h_next h) ≤ r < S (h_next h) + List.length ds)) as [Hin|Hout].
    + rewrite decide_True by lia.
      replace (r - h_next h) with (S (r - S (h_next h))) by lia. done.
    + destruct (decide (r = h_next h)) as [->|Hne].
      * rewrite decide_True by lia. rewrite lookup_insert_eq.
        by rewrite Nat.sub_diag.
      * rewrite decide_False by lia. by rewrite lookup_insert_ne.
Qed.

(** [Node.__init__] and the [__init__] of class [c], once the id is
    known. *)
Lemma new_Node_exact c flow id id' h :
  (match flow with
   | Some f => if bool_decide (id = "") then randomId f (label c) else ret id
   | None => ret id
   end) h = (Ok id', h) →
  ∃ h', new_Node c flow id h = (Ok (h_next h), h') ∧
    h_next h' = S (h_next h) + List.length (class_interfaces c) ∧
    h_log h' = h_log h ∧
    h_nodes h' =
      <[h_next h := mkNode c id' (seq (S (h_next h)) (List.length (class_interfaces c)))
                      [] ∅ false false]> (h_nodes h) ∧
    ∀ r, h_ifaces h' !! r =
         if decide (S (h_next h) ≤ r < S (h_next h) + List.length (class_interfaces c))
         then fresh_iface (h_next h) r <$> class_interfaces c !! (r - S (h_next h))
         else h_ifaces h !! r.
Proof.
  intros Hid. unfold new_Node. rewrite (bind_ok _ _ _ _ _ Hid).
  set (N0 := mkNode c id' [] [] ∅ false false).
  set (h1 := mkHeap (h_ifaces h) (<[h_next h := N0]> (h_nodes h)) (S (h_next h)) (h_log h)).
  destruct (new_Interfaces_exact (h_next h) (class_interfaces c) h1)
    as (h2 & Hm & Hn & Hnd & Hlg & Hlk).
  assert (h_nodes h2 !! h_next h = Some N0) as HN0.
  { rewrite Hnd. simpl. apply lookup_insert_eq. }
  eexists. split.
  { rewrite (bind_ok _ _ _ (h_next h) h1) by done.
    rewrite (bind_ok _ _ _ _ _ Hm).
    rewrite (bind_ok _ _ _ tt _ (upd_node_ok _ _ _ _ HN0)). reflexivity. }
  cbn [h_next h_log h_nodes h_ifaces].
  split; [exact Hn|]. split; [exact Hlg|]. split.
  - rewrite Hnd. cbn [h1 h_nodes]. by rewrite insert_insert_eq.
  - exact Hlk.
Qed.

(** The id that the constructor settles on. *)
Lemma new_Node_id c flow id h :
  from_option (λ f, Forall (λ n, is_Some (h_nodes h !! n)) (nodes f)) True flow →
  ∃ id', (match flow with
          | Some f => if bool_decide (id = "") then randomId f (label c) else ret id
          | None => ret id
          end) h = (Ok id', h) ∧
    (id ≠ "" → id' = id) ∧
    (∀ f, flow = Some f → id = "" → id' ∉ flow_ids f h) ∧
    (flow = None → id' = id).
Proof.
  intros Hflow. destruct flow as [f|].
  - case_bool_decide as Hid.
    + simpl in Hflow.
      assert (∃ id', randomId f (label c) h = (Ok id', h) ∧ id' ∉ flow_ids f h)
        as (id' & Hrun & Hfree).
      { unfold randomId. rewrite (bind_ok _ _ _ _ _ (node_ids_ok f h Hflow)).
        destruct (randomId_loop_ok (label c) (flow_ids f h)
                    (List.length (flow_ids f h)) [] (label c) 2)
          as (r & Hr & Hfree & _).
        - constructor.
        - by intros s ?%elem_of_nil.
        - apply not_elem_of_nil.
        - intros j _ [Heq|Hmem%elem_of_nil]%elem_of_cons; [|done].
          by apply numbered_ne_label in Heq.
        - done.
        - exists r. fold (numbered (label c)). by rewrite Hr. }
      exists id'. split; [done|]. split; [done|]. split; [|done].
      by intros f' [= <-] _.
    + exists id. split; [done|]. split; [done|]. split; [|done].
      by intros f' _ ?.
  - exists id. split; [done|]. split; [done|]. split; [done|done].
Qed.

Lemma filter_declared_none h n nm rs ds :
  Forall2 (declared h n) rs ds → nm ∉ d_name <$> ds →
  filter (λ x, holds (λ X, bool_decide (i_name X = nm) = true) (h_ifaces h !! x)) rs = [].
Proof.
  induction 1 as [|r d rs ds Hd Hf IH]; intros Hout; [done|].
  rewrite fmap_cons in Hout. apply not_elem_of_cons in Hout as [Hne Hout].
  apply holds_Some in Hd as (I & HI & Hk & _).
  rewrite filter_cons_False; [by apply IH|].
  rewrite HI. simpl. intros Heq%bool_decide_eq_true_1.
  unfold iface_key, decl_key in Hk. congruence.
Qed.

(** The interfaces of a node just made are those that its class
    declares. *)
Lemma new_Node_declared c (ν : nat) (ifs : gmap nat Interface) h' :
  (∀ r, h_ifaces h' !! r =
        if decide (S ν ≤ r < S ν + List.length (class_interfaces c))
        then fresh_iface ν r <$> class_interfaces c !! (r - S ν)
        else ifs !! r) →
  Forall2 (λ r d, h_ifaces h' !! r = Some (fresh_iface ν r d))
    (seq (S ν) (List.length (class_interfaces c))) (class_interfaces c).
Proof.
  intros Hlk. apply Forall2_same_length_lookup. split; [apply length_seq|].
  intros i r d Hr Hd. apply lookup_seq in Hr as [-> Hi].
  rewrite Hlk. rewrite decide_True by lia.
  replace (S ν + i - S ν) with i by lia. by rewrite Hd.
Qed.

(** X14: a constructor of a node class returns a node of that class, with
    the id given unless it is blank, whose event is not set.  Each interface
    that the class declares is found by its name, and is as declared: no
    link, the slot flag of the declaration, and as its value [None] for a
    value interface, whatever the default, and the default for a stream
    interface.  A name that the class does not declare is not found. *)
Theorem new_Node_findInterface (c : nclass) (flow : option Flow) (id : string) (h : Heap) :
  from_option (λ f, Forall (λ n, is_Some (h_nodes h !! n)) (nodes f)) True flow →
  ∃ n h' N,
    new_Node c flow id h = (Ok n, h') ∧ h_nodes h' !! n = Some N ∧
    n_class N = c ∧ (id ≠ "" → n_id N = id) ∧ n_canRun N = false ∧
    (∀ d, d ∈ class_interfaces c →
       ∃ r, r ∈ n_interfaces N ∧ findInterface n (d_name d) h' = (Ok r, h') ∧
            h_ifaces h' !! r = Some (fresh_iface n r d)) ∧
    (∀ name, name ∉ d_name <$> class_interfaces c →
       findInterface n name h'
       = (Raise (Exception "Interface with name not found on node."), h')).
Proof.
  intros Hflow.
  destruct (new_Node_id c flow id h Hflow) as (id' & Hid & Hgiven & _).
  destruct (new_Node_exact c flow id id' h Hid) as (h' & Hrun & _ & _ & Hnodes & Hlk).
  pose proof (new_Node_declared c (h_next h) (h_ifaces h) h' Hlk) as Hex.
  set (N := mkNode c id' (seq (S (h_next h)) (List.length (class_interfaces c)))
              [] ∅ false false).
  assert (h_nodes h' !! h_next h = Some N) as HN.
  { rewrite Hnodes. apply lookup_insert_eq. }
  assert (Forall2 (declared h' (h_next h)) (n_interfaces N) (class_interfaces c)) as Hdecl.
  { eapply Forall2_impl; [exact Hex|]. intros r d Hr. unfold declared.
    by rewrite Hr. }
  exists (h_next h), h', N. split; [done|]. split; [done|]. split; [done|].
  split; [exact Hgiven|]. split; [done|]. split.
  - intros d [j Hj]%list_elem_of_lookup_1.
    destruct (findInterface_ok h' (h_next h) N c j d HN Hdecl Hj)
      as (r & I & Hr & Hfind & _).
    exists r. split; [by apply list_elem_of_lookup_2 in Hr|]. split; [done|].
    exact (Forall2_lookup_lr _ _ _ _ _ _ Hex Hr Hj).
  - intros name Hout. unfold findInterface.
    rewrite (bind_ok _ _ _ _ _ (get_node_ok _ _ _ HN)).
    rewrite (bind_ok _ _ _ [] h'); [done|].
    rewrite filter_ifaces_ok.
    + by rewrite (filter_declared_none h' (h_next h) name _ _ Hdecl Hout).
    + eapply Forall2_Forall_l'; [exact Hex|]. intros r d ->. by eexists.
Qed.

Lemma new_Node_findInterface_witness :
  from_option (λ f, Forall (λ n, is_Some (h_nodes Examples.two_foo !! n)) (nodes f))
    True (Some Examples.flow_foo) ∧
  ∃ n h' N,
    new_Node CProcessNode (Some Examples.flow_foo) "" Examples.two_foo = (Ok n, h') ∧
    h_nodes h' !! n = Some N ∧
    n_class N = CProcessNode ∧ ("" ≠ "" → n_id N = "") ∧ n_canRun N = false ∧
    (∀ d, d ∈ class_interfaces CProcessNode →
       ∃ r, r ∈ n_interfaces N ∧ findInterface n (d_name d) h' = (Ok r, h') ∧
            h_ifaces h' !! r = Some (fresh_iface n r d)) ∧
    (∀ name, name ∉ d_name <$> class_interfaces CProcessNode →
       findInterface n name h'
       = (Raise (Exception "Interface with name not found on node."), h')).
Proof.
  split; [apply (bool_decide_unpack _); vm_compute; reflexivity|].
  apply (new_Node_findInterface CProcessNode (Some Examples.flow_foo) "" Examples.two_foo).
  apply (bool_decide_unpack _). vm_compute. reflexivity.
Defined.

(** X15: a node made for a flow and added to it leaves the ids of the
    other nodes as they were and comes last; when no id is given it gets one
    that no node of the flow bears, so that ids that differed from each
    other still do; a given id is taken as it is. *)
Theorem new_Node_keeps_ids_distinct (c : nclass) (f : Flow) (id : string) (h : Heap) :
  Forall (λ n, is_Some (h_nodes h !! n) ∧ n < h_next h) (nodes f) →
  ∃ n h' f' id',
    new_Node c (Some f) id h = (Ok n, h') ∧ addNode n (f, h') = (Ok tt, (f', h')) ∧
    flow_ids f' h' = flow_ids f h ++ [id'] ∧
    (id ≠ "" → id' = id) ∧ (id = "" → id' ∉ flow_ids f h) ∧
    (NoDup (flow_ids f h) → id = "" ∨ id ∉ flow_ids f h → NoDup (flow_ids f' h')).
Proof.
  intros Hall.
  assert (Forall (λ n, is_Some (h_nodes h !! n)) (nodes f)) as Hex.
  { eapply Forall_impl; [exact Hall|]. by intros n [? _]. }
  destruct (new_Node_id c (Some f) id h Hex) as (id' & Hid & Hgiven & Hfresh & _).
  destruct (new_Node_exact c (Some f) id id' h Hid) as (h' & Hrun & _ & _ & Hnodes & _).
  exists (h_next h), h', (set_nodes (nodes f ++ [h_next h]) (set_modified true f)), id'.
  split; [done|]. split; [done|].
  assert (flow_ids (set_nodes (nodes f ++ [h_next h]) (set_modified true f)) h'
          = flow_ids f h ++ [id']) as Hids.
  { unfold flow_ids. cbn [set_nodes set_modified nodes]. rewrite map_app. f_equal.
    - apply Forall_fmap_ext. eapply Forall_impl; [exact Hall|].
      intros n [_ Hn]. simpl. rewrite Hnodes. rewrite lookup_insert_ne by lia. done.
    - simpl. rewrite Hnodes. by rewrite lookup_insert_eq. }
  split; [exact Hids|]. split; [exact Hgiven|].
  split; [by intros ?; apply (Hfresh f)|].
  intros Hnd Hor. rewrite Hids. apply NoDup_app. split; [done|].
  split; [|apply NoDup_singleton].
  intros s Hs Heq%list_elem_of_singleton. subst s.
  destruct (decide (id = "")) as [Hblank|Hgiven'].
  - by apply (Hfresh f eq_refl Hblank).
  - rewrite (Hgiven Hgiven') in Hs. by destruct Hor.
Qed.

Lemma new_Node_keeps_ids_distinct_witness :
  Forall (λ n, is_Some (h_nodes Examples.twin_values !! n) ∧
               n < h_next Examples.twin_values) (nodes Examples.flow_twins) ∧
  ∃ n h' f' id',
    new_Node CValueInputNode (Some Examples.flow_twins) "" Examples.twin_values
      = (Ok n, h') ∧
    addNode n (Examples.flow_twins, h') = (Ok tt, (f', h')) ∧
    flow_ids f' h' = flow_ids Examples.flow_twins Examples.twin_values ++ [id'] ∧
    ("" ≠ "" → id' = "") ∧
    ("" = "" → id' ∉ flow_ids Examples.flow_twins Examples.twin_values) ∧
    (NoDup (flow_ids Examples.flow_twins Examples.twin_values) →
     "" = "" ∨ "" ∉ flow_ids Examples.flow_twins Examples.twin_values →
     NoDup (flow_ids f' h')).
Proof.
  split; [apply (bool_decide_unpack _); vm_compute; reflexivity|].
  apply (new_Node_keeps_ids_distinct CValueInputNode Examples.flow_twins ""
           Examples.twin_values).
  apply (bool_decide_unpack _). vm_compute. reflexivity.
Defined.

(** X16: on a well-formed object graph in which the references in use are
    below the next free one, a constructor followed by [addNode] leaves the
    graph of the flow well formed, with the references in use below the next
    free one again. *)
Theorem new_Node_keeps_wf (c : nclass) (f : Flow) (id : string) (h : Heap) :
  wf_graph f h → below_next h →
  ∃ n h' f',
    new_Node c (Some f) id h = (Ok n, h') ∧ addNode n (f, h') = (Ok tt, (f', h')) ∧
    nodes f' = nodes f ++ [n] ∧ wf_graph f' h' ∧ below_next h'.
Proof.
  intros Hwf [Hbn Hbi]. pose proof Hwf as (W1 & W2 & W3 & W4 & W5).
  destruct (new_Node_id c (Some f) id h W1) as (id' & Hid & _).
  destruct (new_Node_exact c (Some f) id id' h Hid) as (h' & Hrun & Hnext & _ & Hnodes & Hlk).
  pose proof (new_Node_declared c (h_next h) (h_ifaces h) h' Hlk) as Hex.
  set (N := mkNode c id' (seq (S (h_next h)) (List.length (class_interfaces c)))
              [] ∅ false false) in *.
  assert (∀ x X, h_ifaces h !! x = Some X → h_ifaces h' !! x = Some X) as Hold.
  { intros x X HX. pose proof (Hbi x X HX) as Hlt. simpl in Hlt.
    rewrite Hlk. rewrite decide_False by lia. exact HX. }
  assert (∀ m M, h_nodes h !! m = Some M → h_nodes h' !! m = Some M) as Holdn.
  { intros m M HM. pose proof (Hbn m M HM) as Hlt. simpl in Hlt.
    rewrite Hnodes. rewrite lookup_insert_ne by lia. exact HM. }
  assert (∀ (P : Interface → Prop) x, holds P (h_ifaces h !! x) → holds P (h_ifaces h' !! x))
    as Hkeep.
  { intros P x Hx. apply holds_Some in Hx as (X & HX & HP).
    by rewrite (Hold x X HX). }
  assert (h_nodes h !! h_next h = None) as Hfree.
  { destruct (h_nodes h !! h_next h) as [M|] eqn:HM; [|done].
    pose proof (Hbn _ M HM) as Hlt. simpl in Hlt. lia. }
  assert (∀ x X', h_ifaces h' !! x = Some X' →
            (∃ d, S (h_next h) ≤ x < S (h_next h) + List.length (class_interfaces c) ∧
                  X' = fresh_iface (h_next h) x d) ∨
            h_ifaces h !! x = Some X') as Hcases.
  { intros x X'. rewrite Hlk.
    destruct (decide (S (h_next h) ≤ x < S (h_next h) + List.length (class_interfaces c)))
      as [Hin|Hout]; [|intros HX; by right].
    destruct (class_interfaces c !! (x - S (h_next h))) as [d|]; [|done].
    intros [= <-]. left. by exists d. }
  exists (h_next h), h', (set_nodes (nodes f ++ [h_next h]) (set_modified true f)).
  split; [done|]. split; [done|]. split; [done|]. split.
  - split; [|split; [|split; [|split]]].
    + cbn [set_nodes set_modified nodes]. apply Forall_app. split.
      * eapply Forall_impl; [exact W1|]. intros m [M HM].
        exists M. by apply Holdn.
      * constructor; [|constructor]. exists N. rewrite Hnodes. apply lookup_insert_eq.
    + rewrite Hnodes. apply map_Forall_insert; [done|]. split.
      * cbn [N n_interfaces]. eapply Forall2_Forall_l'; [exact Hex|].
        intros r d ->. done.
      * intros m M HM. specialize (W2 m M HM). simpl in *.
        eapply Forall_impl; [exact W2|]. intros x. apply Hkeep.
    + intros x X' HX'. simpl.
      destruct (Hcases x X' HX') as [(d & Hin & ->)|HX].
      * cbn [fresh_iface i_node]. rewrite Hnodes, lookup_insert_eq. simpl.
        apply elem_of_seq. lia.
      * specialize (W3 x X' HX). simpl in W3.
        apply holds_Some in W3 as (M & HM & Hx). by rewrite (Holdn _ M HM).
    + intros x X' HX'. simpl.
      destruct (Hcases x X' HX') as [(d & Hin & ->)|HX]; [constructor|].
      specialize (W4 x X' HX). simpl in W4.
      eapply Forall_impl; [exact W4|]. intros y. apply Hkeep.
    + intros x X' HX'. simpl.
      destruct (Hcases x X' HX') as [(d & Hin & ->)|HX]; [constructor|].
      specialize (W5 x X' HX). simpl in W5.
      eapply Forall_impl; [exact W5|]. intros y. apply Hkeep.
  - split.
    + rewrite Hnodes. apply map_Forall_insert; [done|]. split; [lia|].
      intros m M HM. pose proof (Hbn m M HM) as Hlt. simpl in *. lia.
    + intros x X' HX'. simpl.
      destruct (Hcases x X' HX') as [(d & Hin & _)|HX]; [lia|].
      pose proof (Hbi x X' HX) as Hlt. simpl in Hlt. lia.
Qed.

Lemma new_Node_keeps_wf_witness :
  wf_graph Examples.flow_copy Examples.file_copy ∧ below_next Examples.file_copy ∧
  ∃ n h' f',
    new_Node CProcessNode (Some Examples.flow_copy) "" Examples.file_copy = (Ok n, h') ∧
    addNode n (Examples.flow_copy, h') = (Ok tt, (f', h')) ∧
    nodes f' = nodes Examples.flow_copy ++ [n] ∧ wf_graph f' h' ∧ below_next h'.
Proof.
  split; [apply (bool_decide_unpack _); vm_compute; reflexivity|].
  split; [apply (bool_decide_unpack _); vm_compute; reflexivity|].
  apply (new_Node_keeps_wf CProcessNode Examples.flow_copy "" Examples.file_copy).
  - apply (bool_decide_unpack _). vm_compute. reflexivity.
  - apply (bool_decide_unpack _). vm_compute. reflexivity.
Defined.

(** ** The runner, on any flow *)

Lemma join_inv_moves run_body r r' :
  join_inv r → moves run_body r r' → join_inv r'.
Proof.
  intros Hj Hmv. unfold join_inv in *.
  destruct Hmv; cbn [r_main r_threads] in *; try done.
  1: { intros k' n' w' Hk'. lia. }
  1: { intros k' n' w' Hk' Hl. destruct (decide (k' = k)) as [->|Hne].
       - congruence.
       - apply (Hj k' n' w'); [lia|done]. }
  1: { intros k' n' w' Hl. apply (Hj k' n' w'); [|done].
       apply lookup_lt_Some in Hl. apply lookup_ge_None in H. lia. }
  all: destruct m; try done; intros k' n' w'.
  all: try (intros Hlt Hl;
            destruct (lookup_insert_thread _ _ _ _ _ _ H Hl) as [[-> _]|[_ Hold]];
            [exfalso; pose proof (Hj _ _ _ Hlt H) as Hf; done|by eapply Hj]).
  all: intros Hl;
       destruct (lookup_insert_thread _ _ _ _ _ _ H Hl) as [[-> _]|[_ Hold]];
       [exfalso; pose proof (Hj _ _ _ H) as Hf; done|by eapply Hj].
Qed.

(** What a move adds to the log: the end of a [run()] is logged by a
    thread that is inside it, and the set of an event by the main thread on
    a node without predecessors or by a delivery to the node. *)
Lemma moves_ends run_body r r' :
  moves run_body r r' →
  ∃ es, h_log (r_heap r') = h_log (r_heap r) ++ es ∧
    ∀ n, EvEnd n ∈ es ∨ EvFault n ∈ es → ∃ k, r_threads r !! k = Some (n, WRun).
Proof.
  destruct 1; cbn [r_heap r_threads];
    try (exists []; split; [by rewrite app_nil_r|];
         by intros ? [?%elem_of_nil|?%elem_of_nil]).
  - exists [EvKick n]. split; [done|].
    by intros ? [?%list_elem_of_singleton|?%list_elem_of_singleton].
  - exists [EvBegin n]. split; [done|].
    by intros ? [?%list_elem_of_singleton|?%list_elem_of_singleton].
  - exists [EvFault n]. split; [unfold faulted; simpl; by rewrite write_values_log|].
    intros n' [Hn'%list_elem_of_singleton|Hn'%list_elem_of_singleton]; [done|].
    injection Hn' as ->. by exists k.
  - exists [EvEnd n]. split; [done|].
    intros n' [Hn'%list_elem_of_singleton|Hn'%list_elem_of_singleton]; [|done].
    injection Hn' as ->. by exists k.
  - destruct (delivered_log h t i T I N) as (es & Hlog & Hes).
    exists (EvDeliver i t :: es). split; [done|].
    intros n' [[?|He]%elem_of_cons|[?|He]%elem_of_cons]; try done;
      by destruct (Hes _ He).
Qed.

Lemma order_inv_moves run_body f r r' :
  threads_inv run_body f r → order_inv r → moves run_body r r' → order_inv r'.
Proof.
  intros (_ & Hcount & _) Ho Hmv n.
  destruct (moves_ends _ _ _ Hmv) as (es & -> & Hes).
  assert (EvEnd n ∈ es ∨ EvFault n ∈ es → EvBegin n ∈ h_log (r_heap r)) as Hbegun.
  { intros He. destruct (Hes n He) as [k Hk].
    pose proof (total_past_wait_ge n (r_threads r) k WRun Hk) as Hge.
    rewrite <- Hcount in Hge.
    destruct (decide (EvBegin n ∈ h_log (r_heap r))) as [|Hout]; [done|].
    apply occurrences_notin in Hout. specialize (Hge ltac:(done)). lia. }
  destruct (Ho n) as [Ho1 Ho2]. split; apply precedes_app; auto.
Qed.

Lemma moves_gate run_body r r' n :
  moves run_body r r' →
  holds (λ N, n_canRun N = true) (h_nodes (r_heap r') !! n) →
  holds (λ N, n_canRun N = true) (h_nodes (r_heap r) !! n) ∨
  EvKick n ∈ h_log (r_heap r') ∨
  (∃ i t T, h_ifaces (r_heap r) !! t = Some T ∧ i_node T = n ∧
            i ∈ i_predecessors T ∧ EvDeliver i t ∈ h_log (r_heap r')).
Proof.
  destruct 1; cbn [r_heap]; try (by left).
  - unfold kicked. simpl. destruct (decide (n = n0)) as [->|Hne].
    + intros _. right. left. apply elem_of_app. right. by apply list_elem_of_singleton.
    + rewrite lookup_insert_ne by done. by left.
  - unfold begun. simpl. destruct (decide (n = n0)) as [->|Hne].
    + rewrite lookup_insert_eq. simpl. intros _. left. by rewrite H0.
    + rewrite lookup_insert_ne by done. by left.
  - unfold faulted. simpl. rewrite write_values_nodes. by left.
  - unfold ended. simpl. destruct (decide (n = n0)) as [->|Hne].
    + by rewrite lookup_insert_eq.
    + rewrite lookup_insert_ne by done. by left.
  - rewrite delivered_nodes. destruct (all_received _); [|by left].
    destruct (decide (n = i_node T)) as [->|Hne].
    + intros _. right. right. exists i, t, T. split; [done|]. split; [done|].
      split; [done|]. destruct (delivered_log h t i T I N) as (es & -> & _).
      apply elem_of_app. right. apply elem_of_cons. by left.
    + rewrite lookup_insert_ne by done. by left.
Qed.

Lemma signalled_mono h (log es : list event) n :
  signalled h log n → signalled h (log ++ es) n.
Proof.
  intros [Hk|(i & t & Hfed & Hd)]; [left|right].
  - apply elem_of_app. by left.
  - exists i, t. split; [done|]. apply elem_of_app. by left.
Qed.

Lemma gate_inv_moves run_body h r r' :
  same_shape h (r_heap r) → gate_inv h r → moves run_body r r' → gate_inv h r'.
Proof.
  intros Hsh Hg Hmv n Hn.
  destruct (moves_new_events _ _ _ Hmv) as (es & Hlog & Hbeg & _).
  assert (holds (λ N, n_canRun N = true) (h_nodes (r_heap r') !! n) →
          signalled h (h_log (r_heap r')) n) as Hset.
  { intros Hset. destruct (moves_gate _ _ _ n Hmv Hset)
      as [Hold|[Hkick|(i & t & T & HT & Hown & Hin & Hd)]].
    - rewrite Hlog. apply signalled_mono. apply Hg. by left.
    - by left.
    - right. exists i, t. split; [|done]. unfold fed_by.
      apply (holds_shape_iface (λ X, i_node X = n ∧ i ∈ i_predecessors X) _
               (r_heap r) h t); [|by apply same_shape_sym|by rewrite HT].
      intros X X' Heq [HX1 HX2]. unfold iface_shape in Heq. split; congruence. }
  destruct Hn as [Hn|Hn]; [by apply Hset|].
  rewrite Hlog in Hn. apply elem_of_app in Hn as [Hn|Hn].
  - rewrite Hlog. apply signalled_mono. apply Hg. by right.
  - rewrite Hlog. apply signalled_mono. apply Hg. left. by apply Hbeg.
Qed.

(** The invariant holds after every execution from the start. *)
Lemma exec_runner_inv run_body f h sched r :
  wf_graph f h → streams_ok h → fresh h →
  exec run_body sched (Runner_start f h) = Some r →
  sound f r ∧ runner_inv run_body f h r.
Proof.
  intros Hwf Hok (Hlog & Hnodes & _) Hex.
  pose proof (sound_start f h Hwf Hok) as Hs0.
  apply (exec_invariant run_body f (runner_inv run_body f h) sched _ r Hs0);
    [| |done].
  - unfold runner_inv, Runner_start. split; [|split; [|split; [|split; [|split]]]].
    + split; [done|]. split; [|by intros k n w ?].
      intros n. simpl. by rewrite Hlog.
    + done.
    + intros n. simpl. rewrite Hlog. split; apply precedes_nil.
    + intros n. simpl. rewrite Hlog. intros [Hset|Hb%elem_of_nil]; [|done].
      apply holds_Some in Hset as (N & HN & Hset).
      destruct (Hnodes n N HN) as [Hoff _]. congruence.
    + split; [|done]. intros n. simpl. rewrite Hlog. by intros ?%elem_of_nil.
    + apply same_shape_refl.
  - intros r1 r2 Hs1 (Hti & Hj & Ho & Hg & Hk & Hsh) Hmv.
    split; [by eapply threads_inv_moves|]. split; [by eapply join_inv_moves|].
    split; [by eapply order_inv_moves|]. split; [by eapply gate_inv_moves|].
    split; [by eapply kick_inv_moves|].
    eapply same_shape_trans; [exact Hsh|by eapply moves_shape].
Qed.

Lemma threads_of_flow run_body f r n :
  threads_inv run_body f r → n ∈ fst <$> r_threads r → n ∈ nodes f.
Proof.
  intros (Hths & _) Hn. destruct (r_main r); try (by rewrite <- Hths).
  rewrite <- Hths. apply elem_of_app. by left.
Qed.

Lemma begun_of_thread run_body f r k n w :
  threads_inv run_body f r → r_threads r !! k = Some (n, w) → w ≠ WWait →
  EvBegin n ∈ h_log (r_heap r).
Proof.
  intros (_ & Hcount & _) Hk Hw.
  pose proof (total_past_wait_ge n (r_threads r) k w Hk Hw) as Hge.
  rewrite <- Hcount in Hge.
  destruct (decide (EvBegin n ∈ h_log (r_heap r))) as [|Hout]; [done|].
  apply occurrences_notin in Hout. lia.
Qed.

(** X17: in every execution of [Runner.start] on a well-formed object
    graph that has not run yet, with each node in the flow once, [run()] of
    a node is called at most once, and never for a node outside the flow;
    its end, by return or by exception, comes after its call. *)
Theorem run_called_at_most_once run_body (f : Flow) (h : Heap) (sched : list tid)
    (r : Runner) :
  wf_graph f h → streams_ok h → fresh h → NoDup (nodes f) →
  exec run_body sched (Runner_start f h) = Some r →
  ∀ n, occurrences (EvBegin n) (h_log (r_heap r)) ≤ 1 ∧
       (n ∉ nodes f → EvBegin n ∉ h_log (r_heap r)) ∧
       precedes (EvBegin n) (EvEnd n) (h_log (r_heap r)) ∧
       precedes (EvBegin n) (EvFault n) (h_log (r_heap r)).
Proof.
  intros Hwf Hok Hfresh Hnd Hex n.
  destruct (exec_runner_inv run_body f h sched r Hwf Hok Hfresh Hex)
    as (Hs & Hti & _ & Ho & _).
  pose proof Hti as (Hths & Hcount & _).
  assert (NoDup (fst <$> r_threads r)) as Hndt.
  { destruct (r_main r); try (by rewrite Hths).
    rewrite <- Hths in Hnd. by apply NoDup_app in Hnd as [? _]. }
  split; [rewrite Hcount; by apply total_past_wait_le|].
  split; [|apply Ho].
  intros Hout Hin. apply occurrences_pos in Hin. rewrite Hcount in Hin.
  rewrite total_past_wait_absent in Hin; [lia|].
  intros Hn. apply Hout. by eapply threads_of_flow.
Qed.

Lemma run_called_at_most_once_witness :
  ∃ r,
    exec Examples.quiet_run Examples.copy_schedule
      (Runner_start Examples.flow_copy Examples.file_copy) = Some r ∧
    ∀ n, occurrences (EvBegin n) (h_log (r_heap r)) ≤ 1 ∧
         (n ∉ nodes Examples.flow_copy → EvBegin n ∉ h_log (r_heap r)) ∧
         precedes (EvBegin n) (EvEnd n) (h_log (r_heap r)) ∧
         precedes (EvBegin n) (EvFault n) (h_log (r_heap r)).
Proof.
  eexists. split; [vm_compute; reflexivity|].
  apply (run_called_at_most_once Examples.quiet_run Examples.flow_copy
           Examples.file_copy Examples.copy_schedule).
  - apply (bool_decide_unpack _). vm_compute. reflexivity.
  - apply (bool_decide_unpack _). vm_compute. reflexivity.
  - apply (bool_decide_unpack _). vm_compute. reflexivity.
  - apply (bool_decide_unpack _). vm_compute. reflexivity.
  - vm_compute. reflexivity.
Defined.

(** X18: in every execution of [Runner.start] on a well-formed object
    graph that has not run yet, [run()] of a node is called only after the
    main thread set the event of the node, which it does only for an input
    node of the flow without predecessors, or after a predecessor of an
    interface of the node delivered. *)
Theorem run_only_after_signal run_body (f : Flow) (h : Heap) (sched : list tid)
    (r : Runner) :
  wf_graph f h → streams_ok h → fresh h →
  exec run_body sched (Runner_start f h) = Some r →
  ∀ n, EvBegin n ∈ h_log (r_heap r) →
       (EvKick n ∈ h_log (r_heap r) ∧ n ∈ nodes f ∧ startable h n) ∨
       (∃ i t, fed_by h n i t ∧ EvDeliver i t ∈ h_log (r_heap r)).
Proof.
  intros Hwf Hok Hfresh Hex n Hn.
  destruct (exec_runner_inv run_body f h sched r Hwf Hok Hfresh Hex)
    as (Hs & _ & _ & _ & Hg & [Hk _] & Hsh).
  destruct (Hg n (or_intror Hn)) as [Hkick|Hfed]; [left|by right].
  split; [done|]. destruct (Hk n Hkick) as [Hin Hst]. split; [done|].
  apply (startable_shape (r_heap r)); [by apply same_shape_sym|done].
Qed.

Lemma run_only_after_signal_witness :
  ∃ r,
    exec Examples.quiet_run Examples.copy_schedule
      (Runner_start Examples.flow_copy Examples.file_copy) = Some r ∧
    ∀ n, EvBegin n ∈ h_log (r_heap r) →
         (EvKick n ∈ h_log (r_heap r) ∧ n ∈ nodes Examples.flow_copy ∧
          startable Examples.file_copy n) ∨
         (∃ i t, fed_by Examples.file_copy n i t ∧ EvDeliver i t ∈ h_log (r_heap r)).
Proof.
  eexists. split; [vm_compute; reflexivity|].
  apply (run_only_after_signal Examples.quiet_run Examples.flow_copy
           Examples.file_copy Examples.copy_schedule).
  - apply (bool_decide_unpack _). vm_compute. reflexivity.
  - apply (bool_decide_unpack _). vm_compute. reflexivity.
  - apply (bool_decide_unpack _). vm_compute. reflexivity.
  - vm_compute. reflexivity.
Defined.

(** X19: a node of the flow that is not an input node without
    predecessors, and no interface of which has a predecessor, is never
    run, and [Runner.start] never returns: the main thread stays in the
    [join] of the thread of the node, which waits for an event that nothing
    sets. *)
Theorem unfed_node_blocks_start run_body (f : Flow) (h : Heap) (sched : list tid)
    (r : Runner) (n : nat) :
  wf_graph f h → streams_ok h → fresh h →
  n ∈ nodes f → ¬ startable h n → holds (no_predecessor h) (h_nodes h !! n) →
  exec run_body sched (Runner_start f h) = Some r →
  (EvBegin n ∉ h_log (r_heap r)) ∧ r_main r ≠ MDone.
Proof.
  intros Hwf Hok Hfresh Hin Hnot Hnone Hex.
  destruct (exec_runner_inv run_body f h sched r Hwf Hok Hfresh Hex)
    as (Hs & Hti & Hj & _ & Hg & [Hk _] & Hsh).
  assert (EvBegin n ∉ h_log (r_heap r)) as Hnever.
  { intros Hb. destruct (Hg n (or_intror Hb)) as [Hkick|(i & t & Hfed & _)].
    - destruct (Hk n Hkick) as [_ Hst]. apply Hnot.
      apply (startable_shape (r_heap r)); [by apply same_shape_sym|done].
    - apply holds_Some in Hfed as (T & HT & Hown & Hpred).
      apply holds_Some in Hnone as (N & HN & Hnone).
      destruct (owner_exists _ _ _ _ Hwf HT) as (N' & HN' & Ht).
      rewrite Hown, HN in HN'. injection HN' as <-.
      unfold no_predecessor in Hnone. rewrite Forall_forall in Hnone.
      specialize (Hnone t Ht). rewrite HT in Hnone. simpl in Hnone.
      rewrite Hnone in Hpred. by apply elem_of_nil in Hpred. }
  split; [exact Hnever|]. intros Hdone. apply Hnever.
  unfold join_inv in Hj. rewrite Hdone in Hj.
  pose proof Hti as (Hths & _). rewrite Hdone in Hths.
  rewrite <- Hths in Hin. apply list_elem_of_fmap in Hin as ([n' w] & Hn' & Hin).
  simpl in Hn'. subst n'. apply list_elem_of_lookup_1 in Hin as [k Hk'].
  apply (begun_of_thread run_body f r k n w Hti Hk').
  intros ->. by specialize (Hj k n WWait Hk').
Qed.

Lemma unfed_node_blocks_start_witness :
  ∃ r,
    exec (module_run Examples.no_env) Examples.lone_wait_schedule
      (Runner_start Examples.flow_lone Examples.lone_node) = Some r ∧
    (EvBegin 0 ∉ h_log (r_heap r)) ∧ r_main r ≠ MDone.
Proof.
  eexists. split; [vm_compute; reflexivity|].
  apply (unfed_node_blocks_start (module_run Examples.no_env) Examples.flow_lone
           Examples.lone_node Examples.lone_wait_schedule _ 0).
  - apply (bool_decide_unpack _). vm_compute. reflexivity.
  - apply (bool_decide_unpack _). vm_compute. reflexivity.
  - apply (bool_decide_unpack _). vm_compute. reflexivity.
  - apply (bool_decide_unpack _). vm_compute. reflexivity.
  - apply (bool_decide_unpack _). vm_compute. reflexivity.
  - apply (bool_decide_unpack _). vm_compute. reflexivity.
  - vm_compute. reflexivity.
Defined.

(** X20: when [Runner.start] has returned, on a well-formed object graph
    that had not run, with each node in the flow once, [run()] of every node
    of the flow has been called exactly once and has returned or raised. *)
Theorem start_returns_after_all_ran run_body (f : Flow) (h : Heap) (sched : list tid)
    (r : Runner) :
  wf_graph f h → streams_ok h → fresh h → NoDup (nodes f) →
  exec run_body sched (Runner_start f h) = Some r → r_main r = MDone →
  ∀ n, n ∈ nodes f →
       occurrences (EvBegin n) (h_log (r_heap r)) = 1 ∧
       (EvEnd n ∈ h_log (r_heap r) ∨ EvFault n ∈ h_log (r_heap r)).
Proof.
  intros Hwf Hok Hfresh Hnd Hex Hdone n Hin.
  destruct (exec_runner_inv run_body f h sched r Hwf Hok Hfresh Hex)
    as (Hs & Hti & Hj & _).
  unfold join_inv in Hj. rewrite Hdone in Hj.
  pose proof Hti as (Hths & Hcount & Hlogged). rewrite Hdone in Hths.
  rewrite <- Hths in Hin, Hnd.
  apply list_elem_of_fmap in Hin as ([n' w] & Hn' & Hin).
  simpl in Hn'. subst n'. apply list_elem_of_lookup_1 in Hin as [k Hk].
  pose proof (Hj k n w Hk) as Hfin. split.
  - rewrite Hcount. apply Nat.le_antisymm; [by apply total_past_wait_le|].
    apply (total_past_wait_ge n _ k w Hk). by intros ->.
  - specialize (Hlogged k n w Hk). destruct w; try done.
    + by left.
    + right. by destruct Hlogged.
Qed.

Lemma start_returns_after_all_ran_witness :
  ∃ r,
    exec Examples.quiet_run Examples.copy_schedule
      (Runner_start Examples.flow_copy Examples.file_copy) = Some r ∧
    r_main r = MDone ∧
    ∀ n, n ∈ nodes Examples.flow_copy →
         occurrences (EvBegin n) (h_log (r_heap r)) = 1 ∧
         (EvEnd n ∈ h_log (r_heap r) ∨ EvFault n ∈ h_log (r_heap r)).
Proof.
  eexists. split; [vm_compute; reflexivity|]. split; [vm_compute; reflexivity|].
  apply (start_returns_after_all_ran Examples.quiet_run Examples.flow_copy
           Examples.file_copy Examples.copy_schedule).
  - apply (bool_decide_unpack _). vm_compute. reflexivity.
  - apply (bool_decide_unpack _). vm_compute. reflexivity.
  - apply (bool_decide_unpack _). vm_compute. reflexivity.
  - apply (bool_decide_unpack _). vm_compute. reflexivity.
  - vm_compute. reflexivity.
  - vm_compute. reflexivity.
Defined.

(** X21: no execution of [Runner.start] on a well-formed object graph
    takes more steps than four for the main thread, two for each node, and
    for each node four and one for each connection that leaves its
    outputs. *)
Theorem runner_steps_bounded run_body (f : Flow) (h : Heap) (sched : list tid)
    (r : Runner) :
  wf_graph f h → streams_ok h →
  exec run_body sched (Runner_start f h) = Some r →
  List.length sched
  ≤ total (λ n, fanout h n + 4) (nodes f) + 2 * List.length (nodes f) + 4.
Proof.
  intros Hwf Hok Hex.
  pose proof (exec_measure run_body f h sched _ r (sound_start f h Hwf Hok)
                (same_shape_refl h) Hex) as Hle.
  unfold measure at 2 in Hle. unfold Runner_start in Hle.
  cbn [r_threads r_main] in Hle. unfold total at 1 in Hle. simpl in Hle. lia.
Qed.

Lemma runner_steps_bounded_witness :
  ∃ r,
    exec Examples.quiet_run Examples.copy_schedule
      (Runner_start Examples.flow_copy Examples.file_copy) = Some r ∧
    List.length Examples.copy_schedule
    ≤ total (λ n, fanout Examples.file_copy n + 4) (nodes Examples.flow_copy)
      + 2 * List.length (nodes Examples.flow_copy) + 4.
Proof.
  eexists. split; [vm_compute; reflexivity|].
  eapply (runner_steps_bounded Examples.quiet_run Examples.flow_copy
            Examples.file_copy Examples.copy_schedule).
  - apply (bool_decide_unpack _). vm_compute. reflexivity.
  - apply (bool_decide_unpack _). vm_compute. reflexivity.
  - vm_compute. reflexivity.
Defined.

(** ** A [run()] that raises *)

Lemma threads_nodup run_body f r :
  NoDup (nodes f) → threads_inv run_body f r → NoDup (fst <$> r_threads r).
Proof.
  intros Hnd (Hths & _). destruct (r_main r); try (by rewrite Hths).
  rewrite <- Hths in Hnd. by apply NoDup_app in Hnd as [? _].
Qed.

Lemma busy_insert (h : Heap) nodes' n0 N N' n :
  h_nodes h !! n0 = Some N → nodes' = <[n0 := N']> (h_nodes h) →
  (n_running N = true ∧ n_canRun N = true →
   n_running N' = true ∧ n_canRun N' = true) →
  busy h n →
  holds (λ M, n_running M = true ∧ n_canRun M = true) (nodes' !! n).
Proof.
  intros HN -> Himp Hb. unfold busy in Hb.
  destruct (decide (n = n0)) as [->|Hne].
  - rewrite lookup_insert_eq. rewrite HN in Hb. simpl in *. by apply Himp.
  - by rewrite lookup_insert_ne.
Qed.

Lemma busy_inv_moves run_body r r' :
  NoDup (fst <$> r_threads r) → busy_inv r → moves run_body r r' → busy_inv r'.
Proof.
  intros Hnd Hb Hmv. unfold busy_inv in *.
  destruct Hmv; cbn [r_heap r_threads] in *; try exact Hb.
  - (* a thread is created *)
    intros k' n' w' Hk'. apply lookup_app_Some in Hk' as [Hk'|[_ Hk']].
    + by apply (Hb k').
    + apply list_lookup_singleton_Some in Hk' as [_ [= <- <-]]. done.
  - (* the main thread sets an event *)
    intros k' n' w' Hk'. specialize (Hb _ _ _ Hk').
    destruct w'; try done; unfold busy, kicked; cbn [h_nodes];
      (eapply busy_insert; [exact H|reflexivity| |exact Hb]); by intros [? _].
  - (* a thread gets past its wait *)
    intros k' n' w' Hk'.
    destruct (lookup_insert_thread _ _ _ _ _ _ H Hk') as [[-> [= -> ->]]|[_ Hold]].
    + unfold busy, begun. cbn [h_nodes]. rewrite lookup_insert_eq. by simpl.
    + specialize (Hb _ _ _ Hold).
      destruct w'; try done; unfold busy, begun; cbn [h_nodes];
        (eapply busy_insert; [exact H0|reflexivity| |exact Hb]); by intros [_ ?].
  - (* [run()] raises *)
    intros k' n' w' Hk'.
    destruct (lookup_insert_thread _ _ _ _ _ _ H Hk') as [[-> [= -> ->]]|[_ Hold]].
    + unfold busy, faulted. cbn [h_nodes]. rewrite write_values_nodes.
      exact (Hb _ _ _ H).
    + specialize (Hb _ _ _ Hold).
      destruct w'; try done; unfold busy, faulted; cbn [h_nodes];
        by rewrite write_values_nodes.
  - (* [run()] returns *)
    intros k' n' w' Hk'.
    destruct (lookup_insert_thread _ _ _ _ _ _ H Hk') as [[-> [= -> ->]]|[Hne Hold]];
      [done|].
    specialize (Hb _ _ _ Hold).
    assert (n' ≠ n) as Hnn.
    { intros ->. apply Hne. apply (NoDup_lookup _ _ _ n Hnd);
        rewrite list_lookup_fmap; [by rewrite Hold|by rewrite H]. }
    destruct w'; try done; unfold busy, ended; cbn [h_nodes];
      by rewrite lookup_insert_ne.
  - (* a notification *)
    intros k' n' w' Hk'.
    destruct (lookup_insert_thread _ _ _ _ _ _ H Hk') as [[-> [= -> ->]]|[_ Hold]];
      [done|].
    specialize (Hb _ _ _ Hold).
    destruct w'; try done; unfold busy; rewrite delivered_nodes;
      (destruct (all_received _); [|exact Hb]);
      (eapply busy_insert; [exact H2|reflexivity| |exact Hb]);
      (intros [Hrun Hcan]; split; [|by apply notified_canRun]);
      unfold notified; by case_bool_decide.
  - (* a thread returns *)
    intros k' n' w' Hk'.
    destruct (lookup_insert_thread _ _ _ _ _ _ H Hk') as [[-> [= -> ->]]|[_ Hold]];
      [done|].
    exact (Hb _ _ _ Hold).
Qed.

(** C8: in an execution from the start, on a well-formed graph that has
    not run yet with each node in the flow once, a thread ended by an
    exception is the thread of a node whose [run()] raised it.  The fault is
    in the log; no interface of the node has notified a successor; the
    thread takes no further step; the node is left marked as running, with
    its event set; a [join] passes the thread as it passes one that
    returned.  A node of the flow that the main thread does not start and
    that only this node feeds is never run, and [Runner.start] never
    returns.  The step that ends the thread changes the standing of that
    thread alone, not the main thread and no node. *)
Theorem fault_ends_only_its_thread run_body f h sched r k n e :
  wf_graph f h → streams_ok h → fresh h → NoDup (nodes f) →
  exec run_body sched (Runner_start f h) = Some r →
  r_threads r !! k = Some (n, WDead e) →
  (∃ h', o_raises (run_body n h') = Some e) ∧
  EvFault n ∈ h_log (r_heap r) ∧
  (∀ i t, EvDeliver i t ∈ h_log (r_heap r) →
          holds (λ I, i_node I ≠ n) (h_ifaces h !! i)) ∧
  step run_body (TWorker k) r = None ∧
  busy (r_heap r) n ∧
  (r_main r = MJoin k →
   step_main r
   = Some (mkRunner (r_flow r) (r_threads r) (MJoin (S k)) (r_heap r))) ∧
  (∀ m, m ∈ nodes f → ¬ startable h m →
        (∀ i t, fed_by h m i t → holds (λ I, i_node I = n) (h_ifaces h !! i)) →
        (EvBegin m ∉ h_log (r_heap r)) ∧ r_main r ≠ MDone) ∧
  (∀ r0 k0 n0 e0,
     r_threads r0 !! k0 = Some (n0, WRun) →
     o_raises (run_body n0 (r_heap r0)) = Some e0 →
     ∃ r1, step run_body (TWorker k0) r0 = Some r1 ∧
           r_threads r1 = <[k0 := (n0, WDead e0)]> (r_threads r0) ∧
           r_main r1 = r_main r0 ∧ r_flow r1 = r_flow r0 ∧
           h_nodes (r_heap r1) = h_nodes (r_heap r0)).
Proof.
  intros Hwf Hok Hfresh Hnd Hex Hk.
  pose proof (sound_start f h Hwf Hok) as Hs0.
  destruct (exec_runner_inv run_body f h sched r Hwf Hok Hfresh Hex)
    as (_ & Hti' & Hj & _ & Hg & [Hkick _] & _).
  destruct (exec_invariant run_body f
              (λ r, threads_inv run_body f r ∧ publishers_inv r ∧
                    same_shape h (r_heap r) ∧ busy_inv r) sched _ r Hs0)
    as (Hs & (Hths & Hcount & Hlogged) & Hpub & Hsh & Hbusy); [| |done|].
  { destruct Hfresh as (Hlog & _). split; [|split; [|split]].
    - split; [done|]. split.
      + intros n'. simpl. by rewrite Hlog.
      + by intros k' n' w' ?.
    - intros i t Hin. simpl in Hin. rewrite Hlog in Hin. by apply elem_of_nil in Hin.
    - apply same_shape_refl.
    - by intros k' n' w' ?. }
  { intros r1 r2 Hs1 (Hti1 & Hpub1 & Hsh1 & Hb1) Hmv.
    split; [by eapply threads_inv_moves|]. split; [by eapply publishers_inv_moves|].
    split; [eapply same_shape_trans; [exact Hsh1|by eapply moves_shape]|].
    eapply busy_inv_moves; [|exact Hb1|exact Hmv].
    by eapply threads_nodup. }
  assert (NoDup (fst <$> r_threads r)) as Hndt by (by eapply threads_nodup).
  destruct (Hlogged k n _ Hk) as [Hfault Hraise].
  assert (∀ i t, EvDeliver i t ∈ h_log (r_heap r) →
                 holds (λ I, i_node I ≠ n) (h_ifaces h !! i)) as Hquiet.
  { intros i t Hin. destruct (Hpub i t Hin) as (I & k' & w & HI & Hk' & Hw).
    destruct (shape_iface _ _ _ _ (same_shape_sym _ _ Hsh) HI) as (I0 & HI0 & Heq).
    apply iface_shape_inv in Heq as (_ & Hnode & _).
    rewrite HI0. simpl. rewrite Hnode. intros Hn. rewrite Hn in Hk'.
    assert (k' = k) as ->.
    { apply (NoDup_lookup _ _ _ n Hndt); rewrite list_lookup_fmap.
      - by rewrite Hk'.
      - by rewrite Hk. }
    rewrite Hk in Hk'. injection Hk' as <-. done. }
  split; [done|]. split; [done|]. split; [exact Hquiet|].
  split; [|split; [|split; [|split]]].
  - unfold step. by rewrite Hk.
  - exact (Hbusy k n _ Hk).
  - intros Hmain. unfold step_main. by rewrite Hmain, Hk.
  - intros m Hm Hnot Hfed.
    assert (EvBegin m ∉ h_log (r_heap r)) as Hnever.
    { intros Hb. destruct (Hg m (or_intror Hb)) as [Hkicked|(i & t & Hft & Hdel)].
      - destruct (Hkick m Hkicked) as [_ Hst]. apply Hnot.
        apply (startable_shape (r_heap r)); [by apply same_shape_sym|done].
      - pose proof (Hfed i t Hft) as Hown. pose proof (Hquiet i t Hdel) as Hother.
        apply holds_Some in Hown as (I & HI & Hown).
        rewrite HI in Hother. simpl in Hother. done. }
    split; [exact Hnever|]. intros Hdone. apply Hnever.
    unfold join_inv in Hj. rewrite Hdone in Hj. rewrite Hdone in Hths.
    rewrite <- Hths in Hm. apply list_elem_of_fmap in Hm as ([m' w] & Hm' & Hm).
    simpl in Hm'. subst m'. apply list_elem_of_lookup_1 in Hm as [km Hkm].
    apply (begun_of_thread run_body f r km m w Hti' Hkm).
    intros ->. by specialize (Hj km m WWait Hkm).
  - intros r0 k0 n0 e0 Hk0 He0. unfold step. rewrite Hk0. simpl. rewrite He0.
    eexists. split; [reflexivity|]. simpl. unfold faulted. simpl.
    by rewrite write_values_nodes.
Qed.

Lemma fault_ends_only_its_thread_witness :
  ∃ r,
    exec (module_run Examples.no_env) Examples.unfilled_schedule
      (Runner_start Examples.flow_copy Examples.unfilled_copy) = Some r ∧
    r_threads r !! 0
    = Some (0, WDead (FlowException "Filepath empty, cannot read file.")) ∧
    ((∃ h', o_raises (module_run Examples.no_env 0 h')
            = Some (FlowException "Filepath empty, cannot read file.")) ∧
     EvFault 0 ∈ h_log (r_heap r) ∧
     (∀ i t, EvDeliver i t ∈ h_log (r_heap r) →
             holds (λ I, i_node I ≠ 0) (h_ifaces Examples.unfilled_copy !! i)) ∧
     step (module_run Examples.no_env) (TWorker 0) r = None ∧
     busy (r_heap r) 0 ∧
     (r_main r = MJoin 0 →
      step_main r
      = Some (mkRunner (r_flow r) (r_threads r) (MJoin 1) (r_heap r))) ∧
     (∀ m, m ∈ nodes Examples.flow_copy → ¬ startable Examples.unfilled_copy m →
           (∀ i t, fed_by Examples.unfilled_copy m i t →
                   holds (λ I, i_node I = 0) (h_ifaces Examples.unfilled_copy !! i)) →
           (EvBegin m ∉ h_log (r_heap r)) ∧ r_main r ≠ MDone) ∧
     (∀ r0 k0 n0 e0,
        r_threads r0 !! k0 = Some (n0, WRun) →
        o_raises (module_run Examples.no_env n0 (r_heap r0)) = Some e0 →
        ∃ r1, step (module_run Examples.no_env) (TWorker k0) r0 = Some r1 ∧
              r_threads r1 = <[k0 := (n0, WDead e0)]> (r_threads r0) ∧
              r_main r1 = r_main r0 ∧ r_flow r1 = r_flow r0 ∧
              h_nodes (r_heap r1) = h_nodes (r_heap r0))).
Proof.
  eexists. split; [vm_compute; reflexivity|]. split; [reflexivity|].
  apply (fault_ends_only_its_thread (module_run Examples.no_env)
           Examples.flow_copy Examples.unfilled_copy
           Examples.unfilled_schedule _ 0 0
           (FlowException "Filepath empty, cannot read file.")).
  - apply (bool_decide_unpack _). vm_compute. reflexivity.
  - apply (bool_decide_unpack _). vm_compute. reflexivity.
  - apply (bool_decide_unpack _). vm_compute. reflexivity.
  - apply (bool_decide_unpack _). vm_compute. reflexivity.
  - vm_compute. reflexivity.
  - reflexivity.
Defined.

(** C8, the claim as stated fails.  In the file copy with the path of the
    [FileInputNode] unset, [run()] of that node raises.  Nothing catches the
    exception: its thread is over and the node stays marked as running.  The
    [FileOutputNode], which only that node feeds, waits for an event that
    nothing sets any more, and the main thread waits in the [join] of its
    thread: no thread can take a step, and [Runner.start] has not returned,
    so that it reports nothing. *)
Lemma fault_blocks_start :
  ∃ r,
    exec (module_run Examples.no_env) Examples.unfilled_schedule
      (Runner_start Examples.flow_copy Examples.unfilled_copy) = Some r ∧
    r_threads r
    = [(0, WDead (FlowException "Filepath empty, cannot read file.")); (3, WWait)] ∧
    r_main r = MJoin 1 ∧ returned r = false ∧
    stuck (module_run Examples.no_env) r ∧
    EvFault 0 ∈ h_log (r_heap r) ∧ (EvBegin 3 ∉ h_log (r_heap r)) ∧
    (n_running <$> h_nodes (r_heap r) !! 0) = Some true ∧
    (n_running <$> h_nodes (r_heap r) !! 3) = Some false.
Proof.
  eexists. split; [vm_compute; reflexivity|].
  split; [vm_compute; reflexivity|]. split; [vm_compute; reflexivity|].
  split; [vm_compute; reflexivity|]. split; [|split; [|split; [|split]]].
  - split; [vm_compute; reflexivity|].
    intros [|[|k]]; vm_compute; reflexivity.
  - apply (bool_decide_unpack _). vm_compute. reflexivity.
  - apply (bool_decide_unpack _). vm_compute. reflexivity.
  - vm_compute. reflexivity.
  - vm_compute. reflexivity.
Qed.

(** ** A link to a node that is not in the flow *)

Lemma keeps_nodes_ret {A} (a : A) : keeps_nodes (ret a).
Proof. done. Qed.

Lemma keeps_nodes_raise {A} e : keeps_nodes (raise (A := A) e).
Proof. done. Qed.

Lemma keeps_nodes_bind {A B} (m : M Heap A) (k : A → M Heap B) :
  keeps_nodes m → (∀ a, keeps_nodes (k a)) → keeps_nodes (bind m k).
Proof.
  intros Hm Hk h. unfold bind. specialize (Hm h).
  destruct (m h) as [[a|e] h1]; simpl in *; [|done]. by rewrite Hk.
Qed.

Lemma keeps_nodes_get_iface r : keeps_nodes (get_iface r).
Proof. intros h. unfold get_iface. by destruct (h_ifaces h !! r). Qed.

Lemma keeps_nodes_get_node r : keeps_nodes (get_node r).
Proof. intros h. unfold get_node. by destruct (h_nodes h !! r). Qed.

Lemma keeps_nodes_upd_iface r g : keeps_nodes (upd_iface r g).
Proof. intros h. unfold upd_iface. by destruct (h_ifaces h !! r). Qed.

Lemma keeps_nodes_map_M {A B} (g : A → M Heap B) l :
  (∀ a, keeps_nodes (g a)) → keeps_nodes (map_M g l).
Proof.
  intros Hg. induction l as [|a l IH]; [done|]. cbn [map_M].
  apply keeps_nodes_bind; [done|]. intros b.
  apply keeps_nodes_bind; [done|]. intros bs. apply keeps_nodes_ret.
Qed.

Lemma keeps_nodes_for_each {A} (body : A → M Heap unit) l :
  (∀ a, keeps_nodes (body a)) → keeps_nodes (for_each l body).
Proof.
  intros Hb. induction l as [|a l IH]; [done|]. cbn [for_each].
  by apply keeps_nodes_bind.
Qed.

Lemma keeps_nodes_findNode fl id : keeps_nodes (findNode fl id).
Proof.
  unfold findNode. induction (nodes fl) as [|n l IH]; [done|].
  cbn [findNode_loop]. apply keeps_nodes_bind; [apply keeps_nodes_get_node|].
  intros N. by case_bool_decide.
Qed.

Lemma keeps_nodes_findInterface n nm : keeps_nodes (findInterface n nm).
Proof.
  unfold findInterface. apply keeps_nodes_bind; [apply keeps_nodes_get_node|].
  intros N. apply keeps_nodes_bind.
  - unfold filter_ifaces. apply keeps_nodes_bind; [|by intros ?].
    apply keeps_nodes_map_M. intros r.
    apply keeps_nodes_bind; [apply keeps_nodes_get_iface|by intros ?].
  - by intros [|r l].
Qed.

Lemma keeps_nodes_addSuccessor a b : keeps_nodes (addSuccessor a b).
Proof.
  unfold addSuccessor. apply keeps_nodes_bind.
  - unfold canConnectTo. apply keeps_nodes_bind; [apply keeps_nodes_get_iface|].
    intros A. apply keeps_nodes_bind; [apply keeps_nodes_get_iface|].
    intros B. by destruct (_ || _).
  - intros ok. destruct (negb ok); [done|].
    apply keeps_nodes_bind; [apply keeps_nodes_upd_iface|].
    intros _. apply keeps_nodes_upd_iface.
Qed.

Lemma keeps_nodes_import_successor fl src s : keeps_nodes (import_successor fl src s).
Proof.
  unfold import_successor. apply keeps_nodes_bind; [apply keeps_nodes_findNode|].
  intros dn. apply keeps_nodes_bind; [apply keeps_nodes_findInterface|].
  intros dest. apply keeps_nodes_bind; [apply keeps_nodes_upd_iface|].
  intros _. apply keeps_nodes_addSuccessor.
Qed.

Lemma keeps_nodes_literal src (X : Interface) (slot : bool) v :
  keeps_nodes (if isInput X && isValue X
               then run! upd_iface src (set_slot slot);
                    if negb slot then upd_iface src (set_value v) else ret tt
               else ret tt).
Proof.
  destruct (isInput X && isValue X); [|done].
  apply keeps_nodes_bind; [apply keeps_nodes_upd_iface|]. intros _.
  destruct (negb slot); [apply keeps_nodes_upd_iface|done].
Qed.

Lemma keeps_nodes_import_interface fl n xi : keeps_nodes (import_interface fl n xi).
Proof.
  unfold import_interface. apply keeps_nodes_bind; [apply keeps_nodes_findInterface|].
  intros src. apply keeps_nodes_bind; [apply keeps_nodes_upd_iface|].
  intros _. apply keeps_nodes_bind; [apply keeps_nodes_get_iface|].
  intros X. apply keeps_nodes_bind; [apply keeps_nodes_literal|].
  intros _. apply keeps_nodes_for_each. intros s. apply keeps_nodes_import_successor.
Qed.

Lemma keeps_nodes_import_links fl X : keeps_nodes (import_links fl X).
Proof.
  unfold import_links. apply keeps_nodes_bind; [apply keeps_nodes_findNode|].
  intros n. apply keeps_nodes_for_each. intros xi. apply keeps_nodes_import_interface.
Qed.

(** A computation a later part of which raises on every heap with these
    nodes does not return. *)
Lemma bind_not_ok {A B} (m : M Heap A) (k : A → M Heap B) h :
  keeps_nodes m →
  (∀ a h', h_nodes h' = h_nodes h → is_ok (fst (k a h')) = false) →
  is_ok (fst (bind m k h)) = false.
Proof.
  intros Hm Hk. unfold bind. specialize (Hm h).
  destruct (m h) as [[a|e] h1]; simpl in *; [|done]. by apply Hk.
Qed.

Lemma for_each_not_ok {A} (body : A → M Heap unit) l x :
  x ∈ l → (∀ y, keeps_nodes (body y)) →
  ∀ h, (∀ h', h_nodes h' = h_nodes h → is_ok (fst (body x h')) = false) →
       is_ok (fst (for_each l body h)) = false.
Proof.
  intros Hx Hkeep. induction l as [|y l IH]; [by apply elem_of_nil in Hx|].
  intros h Hfail. cbn [for_each].
  apply elem_of_cons in Hx as [<-|Hx].
  - unfold bind. specialize (Hfail h eq_refl).
    by destruct (body x h) as [[[]|e] h1].
  - apply bind_not_ok; [done|]. intros [] h' Hh'. apply IH; [done|].
    intros h'' Hh''. apply Hfail. congruence.
Qed.

Lemma findNode_absent fl id h :
  Forall (λ n, is_Some (h_nodes h !! n)) (nodes fl) → id ∉ flow_ids fl h →
  is_ok (fst (findNode fl id h)) = false.
Proof.
  intros Hex Hout. unfold findNode.
  destruct (findNode_loop_spec h id (nodes fl) Hex)
    as [(k & n & Hk & Hid & _)|[_ ->]]; [|done].
  exfalso. apply Hout. apply list_elem_of_fmap. exists n. split; [done|].
  by apply list_elem_of_lookup_2 in Hk.
Qed.

Lemma links_not_ok fl (x : list XNode) X xi s h :
  Forall (λ n, is_Some (h_nodes h !! n)) (nodes fl) →
  X ∈ x → xi ∈ xn_interfaces X → s ∈ xi_successors xi →
  xs_node s ∉ flow_ids fl h →
  is_ok (fst (for_each x (import_links fl) h)) = false.
Proof.
  intros Hex HX Hxi Hs Hout.
  assert (∀ h', h_nodes h' = h_nodes h →
            is_ok (fst (findNode fl (xs_node s) h')) = false) as Hfind.
  { intros h' Hh'. apply findNode_absent.
    - by rewrite Hh'.
    - unfold flow_ids. by rewrite Hh'. }
  apply (for_each_not_ok _ _ X HX); [apply keeps_nodes_import_links|].
  intros h1 Hh1. unfold import_links.
  apply bind_not_ok; [apply keeps_nodes_findNode|]. intros n h2 Hh2.
  apply (for_each_not_ok _ _ xi Hxi); [apply keeps_nodes_import_interface|].
  intros h3 Hh3. unfold import_interface.
  apply bind_not_ok; [apply keeps_nodes_findInterface|]. intros src h4 Hh4.
  apply bind_not_ok; [apply keeps_nodes_upd_iface|]. intros _ h5 Hh5.
  apply bind_not_ok; [apply keeps_nodes_get_iface|]. intros S h6 Hh6.
  apply bind_not_ok; [apply keeps_nodes_literal|]. intros _ h7 Hh7.
  apply (for_each_not_ok _ _ s Hs); [apply keeps_nodes_import_successor|].
  intros h8 Hh8. unfold import_successor, bind.
  specialize (Hfind h8 ltac:(congruence)).
  by destruct (findNode fl (xs_node s) h8) as [[dn|e] h9].
Qed.

Section Dangling.

Variable atoi : string → pyval.

Variable reread : list XNode → option (list XNode).
Variable writable : string → bool.

(** X23: a flow on a well-formed object graph, all ids given, in which an
    interface of a node has a successor on a node whose id no node of the
    flow bears (as after [removeNode], which leaves the connections of the
    node in place); every attribute that [exportXml] writes for the flow is
    a plain text, which the parser reads back as written, and the file can
    be opened for writing.  Then [save] returns, and [load] of the file it
    wrote raises. *)
Theorem dangling_link_breaks_load (fs : gmap string (option (list XNode)))
    (fname : string) (f : Flow) (h : Heap) (n x y : nat) (N : Node)
    (X Y : Interface) :
  wf_graph f h →
  Forall (λ m, holds (λ M, n_id M ≠ "") (h_nodes h !! m)) (nodes f) →
  plain_doc (document f h) → reads_plain reread → writable fname = true →
  n ∈ nodes f → h_nodes h !! n = Some N → x ∈ n_interfaces N →
  h_ifaces h !! x = Some X → y ∈ i_successors X → h_ifaces h !! y = Some Y →
  from_option n_id "" (h_nodes h !! i_node Y) ∉ flow_ids f h →
  ∃ fs' e h',
    Flow_save reread writable fs (Some fname) (f, h)
      = (Ok fs', (set_modified false f, h)) ∧
    Flow_load atoi fs' fname h = (Raise e, h').
Proof.
  intros Hwf Hids Hplain Hread Hopen Hn HN Hx HX Hy HY Hout.
  exists (<[fname := Some (document f h)]> fs).
  assert (Flow_save reread writable fs (Some fname) (f, h)
          = (Ok (<[fname := Some (document f h)]> fs), (set_modified false f, h)))
    as Hsave.
  { unfold Flow_save.
    rewrite (bind_ok _ _ _ (f, h) (f, h)) by done. simpl fst.
    rewrite (bind_ok _ _ _ _ _ (lift_h_ok _ f _ _ _ (exportXml_ok f h Hwf))).
    by rewrite Hopen, (Hread _ Hplain). }
  assert (∃ e h', importXml atoi (document f h) h = (Raise e, h')) as (e & h' & Hload).
  { unfold importXml.
    destruct (import_nodes_ok atoi (document f h) [] new_Flow h)
      as (fl & h2 & Hrun & Hb & _); [constructor|constructor| |].
    { unfold document. apply Forall_forall. intros D HD.
      apply list_elem_of_fmap in HD as (m & -> & Hm).
      rewrite Forall_forall in Hids. specialize (Hids m Hm).
      apply holds_Some in Hids as (M & -> & Hblank). simpl.
      split; [done|]. rewrite class_of_classname. by eexists. }
    rewrite Hrun. simpl in Hb.
    assert (Forall (λ m, is_Some (h_nodes h2 !! m)) (nodes fl)) as Hex.
    { eapply Forall2_Forall_l'; [exact Hb|].
      intros m D ((M & c & HM & _) & _). by eexists. }
    assert (flow_ids fl h2 = flow_ids f h) as Hsame.
    { unfold flow_ids at 2. rewrite <- (document_ids f h). unfold flow_ids.
      clear -Hb. induction Hb as [|m D ms Ds ((M & c & HM & Hid & _) & _) _ IH]; [done|].
      cbn [map]. rewrite fmap_cons, HM. simpl. rewrite Hid. f_equal. exact IH. }
    pose proof (links_not_ok fl (document f h) (node_record h N) (interface_record h X)
                  (successor_record h y) h2 Hex) as Hfail.
    destruct (for_each (document f h) (import_links fl) h2) as [[[]|e] h3]; [|by eexists _, _].
    exfalso. simpl in Hfail. discriminate Hfail.
    - unfold document. apply list_elem_of_fmap. exists n. by rewrite HN.
    - unfold node_record. cbn [xn_interfaces]. apply list_elem_of_fmap.
      exists x. by rewrite HX.
    - unfold interface_record. cbn [xi_successors]. apply list_elem_of_fmap.
      by exists y.
    - rewrite Hsame. unfold successor_record. rewrite HY. simpl. exact Hout. }
  exists e, h'. split; [exact Hsave|].
  unfold Flow_load. rewrite lookup_insert_eq. unfold bind. by rewrite Hload.
Qed.

End Dangling.

Lemma dangling_link_breaks_load_witness :
  ∃ fs' e h',
    Flow_save Examples.parsed_back Examples.can_open ∅ (Some "cut.xml")
      (Examples.flow_cut, Examples.file_copy)
      = (Ok fs', (set_modified false Examples.flow_cut, Examples.file_copy)) ∧
    Flow_load Examples.as_text fs' "cut.xml" Examples.file_copy = (Raise e, h').
Proof.
  eapply (dangling_link_breaks_load Examples.as_text Examples.parsed_back
            Examples.can_open ∅ "cut.xml" Examples.flow_cut Examples.file_copy 0 2 5).
  - apply (bool_decide_unpack _). vm_compute. reflexivity.
  - apply (bool_decide_unpack _). vm_compute. reflexivity.
  - apply (bool_decide_unpack _). vm_compute. reflexivity.
  - exact parsed_back_plain.
  - reflexivity.
  - apply (bool_decide_unpack _). vm_compute. reflexivity.
  - vm_compute. reflexivity.
  - apply (bool_decide_unpack _). vm_compute. reflexivity.
  - vm_compute. reflexivity.
  - apply (bool_decide_unpack _). vm_compute. reflexivity.
  - vm_compute. reflexivity.
  - apply (bool_decide_unpack _). vm_compute. reflexivity.
Defined.

(** ** Deliveries *)

(** X24: [load] tests that the other interface is among the successors or
    among the predecessors.  When it is in neither list, [load] raises and
    changes nothing, and [onContentReady] raises before it records anything:
    no interface and no node has changed.  When it is in either list, a
    value interface takes the value of the other one, in whichever direction
    the two are connected. *)
Theorem load_needs_connection (h : Heap) (t i : nat) (T : Interface) :
  h_ifaces h !! t = Some T →
  ((i ∉ i_successors T) → (i ∉ i_predecessors T) →
   load t i h
   = (Raise (Exception "Should not load interface that is not connected."), h) ∧
   ∃ h', onContentReady t i h
         = (Raise (Exception "Should not load interface that is not connected."), h') ∧
         h_ifaces h' = h_ifaces h ∧ h_nodes h' = h_nodes h) ∧
  (∀ I, i ∈ i_successors T ∨ i ∈ i_predecessors T →
        i_class T = CInterfaceValue → h_ifaces h !! i = Some I →
        load t i h
        = (Ok tt, mkHeap (<[t := set_value (i_value I) T]> (h_ifaces h))
                    (h_nodes h) (h_next h) (h_log h))).
Proof.
  intros HT. split.
  - intros Hs Hp.
    assert (load t i h
            = (Raise (Exception "Should not load interface that is not connected."), h))
      as Hload.
    { unfold load. rewrite (bind_ok _ _ _ _ _ (get_iface_ok _ _ _ HT)).
      by rewrite !bool_decide_eq_false_2 by done. }
    split; [exact Hload|]. eexists. split.
    + unfold onContentReady.
      rewrite (bind_ok _ _ _ tt (mkHeap (h_ifaces h) (h_nodes h) (h_next h)
                                   (h_log h ++ [EvDeliver i t]))) by done.
      apply bind_raise. unfold load.
      rewrite (bind_ok _ _ _ T _) by (by apply get_iface_ok).
      by rewrite !bool_decide_eq_false_2 by done.
    + done.
  - intros I Hconn Hclass HI. unfold load.
    rewrite (bind_ok _ _ _ _ _ (get_iface_ok _ _ _ HT)).
    assert (negb (bool_decide (i ∈ i_successors T))
            && negb (bool_decide (i ∈ i_predecessors T)) = false) as ->.
    { destruct Hconn as [Hin|Hin].
      - by rewrite (bool_decide_eq_true_2 _ Hin).
      - rewrite (bool_decide_eq_true_2 (i ∈ i_predecessors T) Hin).
        apply andb_false_r. }
    rewrite Hclass. rewrite (bind_ok _ _ _ _ _ (get_iface_ok _ _ _ HI)).
    by rewrite (upd_iface_ok h t _ T HT).
Qed.

Lemma load_needs_connection_witness :
  ∃ T, h_ifaces Examples.value_and_process !! 7 = Some T ∧
  (((2 ∉ i_successors T) → (2 ∉ i_predecessors T) →
    load 7 2 Examples.value_and_process
    = (Raise (Exception "Should not load interface that is not connected."),
       Examples.value_and_process) ∧
    ∃ h', onContentReady 7 2 Examples.value_and_process
          = (Raise (Exception "Should not load interface that is not connected."), h') ∧
          h_ifaces h' = h_ifaces Examples.value_and_process ∧
          h_nodes h' = h_nodes Examples.value_and_process) ∧
   (∀ I, 2 ∈ i_successors T ∨ 2 ∈ i_predecessors T →
         i_class T = CInterfaceValue →
         h_ifaces Examples.value_and_process !! 2 = Some I →
         load 7 2 Examples.value_and_process
         = (Ok tt, mkHeap (<[7 := set_value (i_value I) T]>
                             (h_ifaces Examples.value_and_process))
                     (h_nodes Examples.value_and_process)
                     (h_next Examples.value_and_process)
                     (h_log Examples.value_and_process)))).
Proof.
  eexists. split; [vm_compute; reflexivity|].
  apply (load_needs_connection Examples.value_and_process 7 2).
  vm_compute. reflexivity.
Defined.

(** X25: a delivery from a predecessor on a well-formed object graph
    returns.  The target has taken the value, or the file, of the source and
    recorded the source as ready; its links, its slot flag and every other
    interface are as they were; no node other than the node of the target
    has changed, and of that node only what it recorded as ready and its
    event, which a delivery never clears. *)
Theorem delivery_effect (f : Flow) (h : Heap) (t i : nat) (T I : Interface) :
  wf_graph f h → streams_ok h →
  h_ifaces h !! t = Some T → h_ifaces h !! i = Some I → i ∈ i_predecessors T →
  ∃ h' T',
    onContentReady t i h = (Ok tt, h') ∧ h_ifaces h' !! t = Some T' ∧
    (i_class T = CInterfaceValue → i_value T' = i_value I) ∧
    (i_class T = CInterfaceStream → i_stream T' = i_stream I) ∧
    i ∈ i_readypredecessors T' ∧ iface_shape T' = iface_shape T ∧
    (∀ r, r ≠ t → h_ifaces h' !! r = h_ifaces h !! r) ∧
    (∀ n, n ≠ i_node T → h_nodes h' !! n = h_nodes h !! n) ∧
    holds (λ N, holds (λ N', node_shape N' = node_shape N ∧
                             n_running N' = n_running N ∧
                             (n_canRun N = true → n_canRun N' = true))
                  (h_nodes h' !! i_node T))
      (h_nodes h !! i_node T).
Proof.
  intros Hwf Hok HT HI Hin.
  destruct (owner_exists _ _ _ _ Hwf HT) as (N & HN & _).
  assert (i_class T = CInterfaceStream → is_Some (i_stream I)) as Hst.
  { by apply (stream_of_predecessor f h t i T I). }
  exists (delivered h t i T I N), (received T I i).
  split; [by apply (onContentReady_ok f)|].
  assert (h_ifaces (delivered h t i T I N) = <[t := received T I i]> (h_ifaces h)) as Hifs.
  { unfold delivered. by destruct (all_received _). }
  rewrite Hifs. split; [apply lookup_insert_eq|].
  split. { intros Hc. unfold received, loaded. rewrite Hc. done. }
  split. { intros Hc. unfold received, loaded. rewrite Hc. done. }
  split. { unfold received. simpl. apply elem_of_union. left. by apply elem_of_singleton. }
  split. { unfold received, loaded. by destruct (i_class T). }
  split. { intros r Hr. by rewrite lookup_insert_ne. }
  rewrite delivered_nodes. split.
  - intros n Hn. destruct (all_received _); [|done]. by rewrite lookup_insert_ne.
  - rewrite HN. simpl. destruct (all_received _).
    + rewrite lookup_insert_eq. simpl. unfold notified.
      case_bool_decide; simpl; done.
    + rewrite HN. simpl. done.
Qed.

Lemma delivery_effect_witness :
  ∃ T I,
    h_ifaces Examples.file_copy !! 5 = Some T ∧
    h_ifaces Examples.file_copy !! 2 = Some I ∧
    ∃ h' T',
      onContentReady 5 2 Examples.file_copy = (Ok tt, h') ∧
      h_ifaces h' !! 5 = Some T' ∧
      (i_class T = CInterfaceValue → i_value T' = i_value I) ∧
      (i_class T = CInterfaceStream → i_stream T' = i_stream I) ∧
      2 ∈ i_readypredecessors T' ∧ iface_shape T' = iface_shape T ∧
      (∀ r, r ≠ 5 → h_ifaces h' !! r = h_ifaces Examples.file_copy !! r) ∧
      (∀ n, n ≠ i_node T → h_nodes h' !! n = h_nodes Examples.file_copy !! n) ∧
      holds (λ N, holds (λ N', node_shape N' = node_shape N ∧
                               n_running N' = n_running N ∧
                               (n_canRun N = true → n_canRun N' = true))
                    (h_nodes h' !! i_node T))
        (h_nodes Examples.file_copy !! i_node T).
Proof.
  do 2 eexists. split; [vm_compute; reflexivity|]. split; [vm_compute; reflexivity|].
  apply (delivery_effect Examples.flow_copy Examples.file_copy 5 2).
  - apply (bool_decide_unpack _). vm_compute. reflexivity.
  - apply (bool_decide_unpack _). vm_compute. reflexivity.
  - vm_compute. reflexivity.
  - vm_compute. reflexivity.
  - apply (bool_decide_unpack _). vm_compute. reflexivity.
Defined.

(** ** Files *)

Section Files.

Variable atoi : string → pyval.

(** X26: [Flow.load] of a name that is no file raises [IOError] and
    changes nothing, and so it raises when the text of the file does not
    parse.  Of a file that holds a document in which the ids are given and
    differ from each other, each node has a class of the module and the
    interfaces of that class, and each successor names an interface of the
    same payload class on another node, it returns a flow that bears the
    name of the file and is not marked as modified, with one node for each
    node of the document, in order, of the id and the class written there,
    each of its interfaces with the successors and the literal that the
    document gives. *)
Theorem load_reads_document (fs : gmap string (option (list XNode))) (fname : string)
    (h : Heap) :
  (fs !! fname = None → Flow_load atoi fs fname h = (Raise IOError, h)) ∧
  (fs !! fname = Some None → Flow_load atoi fs fname h = (Raise ExpatError, h)) ∧
  (∀ x, fs !! fname = Some (Some x) → doc_ok x →
     ∃ fl h', Flow_load atoi fs fname h = (Ok fl, h') ∧
       filename fl = Some fname ∧ modified fl = false ∧
       Forall2 (λ n X, ∃ N,
            h_nodes h' !! n = Some N ∧ made_from h' n X ∧
            Forall2 (imported_iface h') (n_interfaces N) (xn_interfaces X))
         (nodes fl) x).
Proof.
  split; [|split].
  - intros Hnone. unfold Flow_load. by rewrite Hnone.
  - intros Hbad. unfold Flow_load. by rewrite Hbad.
  - intros x Hx Hok. destruct (importXml_ok atoi x h Hok) as (fl & h' & Hrun & Hall).
    exists (set_modified false (set_filename (Some fname) fl)), h'.
    split; [|split; [done|split; [done|exact Hall]]].
    unfold Flow_load. rewrite Hx. by rewrite (bind_ok _ _ _ _ _ Hrun).
Qed.

End Files.

Lemma load_reads_document_witness :
  doc_ok (document Examples.flow_copy Examples.file_copy) ∧
  ∃ fl h',
    Flow_load Examples.as_text
      {[ "copy.xml" := Some (document Examples.flow_copy Examples.file_copy) ]}
      "copy.xml" empty_heap = (Ok fl, h') ∧
    filename fl = Some "copy.xml" ∧ modified fl = false ∧
    Forall2 (λ n X, ∃ N,
         h_nodes h' !! n = Some N ∧ made_from h' n X ∧
         Forall2 (imported_iface h') (n_interfaces N) (xn_interfaces X))
      (nodes fl) (document Examples.flow_copy Examples.file_copy).
Proof.
  assert (doc_ok (document Examples.flow_copy Examples.file_copy)) as Hok.
  { apply document_ok; apply (bool_decide_unpack _); vm_compute; reflexivity. }
  split; [exact Hok|].
  destruct (load_reads_document Examples.as_text
              {[ "copy.xml" := Some (document Examples.flow_copy Examples.file_copy) ]}
              "copy.xml" empty_heap) as (_ & _ & Hload).
  apply Hload; [apply lookup_singleton_eq|exact Hok].
Defined.



Lemma filter_pairs_class (m : gmap nat Node) (c : nclass) l :
  map fst (filter (λ rn : nat * Node, n_class (snd rn) = c)
             (omap (λ r, pair r <$> m !! r) l))
  = filter (λ x, holds (λ N, n_class N = c) (m !! x)) l.
Proof.
  induction l as [|x l IH]; [done|].
  rewrite filter_cons.
  change (omap (λ r, pair r <$> m !! r) (x :: l)) with
    (match pair x <$> m !! x with
     | Some y => y :: omap (λ r, pair r <$> m !! r) l
     | None => omap (λ r, pair r <$> m !! r) l
     end).
  destruct (m !! x) as [X|] eqn:HX; simpl.
  - rewrite filter_cons. simpl.
    destruct (decide (n_class X = c)); simpl; by rewrite IH.
  - exact IH.
Qed.

Lemma sublist_filter_impl {A} (P Q : A → Prop)
    `{!∀ x, Decision (P x)} `{!∀ x, Decision (Q x)} (l : list A) :
  (∀ x, P x → Q x) → sublist (filter P l) (filter Q l).
Proof.
  intros HPQ. induction l as [|x l IH]; [constructor|].
  rewrite !filter_cons.
  destruct (decide (P x)) as [HP|HP].
  - rewrite decide_True by auto. by constructor.
  - destruct (decide (Q x)); [by apply sublist_cons|done].
Qed.

(** X28: on a flow whose nodes exist, [inputNodes] returns the nodes of
    the flow whose class derives from [InputNode], and [CLIParameterNodes]
    those of class [CommandLineParameterInputNode]: each in the order of the
    flow and as often as the flow lists it.  The second list is a sub-list
    of the first.  Neither call changes anything. *)
Theorem input_nodes_listed (f : Flow) (h : Heap) :
  Forall (λ n, is_Some (h_nodes h !! n)) (nodes f) →
  inputNodes f h
  = (Ok (filter (λ n, holds (λ N, is_InputNode (n_class N) = true) (h_nodes h !! n))
           (nodes f)), h) ∧
  CLIParameterNodes f h
  = (Ok (filter (λ n, holds (λ N, n_class N = CCommandLineParameterInputNode)
                        (h_nodes h !! n)) (nodes f)), h) ∧
  sublist
    (filter (λ n, holds (λ N, n_class N = CCommandLineParameterInputNode)
                    (h_nodes h !! n)) (nodes f))
    (filter (λ n, holds (λ N, is_InputNode (n_class N) = true) (h_nodes h !! n))
       (nodes f)).
Proof.
  intros Hex. split; [|split].
  - unfold inputNodes.
    rewrite (bind_ok _ _ _ _ _ (map_M_pairs_nodes _ _ Hex)). unfold ret.
    by rewrite (filter_pairs (h_nodes h) (λ N, is_InputNode (n_class N))).
  - unfold CLIParameterNodes.
    rewrite (bind_ok _ _ _ _ _ (map_M_pairs_nodes _ _ Hex)). unfold ret.
    by rewrite filter_pairs_class.
  - apply sublist_filter_impl.
    intros n Hn. destruct (h_nodes h !! n) as [N|]; [|done].
    simpl in *. by rewrite Hn.
Qed.

Lemma input_nodes_listed_witness :
  inputNodes Examples.flow_copy Examples.file_copy
  = (Ok (filter (λ n, holds (λ N, is_InputNode (n_class N) = true)
                        (h_nodes Examples.file_copy !! n))
           (nodes Examples.flow_copy)), Examples.file_copy) ∧
  CLIParameterNodes Examples.flow_copy Examples.file_copy
  = (Ok (filter (λ n, holds (λ N, n_class N = CCommandLineParameterInputNode)
                        (h_nodes Examples.file_copy !! n))
           (nodes Examples.flow_copy)), Examples.file_copy) ∧
  sublist
    (filter (λ n, holds (λ N, n_class N = CCommandLineParameterInputNode)
                    (h_nodes Examples.file_copy !! n)) (nodes Examples.flow_copy))
    (filter (λ n, holds (λ N, is_InputNode (n_class N) = true)
                    (h_nodes Examples.file_copy !! n)) (nodes Examples.flow_copy)).
Proof.
  apply (input_nodes_listed Examples.flow_copy Examples.file_copy).
  apply (bool_decide_unpack _). vm_compute. reflexivity.
Defined.

(** ** A value on its way through a running flow *)

Lemma write_values_cons r w ws h :
  write_values ((r, w) :: ws) h
  = write_values ws (mkHeap (alter (set_value w) r (h_ifaces h))
                       (h_nodes h) (h_next h) (h_log h)).
Proof. done. Qed.

Lemma write_values_other ws h r :
  r ∉ (fst <$> ws) → h_ifaces (write_values ws h) !! r = h_ifaces h !! r.
Proof.
  revert h. induction ws as [|[r0 w0] ws IH]; intros h Hr; [done|].
  rewrite write_values_cons, IH.
  - simpl. apply lookup_alter_ne. intros ->. apply Hr. rewrite fmap_cons. by left.
  - intros Hin. apply Hr. rewrite fmap_cons. by right.
Qed.

Lemma delivered_ifaces h t i T I N :
  h_ifaces (delivered h t i T I N) = <[t := received T I i]> (h_ifaces h).
Proof. unfold delivered. by destruct (all_received _). Qed.

(** [ValueInputNode.run] *)
Lemma value_run env h n N v a :
  h_nodes h !! n = Some N → n_class N = CValueInputNode → n_interfaces N = [v; a] →
  holds (λ V, i_name V = "value") (h_ifaces h !! v) →
  holds (λ A, i_name A = "out") (h_ifaces h !! a) →
  module_run env n h
  = mkOutcome [(a, from_option i_value PNone (h_ifaces h !! v))] None.
Proof.
  intros HN Hc Hi HV HA. unfold module_run. rewrite HN, Hc.
  apply holds_Some in HV as (V & HV & HnV).
  apply holds_Some in HA as (A & HA & HnA).
  assert (holds_name h "value" v) as H1 by (unfold holds_name; by rewrite HV, <- HnV).
  assert (¬ holds_name h "value" a) as H2.
  { unfold holds_name. rewrite HA. simpl. rewrite HnA. by intros [=]. }
  assert (¬ holds_name h "out" v) as H3.
  { unfold holds_name. rewrite HV. simpl. rewrite HnV. by intros [=]. }
  assert (holds_name h "out" a) as H4 by (unfold holds_name; by rewrite HA, <- HnA).
  unfold value_of, iface_of. rewrite Hi.
  rewrite !filter_cons, !filter_nil.
  rewrite (decide_True _ _ H1), ?(decide_False _ _ H2), (decide_False _ _ H3),
    (decide_True _ _ H4).
  done.
Qed.

(** What [run()] of the classes of the module assigns. *)
Lemma module_run_assigns env n h x w :
  (x, w) ∈ o_writes (module_run env n h) →
  ∃ N name, h_nodes h !! n = Some N ∧ assigned_name (n_class N) = Some name ∧
            x ∈ n_interfaces N ∧ holds_name h name x.
Proof.
  unfold module_run. destruct (h_nodes h !! n) as [N|] eqn:HN; simpl;
    [|by intros ?%elem_of_nil].
  intros Hin. exists N.
  assert (∀ name val,
            (x, w) ∈ map (λ r, (r, val)) (iface_of h N name) →
            x ∈ n_interfaces N ∧ holds_name h name x) as Hmap.
  { intros name val H. apply list_elem_of_fmap in H as (y & [= <- _] & Hy).
    unfold iface_of in Hy. apply list_elem_of_filter in Hy as [? ?]. done. }
  destruct (n_class N); simpl in *;
    repeat match type of Hin with
           | context [if ?c then _ else _] => destruct c; simpl in Hin
           | context [match ?c with _ => _ end] => destruct c; simpl in Hin
           end;
    try (by apply elem_of_nil in Hin);
    apply Hmap in Hin as [? ?]; eauto.
Qed.

Lemma module_run_assigns_own env f h b :
  wf_graph f h →
  holds (λ B, holds (λ N, assigned_name (n_class N) ≠ Some (i_name B))
                (h_nodes h !! i_node B)) (h_ifaces h !! b) →
  assigns_own (module_run env) h b.
Proof.
  intros (_ & W2 & _) Hb n h' x w Hsh Hin.
  apply module_run_assigns in Hin as (N' & name & HN' & Hname & Hx & Hnm).
  destruct (shape_node _ _ _ _ (same_shape_sym _ _ Hsh) HN') as (N & HN & HNs).
  unfold node_shape in HNs. injection HNs as Hc _ Hi.
  assert (holds (λ X, i_node X = n) (h_ifaces h !! x)) as Hown.
  { pose proof (W2 n N HN) as Hall. simpl in Hall. rewrite Forall_forall in Hall.
    apply Hall. by rewrite Hi. }
  split; [|done]. intros ->.
  apply holds_Some in Hb as (B & HB & HNB).
  apply holds_Some in Hown as (B' & HB' & Hn). simplify_eq.
  rewrite HN in HNB. simpl in HNB. apply HNB. rewrite Hc, Hname. f_equal.
  destruct (shape_iface _ _ _ _ Hsh HB) as (B2 & HB2 & HBs).
  apply iface_shape_inv in HBs as (_ & _ & Hnn & _).
  unfold holds_name in Hnm. rewrite HB2 in Hnm. simpl in Hnm. congruence.
Qed.

Section Values.

Variable run_body : nat → Heap → outcome.
Variable env : nat → pyval.
Variable f : Flow.
Variable h0 : Heap.
Variables n1 v a b : nat.
Variable val : pyval.

Hypothesis Hwf : wf_graph f h0.
Hypothesis Hfeeds : feeds h0 n1 v a b.
Hypothesis Hrun1 : ∀ h', run_body n1 h' = module_run env n1 h'.
Hypothesis Hown : assigns_own run_body h0 b.

Lemma feeds_shape h : same_shape h0 h → feeds h n1 v a b.
Proof.
  intros Hsh. destruct Hfeeds as (HN & HV & HA & HB).
  split; [|split; [|split]].
  - eapply holds_shape_node; [|exact Hsh|exact HN].
    intros X X' [= -> _ ->]. done.
  - eapply holds_shape_iface; [|exact Hsh|exact HV].
    intros X X' (_ & _ & -> & _ & -> & _)%iface_shape_inv. done.
  - eapply holds_shape_iface; [|exact Hsh|exact HA].
    intros X X' (_ & _ & -> & _ & -> & _)%iface_shape_inv. done.
  - eapply holds_shape_iface; [|exact Hsh|exact HB].
    intros X X' (-> & _ & _ & _ & -> & _)%iface_shape_inv. done.
Qed.

Lemma feeds_distinct : a ≠ v ∧ a ≠ b.
Proof.
  destruct Hfeeds as (_ & HV & HA & HB).
  apply holds_Some in HV as (V & HV & HnV & _).
  apply holds_Some in HA as (A & HA & HnA & HpA).
  apply holds_Some in HB as (B & HB & _ & HpB).
  split; intros ->; simplify_eq; congruence.
Qed.

Lemma feeds_owner x : x = v ∨ x = a → holds (λ X, i_node X = n1) (h_ifaces h0 !! x).
Proof.
  intros Hx. destruct Hwf as (_ & W2 & _). destruct Hfeeds as (HN & _).
  apply holds_Some in HN as (N & HN & _ & Hi).
  pose proof (W2 n1 N HN) as Hall. simpl in Hall. rewrite Forall_forall in Hall.
  apply Hall. rewrite Hi. destruct Hx as [->| ->].
  - by left.
  - right. by left.
Qed.

Lemma run1 h :
  same_shape h0 h →
  ∃ V, h_ifaces h !! v = Some V ∧ run_body n1 h = mkOutcome [(a, i_value V)] None.
Proof.
  intros Hsh. destruct (feeds_shape h Hsh) as (HN & HV & HA & _).
  apply holds_Some in HN as (N & HN & Hc & Hi).
  pose proof HV as HV'. apply holds_Some in HV' as (V & HV' & HnV & _).
  exists V. split; [done|]. rewrite Hrun1.
  rewrite (value_run env h n1 N v a HN Hc Hi).
  - by rewrite HV'.
  - rewrite HV'. done.
  - apply holds_Some in HA as (A & -> & ? & _). done.
Qed.

Lemma writes_miss n h x :
  same_shape h0 h → n ≠ n1 → x ∈ fst <$> o_writes (run_body n h) →
  x ≠ v ∧ x ≠ a ∧ x ≠ b.
Proof.
  intros Hsh Hn Hx. apply list_elem_of_fmap in Hx as ([x' w] & -> & Hin). simpl.
  destruct (Hown n h x' w Hsh Hin) as [Hb Ho].
  apply holds_Some in Ho as (X & HX & HnX).
  split; [|split; [|done]]; intros ->.
  - pose proof (feeds_owner v (or_introl eq_refl)) as Hv.
    rewrite HX in Hv. simpl in Hv. congruence.
  - pose proof (feeds_owner a (or_intror eq_refl)) as Ha.
    rewrite HX in Ha. simpl in Ha. congruence.
Qed.

Lemma value_inv_keep h h' :
  h_ifaces h' !! v = h_ifaces h !! v → h_ifaces h' !! a = h_ifaces h !! a →
  h_ifaces h' !! b = h_ifaces h !! b →
  (∀ e, e ∈ h_log h' → e ∈ h_log h ∨ (e ≠ EvEnd n1 ∧ e ≠ EvDeliver a b)) →
  value_inv n1 v a b val h → value_inv n1 v a b val h'.
Proof.
  intros Hv Ha Hb Hlog (H1 & H2 & H3). unfold value_inv, value_at.
  rewrite Hv, Ha, Hb. split; [done|].
  split; intros He; destruct (Hlog _ He) as [Hold|[Hne1 Hne2]].
  - by apply H2.
  - by destruct Hne1.
  - by apply H3.
  - by destruct Hne2.
Qed.

Lemma value_inv_moves r r' :
  threads_inv run_body f r → same_shape h0 (r_heap r) →
  value_inv n1 v a b val (r_heap r) → moves run_body r r' →
  value_inv n1 v a b val (r_heap r').
Proof.
  intros (_ & _ & Hlogged) Hsh Hinv Hmv.
  destruct Hmv; cbn [r_heap r_threads] in *; try exact Hinv.
  - (* the main thread sets an event *)
    apply (value_inv_keep h); try done.
    intros e' [He| ->%list_elem_of_singleton]%elem_of_app; [by left|by right].
  - (* a thread gets past its wait *)
    apply (value_inv_keep h); try done.
    intros e' [He| ->%list_elem_of_singleton]%elem_of_app; [by left|by right].
  - (* [run()] raises *)
    assert (n ≠ n1) as Hn.
    { intros ->. destruct (run1 h Hsh) as (V & _ & Hr).
      rewrite Hr in H0. done. }
    apply (value_inv_keep h); unfold faulted; cbn [h_ifaces h_log].
    + apply write_values_other. intros Hx. by destruct (writes_miss n h v Hsh Hn Hx).
    + apply write_values_other. intros Hx.
      by destruct (writes_miss n h a Hsh Hn Hx) as (_ & ? & _).
    + apply write_values_other. intros Hx.
      by destruct (writes_miss n h b Hsh Hn Hx) as (_ & _ & ?).
    + rewrite write_values_log.
      intros e' [He| ->%list_elem_of_singleton]%elem_of_app; [by left|by right].
    + done.
  - (* [run()] returns *)
    destruct (decide (n = n1)) as [->|Hn].
    + destruct (run1 h Hsh) as (V & HV & Hr). rewrite Hr. cbn [o_writes].
      destruct Hinv as (K1 & K2 & K3).
      assert (i_value V = val) as Hval.
      { unfold value_at in K1. by rewrite HV in K1. }
      destruct feeds_distinct as [Hav Hab].
      destruct (feeds_shape h Hsh) as (_ & _ & HA & _).
      apply holds_Some in HA as (A & HA & _).
      unfold value_inv, value_at, ended. cbn [h_ifaces h_log write_values foldl fst snd].
      rewrite lookup_alter_eq, !lookup_alter_ne by done.
      split; [done|]. split.
      * intros _. rewrite HA. simpl. done.
      * intros [He|He%list_elem_of_singleton]%elem_of_app; [by apply K3|done].
    + apply (value_inv_keep h); unfold ended; cbn [h_ifaces h_log].
      * apply write_values_other. intros Hx. by destruct (writes_miss n h v Hsh Hn Hx).
      * apply write_values_other. intros Hx.
        by destruct (writes_miss n h a Hsh Hn Hx) as (_ & ? & _).
      * apply write_values_other. intros Hx.
        by destruct (writes_miss n h b Hsh Hn Hx) as (_ & _ & ?).
      * intros e' [He| ->%list_elem_of_singleton]%elem_of_app; [by left|].
        right. split; [congruence|done].
      * done.
  - (* a notification *)
    destruct (feeds_shape h Hsh) as (_ & HV & HA & HB).
    apply holds_Some in HV as (V & HV & _ & HpV).
    apply holds_Some in HA as (A & HA & _ & HpA).
    apply holds_Some in HB as (B & HB & HcB & HpB).
    assert (t ≠ v) as Htv.
    { intros ->. simplify_eq. rewrite HpV in H3. by apply elem_of_nil in H3. }
    assert (t ≠ a) as Hta.
    { intros ->. simplify_eq. rewrite HpA in H3. by apply elem_of_nil in H3. }
    destruct (delivered_log h t i T I N) as (es & Hlog & Hes).
    destruct Hinv as (K1 & K2 & K3).
    unfold value_inv, value_at. rewrite delivered_ifaces, Hlog.
    rewrite !(lookup_insert_ne _ t) by done.
    split; [done|]. split.
    + intros [He|He]%elem_of_app; [by apply K2|].
      apply elem_of_cons in He as [He|He]; [done|].
      by destruct (Hes _ He).
    + intros He. destruct (decide (t = b)) as [->|Htb].
      * assert (T = B) as -> by congruence.
        rewrite HpB in H3. apply list_elem_of_singleton in H3 as ->.
        assert (I = A) as -> by congruence.
        rewrite lookup_insert_eq. simpl.
        unfold received, loaded. rewrite HcB. simpl.
        assert (i_node A = n1) as Hn1.
        { pose proof (feeds_owner a (or_intror eq_refl)) as Ho.
          apply holds_Some in Ho as (A0 & HA0 & Hn0).
          destruct (shape_iface _ _ _ _ Hsh HA0) as (A1 & HA1 & HAs).
          apply iface_shape_inv in HAs as (_ & Hnn & _).
          assert (A1 = A) as -> by congruence. congruence. }
        rewrite <- H4, Hn1 in H. specialize (Hlogged _ _ _ H). simpl in Hlogged.
        specialize (K2 Hlogged). unfold value_at in K2. by rewrite HA in K2.
      * rewrite lookup_insert_ne by done. apply K3.
        apply elem_of_app in He as [He|He]; [done|].
        apply elem_of_cons in He as [He|He]; [congruence|].
        by destruct (Hes _ He).
Qed.

End Values.

(** X29: a [ValueInputNode] with parameter [v] and output [a], neither
    with a predecessor, where [a] is the one predecessor of the value
    interface [b]; each [run()] assigns only interfaces of its own node and
    none assigns [b].  Then throughout every execution of [Runner.start]
    from a graph that has not run yet, [v] keeps its value; once [run()] of
    the node has returned, [a] holds that value; and once [a] has delivered
    to [b], [b] holds it. *)
Theorem value_reaches_successor run_body (env : nat → pyval) (f : Flow) (h : Heap)
    (n1 v a b : nat) (val : pyval) (sched : list tid) (r : Runner) :
  wf_graph f h → streams_ok h → fresh h →
  feeds h n1 v a b → value_at h v val →
  (∀ h', run_body n1 h' = module_run env n1 h') →
  assigns_own run_body h b →
  exec run_body sched (Runner_start f h) = Some r →
  value_at (r_heap r) v val ∧
  (EvEnd n1 ∈ h_log (r_heap r) → value_at (r_heap r) a val) ∧
  (EvDeliver a b ∈ h_log (r_heap r) → value_at (r_heap r) b val).
Proof.
  intros Hwf Hok (Hlog & _ & _) Hfeeds Hval Hrun1 Hown Hex.
  pose proof (sound_start f h Hwf Hok) as Hs0.
  destruct (exec_invariant run_body f
              (λ r, threads_inv run_body f r ∧ same_shape h (r_heap r) ∧
                    value_inv n1 v a b val (r_heap r)) sched _ r Hs0)
    as (_ & _ & _ & Hinv); [| |done|exact Hinv].
  - unfold Runner_start. cbn [r_heap]. split; [|split].
    + split; [done|]. split; [|by intros k n w ?].
      intros n. simpl. by rewrite Hlog.
    + apply same_shape_refl.
    + split; [done|]. rewrite Hlog. split; by intros ?%elem_of_nil.
  - intros r1 r2 Hs1 (Hti & Hsh & Hinv) Hmv.
    split; [by eapply threads_inv_moves|]. split.
    + eapply same_shape_trans; [exact Hsh|by eapply moves_shape].
    + by eapply (value_inv_moves run_body env f h n1 v a b val).
Qed.

Lemma value_reaches_successor_witness :
  ∃ r,
    exec (module_run Examples.no_env) Examples.value_schedule
      (Runner_start Examples.flow_values Examples.value_filled) = Some r ∧
    EvDeliver 2 4 ∈ h_log (r_heap r) ∧
    value_at (r_heap r) 1 (PStr "7") ∧
    (EvEnd 0 ∈ h_log (r_heap r) → value_at (r_heap r) 2 (PStr "7")) ∧
    (EvDeliver 2 4 ∈ h_log (r_heap r) → value_at (r_heap r) 4 (PStr "7")).
Proof.
  eexists. split; [vm_compute; reflexivity|].
  split; [apply (bool_decide_unpack _); vm_compute; reflexivity|].
  apply (value_reaches_successor (module_run Examples.no_env) Examples.no_env
           Examples.flow_values Examples.value_filled 0 1 2 4 (PStr "7")
           Examples.value_schedule).
  - apply (bool_decide_unpack _). vm_compute. reflexivity.
  - apply (bool_decide_unpack _). vm_compute. reflexivity.
  - apply (bool_decide_unpack _). vm_compute. reflexivity.
  - apply (bool_decide_unpack _). vm_compute. reflexivity.
  - apply (bool_decide_unpack _). vm_compute. reflexivity.
  - intros h'. reflexivity.
  - apply (module_run_assigns_own Examples.no_env Examples.flow_values).
    + apply (bool_decide_unpack _). vm_compute. reflexivity.
    + apply (bool_decide_unpack _). vm_compute. reflexivity.
  - vm_compute. reflexivity.
Defined.
